(** * session-cookie: signed session cookies for stateless handlers

    A shallow embedding of [src/index.ts] (signing, verification, cookie
    parsing, secret-key access) and [src/util.ts] (timing-safe comparison,
    [Set-Cookie] serialization), together with executable models of the
    Node.js primitives they call: HMAC over SHA-1 / SHA-256 / SHA-512,
    [Buffer] UTF-8 and base64 conversions, URI component coding and JSON.

    JavaScript strings are sequences of UTF-16 code units; a code unit is
    a pair of bytes, so every inhabitant of [jsstring] is a JavaScript
    string and conversely. Buffers are lists of bytes. *)

From Stdlib Require Import ZArith List String Ascii Lia Bool.
From Stdlib.Strings Require Import Byte.
From stdpp Require Import base option list gmap countable.

Local Open Scope Z_scope.

(** ** Bytes *)

Module Bytes.

Definition to_Z (b : byte) : Z := Z.of_N (Byte.to_N b).

Definition of_Z (z : Z) : byte :=
  match Byte.of_N (Z.to_N (z mod 256)) with
  | Some b => b
  | None => x00
  end.

(** [n] bytes of [z], most significant first. *)
Fixpoint be_bytes (n : nat) (z : Z) : list byte :=
  match n with
  | O => []
  | S n' => be_bytes n' (z / 256) ++ [of_Z z]
  end.

Definition be_word (bs : list byte) : Z :=
  fold_left (fun acc b => acc * 256 + to_Z b) bs 0.

Definition xor_byte (k : Z) (b : byte) : byte := of_Z (Z.lxor k (to_Z b)).

(** Consecutive chunks of [n] elements; [fuel] bounds the number of chunks. *)
Fixpoint chunks {A} (fuel : nat) (n : nat) (l : list A) : list (list A) :=
  match fuel with
  | O => []
  | S fuel' =>
      match l with
      | [] => []
      | _ => firstn n l :: chunks fuel' n (skipn n l)
      end
  end.

Definition blocks {A} (n : nat) (l : list A) : list (list A) :=
  chunks (length l) n l.

End Bytes.

Import Bytes.

(** ** [crypto]: SHA-1, SHA-256, SHA-512 and HMAC *)

Module Crypto.

(** Merkle-Damgard padding: a [0x80] byte, zeros, then the bit length
    of the message on [lenbytes] bytes, filling up whole blocks of
    [block] bytes. *)
Definition pad (block lenbytes : nat) (msg : list byte) : list byte :=
  let l := Z.of_nat (length msg) in
  let b := Z.of_nat block in
  let k := (b - (l + 1 + Z.of_nat lenbytes) mod b) mod b in
  msg ++ [x80] ++ repeat x00 (Z.to_nat k) ++ be_bytes lenbytes (8 * l).

Section Words.
Variable w : Z.

Definition wrap (x : Z) : Z := x mod 2 ^ w.
Definition add (x y : Z) : Z := wrap (x + y).
Definition rotl (n x : Z) : Z :=
  Z.lor (wrap (Z.shiftl x n)) (Z.shiftr x (w - n)).
Definition rotr (n x : Z) : Z :=
  Z.lor (Z.shiftr x n) (wrap (Z.shiftl x (w - n))).
Definition not (x : Z) : Z := wrap (Z.lnot x).
Definition Ch (x y z : Z) : Z := Z.lxor (Z.land x y) (Z.land (not x) z).
Definition Maj (x y z : Z) : Z :=
  Z.lxor (Z.lxor (Z.land x y) (Z.land x z)) (Z.land y z).
Definition Parity (x y z : Z) : Z := Z.lxor (Z.lxor x y) z.
End Words.

Definition word_at (W : list Z) (t : nat) : Z := nth t W 0.

(** *** SHA-1 (FIPS 180-4, section 6.1) *)

Definition sha1_schedule (block : list byte) : list Z :=
  let W0 := map be_word (blocks 4 block) in
  fold_left
    (fun W t =>
       W ++ [rotl 32 1
               (Z.lxor (Z.lxor (word_at W (t - 3)) (word_at W (t - 8)))
                  (Z.lxor (word_at W (t - 14)) (word_at W (t - 16))))])
    (seq 16 64) W0.

Definition sha1_f (t : nat) (b c d : Z) : Z :=
  if (t <? 20)%nat then Ch 32 b c d
  else if (t <? 40)%nat then Parity b c d
  else if (t <? 60)%nat then Maj b c d
  else Parity b c d.

Definition sha1_K (t : nat) : Z :=
  if (t <? 20)%nat then 0x5a827999
  else if (t <? 40)%nat then 0x6ed9eba1
  else if (t <? 60)%nat then 0x8f1bbcdc
  else 0xca62c1d6.

Definition sha1_state : Type := Z * Z * Z * Z * Z.

Definition sha1_round (W : list Z) (s : sha1_state) (t : nat) : sha1_state :=
  let '(a, b, c, d, e) := s in
  let T :=
    add 32 (add 32 (add 32 (add 32 (rotl 32 5 a) (sha1_f t b c d)) e)
              (sha1_K t)) (word_at W t) in
  (T, a, rotl 32 30 b, c, d).

Definition sha1_block (H : sha1_state) (block : list byte) : sha1_state :=
  let W := sha1_schedule block in
  let '(a, b, c, d, e) := fold_left (sha1_round W) (seq 0 80) H in
  let '(h0, h1, h2, h3, h4) := H in
  (add 32 h0 a, add 32 h1 b, add 32 h2 c, add 32 h3 d, add 32 h4 e).

Definition sha1_init : sha1_state :=
  (0x67452301, 0xefcdab89, 0x98badcfe, 0x10325476, 0xc3d2e1f0).

Definition sha1 (msg : list byte) : list byte :=
  let '(h0, h1, h2, h3, h4) :=
    fold_left sha1_block (blocks 64 (pad 64 8 msg)) sha1_init in
  be_bytes 4 h0 ++ be_bytes 4 h1 ++ be_bytes 4 h2 ++ be_bytes 4 h3
    ++ be_bytes 4 h4.

(** *** SHA-256 and SHA-512 (FIPS 180-4, sections 6.2 and 6.4) *)

Record sha2_params := {
  p_w : Z;                        (* word size in bits *)
  p_rounds : nat;
  p_block : nat;                  (* block size in bytes *)
  p_lenbytes : nat;               (* size of the length field *)
  p_S0 : Z * Z * Z;               (* rotations of Sigma0 *)
  p_S1 : Z * Z * Z;               (* rotations of Sigma1 *)
  p_s0 : Z * Z * Z;               (* rotr, rotr, shr of sigma0 *)
  p_s1 : Z * Z * Z;               (* rotr, rotr, shr of sigma1 *)
  p_K : list Z;
  p_H : list Z
}.

Section SHA2.
Variable p : sha2_params.

Let w := p_w p.

Definition big_sigma (r : Z * Z * Z) (x : Z) : Z :=
  let '(r1, r2, r3) := r in
  Z.lxor (Z.lxor (rotr w r1 x) (rotr w r2 x)) (rotr w r3 x).

Definition small_sigma (r : Z * Z * Z) (x : Z) : Z :=
  let '(r1, r2, r3) := r in
  Z.lxor (Z.lxor (rotr w r1 x) (rotr w r2 x)) (Z.shiftr x r3).

Definition sha2_schedule (block : list byte) : list Z :=
  let W0 := map be_word (blocks (Z.to_nat (w / 8)) block) in
  fold_left
    (fun W t =>
       W ++ [add w (add w (add w (small_sigma (p_s1 p) (word_at W (t - 2)))
                             (word_at W (t - 7)))
                      (small_sigma (p_s0 p) (word_at W (t - 15))))
               (word_at W (t - 16))])
    (seq 16 (p_rounds p - 16)) W0.

Definition sha2_round (W : list Z) (s : list Z) (t : nat) : list Z :=
  match s with
  | [a; b; c; d; e; f; g; h] =>
      let T1 :=
        add w (add w (add w (add w h (big_sigma (p_S1 p) e)) (Ch w e f g))
                 (word_at (p_K p) t)) (word_at W t) in
      let T2 := add w (big_sigma (p_S0 p) a) (Maj a b c) in
      [add w T1 T2; a; b; c; add w d T1; e; f; g]
  | _ => s
  end.

Definition sha2_block (H : list Z) (block : list byte) : list Z :=
  let W := sha2_schedule block in
  let s := fold_left (sha2_round W) (seq 0 (p_rounds p)) H in
  map (fun hs => add w (fst hs) (snd hs)) (combine H s).

Definition sha2_state (msg : list byte) : list Z :=
  fold_left sha2_block
    (blocks (p_block p) (pad (p_block p) (p_lenbytes p) msg)) (p_H p).
End SHA2.

(** The constants of SHA-2 are read off the first primes: the round
    constants are the leading fractional bits of their cube roots, the
    initial state those of their square roots. *)

Fixpoint primes_from (fuel : nat) (c : Z) (found : list Z) (n : nat) : list Z :=
  match fuel with
  | O => found
  | S fuel' =>
      if (length found =? n)%nat then found
      else if forallb (fun q => negb (c mod q =? 0)) found
      then primes_from fuel' (c + 1) (found ++ [c]) n
      else primes_from fuel' (c + 1) found n
  end.

Definition primes (n : nat) : list Z := primes_from 500 2 [] n.

(** The largest [r] between [lo] and [hi] with [r ^ k <= n]. *)
Fixpoint root_between (fuel : nat) (k n lo hi : Z) : Z :=
  match fuel with
  | O => lo
  | S fuel' =>
      if hi - lo <=? 1 then lo
      else
        let m := (lo + hi) / 2 in
        if m ^ k <=? n then root_between fuel' k n m hi
        else root_between fuel' k n lo m
  end.

Definition root (k n : Z) : Z :=
  root_between (Z.to_nat (Z.log2 n) + 2) k n 0 (2 ^ (Z.log2 n / k + 1)).

(** The first [bits] fractional bits of the [k]-th root of [q]. *)
Definition root_bits (k bits q : Z) : Z :=
  root k (q * 2 ^ (k * bits)) mod 2 ^ bits.

Definition sha256_K : list Z := Eval vm_compute in map (root_bits 3 32) (primes 64).
Definition sha256_H : list Z := Eval vm_compute in map (root_bits 2 32) (primes 8).
Definition sha512_K : list Z := Eval vm_compute in map (root_bits 3 64) (primes 80).
Definition sha512_H : list Z := Eval vm_compute in map (root_bits 2 64) (primes 8).

Definition sha256_params : sha2_params := {|
  p_w := 32; p_rounds := 64; p_block := 64; p_lenbytes := 8;
  p_S0 := (2, 13, 22); p_S1 := (6, 11, 25);
  p_s0 := (7, 18, 3); p_s1 := (17, 19, 10);
  p_K := sha256_K; p_H := sha256_H
|}.

Definition sha512_params : sha2_params := {|
  p_w := 64; p_rounds := 80; p_block := 128; p_lenbytes := 16;
  p_S0 := (28, 34, 39); p_S1 := (14, 18, 41);
  p_s0 := (1, 8, 7); p_s1 := (19, 61, 6);
  p_K := sha512_K; p_H := sha512_H
|}.

(** The digest is the eight state words, each truncated or padded to
    its eight slots so that the output length does not depend on the
    run. *)
Definition sha2 (p : sha2_params) (msg : list byte) : list byte :=
  let H := sha2_state p msg in
  flat_map (fun i => be_bytes (Z.to_nat (p_w p / 8)) (word_at H i)) (seq 0 8).

Definition sha256 : list byte -> list byte := sha2 sha256_params.
Definition sha512 : list byte -> list byte := sha2 sha512_params.

(** *** The algorithms [createHmac] is called with *)

Inductive algorithm := sha1_alg | sha256_alg | sha512_alg.

Definition hash (a : algorithm) : list byte -> list byte :=
  match a with
  | sha1_alg => sha1
  | sha256_alg => sha256
  | sha512_alg => sha512
  end.

Definition block_size (a : algorithm) : nat :=
  match a with
  | sha1_alg | sha256_alg => 64
  | sha512_alg => 128
  end.

Definition digest_size (a : algorithm) : nat :=
  match a with
  | sha1_alg => 20
  | sha256_alg => 32
  | sha512_alg => 64
  end.

(** HMAC (RFC 2104): [createHmac(a, key).update(data).digest()]. *)
Definition hmac (a : algorithm) (key data : list byte) : list byte :=
  let B := block_size a in
  let k0 := if (B <? length key)%nat then hash a key else key in
  let k := k0 ++ repeat x00 (B - length k0) in
  hash a (map (xor_byte 0x5c) k ++ hash a (map (xor_byte 0x36) k ++ data)).

End Crypto.


(** ** JavaScript strings *)

Module JS.

(** A UTF-16 code unit: high byte, low byte. *)
Definition u16 : Type := byte * byte.

Abbreviation jsstring := (list u16).

Definition code (c : u16) : Z := 256 * to_Z (fst c) + to_Z (snd c).
Definition unit (z : Z) : u16 := (of_Z (z / 256), of_Z z).

(** The string whose code units are the bytes of an ASCII literal. *)
Definition js (s : string) : jsstring :=
  map (fun b => (x00, b)) (list_byte_of_string s).

Definition ch (a : ascii) : u16 := (x00, byte_of_ascii a).

(** The quotation mark, U+0022. *)
Definition dquote : u16 := (x00, x22).

(** An ASCII literal in which every apostrophe stands for a quotation
    mark, to write JSON texts and messages. *)
Definition jq (s : string) : jsstring :=
  map (fun b => (x00, if Byte.eqb b x27 then x22 else b)) (list_byte_of_string s).

#[export] Instance byte_eq_dec : EqDecision byte := Byte.byte_eq_dec.
#[export] Instance byte_countable : Countable byte :=
  inj_countable Byte.to_N Byte.of_N Byte.of_to_N.
#[export] Instance u16_eq_dec : EqDecision u16 := prod_eq_dec.
#[export] Instance u16_countable : Countable u16 := prod_countable.

(** [a === b] on two strings. *)
Definition str_eqb (a b : jsstring) : bool := bool_decide (a = b).

(** [s.substring(0, n)] and [s.substring(n)], for [n >= 0]. *)
Definition substring_to (n : nat) (s : jsstring) : jsstring := firstn n s.
Definition substring_from (n : nat) (s : jsstring) : jsstring := skipn n s.

(** [s.split(sep)] for a one-character separator. *)
Fixpoint split (sep : u16) (s : jsstring) : list jsstring :=
  match s with
  | [] => [[]]
  | c :: s' =>
      if bool_decide (c = sep) then [] :: split sep s'
      else match split sep s' with
           | p :: ps => (c :: p) :: ps
           | [] => [[c]]
           end
  end.

(** [s.indexOf(c) !== -1]. *)
Definition includes (c : u16) (s : jsstring) : bool :=
  existsb (fun d => bool_decide (d = c)) s.

(** WhiteSpace and LineTerminator code units, as stripped by [trim]. *)
Definition is_space (c : u16) : bool :=
  let z := code c in
  ((9 <=? z) && (z <=? 13)) || (z =? 0x20) || (z =? 0xa0) || (z =? 0x1680)
  || ((0x2000 <=? z) && (z <=? 0x200a)) || (z =? 0x2028) || (z =? 0x2029)
  || (z =? 0x202f) || (z =? 0x205f) || (z =? 0x3000) || (z =? 0xfeff).

Fixpoint trim_start (s : jsstring) : jsstring :=
  match s with
  | c :: s' => if is_space c then trim_start s' else s
  | [] => []
  end.

Definition trim (s : jsstring) : jsstring :=
  rev (trim_start (rev (trim_start s))).

(** ASCII part of [toLowerCase]. *)
Definition lower_unit (c : u16) : u16 :=
  let z := code c in
  if (0x41 <=? z) && (z <=? 0x5a) then unit (z + 32) else c.

Definition is_ascii (s : jsstring) : bool :=
  forallb (fun c => code c <? 0x80) s.

Definition within (lo hi z : Z) : bool := (lo <=? z) && (z <=? hi).

(** The value of a hexadecimal digit. *)
Definition hex_value (c : u16) : option Z :=
  let z := code c in
  if (0x30 <=? z) && (z <=? 0x39) then Some (z - 0x30)
  else if (0x41 <=? z) && (z <=? 0x46) then Some (z - 0x41 + 10)
  else if (0x61 <=? z) && (z <=? 0x66) then Some (z - 0x61 + 10)
  else None.

(** *** Surrogates and well-formed strings *)

Definition is_high (z : Z) : bool := (0xd800 <=? z) && (z <=? 0xdbff).
Definition is_low (z : Z) : bool := (0xdc00 <=? z) && (z <=? 0xdfff).

(** No lone surrogate: every high surrogate is followed by a low one
    and every low surrogate follows a high one. *)
Fixpoint well_formed (s : jsstring) : bool :=
  match s with
  | [] => true
  | c :: s' =>
      if is_high (code c) then
        match s' with
        | d :: s'' => is_low (code d) && well_formed s''
        | [] => false
        end
      else if is_low (code c) then false
      else well_formed s'
  end.

(** Decimal rendering of an integer, as [String(n)] gives it for an
    integer of magnitude below 10^21. *)
Fixpoint digits (fuel : nat) (n : Z) (acc : jsstring) : jsstring :=
  match fuel with
  | O => acc
  | S fuel' =>
      let acc' := unit (0x30 + n mod 10) :: acc in
      if n <? 10 then acc' else digits fuel' (n / 10) acc'
  end.

Definition decimal (n : Z) : jsstring :=
  if n <? 0 then ch "-" :: digits (Z.to_nat (Z.log2 (- n)) + 1) (- n) []
  else digits (Z.to_nat (Z.log2 n) + 1) n [].

End JS.

Import JS.

(** ** [Buffer]: UTF-8, base64, hex and latin1 conversions *)

Module Buffer.

Definition replacement : list byte := [xef; xbf; xbd].

(** [Buffer.from(s, 'utf-8')]: a lone surrogate is encoded as U+FFFD. *)
Fixpoint utf8_encode (s : jsstring) : list byte :=
  match s with
  | [] => []
  | c :: s' =>
      let z := code c in
      if z <? 0x80 then of_Z z :: utf8_encode s'
      else if z <? 0x800 then
        of_Z (0xc0 + z / 64) :: of_Z (0x80 + z mod 64) :: utf8_encode s'
      else if is_high z then
        match s' with
        | d :: s'' =>
            if is_low (code d) then
              let cp := 0x10000 + (z - 0xd800) * 1024 + (code d - 0xdc00) in
              of_Z (0xf0 + cp / 262144)
                :: of_Z (0x80 + (cp / 4096) mod 64)
                :: of_Z (0x80 + (cp / 64) mod 64)
                :: of_Z (0x80 + cp mod 64) :: utf8_encode s''
            else replacement ++ utf8_encode s'
        | [] => replacement
        end
      else if is_low z then replacement ++ utf8_encode s'
      else
        of_Z (0xe0 + z / 4096) :: of_Z (0x80 + (z / 64) mod 64)
          :: of_Z (0x80 + z mod 64) :: utf8_encode s'
  end.

(** [Buffer.byteLength(s, 'utf-8')]. *)
Definition byteLength (s : jsstring) : Z := Z.of_nat (length (utf8_encode s)).

Definition in_range (lo hi : Z) (b : byte) : bool :=
  (lo <=? to_Z b) && (to_Z b <=? hi).

Definition cont (b : byte) : Z := to_Z b - 0x80.

(** The code units of a code point. *)
Definition units_of (cp : Z) : jsstring :=
  if cp <? 0x10000 then [unit cp]
  else [unit (0xd800 + (cp - 0x10000) / 1024);
        unit (0xdc00 + (cp - 0x10000) mod 1024)].

Definition fffd : u16 := unit 0xfffd.

(** [buf.toString('utf-8')]: every maximal ill-formed prefix is
    replaced by one U+FFFD. *)
Fixpoint utf8_decode (l : list byte) : jsstring :=
  match l with
  | [] => []
  | b0 :: r0 =>
      let z0 := to_Z b0 in
      if z0 <? 0x80 then unit z0 :: utf8_decode r0
      else if in_range 0xc2 0xdf b0 then
        match r0 with
        | b1 :: r1 =>
            if in_range 0x80 0xbf b1 then
              unit ((z0 - 0xc0) * 64 + cont b1) :: utf8_decode r1
            else fffd :: utf8_decode r0
        | [] => [fffd]
        end
      else if in_range 0xe0 0xef b0 then
        let lo := if z0 =? 0xe0 then 0xa0 else 0x80 in
        let hi := if z0 =? 0xed then 0x9f else 0xbf in
        match r0 with
        | b1 :: r1 =>
            if in_range lo hi b1 then
              match r1 with
              | b2 :: r2 =>
                  if in_range 0x80 0xbf b2 then
                    unit ((z0 - 0xe0) * 4096 + cont b1 * 64 + cont b2)
                      :: utf8_decode r2
                  else fffd :: utf8_decode r1
              | [] => [fffd]
              end
            else fffd :: utf8_decode r0
        | [] => [fffd]
        end
      else if in_range 0xf0 0xf4 b0 then
        let lo := if z0 =? 0xf0 then 0x90 else 0x80 in
        let hi := if z0 =? 0xf4 then 0x8f else 0xbf in
        match r0 with
        | b1 :: r1 =>
            if in_range lo hi b1 then
              match r1 with
              | b2 :: r2 =>
                  if in_range 0x80 0xbf b2 then
                    match r2 with
                    | b3 :: r3 =>
                        if in_range 0x80 0xbf b3 then
                          units_of ((z0 - 0xf0) * 262144 + cont b1 * 4096
                                    + cont b2 * 64 + cont b3)
                            ++ utf8_decode r3
                        else fffd :: utf8_decode r2
                    | [] => [fffd]
                    end
                  else fffd :: utf8_decode r1
              | [] => [fffd]
              end
            else fffd :: utf8_decode r0
        | [] => [fffd]
        end
      else fffd :: utf8_decode r0
  end.

(** *** base64 *)

Definition alphabet : jsstring :=
  js "ABCDEFGHIJKLMNOPQRSTUVWXYZabcdefghijklmnopqrstuvwxyz0123456789+/".

Definition alphabet_url : jsstring :=
  js "ABCDEFGHIJKLMNOPQRSTUVWXYZabcdefghijklmnopqrstuvwxyz0123456789-_".

Definition sextet_char (abc : jsstring) (i : Z) : u16 :=
  nth (Z.to_nat (i mod 64)) abc (ch "A").

Definition pad_char : u16 := ch "=".

Section Encode.
Variable abc : jsstring.
Variable padding : bool.

Definition pads (n : nat) : jsstring :=
  if padding then repeat pad_char n else [].

Fixpoint base64_with (l : list byte) : jsstring :=
  match l with
  | [] => []
  | [a] =>
      [sextet_char abc (to_Z a / 4); sextet_char abc (to_Z a mod 4 * 16)]
        ++ pads 2
  | [a; b] =>
      [sextet_char abc (to_Z a / 4);
       sextet_char abc (to_Z a mod 4 * 16 + to_Z b / 16);
       sextet_char abc (to_Z b mod 16 * 4)] ++ pads 1
  | a :: b :: c :: rest =>
      sextet_char abc (to_Z a / 4)
        :: sextet_char abc (to_Z a mod 4 * 16 + to_Z b / 16)
        :: sextet_char abc (to_Z b mod 16 * 4 + to_Z c / 64)
        :: sextet_char abc (to_Z c mod 64) :: base64_with rest
  end.
End Encode.

(** [buf.toString('base64')]. *)
Definition base64_encode : list byte -> jsstring := base64_with alphabet true.

(** The value of a base64 character, from either alphabet. *)
Definition unbase64 (c : u16) : option Z :=
  let z := code c in
  if (0x41 <=? z) && (z <=? 0x5a) then Some (z - 0x41)
  else if (0x61 <=? z) && (z <=? 0x7a) then Some (z - 0x61 + 26)
  else if (0x30 <=? z) && (z <=? 0x39) then Some (z - 0x30 + 52)
  else if (z =? 0x2b) || (z =? 0x2d) then Some 62
  else if (z =? 0x2f) || (z =? 0x5f) then Some 63
  else None.

(** The sextets of the legal characters before the first ['=']. *)
Fixpoint sextets (s : jsstring) : list Z :=
  match s with
  | [] => []
  | c :: s' =>
      if bool_decide (c = pad_char) then []
      else match unbase64 c with
           | Some v => v :: sextets s'
           | None => sextets s'
           end
  end.

Fixpoint pack (l : list Z) : list byte :=
  match l with
  | a :: b :: c :: d :: rest =>
      of_Z (a * 4 + b / 16) :: of_Z (b mod 16 * 16 + c / 4)
        :: of_Z (c mod 4 * 64 + d) :: pack rest
  | [a; b; c] => [of_Z (a * 4 + b / 16); of_Z (b mod 16 * 16 + c / 4)]
  | [a; b] => [of_Z (a * 4 + b / 16)]
  | _ => []
  end.

(** [Buffer.from(s, 'base64')]: lenient, never fails; characters
    outside the alphabets are skipped and decoding stops at ['=']. *)
Definition base64_decode (s : jsstring) : list byte := pack (sextets s).

(** *** The text encodings [digest] accepts *)

Inductive encoding := base64 | base64url | hex | binary.

Definition hex_digit (i : Z) : u16 :=
  nth (Z.to_nat (i mod 16)) (js "0123456789abcdef") (ch "0").

Definition to_text (e : encoding) (l : list byte) : jsstring :=
  match e with
  | base64 => base64_encode l
  | base64url => base64_with alphabet_url false l
  | hex => flat_map (fun b => [hex_digit (to_Z b / 16); hex_digit (to_Z b)]) l
  | binary => map (fun b => (x00, b)) l
  end.

End Buffer.

Import Buffer.

(** ** Exceptions *)

Module Exn.

(** The exceptions that can cross the functions modelled here. The text
    of an error raised by the platform itself, or by [json-canon], is
    not modelled. *)
Inductive exn :=
| Error (msg : jsstring)
| TypeError (msg : jsstring)
| URIError
| SyntaxError
| RangeError
| CanonError.   (* the error of [json-canon] *)

Inductive result (A : Type) :=
| Ok (a : A)
| Throw (e : exn).

Arguments Ok {A} a.
Arguments Throw {A} e.

Definition bind {A B} (m : result A) (k : A -> result B) : result B :=
  match m with
  | Ok a => k a
  | Throw e => Throw e
  end.

(** [try { return m } catch (err) { return h }] *)
Definition try_catch {A} (m : result A) (h : A) : A :=
  match m with
  | Ok a => a
  | Throw _ => h
  end.


Definition is_ok {A} (m : result A) : bool :=
  match m with
  | Ok _ => true
  | Throw _ => false
  end.

End Exn.

Export Exn.

Declare Scope result_scope.
Delimit Scope result_scope with result.
Notation "'let*' x := m 'in' k" := (bind m (fun x => k))
  (at level 10, x pattern, m at level 100, k at level 200) : result_scope.
Local Open Scope result_scope.

(** ** URI component coding *)

Module URI.

(** Characters [encodeURIComponent] leaves alone: ASCII letters, digits
    and [- _ . ! ~ * ' ( )]. *)
Definition unreserved (z : Z) : bool :=
  ((0x41 <=? z) && (z <=? 0x5a)) || ((0x61 <=? z) && (z <=? 0x7a))
  || ((0x30 <=? z) && (z <=? 0x39))
  || existsb (Z.eqb z) [0x2d; 0x5f; 0x2e; 0x21; 0x7e; 0x2a; 0x27; 0x28; 0x29].

Definition upper_hex_digit (i : Z) : u16 :=
  nth (Z.to_nat (i mod 16)) (js "0123456789ABCDEF") (ch "0").

Definition percent (l : list byte) : jsstring :=
  flat_map
    (fun b => [ch "%"; upper_hex_digit (to_Z b / 16); upper_hex_digit (to_Z b)])
    l.

Definition cons_ok (c : u16) (m : result jsstring) : result jsstring :=
  let* s := m in Ok (c :: s).

Definition app_ok (p : jsstring) (m : result jsstring) : result jsstring :=
  let* s := m in Ok (p ++ s).

(** [encodeURIComponent(s)]: a lone surrogate makes it throw. *)
Fixpoint encodeURIComponent (s : jsstring) : result jsstring :=
  match s with
  | [] => Ok []
  | c :: s' =>
      let z := code c in
      if unreserved z then cons_ok c (encodeURIComponent s')
      else if is_high z then
        match s' with
        | d :: s'' =>
            if is_low (code d)
            then app_ok (percent (utf8_encode [c; d])) (encodeURIComponent s'')
            else Throw URIError
        | [] => Throw URIError
        end
      else if is_low z then Throw URIError
      else app_ok (percent (utf8_encode [c])) (encodeURIComponent s')
  end.

(** The input cut into literal characters and [%XX] escapes; [Bad]
    stands for a ['%'] that is not followed by two hex digits. *)
Inductive token :=
| Lit (c : u16)
| Pct (b : Z)
| Bad.

Fixpoint tokens (s : jsstring) : list token :=
  match s with
  | [] => []
  | c :: r =>
      if bool_decide (c = ch "%") then
        match r with
        | h1 :: h2 :: r2 =>
            match hex_value h1, hex_value h2 with
            | Some a, Some b => Pct (16 * a + b) :: tokens r2
            | _, _ => [Bad]
            end
        | _ => [Bad]
        end
      else Lit c :: tokens r
  end.

(** Escapes must spell the UTF-8 encoding of one code point each. *)
Fixpoint decode_tokens (ts : list token) : result jsstring :=
  match ts with
  | [] => Ok []
  | Lit c :: r => cons_ok c (decode_tokens r)
  | Bad :: _ => Throw URIError
  | Pct b0 :: r0 =>
      if b0 <? 0x80 then cons_ok (unit b0) (decode_tokens r0)
      else if within 0xc2 0xdf b0 then
        match r0 with
        | Pct b1 :: r1 =>
            if within 0x80 0xbf b1
            then cons_ok (unit ((b0 - 0xc0) * 64 + (b1 - 0x80)))
                   (decode_tokens r1)
            else Throw URIError
        | _ => Throw URIError
        end
      else if within 0xe0 0xef b0 then
        match r0 with
        | Pct b1 :: Pct b2 :: r2 =>
            if within (if b0 =? 0xe0 then 0xa0 else 0x80)
                 (if b0 =? 0xed then 0x9f else 0xbf) b1
               && within 0x80 0xbf b2
            then cons_ok
                   (unit ((b0 - 0xe0) * 4096 + (b1 - 0x80) * 64 + (b2 - 0x80)))
                   (decode_tokens r2)
            else Throw URIError
        | _ => Throw URIError
        end
      else if within 0xf0 0xf4 b0 then
        match r0 with
        | Pct b1 :: Pct b2 :: Pct b3 :: r3 =>
            if within (if b0 =? 0xf0 then 0x90 else 0x80)
                 (if b0 =? 0xf4 then 0x8f else 0xbf) b1
               && within 0x80 0xbf b2 && within 0x80 0xbf b3
            then app_ok
                   (units_of ((b0 - 0xf0) * 262144 + (b1 - 0x80) * 4096
                              + (b2 - 0x80) * 64 + (b3 - 0x80)))
                   (decode_tokens r3)
            else Throw URIError
        | _ => Throw URIError
        end
      else Throw URIError
  end.

(** [decodeURIComponent(s)]. *)
Definition decodeURIComponent (s : jsstring) : result jsstring :=
  decode_tokens (tokens s).

End URI.

(** ** JSON *)

Module JSON.

(** JSON data. A number is kept as the exact decimal [m * 10^e] its
    literal denotes ([m] not a multiple of ten unless it is zero); the
    rounding of literals to IEEE doubles is not modelled. An object is
    the list of its properties in insertion order, without duplicate keys
    when it comes from [JSON_parse]. *)
#[local] Unset Elimination Schemes.

Inductive json :=
| JNull
| JBool (b : bool)
| JNumber (m e : Z)
| JString (s : jsstring)
| JArray (items : list json)
| JObject (props : list (jsstring * json)).

#[local] Set Elimination Schemes.

(** *** Serialization (RFC 8785, as [json-canon] implements it) *)

Definition hex4 (z : Z) : jsstring :=
  [hex_digit (z / 4096); hex_digit (z / 256); hex_digit (z / 16); hex_digit z].

Definition escape_unit (c : u16) : jsstring :=
  let z := code c in
  if z =? 0x08 then js "\b"
  else if z =? 0x09 then js "\t"
  else if z =? 0x0a then js "\n"
  else if z =? 0x0c then js "\f"
  else if z =? 0x0d then js "\r"
  else if z =? 0x22 then [ch "\"; dquote]
  else if z =? 0x5c then js "\\"
  else if z <? 0x20 then js "\u" ++ hex4 z
  else [c].

(** QuoteJSONString without the quotes: control characters, the quote,
    the backslash and lone surrogates are escaped. *)
Fixpoint escape (s : jsstring) : jsstring :=
  match s with
  | [] => []
  | c :: s' =>
      let z := code c in
      if is_high z then
        match s' with
        | d :: s'' =>
            if is_low (code d) then c :: d :: escape s''
            else js "\u" ++ hex4 z ++ escape s'
        | [] => js "\u" ++ hex4 z
        end
      else if is_low z then js "\u" ++ hex4 z ++ escape s'
      else escape_unit c ++ escape s'
  end.

Definition quote (s : jsstring) : jsstring := dquote :: escape s ++ [dquote].

Definition zeros (n : Z) : jsstring := repeat (ch "0") (Z.to_nat n).

(** Strip the factors of ten of a mantissa. *)
Fixpoint normalize (fuel : nat) (m e : Z) : Z * Z :=
  match fuel with
  | O => (m, e)
  | S fuel' =>
      if m =? 0 then (0, 0)
      else if m mod 10 =? 0 then normalize fuel' (m / 10) (e + 1)
      else (m, e)
  end.

(** Number::toString for the decimal [m * 10^e]. *)
Definition number_to_string (m0 e0 : Z) : jsstring :=
  let '(m, e) := normalize (Z.to_nat (Z.log2 (Z.abs m0)) + 1) m0 e0 in
  if m =? 0 then js "0"
  else
    let sign := if m <? 0 then js "-" else [] in
    let ds := decimal (Z.abs m) in
    let k := Z.of_nat (length ds) in
    let n := k + e in
    sign ++
    (if (k <=? n) && (n <=? 21) then ds ++ zeros (n - k)
     else if (0 <? n) && (n <=? 21) then
       firstn (Z.to_nat n) ds ++ js "." ++ skipn (Z.to_nat n) ds
     else if (-6 <? n) && (n <=? 0) then js "0." ++ zeros (- n) ++ ds
     else
       let ex := (if n - 1 <? 0 then js "e-" else js "e+")
                   ++ decimal (Z.abs (n - 1)) in
       match ds with
       | [d] => d :: ex
       | d :: ds' => d :: js "." ++ ds' ++ ex
       | [] => ex
       end).

(** Strings compared by code units ([Array.prototype.sort] default). *)
Fixpoint str_ltb (a b : jsstring) : bool :=
  match a, b with
  | _, [] => false
  | [], _ :: _ => true
  | c :: a', d :: b' =>
      (code c <? code d) || ((code c =? code d) && str_ltb a' b')
  end.

Fixpoint insert_sorted {A} (kv : jsstring * A) (l : list (jsstring * A))
  : list (jsstring * A) :=
  match l with
  | [] => [kv]
  | kv' :: l' =>
      if str_ltb (fst kv) (fst kv') then kv :: l
      else kv' :: insert_sorted kv l'
  end.

Definition sort_props {A} (l : list (jsstring * A)) : list (jsstring * A) :=
  fold_right insert_sorted [] l.

Fixpoint join (sep : jsstring) (l : list jsstring) : jsstring :=
  match l with
  | [] => []
  | [x] => x
  | x :: l' => x ++ sep ++ join sep l'
  end.

Definition member (kv : jsstring * jsstring) : jsstring :=
  quote (fst kv) ++ js ":" ++ snd kv.

(** The text of a value: no white space, properties sorted by key. *)
Fixpoint serialize (v : json) : jsstring :=
  match v with
  | JNull => js "null"
  | JBool true => js "true"
  | JBool false => js "false"
  | JNumber m e => number_to_string m e
  | JString s => quote s
  | JArray items => js "[" ++ join (js ",") (map serialize items) ++ js "]"
  | JObject props =>
      js "{"
        ++ join (js ",")
             (map member
                (sort_props (map (fun kv => (fst kv, serialize (snd kv))) props)))
        ++ js "}"
  end.

(** [json-canon] refuses a value in which a string or the key of a
    property has a lone surrogate. *)
Fixpoint strings_well_formed (v : json) : bool :=
  match v with
  | JString s => well_formed s
  | JArray items => forallb strings_well_formed items
  | JObject props =>
      forallb (fun kv => well_formed (fst kv) && strings_well_formed (snd kv)) props
  | _ => true
  end.

(** [stringify(v)] of [json-canon]. *)
Definition stringify (v : json) : result jsstring :=
  if strings_well_formed v then Ok (serialize v) else Throw CanonError.

(** *** Parsing (ECMA-404 grammar, as [JSON.parse] accepts it) *)

Definition is_ws (c : u16) : bool :=
  existsb (Z.eqb (code c)) [0x20; 0x09; 0x0a; 0x0d].

Fixpoint skip_ws (s : jsstring) : jsstring :=
  match s with
  | c :: s' => if is_ws c then skip_ws s' else s
  | [] => []
  end.

Definition is_digit (c : u16) : bool := within 0x30 0x39 (code c).

Definition simple_escape (c : u16) : option u16 :=
  let z := code c in
  if z =? 0x22 then Some c
  else if z =? 0x5c then Some c
  else if z =? 0x2f then Some c
  else if z =? 0x62 then Some (unit 0x08)
  else if z =? 0x66 then Some (unit 0x0c)
  else if z =? 0x6e then Some (unit 0x0a)
  else if z =? 0x72 then Some (unit 0x0d)
  else if z =? 0x74 then Some (unit 0x09)
  else None.

Definition cons_fst {A B} (a : A) (r : option (list A * B)) : option (list A * B) :=
  match r with
  | Some (l, b) => Some (a :: l, b)
  | None => None
  end.

(** The characters of a string literal after its opening quote, and
    what follows the closing quote. *)
Fixpoint parse_string (s : jsstring) : option (jsstring * jsstring) :=
  match s with
  | [] => None
  | c :: r =>
      if bool_decide (c = dquote) then Some ([], r)
      else if bool_decide (c = ch "\") then
        match r with
        | [] => None
        | x :: r1 =>
            if bool_decide (x = ch "u") then
              match r1 with
              | h1 :: h2 :: h3 :: h4 :: r2 =>
                  match hex_value h1, hex_value h2, hex_value h3, hex_value h4 with
                  | Some a, Some b, Some c', Some d =>
                      cons_fst (unit (4096 * a + 256 * b + 16 * c' + d))
                        (parse_string r2)
                  | _, _, _, _ => None
                  end
              | _ => None
              end
            else
              match simple_escape x with
              | Some y => cons_fst y (parse_string r1)
              | None => None
              end
        end
      else if code c <? 0x20 then None
      else cons_fst c (parse_string r)
  end.

(** Leading decimal digits and the rest of the input. *)
Fixpoint span_digits (s : jsstring) : list Z * jsstring :=
  match s with
  | c :: s' =>
      if is_digit c
      then let '(ds, r) := span_digits s' in (code c - 0x30 :: ds, r)
      else ([], s)
  | [] => ([], [])
  end.

Definition digits_value (ds : list Z) : Z :=
  fold_left (fun acc d => 10 * acc + d) ds 0.

Definition parse_exponent (s : jsstring) : option (Z * jsstring) :=
  match s with
  | c :: r =>
      if bool_decide (c = ch "e") || bool_decide (c = ch "E") then
        let '(neg, r1) :=
          match r with
          | x :: r' =>
              if bool_decide (x = ch "-") then (true, r')
              else if bool_decide (x = ch "+") then (false, r')
              else (false, r)
          | [] => (false, r)
          end in
        match span_digits r1 with
        | ([], _) => None
        | (ds, r2) =>
            Some (if neg : bool then - digits_value ds else digits_value ds, r2)
        end
      else Some (0, s)
  | [] => Some (0, s)
  end.

Definition parse_fraction (s : jsstring) : option (list Z * jsstring) :=
  match s with
  | c :: r =>
      if bool_decide (c = ch ".") then
        match span_digits r with
        | ([], _) => None
        | (ds, r') => Some (ds, r')
        end
      else Some ([], s)
  | [] => Some ([], s)
  end.

Definition parse_number (s : jsstring) : option (json * jsstring) :=
  let '(neg, s1) :=
    match s with
    | c :: r => if bool_decide (c = ch "-") then (true, r) else (false, s)
    | [] => (false, s)
    end in
  match span_digits s1 with
  | ([], _) => None
  | (d :: ds, r) =>
      if (d =? 0) && negb (bool_decide (ds = [])) then None
      else
        match parse_fraction r with
        | None => None
        | Some (fs, r1) =>
            match parse_exponent r1 with
            | None => None
            | Some (ex, r2) =>
                let m := digits_value (d :: ds ++ fs) in
                let '(m', e') :=
                  normalize (length (d :: ds ++ fs)) m
                    (ex - Z.of_nat (length fs)) in
                Some (JNumber (if neg : bool then - m' else m') e', r2)
            end
        end
  end.

Definition expect (lit : jsstring) (v : json) (s : jsstring)
  : option (json * jsstring) :=
  if bool_decide (firstn (length lit) s = lit)
  then Some (v, skipn (length lit) s)
  else None.

(** Define or overwrite a property, keeping its first position. *)
Fixpoint set_prop {A} (k : jsstring) (v : A) (l : list (jsstring * A))
  : list (jsstring * A) :=
  match l with
  | [] => [(k, v)]
  | (k', v') :: l' =>
      if bool_decide (k' = k) then (k, v) :: l' else (k', v') :: set_prop k v l'
  end.

Fixpoint parse_value (fuel : nat) (s : jsstring) : option (json * jsstring) :=
  match fuel with
  | O => None
  | S fuel' =>
      match skip_ws s with
      | [] => None
      | c :: r =>
          if bool_decide (c = dquote) then
            match parse_string r with
            | Some (str, r') => Some (JString str, r')
            | None => None
            end
          else if bool_decide (c = ch "[") then
            match skip_ws r with
            | d :: r' =>
                if bool_decide (d = ch "]") then Some (JArray [], r')
                else parse_elements fuel' (d :: r') []
            | [] => None
            end
          else if bool_decide (c = ch "{") then
            match skip_ws r with
            | d :: r' =>
                if bool_decide (d = ch "}") then Some (JObject [], r')
                else parse_members fuel' (d :: r') []
            | [] => None
            end
          else if bool_decide (c = ch "t") then expect (js "true") (JBool true) (c :: r)
          else if bool_decide (c = ch "f") then expect (js "false") (JBool false) (c :: r)
          else if bool_decide (c = ch "n") then expect (js "null") JNull (c :: r)
          else parse_number (c :: r)
      end
  end
with parse_elements (fuel : nat) (s : jsstring) (acc : list json)
  : option (json * jsstring) :=
  match fuel with
  | O => None
  | S fuel' =>
      match parse_value fuel' s with
      | None => None
      | Some (v, r) =>
          match skip_ws r with
          | d :: r' =>
              if bool_decide (d = ch ",") then parse_elements fuel' r' (acc ++ [v])
              else if bool_decide (d = ch "]") then Some (JArray (acc ++ [v]), r')
              else None
          | [] => None
          end
      end
  end
with parse_members (fuel : nat) (s : jsstring) (acc : list (jsstring * json))
  : option (json * jsstring) :=
  match fuel with
  | O => None
  | S fuel' =>
      match skip_ws s with
      | q :: r0 =>
          if bool_decide (q = dquote) then
            match parse_string r0 with
            | None => None
            | Some (k, r1) =>
                match skip_ws r1 with
                | c :: r2 =>
                    if bool_decide (c = ch ":") then
                      match parse_value fuel' r2 with
                      | None => None
                      | Some (v, r3) =>
                          match skip_ws r3 with
                          | d :: r4 =>
                              if bool_decide (d = ch ",")
                              then parse_members fuel' r4 (set_prop k v acc)
                              else if bool_decide (d = ch "}")
                              then Some (JObject (set_prop k v acc), r4)
                              else None
                          | [] => None
                          end
                      end
                    else None
                | [] => None
                end
            end
          else None
      | [] => None
      end
  end.

(** [JSON.parse(s)]: one value, white space around it, nothing else.
    Each recursive call is paid for by a character of the input, so the
    fuel given here is never used up ([JSON_parse_fuel] below). *)
Definition JSON_parse (s : jsstring) : result json :=
  match parse_value (2 * length s + 2) s with
  | Some (v, r) =>
      match skip_ws r with
      | [] => Ok v
      | _ :: _ => Throw SyntaxError
      end
  | None => Throw SyntaxError
  end.

End JSON.

(** ** JavaScript values, numbers and dates *)

Module Value.

(** A number: NaN, an infinity, or the decimal [m * 10^e] that
    Number::toString prints for it. *)
Inductive jsnum :=
| NaN
| Infinity (negative : bool)
| Finite (m e : Z).

Definition isNaN (n : jsnum) : bool :=
  match n with
  | NaN => true
  | _ => false
  end.

Definition isFinite (n : jsnum) : bool :=
  match n with
  | Finite _ _ => true
  | _ => false
  end.

(** [String(Math.floor(n))] for a finite [n = m * 10^e]. *)
Definition floor_to_string (m e : Z) : jsstring :=
  if 0 <=? e then JSON.number_to_string m e
  else JSON.number_to_string (m / 10 ^ (- e)) 0.

(** The values an untyped option can hold, as far as truthiness,
    [typeof] and [===] can tell them apart. *)
Inductive jsval :=
| VUndefined
| VNull
| VBool (b : bool)
| VNumber (n : jsnum)
| VBigInt (z : Z)
| VString (s : jsstring)
| VDate (t : option Z)          (* a Date; [None] is an invalid date *)
| VObject.                      (* any other object, function or symbol *)

Definition truthy (v : jsval) : bool :=
  match v with
  | VUndefined | VNull => false
  | VBool b => b
  | VNumber (Finite m _) => negb (m =? 0)
  | VNumber NaN => false
  | VNumber (Infinity _) => true
  | VBigInt z => negb (z =? 0)
  | VString s => negb (bool_decide (s = []))
  | VDate _ | VObject => true
  end.

(** [toLowerCase] as the [switch] statements below observe it: they
    compare its result with ASCII keywords without the letter k, and
    outside ASCII only U+212A lowers to an ASCII letter (k), so lowering
    the ASCII letters alone decides every comparison the same way. *)
Definition toLowerCase (s : jsstring) : jsstring := map lower_unit s.

Definition pad2 (n : Z) : jsstring :=
  [unit (0x30 + (n / 10) mod 10); unit (0x30 + n mod 10)].

Definition day_name (i : Z) : jsstring :=
  nth (Z.to_nat i)
    [js "Sun"; js "Mon"; js "Tue"; js "Wed"; js "Thu"; js "Fri"; js "Sat"] [].

Definition month_name (i : Z) : jsstring :=
  nth (Z.to_nat (i - 1))
    [js "Jan"; js "Feb"; js "Mar"; js "Apr"; js "May"; js "Jun";
     js "Jul"; js "Aug"; js "Sep"; js "Oct"; js "Nov"; js "Dec"] [].

(** Year, month and day of the day number [d] (days since 1970-01-01)
    in the proleptic Gregorian calendar. *)
Definition civil (d : Z) : Z * Z * Z :=
  let z := d + 719468 in
  let era := z / 146097 in
  let doe := z - era * 146097 in
  let yoe := (doe - doe / 1460 + doe / 36524 - doe / 146096) / 365 in
  let doy := doe - (365 * yoe + yoe / 4 - yoe / 100) in
  let mp := (5 * doy + 2) / 153 in
  let day := doy - (153 * mp + 2) / 5 + 1 in
  let month := if mp <? 10 then mp + 3 else mp - 9 in
  let year := yoe + era * 400 + (if month <=? 2 then 1 else 0) in
  (year, month, day).

(** [date.toUTCString()] for the time value [t] in milliseconds. *)
Definition toUTCString (t : Z) : jsstring :=
  let d := t / 86400000 in
  let s := (t mod 86400000) / 1000 in
  let '(year, month, day) := civil d in
  let ys := decimal (Z.abs year) in
  day_name ((d + 4) mod 7) ++ js ", " ++ pad2 day ++ js " "
    ++ month_name month ++ js " "
    ++ (if year <? 0 then js "-" else [])
    ++ repeat (ch "0") (4 - length ys) ++ ys ++ js " "
    ++ pad2 (s / 3600) ++ js ":" ++ pad2 ((s / 60) mod 60) ++ js ":"
    ++ pad2 (s mod 60) ++ js " GMT".

End Value.

Import Value.

(** ** The process: environment, platform features and randomness *)

Module Process.

(** [process.env] (the variables read by the functions modelled here)
    and whether this Node.js has [crypto.timingSafeEqual]. *)
Record process := {
  SESSION_COOKIE_SECRET : option jsstring;
  SESSION_COOKIE_NAME : option jsstring;
  has_timingSafeEqual : bool
}.

(** The random source: the bytes it will deliver, in order. *)
Definition rng : Type := nat -> byte.

(** [crypto.randomBytes(n)] *)
Definition randomBytes (n : nat) (g : rng) : list byte * rng :=
  (map g (seq 0 n), fun i => g (n + i)%nat).

(** Computations that draw random bytes and may throw. *)
Definition M (A : Type) : Type := rng -> result A * rng.

Definition lift {A} (r : result A) : M A := fun g => (r, g).

Definition outcome {A} (m : M A) (g : rng) : result A := fst (m g).

End Process.

Import Process.

(** ** [src/util.ts] *)

Module Util.

Section Util.
Variable node : process.

(** [/^[\u0009 -~\u0080-ÿ]+$/.test(s)] *)
Definition fieldContentRegExp (s : jsstring) : bool :=
  negb (bool_decide (s = []))
  && forallb
       (fun c => let z := code c in
                 (z =? 0x09) || within 0x20 0x7e z || within 0x80 0xff z) s.

(** [crypto.timingSafeEqual(a, b)] throws on buffers of different
    lengths. *)
Definition timingSafeEqual (a b : list byte) : result bool :=
  if bool_decide (length a = length b) then Ok (bool_decide (a = b))
  else Throw RangeError.

(** The [for] loop of [bufferEqual], from index [i] on. *)
Fixpoint scan (a b : list byte) : bool :=
  match a, b with
  | x :: a', y :: b' => if bool_decide (x = y) then scan a' b' else false
  | x :: a', [] => false        (* [a[i] !== undefined] *)
  | [], _ => true
  end.

Definition bufferEqual (a b : list byte) : result bool :=
  if negb (bool_decide (length a = length b)) then Ok false
  else if has_timingSafeEqual node then timingSafeEqual a b
  else Ok (scan a b).

(** [timeSafeCompare(a, b)] on two strings. *)
Definition timeSafeCompare (a b : jsstring) : M bool := fun g =>
  let sa := a in
  let sb := b in
  let '(key, g') := randomBytes 32 g in
  let ah := Crypto.hmac Crypto.sha256_alg key (utf8_encode sa) in
  let bh := Crypto.hmac Crypto.sha256_alg key (utf8_encode sb) in
  (let* eq := bufferEqual ah bh in Ok (eq && str_eqb a b), g').

End Util.

(** [encode(val)] *)
Definition encode (val : jsstring) : result jsstring :=
  URI.encodeURIComponent val.

(** [isDate(val)] *)
Definition isDate (val : jsval) : bool :=
  match val with
  | VDate _ => true
  | _ => false
  end.

(** What a caller can pass as [opts.encode]. *)
Inductive encode_option :=
| encode_absent                                   (* undefined, or falsy *)
| encode_function (f : jsstring -> result jsstring)
| encode_other.                                   (* truthy, not a function *)

(** The options of [serializeCookie]. [maxAge], [domain] and [path]
    are taken at their documented types (number, string, string; [None]
    is [undefined]); the options the code inspects dynamically are
    arbitrary values. An absent [opts] is [no_opts]. *)
Record cookie_options := {
  opt_encode : encode_option;
  maxAge : option jsnum;
  domain : option jsstring;
  path : option jsstring;
  expires : jsval;
  httpOnly : bool;
  secure : jsval;
  partitioned : jsval;
  priority : jsval;
  sameSite : jsval
}.

Definition no_opts : cookie_options := {|
  opt_encode := encode_absent; maxAge := None; domain := None; path := None;
  expires := VUndefined; httpOnly := false; secure := VUndefined;
  partitioned := VUndefined; priority := VUndefined; sameSite := VUndefined
|}.

Definition nonempty (o : option jsstring) : option jsstring :=
  match o with
  | Some [] => None
  | _ => o
  end.

(** [typeof v === 'string' ? v.toLowerCase() : v] *)
Definition lowered (v : jsval) : jsval :=
  match v with
  | VString s => VString (toLowerCase s)
  | _ => v
  end.

Definition is_string (v : jsval) (s : jsstring) : bool :=
  match v with
  | VString s' => bool_decide (s' = s)
  | _ => false
  end.

Definition is_true (v : jsval) : bool :=
  match v with
  | VBool true => true
  | _ => false
  end.

(** The successive [if] blocks of [serializeCookie]; each takes the
    string built so far. *)

Definition add_maxAge (opts : cookie_options) (str : jsstring) : result jsstring :=
  match maxAge opts with
  | None => Ok str
  | Some n =>
      match n with
      | Finite m e => Ok (str ++ js "; Max-Age=" ++ floor_to_string m e)
      | _ => Throw (TypeError (js "option maxAge is invalid"))
      end
  end.

Definition add_domain (opts : cookie_options) (str : jsstring) : result jsstring :=
  match nonempty (domain opts) with
  | None => Ok str
  | Some d =>
      if negb (fieldContentRegExp d)
      then Throw (TypeError (js "option domain is invalid"))
      else Ok (str ++ js "; Domain=" ++ d)
  end.

Definition add_path (opts : cookie_options) (str : jsstring) : result jsstring :=
  match nonempty (path opts) with
  | None => Ok str
  | Some p =>
      if negb (fieldContentRegExp p)
      then Throw (TypeError (js "option path is invalid"))
      else Ok (str ++ js "; Path=" ++ p)
  end.

Definition add_expires (opts : cookie_options) (str : jsstring) : result jsstring :=
  if truthy (expires opts) then
    match expires opts with
    | VDate (Some t) => Ok (str ++ js "; Expires=" ++ toUTCString t)
    | _ => Throw (TypeError (js "option expires is invalid"))
    end
  else Ok str.

Definition add_flags (opts : cookie_options) (str : jsstring) : jsstring :=
  let str := if httpOnly opts then str ++ js "; HttpOnly" else str in
  let str := if truthy (secure opts) then str ++ js "; Secure" else str in
  if truthy (partitioned opts) then str ++ js "; Partitioned" else str.

Definition add_priority (opts : cookie_options) (str : jsstring) : result jsstring :=
  if truthy (priority opts) then
    let priority := lowered (priority opts) in
    if is_string priority (js "low") then Ok (str ++ js "; Priority=Low")
    else if is_string priority (js "medium") then Ok (str ++ js "; Priority=Medium")
    else if is_string priority (js "high") then Ok (str ++ js "; Priority=High")
    else Throw (TypeError (js "option priority is invalid"))
  else Ok str.

Definition add_sameSite (opts : cookie_options) (str : jsstring) : result jsstring :=
  if truthy (sameSite opts) then
    let sameSite := lowered (sameSite opts) in
    if is_true sameSite then Ok (str ++ js "; SameSite=Strict")
    else if is_string sameSite (js "lax") then Ok (str ++ js "; SameSite=Lax")
    else if is_string sameSite (js "strict") then Ok (str ++ js "; SameSite=Strict")
    else if is_string sameSite (js "none") then Ok (str ++ js "; SameSite=None")
    else Throw (TypeError (js "option sameSite is invalid"))
  else Ok str.

(** [opts?.encode || encode], and the [typeof enc !== 'function'] guard. *)
Definition encoder (opts : cookie_options) : result (jsstring -> result jsstring) :=
  match opt_encode opts with
  | encode_absent => Ok encode
  | encode_function f => Ok f
  | encode_other => Throw (TypeError (js "option encode is invalid"))
  end.

(** [serializeCookie(name, val, opts)] *)
Definition serializeCookie (name val : jsstring) (opts : cookie_options)
  : result jsstring :=
  let* enc := encoder opts in
  if negb (fieldContentRegExp name)
  then Throw (TypeError (js "argument name is invalid"))
  else
    let* value := enc val in
    if negb (bool_decide (value = [])) && negb (fieldContentRegExp value)
    then Throw (TypeError (js "argument val is invalid"))
    else
      let str := name ++ js "=" ++ value in
      let* str := add_maxAge opts str in
      let* str := add_domain opts str in
      let* str := add_path opts str in
      let* str := add_expires opts str in
      let str := add_flags opts str in
      let* str := add_priority opts str in
      let* str := add_sameSite opts str in
      Ok str.

(** The string [serializeCookie] has built when it reaches its last
    block, the one for [sameSite]: the same function with that option
    taken away. *)
Definition without_sameSite (opts : cookie_options) : cookie_options := {|
  opt_encode := opt_encode opts; maxAge := maxAge opts; domain := domain opts;
  path := path opts; expires := expires opts; httpOnly := httpOnly opts;
  secure := secure opts; partitioned := partitioned opts;
  priority := priority opts; sameSite := VUndefined
|}.

End Util.

Import Util.

(** ** [src/index.ts] *)

Module Index.

Definition SESSION_COOKIE_NAME_DEFAULT : jsstring := js "session".

Definition SIGNATURE_DIGEST_LENGTH : nat := 27.

(** [Buffer | string] *)
Inductive data :=
| Str (s : jsstring)
| Buf (b : list byte).

(** The bytes [hmac.update(d)] feeds to the hash. *)
Definition data_bytes (d : data) : list byte :=
  match d with
  | Str s => utf8_encode s
  | Buf b => b
  end.

Record sign_options := {
  algorithm : option Crypto.algorithm;
  encoding : option encoding
}.

Definition default_sign : sign_options :=
  {| algorithm := None; encoding := None |}.

(** The replacer of [sign]: [{ '/': '_', '+': '-', '=': '' }[x]]. *)
Definition url_safe_unit (c : u16) : jsstring :=
  if bool_decide (c = ch "/") then js "_"
  else if bool_decide (c = ch "+") then js "-"
  else if bool_decide (c = ch "=") then []
  else [c].

(** [s.replace(/\/|\+|=/g, replacer)] *)
Definition url_safe (s : jsstring) : jsstring := flat_map url_safe_unit s.

(** [sign(data, key, opts)] *)
Definition sign (d : data) (key : jsstring) (opts : sign_options) : jsstring :=
  let algorithm := default Crypto.sha1_alg (algorithm opts) in
  let encoding := default base64 (encoding opts) in
  url_safe
    (to_text encoding (Crypto.hmac algorithm (utf8_encode key) (data_bytes d))).

(** [parseSession(encodedSession)] *)
Definition parseSession (encodedSession : jsstring) : result JSON.json :=
  let data := substring_from SIGNATURE_DIGEST_LENGTH encodedSession in
  let buf := base64_decode data in
  let str := utf8_decode buf in
  JSON.JSON_parse str.

(** *** Cookie parsing *)

(** A decoder receives [undefined] ([None]) for a segment without ['=']. *)
Definition decoder : Type := option jsstring -> result jsstring.

(** [decode(str)] *)
Definition decode : decoder := fun str =>
  match str with
  | None =>
      Throw (TypeError (js "Cannot read properties of undefined (reading 'indexOf')"))
  | Some s => if includes (ch "%") s then URI.decodeURIComponent s else Ok s
  end.

(** [try { ... } catch (err) { ... }] *)
Definition catch {A} (m : result A) (handler : exn -> result A) : result A :=
  match m with
  | Ok a => Ok a
  | Throw err => handler err
  end.

(** [tryDecode(str, decode)] *)
Definition tryDecode (str : option jsstring) (decode : decoder)
  : result (option jsstring) :=
  catch (let* s := decode str in Ok (Some s)) (fun err => Ok str).

(** A value of the parsed cookie object: a string, or [true]. *)
Inductive cookie_value :=
| CString (s : jsstring)
| CTrue.

(** [v ?? true] *)
Definition or_true (v : option jsstring) : cookie_value :=
  match v with
  | Some s => CString s
  | None => CTrue
  end.

(** [acc[k] = v] on an object literal: assigning a string or [true] to
    [__proto__] runs the prototype setter, which ignores it. *)
Definition assign (acc : gmap jsstring cookie_value) (k : jsstring)
  (v : cookie_value) : gmap jsstring cookie_value :=
  if bool_decide (k = js "__proto__") then acc else <[k := v]> acc.

(** One step of the inner [reduce], on the pieces of a segment. *)
Definition parse_segment (dec : decoder) (acc : gmap jsstring cookie_value)
  (val : list jsstring) : result (gmap jsstring cookie_value) :=
  let* v := tryDecode (nth_error val 1) dec in
  Ok (assign acc (nth 0 val []) (or_true v)).

Fixpoint reduce {A B} (f : B -> A -> result B) (l : list A) (init : B)
  : result B :=
  match l with
  | [] => Ok init
  | x :: l' => let* acc := f init x in reduce f l' acc
  end.

Fixpoint map_result {A B} (f : A -> result B) (l : list A) : result (list B) :=
  match l with
  | [] => Ok []
  | x :: l' => let* y := f x in let* ys := map_result f l' in Ok (y :: ys)
  end.

(** The callback of the outer [map]: one header to one object. *)
Definition parse_header (dec : decoder) (cookie : jsstring)
  : result (gmap jsstring cookie_value) :=
  reduce (parse_segment dec)
    (map (fun str => split (ch "=") (trim str)) (split (ch ";") cookie)) ∅.

(** [parseCookie(incomingCookies, _decode)] *)
Definition parseCookie (incomingCookies : list jsstring) (_decode : option decoder)
  : result (gmap jsstring cookie_value) :=
  let dec := default decode _decode in
  let* parsedCookies := map_result (parse_header dec) incomingCookies in
  let reduced := fold_left (fun acc val => val ∪ acc) parsedCookies ∅ in
  Ok reduced.

(** What [obj[k]] evaluates to on such an object. *)
Inductive property :=
| Own (v : cookie_value)
| Inherited                     (* a member of [Object.prototype] *)
| Undefined.

Definition Object_prototype : list jsstring :=
  [js "constructor"; js "__defineGetter__"; js "__defineSetter__";
   js "hasOwnProperty"; js "__lookupGetter__"; js "__lookupSetter__";
   js "isPrototypeOf"; js "propertyIsEnumerable"; js "toString";
   js "valueOf"; js "__proto__"; js "toLocaleString"].

Definition get (obj : gmap jsstring cookie_value) (k : jsstring) : property :=
  match obj !! k with
  | Some v => Own v
  | None => if bool_decide (k ∈ Object_prototype) then Inherited else Undefined
  end.

(** *** The request *)

(** [ev.multiValueHeaders] *)
Record HandlerEvent := {
  multiValueHeaders : gmap jsstring (list jsstring)
}.

(** [getCookiesFromEvent(ev)] *)
Definition getCookiesFromEvent (ev : HandlerEvent) : option (list jsstring) :=
  match multiValueHeaders ev !! js "Cookie" with
  | Some cookies => Some cookies
  | None => multiValueHeaders ev !! js "cookie"
  end.

Section Index.
Variable node : process.

Definition name_char (c : u16) : bool :=
  let z := code c in
  within 0x41 0x5a z || within 0x61 0x7a z || within 0x30 0x39 z
  || existsb (Z.eqb z)
       [0x21; 0x23; 0x24; 0x25; 0x26; 0x27; 0x2a; 0x2b; 0x2d; 0x2e; 0x5e;
        0x5f; 0x60; 0x7c; 0x7e].

Fixpoint take_while (f : u16 -> bool) (s : jsstring) : jsstring :=
  match s with
  | c :: s' => if f c then c :: take_while f s' else []
  | [] => []
  end.

Fixpoint drop_until (f : u16 -> bool) (s : jsstring) : jsstring :=
  match s with
  | c :: s' => if f c then s else drop_until f s'
  | [] => []
  end.

(** [s.match(/[A-Za-z0-9!#$%&'*+\-.^_`|~]+/g)[0]]: the first run of
    name characters, if there is one. *)
Definition first_match (s : jsstring) : option jsstring :=
  match drop_until name_char s with
  | [] => None
  | r => Some (take_while name_char r)
  end.

(** [getCookieName()] *)
Definition getCookieName : result jsstring :=
  match SESSION_COOKIE_NAME node with
  | Some nameFromEnv =>
      let check := first_match nameFromEnv in
      if bool_decide (nameFromEnv = [])
      then Throw (Error (jq "'SESSION_COOKIE_NAME' cannot be an empty string."))
      else if negb (bool_decide (check = Some nameFromEnv))
      then Throw (Error (jq "'SESSION_COOKIE_NAME' must only contain ASCII characters and no whitespace."))
      else Ok nameFromEnv
  | None => Ok SESSION_COOKIE_NAME_DEFAULT
  end.

(** [getSecretKey()] *)
Definition getSecretKey : result jsstring :=
  match SESSION_COOKIE_SECRET node with
  | None | Some [] =>
      Throw (Error (jq "'SESSION_COOKIE_SECRET': No secret key provided."))
  | Some secret =>
      let secretLength := byteLength secret in
      if secretLength <? 32
      then Throw (Error (jq "'SESSION_COOKIE_SECRET': The secret key must be at least 32 bytes long; ("
                           ++ decimal secretLength ++ js " given)."))
      else Ok secret
  end.

(** [verify(key, data, signature)] *)
Definition verify (key : jsstring) (d : data) (signature : jsstring) : M bool :=
  timeSafeCompare node signature (sign d key default_sign).

(** [createCookie(newSessionData, secretKey)]; an absent or empty
    [secretKey] falls back on [getSecretKey()]. *)
Definition createCookie (newSessionData : JSON.json) (secretKey : option jsstring)
  : result jsstring :=
  let* key :=
    match nonempty secretKey with
    | Some k => Ok k
    | None => getSecretKey
    end in
  let* sessionAsJSON := JSON.stringify newSessionData in
  let cookieValue :=
    sign (Str sessionAsJSON) key default_sign
      ++ base64_encode (utf8_encode sessionAsJSON) in
  Ok cookieValue.

(** [verifySessionString(session)] *)
Definition verifySessionString (session : jsstring) : M bool := fun g =>
  let signature := substring_to SIGNATURE_DIGEST_LENGTH session in
  let data := substring_from SIGNATURE_DIGEST_LENGTH session in
  let data := utf8_decode (base64_decode data) in
  match getSecretKey with
  | Ok key => verify key (Str data) signature g
  | Throw e => (Throw e, g)
  end.

(** [verifyCookieFromEvent(ev)] *)
Definition verifyCookieFromEvent (ev : HandlerEvent) : M bool := fun g =>
  match getCookiesFromEvent ev with
  | None => (Ok false, g)
  | Some cookies =>
      match parseCookie cookies None with
      | Throw e => (Throw e, g)
      | Ok cookieMap =>
          match getCookieName with
          | Throw e => (Throw e, g)
          | Ok cookieName =>
              match get cookieMap cookieName with
              | Undefined | Own (CString []) => (Ok false, g)
              | Own CTrue | Inherited =>
                  (Throw (TypeError (js "cookieMap[cookieName].substring is not a function")), g)
              | Own (CString value) =>
                  let signature := substring_to SIGNATURE_DIGEST_LENGTH value in
                  let data := substring_from SIGNATURE_DIGEST_LENGTH value in
                  let data := utf8_decode (base64_decode data) in
                  match getSecretKey with
                  | Ok key => verify key (Str data) signature g
                  | Throw e => (Throw e, g)
                  end
              end
          end
      end
  end.

End Index.

End Index.

Import Index.

(** ** Predicates used in the statements, and sample data *)

(** A character [sign] never leaves in a signature. *)
Definition url_safe_char (c : u16) : Prop :=
  c <> ch "/" /\ c <> ch "+" /\ c <> ch "=".

Definition plain_unit (c : u16) : bool :=
  negb (is_high (code c)) && negb (is_low (code c)).

(** Strings without any surrogate. *)
Definition plain (s : jsstring) : bool := forallb plain_unit s.

(** The text [parseSession] hands to [JSON.parse]. *)
Definition payload_text (encodedSession : jsstring) : jsstring :=
  utf8_decode (base64_decode (substring_from SIGNATURE_DIGEST_LENGTH encodedSession)).

(** [r[k]] on the outcome of [parseCookie], own properties only. *)
Definition cookie_of (r : result (gmap jsstring cookie_value)) (k : jsstring)
  : result (option cookie_value) :=
  let* m := r in Ok (m !! k).

Module Sample.

(** The key of [test/index.ts], 44 bytes. *)
Definition SECRET_KEY : jsstring := js "/pQCobVcOc+ru0WVTx24+MlCL7fIAPcPTsgGqXvV8M0=".

Definition node : process := {|
  SESSION_COOKIE_SECRET := Some SECRET_KEY;
  SESSION_COOKIE_NAME := None;
  has_timingSafeEqual := true
|}.

(** A process whose secret has 31 bytes. *)
Definition key31 : jsstring := js "0123456789abcdef0123456789abcde".

Definition node31 : process := {|
  SESSION_COOKIE_SECRET := Some key31;
  SESSION_COOKIE_NAME := None;
  has_timingSafeEqual := true
|}.

Definition key32 : jsstring := js "0123456789abcdef0123456789abcdef".

Definition node32 : process := {|
  SESSION_COOKIE_SECRET := Some key32;
  SESSION_COOKIE_NAME := None;
  has_timingSafeEqual := true
|}.

(** Sixteen characters, thirty-two bytes: U+00E9 sixteen times. *)
Definition key16 : jsstring := repeat (unit 0xe9) 16.

Definition node16 : process := {|
  SESSION_COOKIE_SECRET := Some key16;
  SESSION_COOKIE_NAME := None;
  has_timingSafeEqual := false
|}.

Definition no_secret : process := {|
  SESSION_COOKIE_SECRET := None;
  SESSION_COOKIE_NAME := None;
  has_timingSafeEqual := true
|}.

Definition random : rng := fun i => of_Z (7 * Z.of_nat i + 3).

(** The session of the README and its cookie. *)
Definition readme_session : JSON.json :=
  JSON.JObject
    [(js "identifier", JSON.JString (js "f8c5fd73807019d553e76f65c0aa7ef2"))].

Definition readme_cookie : jsstring :=
  js "nYiMr6Ya_83iC-XN-nmxOEk6AE0eyJpZGVudGlmaWVyIjoiZjhjNWZkNzM4MDcwMTlkNTUzZTc2ZjY1YzBhYTdlZjIifQ==".

Definition readme_header : jsstring :=
  js "session=nYiMr6Ya_83iC-XN-nmxOEk6AE0eyJpZGVudGlmaWVyIjoiZjhjNWZkNzM4MDcwMTlkNTUzZTc2ZjY1YzBhYTdlZjIifQ%3D%3D; Max-Age=604800; Path=/; HttpOnly; Secure; SameSite=Lax".

(** The defaults of [getCookieOptions]. *)
Definition default_options : cookie_options := {|
  opt_encode := encode_absent; maxAge := Some (Finite 604800 0);
  domain := None; path := Some (js "/"); expires := VUndefined;
  httpOnly := true; secure := VBool true; partitioned := VUndefined;
  priority := VUndefined; sameSite := VString (js "lax")
|}.

Definition with_sameSite (v : jsval) : cookie_options := {|
  opt_encode := encode_absent; maxAge := None; domain := None; path := None;
  expires := VUndefined; httpOnly := false; secure := VUndefined;
  partitioned := VUndefined; priority := VUndefined; sameSite := v
|}.

Definition with_maxAge (n : jsnum) : cookie_options := {|
  opt_encode := encode_absent; maxAge := Some n; domain := None; path := None;
  expires := VUndefined; httpOnly := false; secure := VUndefined;
  partitioned := VUndefined; priority := VUndefined; sameSite := VUndefined
|}.

(** [{identifier: 'abc', ts: '1'}], written in the other order. *)
Definition session_abc : JSON.json :=
  JSON.JObject [(js "ts", JSON.JString (js "1"));
                (js "identifier", JSON.JString (js "abc"))].

Definition request (cookies : list jsstring) : HandlerEvent :=
  {| multiValueHeaders := {[ js "cookie" := cookies ]} |}.

Definition no_cookies : HandlerEvent := {| multiValueHeaders := ∅ |}.

End Sample.

Import URI JSON.

(** ** What a serialized value parses back to *)

(** The value [JSON_parse] reads from [serialize v]: numbers without
    trailing zeros in the mantissa, properties in the order of their
    keys, a repeated key keeping its last value. *)
Fixpoint canonical (v : json) : json :=
  match v with
  | JNumber m e =>
      let '(m', e') := normalize (Z.to_nat (Z.log2 (Z.abs m)) + 1) m e in
      JNumber m' e'
  | JArray items => JArray (map canonical items)
  | JObject props =>
      JObject
        (fold_left (fun acc kv => set_prop (fst kv) (snd kv) acc)
           (sort_props (map (fun kv => (fst kv, canonical (snd kv))) props)) [])
  | _ => v
  end.

(** Fuel that [parse_value] needs to read [serialize v]. *)
Fixpoint cost (v : json) : nat :=
  match v with
  | JArray items => S (list_sum (map (fun x => S (cost x)) items))
  | JObject props => S (list_sum (map (fun kv => S (cost (snd kv))) props))
  | _ => 1
  end.

(** The character of a decimal digit. *)
Definition digit_char (d : Z) : u16 := unit (0x30 + d).

Definition is_digit_value (d : Z) : Prop := 0 <= d <= 9.

(** What may follow a value in a JSON text. *)
Definition delimited (rest : jsstring) : Prop :=
  match rest with
  | [] => True
  | c :: _ => c = ch "," \/ c = ch "]" \/ c = ch "}"
  end.

Definition starts_with_digit (s : jsstring) : bool :=
  match s with
  | c :: _ => is_digit c
  | [] => false
  end.

(** Apply [f] to the value of a property. *)
Definition retag {A B} (f : A -> B) (kv : jsstring * A) : jsstring * B :=
  (fst kv, f (snd kv)).


(** The characters of a serialized number. *)
Definition number_char (c : u16) : bool :=
  is_digit c || bool_decide (c = ch "-") || bool_decide (c = ch ".")
  || bool_decide (c = ch "e") || bool_decide (c = ch "+").


(** The statement proved by induction on the value. *)
Definition reads_back (v : json) : Prop :=
  forall fuel rest,
    (cost v <= fuel)%nat -> delimited rest ->
    parse_value fuel (serialize v ++ rest) = Some (canonical v, rest).


(** ** Deep equality of JSON data *)

(** [o[k]] for an own property of an object. *)
Fixpoint get_prop {A} (k : jsstring) (l : list (jsstring * A)) : option A :=
  match l with
  | [] => None
  | (k', v) :: l' => if bool_decide (k' = k) then Some v else get_prop k l'
  end.

(** The binding of [k] that comes last in a list of properties. *)
Fixpoint last_prop {A} (k : jsstring) (l : list (jsstring * A)) : option A :=
  match l with
  | [] => None
  | (k', v) :: l' =>
      match last_prop k l' with
      | Some w => Some w
      | None => if bool_decide (k' = k) then Some v else None
      end
  end.

(** The decimals [m * 10^e] and [m' * 10^e'] denote the same number. *)
Definition same_number (m e m' e' : Z) : Prop :=
  m * 10 ^ (e - Z.min e e') = m' * 10 ^ (e' - Z.min e e').

(** Two values are deep-equal when they are the same primitive, arrays
    with deep-equal items, or objects with the same keys and deep-equal
    values; the order of the properties does not count. *)
#[local] Unset Elimination Schemes.

Inductive deep_equal : json -> json -> Prop :=
| deep_null : deep_equal JNull JNull
| deep_bool (b : bool) : deep_equal (JBool b) (JBool b)
| deep_number (m e m' e' : Z) :
    same_number m e m' e' -> deep_equal (JNumber m e) (JNumber m' e')
| deep_string (s : jsstring) : deep_equal (JString s) (JString s)
| deep_array (xs ys : list json) :
    Forall2 deep_equal xs ys -> deep_equal (JArray xs) (JArray ys)
| deep_object (ps qs : list (jsstring * json)) :
    (forall k, option_Forall2 deep_equal (get_prop k ps) (get_prop k qs)) ->
    deep_equal (JObject ps) (JObject qs).

#[local] Set Elimination Schemes.

(** Keys in non-decreasing order. *)
Definition key_le {A} (a b : jsstring * A) : Prop := str_ltb (fst b) (fst a) = false.

Fixpoint sorted_keys {A} (l : list (jsstring * A)) : Prop :=
  match l with
  | [] => True
  | x :: l' => Forall (key_le x) l' /\ sorted_keys l'
  end.

(** ** Texts that [JSON.parse] accepts *)

(** A JSON text: one value, read by the parser with some amount of
    fuel, and white space only after it. *)
Definition valid_json (text : jsstring) : Prop :=
  exists fuel v rest, parse_value fuel text = Some (v, rest) /\ skip_ws rest = [].

(** ** What [parseCookie] keeps *)

(** The pieces of the segments of a header, in order: the header cut at
    each semicolon, each segment trimmed and cut at each equals sign. *)
Definition pieces (cookie : jsstring) : list (list jsstring) :=
  map (fun str => split (ch "=") (trim str)) (split (ch ";") cookie).

(** What a segment gives its key, the first piece: the second piece
    decoded, or as it is when the decoder throws on it; [true] when
    there is no second piece and the decoder throws on [undefined]. *)
Definition kept (dec : decoder) (piece : list jsstring) : jsstring * cookie_value :=
  (nth 0 piece [],
   match dec (nth_error piece 1), nth_error piece 1 with
   | Ok s, _ => CString s
   | Throw _, Some raw => CString raw
   | Throw _, None => CTrue
   end).

(** The last value given to a key in a list of bindings. *)
Fixpoint last_binding (k : jsstring) (l : list (jsstring * cookie_value))
  : option cookie_value :=
  match l with
  | [] => None
  | (k', v) :: l' =>
      match last_binding k l' with
      | Some w => Some w
      | None => if bool_decide (k' = k) then Some v else None
      end
  end.

(** ** Characters of a header *)

(** A character of RFC 7230 field-content, as [fieldContentRegExp]
    has it. *)
Definition field_char (c : u16) : bool :=
  let z := code c in
  (z =? 0x09) || within 0x20 0x7e z || within 0x80 0xff z.

Definition field_chars (s : jsstring) : bool := forallb field_char s.

(** A printable ASCII character other than the semicolon. *)
Definition text_char (c : u16) : bool :=
  within 0x20 0x7e (code c) && negb (code c =? 0x3b).

Definition text_chars (s : jsstring) : bool := forallb text_char s.

(** The attribute names [serializeCookie] writes. *)
Definition attribute_names : list jsstring :=
  [js "Max-Age"; js "Domain"; js "Path"; js "Expires"; js "HttpOnly";
   js "Secure"; js "Partitioned"; js "Priority"; js "SameSite"].

(** [s.trimEnd()]; [trim] is [trim_end] after [trim_start]. *)
Definition trim_end (s : jsstring) : jsstring := rev (trim_start (rev s)).

(** The header [header], parsed on its own with the default decoder,
    gives the cookie [name] the value [val]. *)
Definition binds (header name val : jsstring) : Prop :=
  exists m, parse_header decode header = Ok m /\ m !! name = Some (CString val).

(** A cookie name that [parseCookie] can give back: without white
    space, semicolon or equals sign, and neither [__proto__] nor the name
    of an attribute. *)
Definition safe_name (name : jsstring) : bool :=
  negb (existsb is_space name) && negb (includes (ch ";") name)
  && negb (includes (ch "=") name)
  && negb (bool_decide (name = js "__proto__"))
  && negb (bool_decide (name ∈ attribute_names)).

Definition no_semicolon (o : option jsstring) : Prop :=
  forall s, o = Some s -> includes (ch ";") s = false.

(** What holds of every key of a parsed header. *)
Definition key_ok (k : jsstring) : Prop :=
  includes (ch ";") k = false /\ includes (ch "=") k = false
  /\ k <> js "__proto__".

(** JSON data as JavaScript objects hold it: no object has two
    properties of the same name. *)
Fixpoint proper (v : json) : Prop :=
  match v with
  | JArray items =>
      (fix all (l : list json) : Prop :=
         match l with
         | [] => True
         | x :: l' => proper x /\ all l'
         end) items
  | JObject props =>
      NoDup (map fst props)
      /\ (fix all (l : list (jsstring * json)) : Prop :=
            match l with
            | [] => True
            | kv :: l' => proper (snd kv) /\ all l'
            end) props
  | _ => True
  end.

(** ** [src/index.ts]: cookie options, session data and the response *)

Module Handler.

(** A header value of a Lambda response: [boolean | number | string]. *)
Inductive header_value :=
| HBool (b : bool)
| HNumber (n : jsnum)
| HString (s : jsstring).

Definition header_truthy (v : header_value) : bool :=
  match v with
  | HBool b => b
  | HNumber n => truthy (VNumber n)
  | HString s => negb (bool_decide (s = []))
  end.

(** [HandlerResponse]. [statusCode], [body] and [isBase64Encoded] are
    carried along; the functions below never read or write them. *)
Record HandlerResponse := {
  statusCode : Z;
  body : option jsstring;
  isBase64Encoded : option bool;
  headers : option (gmap jsstring header_value);
  multiValueHeaders : option (gmap jsstring (list header_value))
}.

(** [context.clientContext], of which [sessionCookieData] alone is read
    or written here; and [HandlerContext]. The session data is taken at
    the type [getSession] declares for it, an object ([None] is
    [undefined] or [null]); its values can be any JSON data. *)
Record ClientContext := {
  sessionCookieData : option (list (jsstring * JSON.json))
}.

Record HandlerContext := {
  clientContext : option ClientContext
}.

(** The variables of [process.env] that [getCookieOptions] reads. *)
Record options_env := {
  SESSION_COOKIE_HTTPONLY : option jsstring;
  SESSION_COOKIE_SECURE : option jsstring;
  SESSION_COOKIE_SAMESITE : option jsstring;
  SESSION_COOKIE_MAX_AGE_SPAN : option jsstring;
  SESSION_COOKIE_DOMAIN : option jsstring;
  SESSION_COOKIE_PATH : option jsstring
}.

(** *** [parseInt] *)

Definition digit_in (radix : Z) (c : u16) : option Z :=
  match hex_value c with
  | Some d => if d <? radix then Some d else None
  | None => None
  end.

(** The values of the leading digits of [s] in the radix. *)
Fixpoint leading_digits (radix : Z) (s : jsstring) : list Z :=
  match s with
  | c :: s' =>
      match digit_in radix c with
      | Some d => d :: leading_digits radix s'
      | None => []
      end
  | [] => []
  end.

Definition radix_value (radix : Z) (ds : list Z) : Z :=
  fold_left (fun acc d => radix * acc + d) ds 0.

(** The Number value for a non-negative integer: the nearest double,
    a tie going to the even mantissa; the integer itself below 2^53.
    [None] is [Infinity]. *)
Definition nearest_double (v : Z) : option Z :=
  let sh := Z.log2 v - 52 in
  if sh <=? 0 then Some v
  else
    let q := v / 2 ^ sh in
    let r := v mod 2 ^ sh in
    let half := 2 ^ (sh - 1) in
    let q := if (half <? r) || ((r =? half) && Z.odd q) then q + 1 else q in
    if 2 ^ 1024 <=? q * 2 ^ sh then None else Some (q * 2 ^ sh).

Definition reads_as (x c : Z) : bool :=
  match nearest_double c with
  | Some y => y =? x
  | None => false
  end.

(** The decimal [s * 10^p] that Number::toString prints for the double
    [x], an integer: the one with the fewest digits that reads back as
    [x], the closest to [x] when there are two, the even one when they
    are as close. The search goes down from the power [p]. *)
Fixpoint shortest_from (fuel : nat) (p : Z) (x : Z) : Z * Z :=
  match fuel with
  | O => (x, 0)
  | S fuel' =>
      let s := x / 10 ^ p in
      let below := s * 10 ^ p in
      let above := (s + 1) * 10 ^ p in
      match reads_as x below, reads_as x above with
      | true, true =>
          if x - below <? above - x then (s, p)
          else if above - x <? x - below then (s + 1, p)
          else if Z.even s then (s, p) else (s + 1, p)
      | true, false => (s, p)
      | false, true => (s + 1, p)
      | false, false => shortest_from fuel' (p - 1) x
      end
  end.

Definition shortest (x : Z) : Z * Z :=
  let p := Z.log2 x / 3 + 1 in
  shortest_from (S (Z.to_nat p)) p x.

(** The number with the given sign and magnitude. *)
Definition number_of (negative : bool) (v : Z) : jsnum :=
  let signed (z : Z) := if negative then - z else z in
  if v <=? 2 ^ 53 then Finite (signed v) 0
  else
    match nearest_double v with
    | None => Infinity negative
    | Some x => let '(s, p) := shortest x in Finite (signed s) p
    end.

(** A leading sign, and whether it is a minus. *)
Definition read_sign (s : jsstring) : bool * jsstring :=
  match s with
  | c :: s' =>
      if bool_decide (c = ch "-") then (true, s')
      else if bool_decide (c = ch "+") then (false, s')
      else (false, s)
  | [] => (false, s)
  end.

(** The radix, 16 after [0x] or [0X] and 10 otherwise. *)
Definition read_radix (s : jsstring) : Z * jsstring :=
  match s with
  | z :: x :: s' =>
      if bool_decide (z = ch "0")
         && (bool_decide (x = ch "x") || bool_decide (x = ch "X"))
      then (16, s') else (10, s)
  | _ => (10, s)
  end.

(** What [parseInt(input)] reads, without a radix: leading white space,
    a sign, [0x] or [0X] for radix 16, then the digits of the radix up
    to the first other character. [undefined] reads as the string
    ["undefined"]. *)
Definition integer_prefix (input : option jsstring) : bool * Z * list Z :=
  let '(negative, s) := read_sign (trim_start (default (js "undefined") input)) in
  let '(radix, s) := read_radix s in
  (negative, radix, leading_digits radix s).

(** [parseInt(input)]: [NaN] when there is no digit. Node rounds the
    integer that the digits denote, all of them, to the nearest
    double. *)
Definition parseInt (input : option jsstring) : jsnum :=
  let '(negative, radix, ds) := integer_prefix input in
  match ds with
  | [] => NaN
  | _ => number_of negative (radix_value radix ds)
  end.

(** The integer that the digits read by [parseInt] denote, 0 when
    there is no digit. *)
Definition integer_value (input : option jsstring) : Z :=
  let '(_, radix, ds) := integer_prefix input in radix_value radix ds.

Definition SESSION_COOKIE_MAX_AGE_SPAN_DEFAULT : Z := 60 * 60 * 24 * 7.

(** [getSession(context)]: the session data, and the context as the
    call leaves it. *)
Definition getSession (context : option HandlerContext)
  : result (list (jsstring * JSON.json)) * option HandlerContext :=
  match context with
  | Some {| clientContext := Some c |} =>
      match sessionCookieData c with
      | Some session => (Ok session, context)
      | None =>
          (Ok [],
           Some {| clientContext := Some {| sessionCookieData := Some [] |} |})
      end
  | _ =>
      (Throw (Error (js "`getSession()` requires a valid Lambda `context` object as an argument.")),
       context)
  end.

(** [crypto.randomBytes(32).toString('base64')] *)
Definition generateSecretKey : M jsstring := fun g =>
  let '(bytes, g') := randomBytes 32 g in
  (Ok (base64_encode bytes), g').

Definition Set_Cookie : jsstring := js "Set-Cookie".

(** The first statements of [setCookie] and of [rmCookie]: after them
    [response.multiValueHeaders['Set-Cookie']] is an array. *)
Definition with_set_cookie (response : HandlerResponse) : HandlerResponse :=
  let multi := default ∅ (multiValueHeaders response) in
  let multi :=
    match multi !! Set_Cookie with
    | Some _ => multi
    | None => <[Set_Cookie := []]> multi
    end in
  {| statusCode := statusCode response; body := body response;
     isBase64Encoded := isBase64Encoded response;
     headers := headers response; multiValueHeaders := Some multi |}.

(** [response.multiValueHeaders['Set-Cookie'].push(v)], once the array
    is there. *)
Definition push (v : header_value) (response : HandlerResponse) : HandlerResponse :=
  {| statusCode := statusCode response; body := body response;
     isBase64Encoded := isBase64Encoded response;
     headers := headers response;
     multiValueHeaders :=
       Some (alter (fun l => l ++ [v]) Set_Cookie
               (default ∅ (multiValueHeaders response))) |}.

(** Move a truthy [response.headers['Set-Cookie']] to the array. *)
Definition move_header (response : HandlerResponse) : HandlerResponse :=
  match headers response with
  | Some h =>
      match h !! Set_Cookie with
      | Some v =>
          if header_truthy v then
            let response := push v response in
            {| statusCode := statusCode response; body := body response;
               isBase64Encoded := isBase64Encoded response;
               headers := Some (delete Set_Cookie h);
               multiValueHeaders := multiValueHeaders response |}
          else response
      | None => response
      end
  | None => response
  end.

(** [{ ...session, ...newData }]: the properties of [session], those
    that [newData] has too with its values, then the others of
    [newData]. *)
Definition spread (session newData : list (jsstring * JSON.json))
  : list (jsstring * JSON.json) :=
  fold_left (fun acc kv => JSON.set_prop (fst kv) (snd kv) acc) newData session.

(** What a call that mutates its arguments leaves: its outcome, the
    response object and the context object. *)
Record outcome_of (A : Type) := {
  returned : result A;
  response_after : HandlerResponse;
  context_after : option HandlerContext
}.

Arguments returned {A} _.
Arguments response_after {A} _.
Arguments context_after {A} _.

Section Handler.
Variable node : process.
Variable env : options_env.

(** [getCookieOptions()] *)
Definition getCookieOptions : cookie_options :=
  let httpOnly := negb (bool_decide (SESSION_COOKIE_HTTPONLY env = Some (js "0"))) in
  let secure :=
    if bool_decide (SESSION_COOKIE_SECURE env = Some (js "0"))
    then VUndefined else VBool true in
  let sameSite :=
    match SESSION_COOKIE_SAMESITE env with
    | Some s =>
        if bool_decide (s ∈ [js "Strict"; js "Lax"; js "None"])
        then toLowerCase s else js "lax"
    | None => js "lax"
    end in
  let maxAge :=
    if negb (isNaN (parseInt (SESSION_COOKIE_MAX_AGE_SPAN env)))
    then parseInt (SESSION_COOKIE_MAX_AGE_SPAN env)
    else Finite SESSION_COOKIE_MAX_AGE_SPAN_DEFAULT 0 in
  {|
    opt_encode := encode_absent;
    maxAge := Some maxAge;
    domain := nonempty (SESSION_COOKIE_DOMAIN env);
    path := match nonempty (SESSION_COOKIE_PATH env) with
            | Some p => Some p
            | None => Some (js "/")
            end;
    expires := VUndefined;
    httpOnly := httpOnly;
    secure := secure;
    partitioned := VUndefined;
    priority := VUndefined;
    sameSite := VString sameSite
  |}.

(** [setCookie(response, ctx, newData)] *)
Definition setCookie (response : HandlerResponse) (ctx : option HandlerContext)
    (newData : list (jsstring * JSON.json)) : outcome_of HandlerResponse :=
  let response := with_set_cookie response in
  match getSession ctx with
  | (Throw e, ctx) =>
      {| returned := Throw e; response_after := response; context_after := ctx |}
  | (Ok session, ctx) =>
      let newSession := spread session newData in
      let response := move_header response in
      match
        (let* key := getSecretKey node in
         let* cookieValue := createCookie node (JSON.JObject newSession) (Some key) in
         let* cookieName := getCookieName node in
         serializeCookie cookieName cookieValue getCookieOptions)
      with
      | Throw e =>
          {| returned := Throw e; response_after := response; context_after := ctx |}
      | Ok header =>
          let response := push (HString header) response in
          {| returned := Ok response; response_after := response; context_after := ctx |}
      end
  end.

(** [rmCookie(response)]: its outcome and the response as it leaves it. *)
Definition rmCookie (response : HandlerResponse)
  : result HandlerResponse * HandlerResponse :=
  let response := with_set_cookie response in
  match getCookieName node with
  | Throw e => (Throw e, response)
  | Ok name =>
      let response :=
        push (HString (name ++ js "=deleted; path=/; expires=Thu, 01 Jan 1970 00:00:00 GMT"))
          response in
      (Ok response, response)
  end.

End Handler.

End Handler.

(** The [Set-Cookie] headers in [response.multiValueHeaders], and the
    truthy [response.headers['Set-Cookie']] if there is one. *)
Definition set_cookies (response : Handler.HandlerResponse)
  : list Handler.header_value :=
  default [] (default ∅ (Handler.multiValueHeaders response) !! Handler.Set_Cookie).

Definition single_set_cookie (response : Handler.HandlerResponse)
  : list Handler.header_value :=
  match Handler.headers response with
  | Some h =>
      match h !! Handler.Set_Cookie with
      | Some v => if Handler.header_truthy v then [v] else []
      | None => []
      end
  | None => []
  end.

(** The other entries of the two header tables. *)
Definition multi_header (response : Handler.HandlerResponse) (k : jsstring)
  : option (list Handler.header_value) :=
  default ∅ (Handler.multiValueHeaders response) !! k.

Definition single_header (response : Handler.HandlerResponse) (k : jsstring)
  : option Handler.header_value :=
  default ∅ (Handler.headers response) !! k.

(** Sample data for the response side. *)
Module Fixture.

(** An environment that sets none of the option variables. *)
Definition no_options : Handler.options_env := {|
  Handler.SESSION_COOKIE_HTTPONLY := None;
  Handler.SESSION_COOKIE_SECURE := None;
  Handler.SESSION_COOKIE_SAMESITE := None;
  Handler.SESSION_COOKIE_MAX_AGE_SPAN := None;
  Handler.SESSION_COOKIE_DOMAIN := None;
  Handler.SESSION_COOKIE_PATH := None
|}.

(** An environment that asks for a maximal age of four hundred nines. *)
Definition long_max_age : Handler.options_env := {|
  Handler.SESSION_COOKIE_HTTPONLY := None;
  Handler.SESSION_COOKIE_SECURE := None;
  Handler.SESSION_COOKIE_SAMESITE := None;
  Handler.SESSION_COOKIE_MAX_AGE_SPAN := Some (repeat (ch "9") 400);
  Handler.SESSION_COOKIE_DOMAIN := None;
  Handler.SESSION_COOKIE_PATH := None
|}.

(** A payload with a lone surrogate, [{ a: '\ud800' }]. *)
Definition lone_surrogate : JSON.json :=
  JSON.JObject [(js "a", JSON.JString [unit 0xd800])].

(** The response of the test function, [{ statusCode: 200, body }]. *)
Definition response : Handler.HandlerResponse := {|
  Handler.statusCode := 200;
  Handler.body := Some (jq "{'hello':'hello'}");
  Handler.isBase64Encoded := None;
  Handler.headers := None;
  Handler.multiValueHeaders := None
|}.

(** A context without session data yet. *)
Definition context : option Handler.HandlerContext :=
  Some {| Handler.clientContext := Some {| Handler.sessionCookieData := None |} |}.

Definition newData : list (jsstring * JSON.json) :=
  [(js "identifier", JSON.JString (js "abc")); (js "ts", JSON.JString (js "1"))].

Definition cookie : jsstring :=
  js "wXT2a9YFiG2T1GWbAJxP1BQTupUeyJpZGVudGlmaWVyIjoiYWJjIiwidHMiOiIxIn0=".

Definition header : jsstring :=
  js "session=wXT2a9YFiG2T1GWbAJxP1BQTupUeyJpZGVudGlmaWVyIjoiYWJjIiwidHMiOiIxIn0%3D; Max-Age=604800; Path=/; HttpOnly; Secure; SameSite=Lax".

(** What [setCookie] leaves on this data, under the key of the tests. *)
Definition response_set : Handler.HandlerResponse :=
  Handler.push (Handler.HString header)
    (Handler.move_header (Handler.with_set_cookie response)).

Definition set : Handler.outcome_of Handler.HandlerResponse := {|
  Handler.returned := Ok response_set;
  Handler.response_after := response_set;
  Handler.context_after :=
    Some {| Handler.clientContext :=
              Some {| Handler.sessionCookieData := Some [] |} |}
|}.

End Fixture.

(** * Facts about the platform models *)

(** ** Bytes and code units *)

Lemma to_Z_range (b : byte) : 0 <= to_Z b < 256.
Proof.
  unfold to_Z. pose proof (Byte.to_N_bounded b) as H.
  split; [apply N2Z.is_nonneg|]. apply N2Z.inj_le in H. simpl in H. lia.
Qed.

Lemma of_Z_to_Z (b : byte) : of_Z (to_Z b) = b.
Proof.
  unfold of_Z. rewrite Z.mod_small by apply to_Z_range.
  unfold to_Z. rewrite N2Z.id, Byte.of_to_N. reflexivity.
Qed.

Lemma to_Z_of_Z (z : Z) : 0 <= z < 256 -> to_Z (of_Z z) = z.
Proof.
  intros Hz. unfold of_Z, to_Z. rewrite Z.mod_small by lia.
  destruct (Byte.of_N (Z.to_N z)) as [b|] eqn:E.
  - apply Byte.to_of_N in E. rewrite E. lia.
  - apply Byte.of_N_None_iff in E. lia.
Qed.

Ltac zlia := Z.div_mod_to_equations; lia.

Lemma to_Z_of_Z_mod (z : Z) : to_Z (of_Z z) = z mod 256.
Proof.
  unfold of_Z. rewrite <- (Z.mod_mod z 256) at 1 by lia.
  apply (to_Z_of_Z (z mod 256)). zlia.
Qed.

Lemma of_Z_inj_range (z : Z) (b : byte) : 0 <= z < 256 -> z = to_Z b -> of_Z z = b.
Proof. intros _ ->. apply of_Z_to_Z. Qed.

Lemma be_bytes_length (n : nat) (z : Z) : length (be_bytes n z) = n.
Proof.
  revert z. induction n as [|n IH]; intros z; simpl; [reflexivity|].
  rewrite length_app, IH. simpl. lia.
Qed.

Lemma code_range (c : u16) : 0 <= code c < 65536.
Proof.
  unfold code. pose proof (to_Z_range (fst c)). pose proof (to_Z_range (snd c)). lia.
Qed.

Lemma unit_code (c : u16) : unit (code c) = c.
Proof.
  destruct c as [h l]. unfold unit, code. simpl.
  pose proof (to_Z_range h). pose proof (to_Z_range l).
  f_equal.
  - assert ((256 * to_Z h + to_Z l) / 256 = to_Z h) as -> by (Z.div_mod_to_equations; lia).
    apply of_Z_to_Z.
  - unfold of_Z. replace ((256 * to_Z h + to_Z l) mod 256) with (to_Z l mod 256)
      by (rewrite Z.add_comm, Z.mul_comm, Z.mod_add by lia; reflexivity).
    apply of_Z_to_Z.
Qed.

Lemma code_unit (z : Z) : 0 <= z < 65536 -> code (unit z) = z.
Proof.
  intros Hz. unfold code, unit. simpl. rewrite !to_Z_of_Z_mod. zlia.
Qed.

Lemma unit_eq (z : Z) (c : u16) : z = code c -> unit z = c.
Proof. intros ->. apply unit_code. Qed.

(** ** Digest sizes *)

Lemma sha1_length (msg : list byte) : length (Crypto.sha1 msg) = 20%nat.
Proof.
  unfold Crypto.sha1.
  destruct (fold_left _ _ _) as [[[[h0 h1] h2] h3] h4].
  rewrite !length_app, !be_bytes_length. reflexivity.
Qed.

Lemma sha2_length (p : Crypto.sha2_params) (msg : list byte) :
  length (Crypto.sha2 p msg) = (8 * Z.to_nat (Crypto.p_w p / 8))%nat.
Proof.
  unfold Crypto.sha2. generalize (Crypto.sha2_state p msg) as H. intros H.
  change (seq 0 8) with [0; 1; 2; 3; 4; 5; 6; 7]%nat. simpl.
  rewrite !length_app, !be_bytes_length. simpl. lia.
Qed.

Lemma hash_length (a : Crypto.algorithm) (msg : list byte) :
  length (Crypto.hash a msg) = Crypto.digest_size a.
Proof.
  destruct a.
  - apply sha1_length.
  - exact (sha2_length Crypto.sha256_params msg).
  - exact (sha2_length Crypto.sha512_params msg).
Qed.

Lemma hmac_length (a : Crypto.algorithm) (key data : list byte) :
  length (Crypto.hmac a key data) = Crypto.digest_size a.
Proof. unfold Crypto.hmac. apply hash_length. Qed.


(** ** UTF-8: decoding an encoded well-formed string *)

Lemma in_range_true (lo hi : Z) (b : byte) :
  lo <= to_Z b <= hi -> in_range lo hi b = true.
Proof. unfold in_range. intros. apply andb_true_intro. split; apply Z.leb_le; lia. Qed.

Lemma is_high_spec (z : Z) : is_high z = true <-> 0xd800 <= z <= 0xdbff.
Proof. unfold is_high. rewrite andb_true_iff, !Z.leb_le. reflexivity. Qed.

Lemma is_low_spec (z : Z) : is_low z = true <-> 0xdc00 <= z <= 0xdfff.
Proof. unfold is_low. rewrite andb_true_iff, !Z.leb_le. reflexivity. Qed.

Lemma is_high_false (z : Z) : is_high z = false <-> z < 0xd800 \/ 0xdbff < z.
Proof.
  unfold is_high. rewrite andb_false_iff, !Z.leb_gt. reflexivity.
Qed.

Lemma is_low_false (z : Z) : is_low z = false <-> z < 0xdc00 \/ 0xdfff < z.
Proof.
  unfold is_low. rewrite andb_false_iff, !Z.leb_gt. reflexivity.
Qed.

Lemma utf8_decode_1 (b : byte) (r : list byte) :
  to_Z b < 0x80 -> utf8_decode (b :: r) = unit (to_Z b) :: utf8_decode r.
Proof.
  intros H. cbn [utf8_decode].
  destruct (Z.ltb_spec (to_Z b) 128); [reflexivity | lia].
Qed.

Lemma utf8_decode_2 (b0 b1 : byte) (r : list byte) :
  0xc2 <= to_Z b0 <= 0xdf -> 0x80 <= to_Z b1 <= 0xbf ->
  utf8_decode (b0 :: b1 :: r)
  = unit ((to_Z b0 - 0xc0) * 64 + cont b1) :: utf8_decode r.
Proof.
  intros H0 H1. cbn [utf8_decode].
  destruct (Z.ltb_spec (to_Z b0) 128); [lia|].
  rewrite (in_range_true 0xc2 0xdf b0), (in_range_true 0x80 0xbf b1) by lia.
  reflexivity.
Qed.

Lemma utf8_decode_3 (b0 b1 b2 : byte) (r : list byte) :
  0xe0 <= to_Z b0 <= 0xef ->
  (if to_Z b0 =? 0xe0 then 0xa0 else 0x80) <= to_Z b1
    <= (if to_Z b0 =? 0xed then 0x9f else 0xbf) ->
  0x80 <= to_Z b2 <= 0xbf ->
  utf8_decode (b0 :: b1 :: b2 :: r)
  = unit ((to_Z b0 - 0xe0) * 4096 + cont b1 * 64 + cont b2) :: utf8_decode r.
Proof.
  intros H0 H1 H2. cbn [utf8_decode].
  destruct (Z.ltb_spec (to_Z b0) 128); [lia|].
  assert (in_range 0xc2 0xdf b0 = false) as ->.
  { unfold in_range. apply andb_false_iff. right. apply Z.leb_gt. lia. }
  rewrite (in_range_true 0xe0 0xef b0) by lia.
  rewrite in_range_true by exact H1.
  rewrite (in_range_true 0x80 0xbf b2) by lia.
  reflexivity.
Qed.

Lemma utf8_decode_4 (b0 b1 b2 b3 : byte) (r : list byte) :
  0xf0 <= to_Z b0 <= 0xf4 ->
  (if to_Z b0 =? 0xf0 then 0x90 else 0x80) <= to_Z b1
    <= (if to_Z b0 =? 0xf4 then 0x8f else 0xbf) ->
  0x80 <= to_Z b2 <= 0xbf -> 0x80 <= to_Z b3 <= 0xbf ->
  utf8_decode (b0 :: b1 :: b2 :: b3 :: r)
  = units_of ((to_Z b0 - 0xf0) * 262144 + cont b1 * 4096 + cont b2 * 64 + cont b3)
      ++ utf8_decode r.
Proof.
  intros H0 H1 H2 H3. cbn [utf8_decode].
  destruct (Z.ltb_spec (to_Z b0) 128); [lia|].
  assert (in_range 0xc2 0xdf b0 = false) as ->.
  { unfold in_range. apply andb_false_iff. right. apply Z.leb_gt. lia. }
  assert (in_range 0xe0 0xef b0 = false) as ->.
  { unfold in_range. apply andb_false_iff. right. apply Z.leb_gt. lia. }
  rewrite (in_range_true 0xf0 0xf4 b0) by lia.
  rewrite in_range_true by exact H1.
  rewrite (in_range_true 0x80 0xbf b2), (in_range_true 0x80 0xbf b3) by lia.
  reflexivity.
Qed.

(** Encoding one code unit below the surrogates or above them. *)
Lemma utf8_step_bmp (c : u16) (s : jsstring) :
  is_high (code c) = false -> is_low (code c) = false ->
  utf8_decode (utf8_encode (c :: s)) = c :: utf8_decode (utf8_encode s).
Proof.
  intros Hh Hl. apply is_high_false in Hh. apply is_low_false in Hl.
  pose proof (code_range c) as Hc.
  cbn [utf8_encode].
  destruct (Z.ltb_spec (code c) 0x80).
  { rewrite utf8_decode_1; rewrite to_Z_of_Z by lia; [|lia].
    f_equal. apply unit_code. }
  destruct (Z.ltb_spec (code c) 0x800).
  { rewrite utf8_decode_2; rewrite ?to_Z_of_Z by zlia; [|zlia..].
    f_equal. apply unit_eq. unfold cont. rewrite to_Z_of_Z by zlia. zlia. }
  assert (is_high (code c) = false) as -> by (apply is_high_false; lia).
  assert (is_low (code c) = false) as -> by (apply is_low_false; lia).
  rewrite utf8_decode_3; rewrite ?to_Z_of_Z by zlia.
  - f_equal. apply unit_eq. unfold cont. rewrite !to_Z_of_Z by zlia. zlia.
  - zlia.
  - destruct (Z.eqb_spec (224 + code c / 4096) 224);
      destruct (Z.eqb_spec (224 + code c / 4096) 237); zlia.
  - zlia.
Qed.

Lemma utf8_step_pair (c d : u16) (s : jsstring) :
  is_high (code c) = true -> is_low (code d) = true ->
  utf8_decode (utf8_encode (c :: d :: s)) = c :: d :: utf8_decode (utf8_encode s).
Proof.
  intros Hh Hl. pose proof Hh as Hh'. pose proof Hl as Hl'.
  apply is_high_spec in Hh'. apply is_low_spec in Hl'.
  cbn [utf8_encode].
  destruct (Z.ltb_spec (code c) 0x80); [lia|].
  destruct (Z.ltb_spec (code c) 0x800); [lia|].
  rewrite Hh, Hl.
  set (cp := 65536 + (code c - 55296) * 1024 + (code d - 56320)).
  assert (0x10000 <= cp <= 0x10ffff) as Hcp by (unfold cp; lia).
  rewrite utf8_decode_4; rewrite ?to_Z_of_Z by zlia.
  - unfold cont. rewrite !to_Z_of_Z by zlia.
    replace ((240 + cp / 262144 - 240) * 262144 + (128 + (cp / 4096) mod 64 - 128) * 4096
             + (128 + (cp / 64) mod 64 - 128) * 64 + (128 + cp mod 64 - 128)) with cp by zlia.
    unfold units_of. destruct (Z.ltb_spec cp 65536); [lia|].
    simpl. f_equal; [|f_equal]; apply unit_eq; unfold cp; zlia.
  - zlia.
  - destruct (Z.eqb_spec (240 + cp / 262144) 240);
      destruct (Z.eqb_spec (240 + cp / 262144) 244); zlia.
  - zlia.
  - zlia.
Qed.

Lemma utf8_roundtrip_len (n : nat) (s : jsstring) :
  (length s <= n)%nat -> well_formed s = true ->
  utf8_decode (utf8_encode s) = s.
Proof.
  revert s. induction n as [|n IH]; intros s Hn Hwf.
  { destruct s; [reflexivity | simpl in Hn; lia]. }
  destruct s as [|c s]; [reflexivity|].
  cbn [well_formed] in Hwf. simpl in Hn.
  destruct (is_high (code c)) eqn:Hh.
  - destruct s as [|d s]; [discriminate|].
    apply andb_true_iff in Hwf as [Hl Hwf]. simpl in Hn.
    rewrite utf8_step_pair by assumption.
    rewrite IH by (assumption || lia). reflexivity.
  - destruct (is_low (code c)) eqn:Hl; [discriminate|].
    rewrite utf8_step_bmp by assumption.
    rewrite IH by (assumption || lia). reflexivity.
Qed.

Lemma utf8_roundtrip (s : jsstring) :
  well_formed s = true -> utf8_decode (utf8_encode s) = s.
Proof. apply (utf8_roundtrip_len (length s)). lia. Qed.


(** ** base64 *)

Lemma list_ind3 {A} (P : list A -> Prop) :
  P [] -> (forall a, P [a]) -> (forall a b, P [a; b]) ->
  (forall a b c l, P l -> P (a :: b :: c :: l)) ->
  forall l, P l.
Proof.
  intros H0 H1 H2 H3. fix IH 1.
  intros [|a [|b [|c l]]]; [exact H0 | apply H1 | apply H2 | apply H3, IH].
Qed.

(** A property of the 64 sextets can be checked by running through them. *)
Lemma sextet_check (f : nat -> bool) (i : Z) :
  forallb f (seq 0 64) = true -> f (Z.to_nat (i mod 64)) = true.
Proof.
  intros H. rewrite forallb_forall in H. apply H, in_seq.
  assert (0 <= i mod 64 < 64) by (apply Z.mod_pos_bound; lia). lia.
Qed.

Lemma unbase64_sextet (i : Z) :
  unbase64 (sextet_char alphabet i) = Some (i mod 64).
Proof.
  assert (0 <= i mod 64 < 64) as Hi by (apply Z.mod_pos_bound; lia).
  pose proof (sextet_check
    (fun n => bool_decide (unbase64 (nth n alphabet (ch "A")) = Some (Z.of_nat n))) i) as H.
  cbv beta in H. rewrite bool_decide_eq_true, Z2Nat.id in H by lia.
  apply H. vm_compute. reflexivity.
Qed.

Lemma sextet_not_pad (i : Z) : sextet_char alphabet i <> pad_char.
Proof.
  pose proof (sextet_check
    (fun n => bool_decide (nth n alphabet (ch "A") <> pad_char)) i) as H.
  cbv beta in H. rewrite bool_decide_eq_true in H.
  apply H. vm_compute. reflexivity.
Qed.

Lemma sextets_cons (i : Z) (s : jsstring) :
  sextets (sextet_char alphabet i :: s) = i mod 64 :: sextets s.
Proof.
  cbn [sextets]. rewrite bool_decide_eq_false_2 by apply sextet_not_pad.
  rewrite unbase64_sextet. reflexivity.
Qed.

Lemma sextets_pad (s : jsstring) : sextets (pad_char :: s) = [].
Proof. cbn [sextets]. rewrite bool_decide_eq_true_2; reflexivity. Qed.

Theorem base64_roundtrip (l : list byte) : base64_decode (base64_encode l) = l.
Proof.
  unfold base64_decode, base64_encode.
  induction l as [|a|a b|a b c l IH] using list_ind3.
  - reflexivity.
  - cbn [base64_with pads app repeat]. rewrite !sextets_cons, sextets_pad.
    cbn [pack]. pose proof (to_Z_range a).
    f_equal. apply of_Z_inj_range; zlia.
  - cbn [base64_with pads app repeat]. rewrite !sextets_cons, sextets_pad.
    cbn [pack]. pose proof (to_Z_range a). pose proof (to_Z_range b).
    f_equal; [|f_equal]; apply of_Z_inj_range; zlia.
  - cbn [base64_with]. rewrite !sextets_cons. cbn [pack]. rewrite IH.
    pose proof (to_Z_range a). pose proof (to_Z_range b). pose proof (to_Z_range c).
    f_equal; [|f_equal; [|f_equal]]; apply of_Z_inj_range; zlia.
Qed.


(** ** Signatures *)

Lemma url_safe_sextet (i : Z) :
  url_safe_unit (sextet_char alphabet i) = [sextet_char alphabet_url i].
Proof.
  pose proof (sextet_check
    (fun n => bool_decide (url_safe_unit (nth n alphabet (ch "A"))
                           = [nth n alphabet_url (ch "A")])) i) as H.
  cbv beta in H. rewrite bool_decide_eq_true in H.
  apply H. vm_compute. reflexivity.
Qed.

Lemma sextet_url_safe (i : Z) : url_safe_char (sextet_char alphabet_url i).
Proof.
  pose proof (sextet_check
    (fun n => let c := nth n alphabet_url (ch "A") in
              bool_decide (c <> ch "/") && bool_decide (c <> ch "+")
              && bool_decide (c <> ch "=")) i) as H.
  cbv beta zeta in H. rewrite !andb_true_iff, !bool_decide_eq_true in H.
  unfold url_safe_char, sextet_char. 
  destruct H as [[? ?] ?]; [vm_compute; reflexivity | auto].
Qed.

(** Replacing ['/'], ['+'] and ['='] in padded base64 gives the
    unpadded URL-safe rendering. *)
Lemma url_safe_base64 (l : list byte) :
  url_safe (base64_encode l) = base64_with alphabet_url false l.
Proof.
  unfold url_safe, base64_encode.
  induction l as [|a|a b|a b c l IH] using list_ind3.
  - reflexivity.
  - cbn [base64_with pads app repeat flat_map]. rewrite !url_safe_sextet. reflexivity.
  - cbn [base64_with pads app repeat flat_map]. rewrite !url_safe_sextet. reflexivity.
  - cbn [base64_with flat_map]. rewrite !url_safe_sextet, IH. reflexivity.
Qed.

Lemma base64url_safe (l : list byte) :
  Forall url_safe_char (base64_with alphabet_url false l).
Proof.
  induction l as [|a|a b|a b c l IH] using list_ind3; cbn [base64_with pads app];
    repeat first [apply Forall_nil | constructor; [apply sextet_url_safe|]];
    exact IH.
Qed.

Lemma base64url_length (l : list byte) :
  Z.of_nat (length (base64_with alphabet_url false l))
  = (4 * Z.of_nat (length l) + 2) / 3.
Proof.
  induction l as [|a|a b|a b c l IH] using list_ind3; try reflexivity.
  cbn [base64_with length]. rewrite !Nat2Z.inj_succ, IH. zlia.
Qed.

Lemma sign_default (d : data) (key : jsstring) :
  sign d key default_sign
  = base64_with alphabet_url false
      (Crypto.hmac Crypto.sha1_alg (utf8_encode key) (data_bytes d)).
Proof. unfold sign. cbn. apply url_safe_base64. Qed.

Lemma sign_default_length (d : data) (key : jsstring) :
  length (sign d key default_sign) = SIGNATURE_DIGEST_LENGTH.
Proof.
  rewrite sign_default. apply Nat2Z.inj.
  rewrite base64url_length, hmac_length. reflexivity.
Qed.

(** ** Timing-safe comparison *)

Lemma scan_refl (a : list byte) : scan a a = true.
Proof.
  induction a as [|x a IH]; cbn [scan]; [reflexivity|].
  rewrite bool_decide_eq_true_2 by reflexivity. exact IH.
Qed.

Lemma bufferEqual_same_length (node : process) (a b : list byte) :
  length a = length b ->
  exists r, bufferEqual node a b = Ok r /\ (a = b -> r = true).
Proof.
  intros Hlen. unfold bufferEqual, timingSafeEqual.
  rewrite bool_decide_eq_true_2 by exact Hlen. cbn [negb].
  destruct (has_timingSafeEqual node).
  - eexists. split; [reflexivity|]. intros ->. apply bool_decide_eq_true_2. reflexivity.
  - eexists. split; [reflexivity|]. intros ->. apply scan_refl.
Qed.

Lemma timeSafeCompare_outcome (node : process) (a b : jsstring) (g : rng) :
  outcome (timeSafeCompare node a b) g = Ok (bool_decide (a = b)).
Proof.
  unfold outcome, timeSafeCompare. cbn [randomBytes fst].
  set (key := map g (seq 0 32)).
  destruct (bufferEqual_same_length node
              (Crypto.hmac Crypto.sha256_alg key (utf8_encode a))
              (Crypto.hmac Crypto.sha256_alg key (utf8_encode b)))
    as (r & -> & Hr).
  { rewrite !hmac_length. reflexivity. }
  cbn [bind]. unfold str_eqb. f_equal.
  destruct (decide (a = b)) as [->|Hne].
  - rewrite Hr by reflexivity. rewrite bool_decide_eq_true_2; reflexivity.
  - rewrite (bool_decide_eq_false_2 _ Hne). apply andb_false_r.
Qed.


(** ** Well-formedness of serialized JSON *)

Lemma plain_app (a b : jsstring) : plain (a ++ b) = plain a && plain b.
Proof. apply forallb_app. Qed.

Lemma plain_well_formed (s : jsstring) : plain s = true -> well_formed s = true.
Proof.
  induction s as [|c s IH]; [reflexivity|]. cbn [plain forallb well_formed].
  unfold plain_unit. intros H. apply andb_true_iff in H as [Hc Hs].
  apply andb_true_iff in Hc as [Hh Hl].
  apply negb_true_iff in Hh, Hl. rewrite Hh, Hl. apply IH, Hs.
Qed.

Lemma well_formed_app_len (n : nat) (a b : jsstring) :
  (length a <= n)%nat ->
  well_formed a = true -> well_formed b = true -> well_formed (a ++ b) = true.
Proof.
  revert a. induction n as [|n IH]; intros a Hn Ha Hb.
  { destruct a; [exact Hb | simpl in Hn; lia]. }
  destruct a as [|c a]; [exact Hb|].
  cbn [well_formed app] in *. simpl in Hn.
  destruct (is_high (code c)).
  - destruct a as [|d a]; [discriminate|]. cbn [app].
    apply andb_true_iff in Ha as [Hd Ha]. rewrite Hd. cbn [andb].
    simpl in Hn. apply IH; [lia | assumption..].
  - destruct (is_low (code c)); [discriminate|]. apply IH; [lia | assumption..].
Qed.

Lemma well_formed_app (a b : jsstring) :
  well_formed a = true -> well_formed b = true -> well_formed (a ++ b) = true.
Proof. apply (well_formed_app_len (length a)). lia. Qed.

Lemma plain_unit_small (z : Z) : 0 <= z < 0x80 -> plain_unit (unit z) = true.
Proof.
  intros Hz. unfold plain_unit. rewrite code_unit by lia.
  assert (is_high z = false) as -> by (apply is_high_false; lia).
  assert (is_low z = false) as -> by (apply is_low_false; lia).
  reflexivity.
Qed.

Lemma plain_nth (n : nat) (l : jsstring) (d : u16) :
  plain l = true -> plain_unit d = true -> plain_unit (nth n l d) = true.
Proof.
  intros Hl Hd. unfold plain in Hl. rewrite forallb_forall in Hl.
  destruct (nth_in_or_default n l d) as [H| ->]; [apply Hl, H | exact Hd].
Qed.

Lemma plain_hex_digit (i : Z) : plain_unit (hex_digit i) = true.
Proof. apply plain_nth; reflexivity. Qed.

Lemma plain_hex4 (z : Z) : plain (hex4 z) = true.
Proof.
  unfold hex4. cbn [plain forallb]. rewrite !plain_hex_digit. reflexivity.
Qed.

Lemma plain_repeat (c : u16) (n : nat) : plain_unit c = true -> plain (repeat c n) = true.
Proof. intros Hc. induction n as [|n IH]; cbn; [reflexivity|]. rewrite Hc. exact IH. Qed.

Lemma plain_firstn (n : nat) (s : jsstring) : plain s = true -> plain (firstn n s) = true.
Proof.
  revert n. induction s as [|c s IH]; intros [|n] H; try reflexivity.
  cbn [firstn plain forallb] in *. apply andb_true_iff in H as [-> H].
  apply IH, H.
Qed.

Lemma plain_skipn (n : nat) (s : jsstring) : plain s = true -> plain (skipn n s) = true.
Proof.
  revert n. induction s as [|c s IH]; intros [|n] H; try reflexivity; [exact H|].
  cbn [skipn plain forallb] in *. apply andb_true_iff in H as [_ H].
  apply IH, H.
Qed.

Lemma plain_digits (fuel : nat) (n : Z) (acc : jsstring) :
  plain acc = true -> plain (digits fuel n acc) = true.
Proof.
  revert n acc. induction fuel as [|fuel IH]; intros n acc Hacc; [exact Hacc|].
  cbn [digits].
  assert (plain (unit (48 + n mod 10) :: acc) = true) as H.
  { cbn [plain forallb]. rewrite plain_unit_small by zlia. exact Hacc. }
  destruct (n <? 10); [exact H | apply IH, H].
Qed.

Lemma plain_decimal (n : Z) : plain (decimal n) = true.
Proof.
  unfold decimal. destruct (n <? 0).
  - cbn [plain forallb]. rewrite plain_digits by reflexivity. reflexivity.
  - apply plain_digits. reflexivity.
Qed.

Ltac plain_tac :=
  repeat first
    [ reflexivity
    | rewrite plain_app
    | apply andb_true_intro; split
    | apply plain_decimal
    | apply plain_hex4
    | apply plain_firstn
    | apply plain_skipn
    | apply plain_repeat
    | match goal with
      | |- plain (if ?b then _ else _) = true => destruct b
      | |- plain (match ?x with _ => _ end) = true => destruct x eqn:?
      end ].

Lemma plain_number (m e : Z) : plain (number_to_string m e) = true.
Proof.
  unfold number_to_string, zeros.
  destruct (normalize _ m e) as [m' e'].
  destruct (m' =? 0); [reflexivity|].
  pose proof (plain_decimal (Z.abs m')) as Hds.
  destruct (decimal (Z.abs m')) as [|d ds] eqn:E.
  - plain_tac.
  - cbn [plain forallb] in Hds. apply andb_true_iff in Hds as [Hd Hds0].
    assert (plain (d :: ds) = true) as Hdds
        by (cbn [plain forallb]; rewrite Hd; exact Hds0).
    repeat first
      [ reflexivity | assumption
      | rewrite plain_app
      | apply andb_true_intro; split
      | apply plain_decimal
      | apply plain_firstn
      | apply plain_skipn
      | apply plain_repeat
      | match goal with
        | |- plain (if ?b then _ else _) = true => destruct b
        | |- plain (match ?x with _ => _ end) = true => destruct x eqn:?
        | |- plain (?c :: ?s) = true =>
            change (plain_unit c && plain s = true)
        end ].
Qed.

Lemma well_formed_escape_unit (c : u16) :
  is_high (code c) = false -> is_low (code c) = false -> plain (escape_unit c) = true.
Proof.
  intros Hh Hl. unfold escape_unit.
  repeat match goal with
         | |- plain (if ?b then _ else _) = true => destruct b
         end; try reflexivity.
  - rewrite plain_app, plain_hex4. reflexivity.
  - cbn [plain forallb]. unfold plain_unit. rewrite Hh, Hl. reflexivity.
Qed.

Lemma well_formed_escape_len (n : nat) (s : jsstring) :
  (length s <= n)%nat -> well_formed (escape s) = true.
Proof.
  revert s. induction n as [|n IH]; intros s Hn.
  { destruct s; [reflexivity | simpl in Hn; lia]. }
  destruct s as [|c s]; [reflexivity|]. simpl in Hn. cbn [escape].
  assert (forall z r, well_formed r = true ->
                      well_formed (js "\u" ++ hex4 z ++ r) = true) as Hesc.
  { intros z r Hr. apply (well_formed_app (js "\u")); [reflexivity|].
    apply well_formed_app; [apply plain_well_formed, plain_hex4 | exact Hr]. }
  destruct (is_high (code c)) eqn:Hh.
  - destruct s as [|d s].
    + rewrite <- (app_nil_r (hex4 (code c))). apply Hesc. reflexivity.
    + simpl in Hn. destruct (is_low (code d)) eqn:Hl.
      * cbn [well_formed]. rewrite Hh, Hl. cbn [andb]. apply IH. lia.
      * apply Hesc. apply IH. simpl. lia.
  - destruct (is_low (code c)) eqn:Hl.
    + apply Hesc. apply IH. lia.
    + apply well_formed_app; [|apply IH; lia].
      apply plain_well_formed, well_formed_escape_unit; assumption.
Qed.

Lemma well_formed_quote (s : jsstring) : well_formed (quote s) = true.
Proof.
  unfold quote. apply (well_formed_app [dquote]); [reflexivity|].
  apply well_formed_app; [|reflexivity].
  apply (well_formed_escape_len (length s)). lia.
Qed.

Lemma well_formed_join (sep : jsstring) (l : list jsstring) :
  well_formed sep = true -> Forall (fun s => well_formed s = true) l ->
  well_formed (join sep l) = true.
Proof.
  intros Hsep Hl. induction Hl as [|x l Hx Hl IH]; [reflexivity|].
  cbn [join]. destruct l as [|y l]; [exact Hx|].
  apply well_formed_app; [exact Hx|]. apply well_formed_app; [exact Hsep | exact IH].
Qed.

Lemma Forall_insert_sorted {A} (Q : jsstring * A -> Prop) kv l :
  Q kv -> Forall Q l -> Forall Q (insert_sorted kv l).
Proof.
  intros Hkv Hl. induction Hl as [|x l Hx Hl IH]; cbn [insert_sorted].
  - constructor; [exact Hkv | constructor].
  - destruct (str_ltb (fst kv) (fst x)).
    + constructor; [exact Hkv|]. constructor; assumption.
    + constructor; assumption.
Qed.

Lemma Forall_sort_props {A} (Q : jsstring * A -> Prop) l :
  Forall Q l -> Forall Q (sort_props l).
Proof.
  unfold sort_props. induction 1 as [|x l Hx Hl IH]; cbn [fold_right].
  - constructor.
  - apply Forall_insert_sorted; assumption.
Qed.

Lemma json_induction (P : json -> Prop) :
  P JNull -> (forall b, P (JBool b)) -> (forall m e, P (JNumber m e)) ->
  (forall s, P (JString s)) ->
  (forall items, Forall P items -> P (JArray items)) ->
  (forall props, Forall (fun kv => P (snd kv)) props -> P (JObject props)) ->
  forall v, P v.
Proof.
  intros Hnull Hbool Hnum Hstr Harr Hobj. fix IH 1. intros [| b | m e | s | items | props].
  - exact Hnull.
  - apply Hbool.
  - apply Hnum.
  - apply Hstr.
  - apply Harr. induction items as [|v items IHitems]; constructor; [apply IH | exact IHitems].
  - apply Hobj. induction props as [|[k v] props IHprops]; constructor;
      [apply IH | exact IHprops].
Qed.

Theorem serialize_well_formed (v : json) : well_formed (serialize v) = true.
Proof.
  induction v as [| b | m e | s | items IH | props IH] using json_induction;
    cbn [serialize].
  - reflexivity.
  - destruct b; reflexivity.
  - apply plain_well_formed, plain_number.
  - apply well_formed_quote.
  - apply (well_formed_app (js "[")); [reflexivity|].
    apply well_formed_app; [|reflexivity].
    apply well_formed_join; [reflexivity|].
    apply Forall_map. exact IH.
  - apply (well_formed_app (js "{")); [reflexivity|].
    apply well_formed_app; [|reflexivity].
    apply well_formed_join; [reflexivity|].
    apply Forall_map.
    apply (Forall_sort_props
             (fun kv => well_formed (member kv) = true)).
    apply Forall_map.
    induction IH as [|[k x] props Hx _ IH']; constructor; [|exact IH'].
    unfold member. cbn [fst snd compose] in *.
    apply well_formed_app; [apply well_formed_quote|].
    apply (well_formed_app (js ":")); [reflexivity | exact Hx].
Qed.


(** ** Reading back a serialized number *)

Lemma code_inj (c d : u16) : code c = code d -> c = d.
Proof. intros H. rewrite <- (unit_code c), <- (unit_code d), H. reflexivity. Qed.

Lemma code_digit_char (d : Z) : is_digit_value d -> code (digit_char d) = 0x30 + d.
Proof. unfold is_digit_value, digit_char. intros. apply code_unit. lia. Qed.

Lemma is_digit_digit_char (d : Z) : is_digit_value d -> is_digit (digit_char d) = true.
Proof.
  intros H. unfold is_digit, within. rewrite code_digit_char by exact H.
  unfold is_digit_value in H. apply andb_true_intro. split; apply Z.leb_le; lia.
Qed.

Lemma digits_value_snoc (ds : list Z) (d : Z) :
  digits_value (ds ++ [d]) = 10 * digits_value ds + d.
Proof. unfold digits_value. rewrite fold_left_app. reflexivity. Qed.

Lemma digits_value_app_zeros (ds : list Z) (n : nat) :
  digits_value (ds ++ repeat 0 n) = digits_value ds * 10 ^ Z.of_nat n.
Proof.
  induction n as [|n IH].
  - cbn [repeat]. rewrite app_nil_r. cbn. lia.
  - cbn [repeat]. rewrite repeat_cons, app_assoc, digits_value_snoc, IH.
    rewrite Nat2Z.inj_succ, Z.pow_succ_r by lia. lia.
Qed.

Lemma digits_value_zeros_app (n : nat) (ds : list Z) :
  digits_value (repeat 0 n ++ ds) = digits_value ds.
Proof.
  unfold digits_value. rewrite fold_left_app.
  replace (fold_left (fun acc d => 10 * acc + d) (repeat 0 n) 0) with 0; [reflexivity|].
  induction n as [|n IH]; [reflexivity|]. cbn [repeat fold_left]. exact IH.
Qed.

(** The digits [digits] produces, given enough fuel. *)
Lemma digits_spec (fuel : nat) (n : Z) (acc : jsstring) :
  0 <= n < 10 ^ Z.of_nat (S fuel) ->
  exists ds,
    digits (S fuel) n acc = map digit_char ds ++ acc
    /\ Forall is_digit_value ds
    /\ digits_value ds = n
    /\ ds <> []
    /\ (0 < n -> exists d ds', ds = d :: ds' /\ d <> 0).
Proof.
  revert n acc. induction fuel as [|fuel IH]; intros n acc Hn;
    cbn [digits];
    assert (is_digit_value (n mod 10)) as Hd by (unfold is_digit_value; zlia);
    (destruct (Z.ltb_spec n 10) as [Hlt|Hge];
     [ exists [n mod 10]; rewrite Z.mod_small by lia;
       split; [reflexivity|];
       split; [constructor; [unfold is_digit_value; lia | constructor]|];
       split; [cbn; lia|]; split; [discriminate|];
       intros Hpos; exists n, []; split; [reflexivity | lia] | ]).
  - cbn in Hn. lia.
  - destruct (IH (n / 10) (unit (48 + n mod 10) :: acc)) as (ds & Heq & Hall & Hval & Hne & Hhd).
    { rewrite Nat2Z.inj_succ, Z.pow_succ_r in Hn by lia. zlia. }
    exists (ds ++ [n mod 10]).
    split; [cbn [digits] in Heq; rewrite Heq, map_app, <- app_assoc; reflexivity|].
    split; [apply Forall_app; split; [exact Hall | constructor; [exact Hd | constructor]]|].
    split; [rewrite digits_value_snoc, Hval; zlia|].
    split; [destruct ds; discriminate|].
    intros _. destruct Hhd as (d & ds' & -> & Hd0); [zlia|].
    exists d, (ds' ++ [n mod 10]). split; [reflexivity | exact Hd0].
Qed.

Lemma pow2_le_pow10 (k : Z) : 0 <= k -> 2 ^ k <= 10 ^ k.
Proof. intros Hk. apply Z.pow_le_mono_l. lia. Qed.

Lemma decimal_spec (n : Z) :
  0 <= n ->
  exists ds,
    decimal n = map digit_char ds
    /\ Forall is_digit_value ds
    /\ digits_value ds = n
    /\ ds <> []
    /\ (0 < n -> exists d ds', ds = d :: ds' /\ d <> 0).
Proof.
  intros Hn. unfold decimal. destruct (Z.ltb_spec n 0) as [|_]; [lia|].
  rewrite Nat.add_1_r.
  destruct (digits_spec (Z.to_nat (Z.log2 n)) n []) as (ds & Heq & H).
  - split; [lia|]. rewrite Nat2Z.inj_succ, Z2Nat.id by apply Z.log2_nonneg.
    destruct (Z.eq_dec n 0) as [->|Hnz]; [cbn; lia|].
    pose proof (Z.log2_spec n ltac:(lia)) as [_ Hup].
    pose proof (pow2_le_pow10 (Z.log2 n + 1) ltac:(pose proof (Z.log2_nonneg n); lia)).
    replace (Z.succ (Z.log2 n)) with (Z.log2 n + 1) in * by lia.
    lia.
  - exists ds. rewrite app_nil_r in Heq. split; [exact Heq | exact H].
Qed.

Lemma span_digits_app (ds : list Z) (rest : jsstring) :
  Forall is_digit_value ds -> starts_with_digit rest = false ->
  span_digits (map digit_char ds ++ rest) = (ds, rest).
Proof.
  intros Hds Hrest. induction Hds as [|d ds Hd Hds IH].
  - cbn [map app]. destruct rest as [|c rest]; [reflexivity|].
    cbn [span_digits]. cbn [starts_with_digit] in Hrest. rewrite Hrest. reflexivity.
  - cbn [map app span_digits]. rewrite is_digit_digit_char by exact Hd.
    rewrite IH, code_digit_char by exact Hd. f_equal. f_equal. lia.
Qed.

(** Enough fuel strips every factor of ten. *)
Lemma normalize_pow (t : nat) (fuel : nat) (m e : Z) :
  m <> 0 -> m mod 10 <> 0 -> (t < fuel)%nat ->
  normalize fuel (m * 10 ^ Z.of_nat t) e = (m, e + Z.of_nat t).
Proof.
  intros Hm Hmod. revert fuel e. induction t as [|t IH]; intros fuel e Hfuel.
  - destruct fuel as [|fuel]; [lia|]. cbn [normalize Z.of_nat].
    rewrite Z.pow_0_r, Z.mul_1_r, Z.add_0_r.
    destruct (Z.eqb_spec m 0); [contradiction|].
    destruct (Z.eqb_spec (m mod 10) 0); [contradiction | reflexivity].
  - destruct fuel as [|fuel]; [lia|]. cbn [normalize].
    rewrite Nat2Z.inj_succ, Z.pow_succ_r by lia.
    assert (10 ^ Z.of_nat t > 0) by (apply Z.lt_gt, Z.pow_pos_nonneg; lia).
    destruct (Z.eqb_spec (m * (10 * 10 ^ Z.of_nat t)) 0) as [H0|_]; [nia|].
    replace (m * (10 * 10 ^ Z.of_nat t)) with (m * 10 ^ Z.of_nat t * 10) by lia.
    rewrite Z.mod_mul, Z.div_mul by lia. cbn [Z.eqb].
    rewrite IH by lia. f_equal. lia.
Qed.

Lemma normalize_normal (fuel : nat) (m e : Z) :
  m <> 0 -> m mod 10 <> 0 -> (0 < fuel)%nat -> normalize fuel m e = (m, e).
Proof.
  intros Hm Hmod Hfuel. pose proof (normalize_pow 0 fuel m e Hm Hmod Hfuel) as H.
  cbn [Z.of_nat] in H. rewrite Z.pow_0_r, Z.mul_1_r, Z.add_0_r in H. exact H.
Qed.

(** What [normalize] returns when its fuel covers the size of [m]. *)
Lemma normalize_spec (fuel : nat) (m e : Z) :
  Z.abs m < 2 ^ Z.of_nat fuel -> (0 < fuel)%nat ->
  exists m' e',
    normalize fuel m e = (m', e')
    /\ ((m' = 0 /\ e' = 0 /\ m = 0) \/ (m' <> 0 /\ m' mod 10 <> 0 /\ m <> 0)).
Proof.
  revert m e. induction fuel as [|fuel IH]; intros m e Hm Hfuel; [lia|].
  cbn [normalize]. destruct (Z.eqb_spec m 0) as [->|Hnz].
  { exists 0, 0. split; [reflexivity | left; auto]. }
  destruct (Z.eqb_spec (m mod 10) 0) as [Hmod|Hmod].
  - rewrite Nat2Z.inj_succ, Z.pow_succ_r in Hm by lia.
    destruct (IH (m / 10) (e + 1)) as (m' & e' & Heq & H).
    { zlia. }
    { destruct fuel; [cbn in Hm; zlia | lia]. }
    exists m', e'. split; [exact Heq|].
    destruct H as [(-> & -> & H0) | (H1 & H2 & H3)]; [zlia|]. right. auto.
  - exists m, e. split; [reflexivity | right; auto].
Qed.

Lemma canonical_number (m e : Z) :
  exists m' e',
    normalize (Z.to_nat (Z.log2 (Z.abs m)) + 1) m e = (m', e')
    /\ ((m' = 0 /\ e' = 0) \/ (m' <> 0 /\ m' mod 10 <> 0)).
Proof.
  destruct (normalize_spec (Z.to_nat (Z.log2 (Z.abs m)) + 1) m e) as (m' & e' & Heq & H).
  - rewrite Nat2Z.inj_add, Z2Nat.id by apply Z.log2_nonneg.
    destruct (Z.eq_dec m 0) as [->|Hnz]; [reflexivity|].
    pose proof (Z.log2_spec (Z.abs m) ltac:(lia)) as [_ Hup].
    change (Z.of_nat 1) with 1. replace (Z.succ (Z.log2 (Z.abs m))) with (Z.log2 (Z.abs m) + 1) in Hup by lia.
    exact Hup.
  - lia.
  - exists m', e'. split; [exact Heq|]. destruct H as [(? & ? & _) | (? & ? & _)]; auto.
Qed.


Lemma delimited_not_digit (rest : jsstring) :
  delimited rest -> starts_with_digit rest = false.
Proof.
  destruct rest as [|c rest]; [reflexivity|]. cbn [delimited starts_with_digit].
  intros [-> | [-> | ->]]; reflexivity.
Qed.

Lemma parse_fraction_none (s : jsstring) :
  match s with c :: _ => c <> ch "." | [] => True end ->
  parse_fraction s = Some ([], s).
Proof.
  destruct s as [|c s]; [reflexivity|]. intros Hc. cbn [parse_fraction].
  rewrite bool_decide_eq_false_2 by exact Hc. reflexivity.
Qed.

Lemma parse_fraction_some (fs : list Z) (r : jsstring) :
  fs <> [] -> Forall is_digit_value fs -> starts_with_digit r = false ->
  parse_fraction (ch "." :: map digit_char fs ++ r) = Some (fs, r).
Proof.
  intros Hne Hfs Hr. cbn [parse_fraction].
  rewrite bool_decide_eq_true_2 by reflexivity.
  rewrite span_digits_app by assumption.
  destruct fs; [contradiction | reflexivity].
Qed.

Lemma parse_exponent_none (s : jsstring) :
  match s with c :: _ => c <> ch "e" /\ c <> ch "E" | [] => True end ->
  parse_exponent s = Some (0, s).
Proof.
  destruct s as [|c s]; [reflexivity|]. intros [He HE]. cbn [parse_exponent].
  rewrite !bool_decide_eq_false_2 by assumption. reflexivity.
Qed.

Lemma parse_exponent_some (x : Z) (r : jsstring) :
  x <> 0 -> starts_with_digit r = false ->
  parse_exponent
    ((if x <? 0 then js "e-" else js "e+") ++ decimal (Z.abs x) ++ r)
  = Some (x, r).
Proof.
  intros Hx Hr.
  destruct (decimal_spec (Z.abs x)) as (ds & -> & Hds & Hval & Hne & _); [lia|].
  destruct (Z.ltb_spec x 0).
  - change (js "e-") with [ch "e"; ch "-"]. cbn [app parse_exponent].
    rewrite (bool_decide_eq_true_2 (ch "e" = ch "e")) by reflexivity. cbn [orb].
    rewrite (bool_decide_eq_true_2 (ch "-" = ch "-")) by reflexivity.
    rewrite span_digits_app by assumption.
    destruct ds; [contradiction|]. rewrite Hval. f_equal. f_equal. lia.
  - change (js "e+") with [ch "e"; ch "+"]. cbn [app parse_exponent].
    rewrite (bool_decide_eq_true_2 (ch "e" = ch "e")) by reflexivity. cbn [orb].
    rewrite (bool_decide_eq_false_2 (ch "+" = ch "-")) by discriminate.
    rewrite (bool_decide_eq_true_2 (ch "+" = ch "+")) by reflexivity.
    rewrite span_digits_app by assumption.
    destruct ds; [contradiction|]. rewrite Hval. f_equal. f_equal. lia.
Qed.

Lemma digit_char_not_minus (d : Z) : is_digit_value d -> digit_char d <> ch "-".
Proof.
  intros Hd H. apply (f_equal code) in H. rewrite code_digit_char in H by exact Hd.
  unfold is_digit_value in Hd. change (code (ch "-")) with 45 in H. lia.
Qed.

(** [parse_number] on a sign, integer digits, and whatever
    [parse_fraction] and [parse_exponent] make of the rest. *)
Lemma parse_number_spec (neg : bool) (d : Z) (ds fs : list Z) (ex : Z)
    (r0 r1 r2 : jsstring) :
  Forall is_digit_value (d :: ds) -> d <> 0 \/ ds = [] ->
  starts_with_digit r0 = false ->
  parse_fraction r0 = Some (fs, r1) -> parse_exponent r1 = Some (ex, r2) ->
  parse_number
    ((if neg then js "-" else []) ++ map digit_char (d :: ds) ++ r0)
  = let '(m', e') :=
      normalize (length (d :: ds ++ fs)) (digits_value (d :: ds ++ fs))
        (ex - Z.of_nat (length fs)) in
    Some (JNumber (if neg then - m' else m') e', r2).
Proof.
  intros Hds Hlead Hr0 Hfrac Hexp.
  assert (parse_number
            ((if neg then js "-" else []) ++ map digit_char (d :: ds) ++ r0)
          = match span_digits (map digit_char (d :: ds) ++ r0) with
            | ([], _) => None
            | (d :: ds, r) =>
                if (d =? 0) && negb (bool_decide (ds = [])) then None
                else
                  match parse_fraction r with
                  | None => None
                  | Some (fs, r1) =>
                      match parse_exponent r1 with
                      | None => None
                      | Some (ex, r2) =>
                          let m := digits_value (d :: ds ++ fs) in
                          let '(m', e') :=
                            normalize (length (d :: ds ++ fs)) m
                              (ex - Z.of_nat (length fs)) in
                          Some (JNumber (if neg then - m' else m') e', r2)
                      end
                  end
            end) as ->.
  { destruct neg.
    - change (js "-") with [ch "-"]. cbn [app]. unfold parse_number.
      rewrite (bool_decide_eq_true_2 (ch "-" = ch "-")) by reflexivity. reflexivity.
    - cbn [app map]. unfold parse_number.
      rewrite bool_decide_eq_false_2
        by (apply digit_char_not_minus; inversion Hds; assumption).
      reflexivity. }
  rewrite span_digits_app by assumption.
  assert ((d =? 0) && negb (bool_decide (ds = [])) = false) as ->.
  { destruct Hlead as [Hd | ->].
    - destruct (Z.eqb_spec d 0); [contradiction | reflexivity].
    - rewrite bool_decide_eq_true_2 by reflexivity. apply andb_false_r. }
  rewrite Hfrac, Hexp. reflexivity.
Qed.


Lemma delimited_not_dot (rest : jsstring) :
  delimited rest -> match rest with c :: _ => c <> ch "." | [] => True end.
Proof.
  destruct rest as [|c rest]; [auto|]. cbn [delimited].
  intros [-> | [-> | ->]]; discriminate.
Qed.

Lemma delimited_not_e (rest : jsstring) :
  delimited rest ->
  match rest with c :: _ => c <> ch "e" /\ c <> ch "E" | [] => True end.
Proof.
  destruct rest as [|c rest]; [auto|]. cbn [delimited].
  intros [-> | [-> | ->]]; split; discriminate.
Qed.

Lemma zeros_digits (x : Z) : zeros x = map digit_char (repeat 0 (Z.to_nat x)).
Proof.
  unfold zeros. generalize (Z.to_nat x) as n. intros n.
  induction n as [|n IH]; [reflexivity|]. cbn [repeat map]. rewrite <- IH. reflexivity.
Qed.

Lemma Forall_digit_zeros (n : nat) : Forall is_digit_value (repeat 0 n).
Proof.
  induction n as [|n IH]; cbn [repeat]; constructor; [unfold is_digit_value; lia | exact IH].
Qed.

Lemma signed_abs (m : Z) : (if m <? 0 then - Z.abs m else Z.abs m) = m.
Proof. destruct (Z.ltb_spec m 0); lia. Qed.

Ltac same_text :=
  change (js ".") with [ch "."]; change (js "0.") with [ch "0"; ch "."];
  cbn [map app]; rewrite <- ?app_assoc; cbn [app]; reflexivity.

Ltac reshape t :=
  match goal with
  | |- parse_number (?sg ++ ?s) = _ => replace s with t by same_text
  end.

(** The exponent form: one digit, the others after a point, and a
    signed exponent. *)
Lemma parse_number_exponent_form (neg : bool) (d : Z) (ds' : list Z) (x : Z)
    (rest : jsstring) :
  Forall is_digit_value (d :: ds') -> x <> 0 -> starts_with_digit rest = false ->
  let ex := (if x <? 0 then js "e-" else js "e+") ++ decimal (Z.abs x) in
  parse_number
    ((if neg then js "-" else [])
       ++ match map digit_char (d :: ds') with
          | [c] => c :: ex
          | c :: cs => c :: js "." ++ cs ++ ex
          | [] => ex
          end ++ rest)
  = let '(m', e') :=
      normalize (length (d :: ds')) (digits_value (d :: ds'))
        (x - Z.of_nat (length ds')) in
    Some (JNumber (if neg then - m' else m') e', rest).
Proof.
  intros Hds Hx Hnd ex.
  assert (parse_exponent (ex ++ rest) = Some (x, rest)) as Hexp.
  { unfold ex. rewrite <- app_assoc. apply parse_exponent_some; assumption. }
  assert (starts_with_digit (ex ++ rest) = false) as Hexd
      by (unfold ex; destruct (x <? 0); reflexivity).
  assert (match ex ++ rest with c :: _ => c <> ch "." | [] => True end) as Hexdot
      by (unfold ex; destruct (x <? 0); discriminate).
  clearbody ex.
  destruct ds' as [|d' ds']; cbn [map].
  - reshape (map digit_char [d] ++ ex ++ rest).
    erewrite (parse_number_spec neg d [] [] x (ex ++ rest) (ex ++ rest) rest);
      [ | assumption | right; reflexivity | assumption
        | apply parse_fraction_none; assumption | exact Hexp].
    cbn [app]. reflexivity.
  - reshape (map digit_char [d] ++ (ch "." :: map digit_char (d' :: ds') ++ ex ++ rest)).
    erewrite (parse_number_spec neg d [] (d' :: ds') x _ (ex ++ rest) rest);
      [ | constructor; [inversion Hds; assumption | constructor]
        | right; reflexivity | reflexivity
        | apply parse_fraction_some;
            [discriminate | inversion Hds; assumption | assumption]
        | exact Hexp].
    cbn [app]. reflexivity.
Qed.

Lemma parse_number_to_string (m0 e0 : Z) (rest : jsstring) :
  delimited rest ->
  parse_number (number_to_string m0 e0 ++ rest)
  = Some (canonical (JNumber m0 e0), rest).
Proof.
  intros Hrest. cbn [canonical]. unfold number_to_string.
  pose proof (delimited_not_digit rest Hrest) as Hnd.
  pose proof (parse_fraction_none rest (delimited_not_dot rest Hrest)) as Hnofrac.
  pose proof (parse_exponent_none rest (delimited_not_e rest Hrest)) as Hnoexp.
  destruct (canonical_number m0 e0) as (m & e & -> & Hnorm).
  destruct Hnorm as [[-> ->] | [Hm Hmod]].
  { change (0 =? 0) with true. cbv iota.
    change (js "0" ++ rest) with ([] ++ map digit_char [0] ++ rest).
    rewrite (parse_number_spec false 0 [] [] 0 rest rest rest);
      [reflexivity | constructor; [unfold is_digit_value; lia | constructor]
      | right; reflexivity | assumption..]. }
  destruct (Z.eqb_spec m 0) as [|_]; [contradiction|].
  destruct (decimal_spec (Z.abs m)) as (ds & Hdec & Hds & Hval & _ & Hhd); [lia|].
  destruct Hhd as (d & ds' & -> & Hd); [lia|].
  rewrite Hdec, length_map.
  set (k := Z.of_nat (length (d :: ds'))).
  assert (1 <= k) as Hk by (unfold k; cbn [length]; lia).
  assert (Z.abs m <> 0) as Hm' by lia.
  assert (Z.abs m mod 10 <> 0) as Hmod'.
  { destruct (Z.abs_spec m) as [[_ ->] | [_ ->]]; [exact Hmod|].
    intros H. apply Hmod. zlia. }
  rewrite <- app_assoc.
  destruct ((k <=? k + e) && (k + e <=? 21)) eqn:Ca.
  { (* digits, then zeros *)
    apply andb_true_iff in Ca as [Ca1 Ca2]. apply Z.leb_le in Ca1, Ca2.
    rewrite zeros_digits, <- app_assoc. rewrite app_assoc with (n := rest), <- map_app.
    change ((d :: ds') ++ repeat 0 (Z.to_nat (k + e - k)))
      with (d :: (ds' ++ repeat 0 (Z.to_nat (k + e - k)))).
    rewrite (parse_number_spec (m <? 0) d _ [] 0 rest rest rest);
      [ | apply (Forall_app is_digit_value (d :: ds')); split;
          [exact Hds | apply Forall_digit_zeros]
        | left; exact Hd | assumption..].
    rewrite app_nil_r.
    change (d :: ds' ++ repeat 0 (Z.to_nat (k + e - k)))
      with ((d :: ds') ++ repeat 0 (Z.to_nat (k + e - k))).
    rewrite digits_value_app_zeros, Hval, normalize_pow;
      [ | assumption | assumption | rewrite length_app, repeat_length; cbn [length]; lia].
    rewrite signed_abs. do 3 f_equal. cbn [length]. lia. }
  apply andb_false_iff in Ca. rewrite Z.leb_gt, Z.leb_gt in Ca.
  destruct ((0 <? k + e) && (k + e <=? 21)) eqn:Cb.
  { (* digits, point, digits *)
    apply andb_true_iff in Cb as [Cb1 Cb2]. apply Z.ltb_lt in Cb1. apply Z.leb_le in Cb2.
    rewrite firstn_map, skipn_map.
    assert (exists ints fs, firstn (Z.to_nat (k + e)) (d :: ds') = d :: ints
                          /\ skipn (Z.to_nat (k + e)) (d :: ds') = fs
                          /\ (d :: ints) ++ fs = d :: ds' /\ fs <> []
                          /\ Z.of_nat (length fs) = - e) as (ints & fs & Hf & Hs & Happ & Hfs & Hlen).
    { destruct (Z.to_nat (k + e)) as [|j] eqn:Hj; [lia|].
      cbn [firstn]. eexists _, _. split; [reflexivity|]. split; [reflexivity|].
      split; [exact (firstn_skipn (S j) (d :: ds'))|].
      split.
      - intros H. apply (f_equal (@length Z)) in H. rewrite length_skipn in H.
        unfold k in *. cbn [length] in *. lia.
      - rewrite length_skipn. unfold k in *. cbn [length] in *. lia. }
    rewrite Hf, Hs.
    rewrite <- app_assoc.
    change (js "." ++ map digit_char fs ++ rest) with (ch "." :: map digit_char fs ++ rest).
    assert (Forall is_digit_value (d :: ints) /\ Forall is_digit_value fs) as [Hi Hfsd].
    { rewrite <- Happ in Hds. apply Forall_app in Hds. exact Hds. }
    erewrite (parse_number_spec (m <? 0) d ints fs 0 _ rest rest);
      [ | assumption | left; exact Hd | reflexivity
        | apply parse_fraction_some; assumption | assumption].
    change (d :: ints ++ fs) with ((d :: ints) ++ fs). rewrite Happ, Hval.
    rewrite normalize_normal by (assumption || cbn [length]; lia).
    rewrite signed_abs. do 3 f_equal. lia. }
  apply andb_false_iff in Cb. rewrite Z.ltb_ge, Z.leb_gt in Cb.
  destruct ((-6 <? k + e) && (k + e <=? 0)) eqn:Cc.
  { (* zero, point, zeros, digits *)
    apply andb_true_iff in Cc as [Cc1 Cc2]. apply Z.ltb_lt in Cc1. apply Z.leb_le in Cc2.
    rewrite zeros_digits.
    reshape (map digit_char [0] ++
               (ch "." :: (map digit_char (repeat 0 (Z.to_nat (- (k + e))))
                             ++ map digit_char (d :: ds')) ++ rest)).
    rewrite <- map_app.
    erewrite (parse_number_spec (m <? 0) 0 []
               (repeat 0 (Z.to_nat (- (k + e))) ++ d :: ds') 0 _ rest rest);
      [ | constructor; [unfold is_digit_value; lia | constructor]
        | right; reflexivity | reflexivity
        | apply parse_fraction_some;
            [destruct (repeat 0 (Z.to_nat (- (k + e)))); discriminate
            | apply Forall_app; split; [apply Forall_digit_zeros | exact Hds]
            | exact Hnd]
        | assumption].
    cbn [app].
    change (0 :: repeat 0 (Z.to_nat (- (k + e))) ++ d :: ds')
      with (repeat 0 (S (Z.to_nat (- (k + e)))) ++ d :: ds').
    rewrite digits_value_zeros_app, Hval.
    rewrite normalize_normal by (assumption || rewrite length_app; cbn [length]; lia).
    rewrite signed_abs. do 3 f_equal.
    rewrite length_app, repeat_length. unfold k in *. cbn [length] in *. lia. }
  apply andb_false_iff in Cc. rewrite Z.ltb_ge, Z.leb_gt in Cc.
  (* exponent form *)
  rewrite <- Hdec at 1. rewrite Hdec.
  pose proof (parse_number_exponent_form (m <? 0) d ds' (k + e - 1) rest Hds
                ltac:(lia) Hnd) as H.
  cbv zeta in H. rewrite H, Hval.
  rewrite normalize_normal by (assumption || cbn [length]; lia).
  rewrite signed_abs. do 3 f_equal. unfold k. cbn [length]. lia.
Qed.


(** ** Reading back a serialized string *)

Lemma nibble_check (f : nat -> bool) (i : Z) :
  forallb f (seq 0 16) = true -> f (Z.to_nat (i mod 16)) = true.
Proof.
  intros H. rewrite forallb_forall in H. apply H, in_seq.
  assert (0 <= i mod 16 < 16) by (apply Z.mod_pos_bound; lia). lia.
Qed.

Lemma hex_value_hex_digit (i : Z) : hex_value (hex_digit i) = Some (i mod 16).
Proof.
  assert (0 <= i mod 16 < 16) as Hi by (apply Z.mod_pos_bound; lia).
  pose proof (nibble_check
    (fun n => bool_decide
                (hex_value (nth n (js "0123456789abcdef") (ch "0")) = Some (Z.of_nat n))) i)
    as H.
  cbv beta in H. rewrite bool_decide_eq_true, Z2Nat.id in H by lia.
  apply H. vm_compute. reflexivity.
Qed.

Lemma parse_string_plain (c : u16) (r : jsstring) :
  c <> dquote -> c <> ch "\" -> 0x20 <= code c ->
  parse_string (c :: r) = cons_fst c (parse_string r).
Proof.
  intros Hq Hb Hc. cbn [parse_string].
  rewrite !bool_decide_eq_false_2 by assumption.
  destruct (Z.ltb_spec (code c) 32); [lia | reflexivity].
Qed.

Lemma parse_string_hex4 (z : Z) (r : jsstring) :
  0 <= z < 65536 ->
  parse_string (js "\u" ++ hex4 z ++ r) = cons_fst (unit z) (parse_string r).
Proof.
  intros Hz. change (js "\u") with [ch "\"; ch "u"]. unfold hex4.
  cbn [app parse_string].
  rewrite (bool_decide_eq_false_2 (ch "\" = dquote)) by discriminate.
  rewrite (bool_decide_eq_true_2 (ch "\" = ch "\")) by reflexivity.
  rewrite (bool_decide_eq_true_2 (ch "u" = ch "u")) by reflexivity.
  rewrite !hex_value_hex_digit.
  do 2 f_equal. zlia.
Qed.

Lemma parse_string_simple (x y : u16) (r : jsstring) :
  x <> ch "u" -> simple_escape x = Some y ->
  parse_string (ch "\" :: x :: r) = cons_fst y (parse_string r).
Proof.
  intros Hx Hy. cbn [parse_string].
  rewrite (bool_decide_eq_false_2 (ch "\" = dquote)) by discriminate.
  rewrite (bool_decide_eq_true_2 (ch "\" = ch "\")) by reflexivity.
  rewrite (bool_decide_eq_false_2 _ Hx), Hy. reflexivity.
Qed.

Lemma parse_string_escape_unit (c : u16) (r : jsstring) :
  parse_string (escape_unit c ++ r) = cons_fst c (parse_string r).
Proof.
  unfold escape_unit. pose proof (code_range c) as Hc.
  repeat match goal with
         | |- context [if ?z =? ?v then _ else _] =>
             destruct (Z.eqb_spec z v) as [Heq|?];
             [ rewrite <- (unit_code c), Heq;
               (apply parse_string_simple; [discriminate | reflexivity]) | ]
         end.
  destruct (Z.ltb_spec (code c) 32).
  - rewrite <- app_assoc, parse_string_hex4 by lia. rewrite unit_code. reflexivity.
  - cbn [app]. apply parse_string_plain; [| | lia].
    + intros ->. change (code dquote) with 34 in *. lia.
    + intros ->. change (code (ch "\")) with 92 in *. lia.
Qed.

Lemma surrogate_plain (c : u16) (r : jsstring) :
  is_high (code c) = true \/ is_low (code c) = true ->
  parse_string (c :: r) = cons_fst c (parse_string r).
Proof.
  intros H. assert (0xd800 <= code c) as Hc.
  { destruct H as [H|H]; [apply is_high_spec in H | apply is_low_spec in H]; lia. }
  apply parse_string_plain; [| | lia].
  - intros ->. change (code dquote) with 34 in Hc. lia.
  - intros ->. change (code (ch "\")) with 92 in Hc. lia.
Qed.

Lemma parse_string_escape_len (n : nat) (s rest : jsstring) :
  (length s <= n)%nat ->
  parse_string (escape s ++ dquote :: rest) = Some (s, rest).
Proof.
  revert s. induction n as [|n IH]; intros s Hn.
  { destruct s; [|simpl in Hn; lia]. cbn [escape app parse_string].
    rewrite bool_decide_eq_true_2 by reflexivity. reflexivity. }
  destruct s as [|c s].
  { cbn [escape app parse_string].
    rewrite bool_decide_eq_true_2 by reflexivity. reflexivity. }
  simpl in Hn. cbn [escape]. pose proof (code_range c) as Hc.
  assert (forall r, parse_string ((js "\u" ++ hex4 (code c) ++ r) ++ dquote :: rest)
                    = cons_fst c (parse_string (r ++ dquote :: rest))) as Hesc.
  { intros r. rewrite <- !app_assoc, parse_string_hex4 by exact Hc.
    rewrite unit_code. reflexivity. }
  destruct (is_high (code c)) eqn:Hh.
  - destruct s as [|d s].
    + rewrite <- (app_nil_r (hex4 (code c))), Hesc. cbn [app parse_string].
      rewrite bool_decide_eq_true_2 by reflexivity. reflexivity.
    + simpl in Hn. destruct (is_low (code d)) eqn:Hl.
      * cbn [app]. rewrite surrogate_plain by (left; exact Hh).
        rewrite surrogate_plain by (right; exact Hl).
        rewrite IH by lia. reflexivity.
      * rewrite Hesc, IH by (simpl; lia). reflexivity.
  - destruct (is_low (code c)) eqn:Hl.
    + rewrite Hesc, IH by lia. reflexivity.
    + rewrite <- app_assoc, parse_string_escape_unit, IH by lia. reflexivity.
Qed.

Lemma parse_string_quote (s rest : jsstring) :
  parse_string (escape s ++ dquote :: rest) = Some (s, rest).
Proof. apply (parse_string_escape_len (length s)). lia. Qed.


(** ** Reading back a serialized value *)

Lemma insert_sorted_retag {A B} (f : A -> B) (kv : jsstring * A) l :
  insert_sorted (retag f kv) (map (retag f) l) = map (retag f) (insert_sorted kv l).
Proof.
  induction l as [|x l IH]; [reflexivity|]. cbn [map insert_sorted].
  change (fst (retag f kv)) with (fst kv). change (fst (retag f x)) with (fst x).
  destruct (str_ltb (fst kv) (fst x)); [reflexivity|].
  cbn [map]. rewrite IH. reflexivity.
Qed.

Lemma sort_props_retag {A B} (f : A -> B) (l : list (jsstring * A)) :
  sort_props (map (retag f) l) = map (retag f) (sort_props l).
Proof.
  unfold sort_props. induction l as [|x l IH]; [reflexivity|].
  cbn [map fold_right]. rewrite IH. apply insert_sorted_retag.
Qed.

Lemma list_sum_cons (x : nat) (l : list nat) :
  list_sum (x :: l) = (x + list_sum l)%nat.
Proof. reflexivity. Qed.

Lemma list_sum_insert_sorted {A} (f : jsstring * A -> nat) kv l :
  list_sum (map f (insert_sorted kv l)) = (f kv + list_sum (map f l))%nat.
Proof.
  induction l as [|x l IH]; [reflexivity|]. cbn [insert_sorted].
  destruct (str_ltb (fst kv) (fst x)); [reflexivity|].
  cbn [map]. rewrite !list_sum_cons, IH. lia.
Qed.

Lemma list_sum_sort_props {A} (f : jsstring * A -> nat) l :
  list_sum (map f (sort_props l)) = list_sum (map f l).
Proof.
  unfold sort_props. induction l as [|x l IH]; [reflexivity|].
  cbn [fold_right map]. rewrite list_sum_insert_sorted, IH. reflexivity.
Qed.

Lemma number_chars (m e : Z) : forallb number_char (number_to_string m e) = true.
Proof.
  assert (forall n, forallb number_char (decimal n) = true) as Hdec.
  { intros n. unfold decimal.
    assert (forall fuel k acc, forallb number_char acc = true ->
                               forallb number_char (digits fuel k acc) = true) as Hdig.
    { induction fuel as [|fuel IH]; intros k acc Hacc; [exact Hacc|]. cbn [digits].
      assert (forallb number_char (unit (48 + k mod 10) :: acc) = true) as H.
      { cbn [forallb]. rewrite Hacc, andb_true_r. unfold number_char.
        change (unit (48 + k mod 10)) with (digit_char (k mod 10)).
        rewrite is_digit_digit_char by (unfold is_digit_value; zlia). reflexivity. }
      destruct (k <? 10); [exact H | apply IH, H]. }
    destruct (n <? 0); [cbn [forallb]; rewrite Hdig by reflexivity; reflexivity|].
    apply Hdig. reflexivity. }
  assert (forall n s, forallb number_char s = true ->
                      forallb number_char (firstn n s) = true) as Hfirst.
  { intros n s. revert n. induction s as [|c s IH]; intros [|n] H; try reflexivity.
    cbn [firstn forallb] in *. apply andb_true_iff in H as [-> H]. apply IH, H. }
  assert (forall n s, forallb number_char s = true ->
                      forallb number_char (skipn n s) = true) as Hskip.
  { intros n s. revert n. induction s as [|c s IH]; intros [|n] H; try reflexivity; [exact H|].
    cbn [skipn forallb] in *. apply andb_true_iff in H as [_ H]. apply IH, H. }
  assert (forall n, forallb number_char (zeros n) = true) as Hzeros.
  { intros n. unfold zeros. induction (Z.to_nat n) as [|k IH]; [reflexivity|].
    cbn [repeat forallb]. rewrite IH. reflexivity. }
  unfold number_to_string. destruct (normalize _ m e) as [m' e'].
  destruct (m' =? 0); [reflexivity|].
  pose proof (Hdec (Z.abs m')) as Hds.
  destruct (decimal (Z.abs m')) as [|d ds] eqn:E.
  - destruct (decimal_spec (Z.abs m') ltac:(lia)) as (x & Hx & _ & _ & Hne & _).
    rewrite E in Hx. destruct x; [contradiction | discriminate].
  - assert (forall c s, forallb number_char (c :: s)
                        = number_char c && forallb number_char s) as Hcons
        by reflexivity.
    repeat first
      [ reflexivity | assumption | rewrite forallb_app | rewrite Hcons
      | apply andb_true_intro; split
      | apply Hdec | apply Hzeros | apply Hfirst | apply Hskip
      | match goal with
        | |- forallb _ (if ?b then _ else _) = true => destruct b
        | |- forallb _ (match ?x with _ => _ end) = true => destruct x eqn:?
        | H : forallb _ (_ :: _) = true |- _ => rewrite Hcons in H
        | H : _ && _ = true |- _ => apply andb_true_iff in H as [? ?]
        end ].
Qed.

Lemma number_nonempty (m e : Z) : number_to_string m e <> [].
Proof.
  intros H. pose proof (parse_number_to_string m e [] I) as Hp.
  rewrite H in Hp. discriminate.
Qed.

Lemma number_head (m e : Z) :
  exists c s, number_to_string m e = c :: s /\ number_char c = true.
Proof.
  pose proof (number_chars m e) as H. pose proof (number_nonempty m e) as Hne.
  destruct (number_to_string m e) as [|c s]; [contradiction|].
  cbn [forallb] in H. apply andb_true_iff in H as [H _]. eauto.
Qed.

Lemma is_ws_false (c : u16) : 0x21 <= code c -> is_ws c = false.
Proof.
  intros Hc. unfold is_ws. cbn [existsb].
  destruct (Z.eqb_spec (code c) 32); [lia|].
  destruct (Z.eqb_spec (code c) 9); [lia|].
  destruct (Z.eqb_spec (code c) 10); [lia|].
  destruct (Z.eqb_spec (code c) 13); [lia | reflexivity].
Qed.

(** What [parse_value] does with a character a number can start with. *)
Lemma parse_value_number (fuel : nat) (c : u16) (s : jsstring) :
  number_char c = true ->
  parse_value (S fuel) (c :: s) = parse_number (c :: s).
Proof.
  intros Hc. cbn [parse_value skip_ws].
  assert (is_ws c = false /\ c <> dquote /\ c <> ch "[" /\ c <> ch "{"
          /\ c <> ch "t" /\ c <> ch "f" /\ c <> ch "n") as (Hws & H1 & H2 & H3 & H4 & H5 & H6).
  { unfold number_char in Hc.
    repeat (apply orb_true_iff in Hc as [Hc | Hc]);
      try (apply bool_decide_eq_true in Hc; subst c; repeat split; (reflexivity || discriminate)).
    unfold is_digit, within in Hc. apply andb_true_iff in Hc as [Hlo Hhi].
    apply Z.leb_le in Hlo, Hhi.
    assert (forall d, code d < 0x30 \/ 0x39 < code d -> c <> d) as Hne
        by (intros d Hd ->; lia).
    split.
    - apply is_ws_false. lia.
    - repeat split; apply Hne; first [left; reflexivity | right; reflexivity]. }
  rewrite Hws. rewrite !bool_decide_eq_false_2 by assumption. reflexivity.
Qed.

Lemma serialize_head (v : json) :
  exists c s, serialize v = c :: s /\ is_ws c = false /\ c <> ch "]".
Proof.
  destruct v as [| [|] | m e | s | items | props]; cbn [serialize];
    try (eexists _, _; split; [reflexivity | split; [reflexivity | discriminate]]).
  destruct (number_head m e) as (c & s & -> & Hc). exists c, s.
  split; [reflexivity|].
  pose proof (parse_value_number 0 c s Hc) as _.
  unfold number_char in Hc.
  repeat (apply orb_true_iff in Hc as [Hc | Hc]);
    try (apply bool_decide_eq_true in Hc; subst c; split; (reflexivity || discriminate)).
  unfold is_digit, within in Hc. apply andb_true_iff in Hc as [Hlo Hhi].
  apply Z.leb_le in Hlo, Hhi. split.
  - apply is_ws_false. lia.
  - intros ->. change (code (ch "]")) with 93 in Hhi. lia.
Qed.

Lemma skip_ws_head (c : u16) (s : jsstring) : is_ws c = false -> skip_ws (c :: s) = c :: s.
Proof. intros H. cbn [skip_ws]. rewrite H. reflexivity. Qed.

Lemma join_cons (sep x y : jsstring) (l : list jsstring) :
  join sep (x :: y :: l) = x ++ sep ++ join sep (y :: l).
Proof. reflexivity. Qed.

Lemma parse_elements_serialize (items : list json) :
  Forall reads_back items -> items <> [] ->
  forall acc fuel rest,
    (list_sum (map (fun x => S (cost x)) items) <= fuel)%nat ->
    parse_elements fuel (join (js ",") (map serialize items) ++ js "]" ++ rest) acc
    = Some (JArray (acc ++ map canonical items), rest).
Proof.
  induction 1 as [|v vs Hv Hvs IH]; intros Hne acc fuel rest Hfuel; [contradiction|].
  cbn [map] in Hfuel. rewrite list_sum_cons in Hfuel. destruct fuel as [|fuel]; [lia|].
  cbn [parse_elements].
  destruct vs as [|w vs].
  - cbn [map join]. rewrite Hv; [| lia | right; left; reflexivity].
    change (js "]" ++ rest) with (ch "]" :: rest). rewrite skip_ws_head by reflexivity.
    rewrite (bool_decide_eq_false_2 (ch "]" = ch ",")) by discriminate.
    rewrite (bool_decide_eq_true_2 (ch "]" = ch "]")) by reflexivity. reflexivity.
  - cbn [map]. rewrite join_cons, <- !app_assoc.
    rewrite Hv; [| lia | left; reflexivity].
    change (js "," ++ ?x) with (ch "," :: x). rewrite skip_ws_head by reflexivity.
    rewrite (bool_decide_eq_true_2 (ch "," = ch ",")) by reflexivity.
    specialize (IH ltac:(discriminate) (acc ++ [canonical v]) fuel rest).
    cbn [map] in IH, Hfuel. rewrite IH by lia.
    rewrite <- app_assoc. reflexivity.
Qed.

Lemma parse_members_serialize (props : list (jsstring * json)) :
  Forall (fun kv => reads_back (snd kv)) props -> props <> [] ->
  forall acc fuel rest,
    (list_sum (map (fun kv => S (cost (snd kv))) props) <= fuel)%nat ->
    parse_members fuel
      (join (js ",") (map member (map (retag serialize) props)) ++ js "}" ++ rest) acc
    = Some (JObject
              (fold_left (fun acc kv => set_prop (fst kv) (snd kv) acc)
                 (map (retag canonical) props) acc), rest).
Proof.
  induction 1 as [|[k v] vs Hv Hvs IH]; intros Hne acc fuel rest Hfuel; [contradiction|].
  cbn [map snd] in Hfuel. rewrite list_sum_cons in Hfuel. destruct fuel as [|fuel]; [lia|].
  cbn [snd] in Hv.
  assert (forall tail,
             delimited tail ->
             parse_members (S fuel) (member (retag serialize (k, v)) ++ tail) acc
             = match skip_ws tail with
               | d :: r4 =>
                   if bool_decide (d = ch ",")
                   then parse_members fuel r4 (set_prop k (canonical v) acc)
                   else if bool_decide (d = ch "}")
                   then Some (JObject (set_prop k (canonical v) acc), r4)
                   else None
               | [] => None
               end) as Hstep.
  { intros tail Htail. unfold member, retag, quote. cbn [fst snd].
    cbn [app parse_members]. rewrite skip_ws_head by reflexivity.
    rewrite (bool_decide_eq_true_2 (dquote = dquote)) by reflexivity.
    rewrite <- !app_assoc. cbn [app]. rewrite parse_string_quote.
    change (js ":" ++ ?x) with (ch ":" :: x). rewrite skip_ws_head by reflexivity.
    rewrite (bool_decide_eq_true_2 (ch ":" = ch ":")) by reflexivity.
    rewrite Hv by (lia || assumption). reflexivity. }
  destruct vs as [|w vs].
  - cbn [map join]. rewrite Hstep by (right; right; reflexivity).
    change (js "}" ++ rest) with (ch "}" :: rest). rewrite skip_ws_head by reflexivity.
    rewrite (bool_decide_eq_false_2 (ch "}" = ch ",")) by discriminate.
    rewrite (bool_decide_eq_true_2 (ch "}" = ch "}")) by reflexivity. reflexivity.
  - cbn [map]. rewrite join_cons, <- !app_assoc. rewrite Hstep by (left; reflexivity).
    change (js "," ++ ?x) with (ch "," :: x). rewrite skip_ws_head by reflexivity.
    rewrite (bool_decide_eq_true_2 (ch "," = ch ",")) by reflexivity.
    specialize (IH ltac:(discriminate) (set_prop k (canonical v) acc) fuel rest).
    cbn [map] in IH, Hfuel. rewrite IH by lia. reflexivity.
Qed.

Lemma serialize_reads_back (v : json) : reads_back v.
Proof.
  induction v as [| b | m e | s | items IH | props IH] using json_induction;
    intros fuel rest Hfuel Hrest; (destruct fuel as [|fuel]; [cbn [cost] in Hfuel; lia|]).
  - reflexivity.
  - destruct b; reflexivity.
  - cbn [serialize]. destruct (number_head m e) as (c & s & Heq & Hc).
    rewrite Heq. cbn [app]. rewrite parse_value_number by exact Hc.
    change (c :: s ++ rest) with ((c :: s) ++ rest). rewrite <- Heq.
    apply parse_number_to_string, Hrest.
  - cbn [serialize canonical]. unfold quote. cbn [app parse_value].
    rewrite skip_ws_head by reflexivity.
    rewrite (bool_decide_eq_true_2 (dquote = dquote)) by reflexivity.
    rewrite <- app_assoc. cbn [app]. rewrite parse_string_quote. reflexivity.
  - cbn [serialize canonical cost] in *.
    change (js "[" ++ ?x) with (ch "[" :: x). cbn [app parse_value].
    rewrite skip_ws_head by reflexivity.
    rewrite (bool_decide_eq_false_2 (ch "[" = dquote)) by discriminate.
    rewrite (bool_decide_eq_true_2 (ch "[" = ch "[")) by reflexivity.
    destruct items as [|v vs].
    + cbn [map join app]. change (js "]" ++ rest) with (ch "]" :: rest).
      rewrite skip_ws_head by reflexivity.
      rewrite (bool_decide_eq_true_2 (ch "]" = ch "]")) by reflexivity. reflexivity.
    + pose proof (parse_elements_serialize (v :: vs) IH ltac:(discriminate) [] fuel rest
                    ltac:(lia)) as H.
      rewrite <- app_assoc.
      destruct (serialize_head v) as (c & s & Hhead & Hws & Hnb).
      assert (exists t, join (js ",") (map serialize (v :: vs)) ++ js "]" ++ rest = c :: t)
        as [t Ht].
      { cbn [map join]. rewrite Hhead. destruct (map serialize vs); cbn [app]; eauto. }
      rewrite Ht in *. rewrite skip_ws_head by exact Hws.
      rewrite (bool_decide_eq_false_2 _ Hnb). exact H.
  - cbn [serialize canonical cost] in *.
    change (js "{" ++ ?x) with (ch "{" :: x). cbn [app parse_value].
    rewrite skip_ws_head by reflexivity.
    rewrite (bool_decide_eq_false_2 (ch "{" = dquote)) by discriminate.
    rewrite (bool_decide_eq_false_2 (ch "{" = ch "[")) by discriminate.
    rewrite (bool_decide_eq_true_2 (ch "{" = ch "{")) by reflexivity.
    change (fun kv : jsstring * json => (fst kv, serialize (snd kv))) with (retag serialize).
    change (fun kv : jsstring * json => (fst kv, canonical (snd kv))) with (retag canonical).
    rewrite !sort_props_retag.
    rewrite <- (list_sum_sort_props (fun kv => S (cost (snd kv)))) in Hfuel.
    apply (Forall_sort_props (fun kv => reads_back (snd kv))) in IH.
    destruct (sort_props props) as [|[k v] vs].
    + cbn [map join app]. change (js "}" ++ rest) with (ch "}" :: rest).
      rewrite skip_ws_head by reflexivity.
      rewrite (bool_decide_eq_true_2 (ch "}" = ch "}")) by reflexivity. reflexivity.
    + pose proof (parse_members_serialize ((k, v) :: vs) IH ltac:(discriminate) [] fuel rest
                    ltac:(lia)) as H.
      rewrite <- app_assoc.
      assert (exists t, join (js ",") (map member (map (retag serialize) ((k, v) :: vs)))
                          ++ js "}" ++ rest = dquote :: t) as [t Ht].
      { cbn [map]. destruct (map member (map (retag serialize) vs)) as [|x l];
          cbn [join]; unfold member, quote; cbn [app]; eauto. }
      rewrite Ht in *. rewrite skip_ws_head by reflexivity.
      rewrite (bool_decide_eq_false_2 (dquote = ch "}")) by discriminate. exact H.
Qed.


(** ** The fuel of [JSON_parse] is enough *)

Lemma join_length (sep : jsstring) (l : list jsstring) :
  (list_sum (map (@length u16) l) <= length (join sep l))%nat.
Proof.
  induction l as [|x [|y l] IH].
  - apply Nat.le_refl.
  - cbn [map join]. rewrite list_sum_cons. change (list_sum []) with 0%nat. lia.
  - rewrite join_cons, !length_app. cbn [map] in *. rewrite !list_sum_cons in *. lia.
Qed.

Lemma cost_sum_bound {A} (f : A -> json) (g : A -> jsstring) (l : list A) :
  Forall (fun x => (S (cost (f x)) <= 2 * length (g x))%nat) l ->
  (list_sum (map (fun x => S (cost (f x))) l)
   <= 2 * list_sum (map (@length u16) (map g l)))%nat.
Proof.
  induction 1 as [|x l Hx Hl IH]; [apply Nat.le_refl|].
  cbn [map]. rewrite !list_sum_cons. lia.
Qed.

Lemma cost_bound (v : json) : (S (cost v) <= 2 * length (serialize v))%nat.
Proof.
  induction v as [| b | m e | s | items IH | props IH] using json_induction.
  - cbn. lia.
  - destruct b; cbn; lia.
  - cbn [cost serialize]. pose proof (number_nonempty m e).
    destruct (number_to_string m e); [contradiction | cbn [length]; lia].
  - cbn [cost serialize]. unfold quote. cbn [length]. rewrite length_app. cbn [length]. lia.
  - cbn [cost serialize]. rewrite !length_app.
    pose proof (cost_sum_bound (fun x => x) serialize items IH) as H1.
    pose proof (join_length (js ",") (map serialize items)) as H2.
    change (length (js "[")) with 1%nat. change (length (js "]")) with 1%nat. lia.
  - cbn [cost serialize]. rewrite !length_app.
    change (fun kv : jsstring * json => (fst kv, serialize (snd kv))) with (retag serialize).
    rewrite sort_props_retag.
    rewrite <- (list_sum_sort_props (fun kv => S (cost (snd kv)))).
    apply (Forall_sort_props
             (fun kv => (S (cost (snd kv)) <= 2 * length (serialize (snd kv)))%nat)) in IH.
    assert (Forall (fun kv => (S (cost (snd kv))
                               <= 2 * length (member (retag serialize kv)))%nat)
              (sort_props props)) as IH'.
    { eapply List.Forall_impl; [|exact IH]. intros [k x] Hx.
      unfold member, retag. cbn [fst snd] in *. rewrite !length_app. lia. }
    pose proof (cost_sum_bound snd (fun kv => member (retag serialize kv))
                  (sort_props props) IH') as H1.
    pose proof (join_length (js ",")
                  (map member (map (retag serialize) (sort_props props)))) as H2.
    rewrite <- (map_map (retag serialize) member) in H1.
    change (length (js "{")) with 1%nat. change (length (js "}")) with 1%nat.
    lia.
Qed.

(** [JSON.parse] reads every text [serialize] writes, and what it
    reads is the canonical form of the value. *)
Theorem JSON_parse_serialize (v : json) : JSON_parse (serialize v) = Ok (canonical v).
Proof.
  unfold JSON_parse.
  pose proof (serialize_reads_back v (2 * length (serialize v) + 2)%nat []) as H.
  rewrite app_nil_r in H. rewrite H; [reflexivity | | exact I].
  pose proof (cost_bound v). lia.
Qed.


(** * Parsing gives back a deep-equal value *)

Lemma normalize_value (fuel : nat) (m e m' e' : Z) :
  normalize fuel m e = (m', e') ->
  (m = 0 /\ m' = 0) \/ (e <= e' /\ m = m' * 10 ^ (e' - e)).
Proof.
  revert m e. induction fuel as [|fuel IH]; intros m e H; cbn [normalize] in H.
  - injection H as <- <-. right. rewrite Z.sub_diag, Z.pow_0_r. lia.
  - destruct (Z.eqb_spec m 0) as [->|Hm].
    + injection H as <- <-. left. split; reflexivity.
    + destruct (Z.eqb_spec (m mod 10) 0) as [Hmod|Hmod].
      * apply IH in H as [[H0 ->]|[Hle Heq]].
        -- left. split; [|reflexivity]. zlia.
        -- right. split; [lia|].
           replace (e' - e) with (Z.succ (e' - (e + 1))) by lia.
           rewrite Z.pow_succ_r by lia.
           rewrite (Z.div_mod m 10) by lia. rewrite Hmod, Heq. lia.
      * injection H as <- <-. right. rewrite Z.sub_diag, Z.pow_0_r. lia.
Qed.

Lemma same_number_normalize (fuel : nat) (m e m' e' : Z) :
  normalize fuel m e = (m', e') -> same_number m' e' m e.
Proof.
  intros H. apply normalize_value in H as [[-> ->]|[Hle ->]]; unfold same_number.
  - lia.
  - rewrite Z.min_r by lia. rewrite Z.sub_diag, Z.pow_0_r. lia.
Qed.

Lemma str_ltb_irrefl (a : jsstring) : str_ltb a a = false.
Proof.
  induction a as [|c a IH]; [reflexivity|]. cbn [str_ltb].
  rewrite Z.ltb_irrefl, Z.eqb_refl, IH. reflexivity.
Qed.

Lemma str_ltb_trans (a b c : jsstring) :
  str_ltb a b = true -> str_ltb b c = true -> str_ltb a c = true.
Proof.
  revert b c. induction a as [|x a IH]; intros [|y b] [|z c]; cbn [str_ltb];
    try discriminate; try reflexivity.
  intros H1 H2.
  apply orb_true_iff in H1. apply orb_true_iff in H2. apply orb_true_iff.
  destruct H1 as [H1|H1], H2 as [H2|H2].
  - left. apply Z.ltb_lt in H1, H2. apply Z.ltb_lt. lia.
  - apply andb_true_iff in H2 as [H2 _]. apply Z.eqb_eq in H2.
    left. apply Z.ltb_lt in H1. apply Z.ltb_lt. lia.
  - apply andb_true_iff in H1 as [H1 _]. apply Z.eqb_eq in H1.
    left. apply Z.ltb_lt in H2. apply Z.ltb_lt. lia.
  - apply andb_true_iff in H1 as [H1 H1']. apply andb_true_iff in H2 as [H2 H2'].
    right. apply Z.eqb_eq in H1, H2. apply andb_true_iff. split.
    + apply Z.eqb_eq. lia.
    + exact (IH _ _ H1' H2').
Qed.

Section Props.
Context {A : Type}.
Implicit Types (l : list (jsstring * A)) (kv : jsstring * A) (k : jsstring).

Lemma insert_sorted_above kv x l :
  str_ltb (fst kv) (fst x) = false ->
  Forall (key_le x) l -> Forall (key_le x) (insert_sorted kv l).
Proof.
  intros Hlt Hl. induction Hl as [|y l Hy Hl IH]; cbn [insert_sorted].
  - constructor; [exact Hlt | constructor].
  - destruct (str_ltb (fst kv) (fst y)).
    + constructor; [exact Hlt|]. constructor; assumption.
    + constructor; assumption.
Qed.

Lemma insert_sorted_sorted kv l :
  sorted_keys l -> sorted_keys (insert_sorted kv l).
Proof.
  induction l as [|x l IH]; cbn [insert_sorted sorted_keys].
  - intros _. split; [constructor | exact I].
  - intros [Hx Hs]. destruct (str_ltb (fst kv) (fst x)) eqn:Hlt; cbn [sorted_keys].
    + split; [|split; assumption].
      constructor.
      * unfold key_le. destruct (str_ltb (fst x) (fst kv)) eqn:Hgt; [|reflexivity].
        pose proof (str_ltb_trans _ _ _ Hlt Hgt) as Hbad.
        rewrite str_ltb_irrefl in Hbad. discriminate.
      * apply List.Forall_forall. intros z Hz.
        rewrite List.Forall_forall in Hx. specialize (Hx z Hz). unfold key_le in *.
        destruct (str_ltb (fst z) (fst kv)) eqn:Hgt; [|reflexivity].
        pose proof (str_ltb_trans _ _ _ Hgt Hlt) as Hbad. congruence.
    + split; [|exact (IH Hs)].
      apply insert_sorted_above; assumption.
Qed.

Lemma sort_props_sorted l : sorted_keys (sort_props l).
Proof.
  induction l as [|kv l IH]; [exact I|].
  cbn [sort_props fold_right]. fold (sort_props l).
  apply insert_sorted_sorted, IH.
Qed.

Lemma last_prop_none k l :
  Forall (fun x => fst x <> k) l -> last_prop k l = None.
Proof.
  induction 1 as [|[k' v] l Hk _ IH]; cbn [last_prop]; [reflexivity|].
  rewrite IH. cbn [fst] in Hk. rewrite bool_decide_eq_false_2 by exact Hk. reflexivity.
Qed.

Lemma last_prop_insert_sorted k kv l :
  sorted_keys l ->
  last_prop k (insert_sorted kv l)
  = if bool_decide (fst kv = k) then Some (snd kv) else last_prop k l.
Proof.
  destruct kv as [k0 v0]. cbn [fst snd].
  induction l as [|[k' v'] l IH]; cbn [insert_sorted sorted_keys fst].
  - intros _. reflexivity.
  - intros [Hx Hs]. destruct (str_ltb k0 k') eqn:Hlt.
    + cbn [last_prop]. destruct (bool_decide_reflect (k0 = k)) as [->|Hne].
      * rewrite last_prop_none.
        -- rewrite bool_decide_eq_false_2; [reflexivity|].
           intros ->. rewrite str_ltb_irrefl in Hlt. discriminate.
        -- apply List.Forall_forall. intros [kz vz] Hz. cbn [fst]. intros ->.
           rewrite List.Forall_forall in Hx. specialize (Hx _ Hz).
           unfold key_le in Hx. cbn [fst] in Hx. congruence.
      * destruct (last_prop k l); [reflexivity|].
        destruct (bool_decide (k' = k)); reflexivity.
    + cbn [last_prop]. rewrite (IH Hs).
      destruct (bool_decide_reflect (k0 = k)) as [->|Hne]; reflexivity.
Qed.

Lemma last_prop_sort_props k l : last_prop k (sort_props l) = get_prop k l.
Proof.
  induction l as [|[k' v] l IH]; [reflexivity|].
  cbn [sort_props fold_right get_prop]. fold (sort_props l).
  rewrite last_prop_insert_sorted by apply sort_props_sorted.
  cbn [fst snd]. rewrite IH. reflexivity.
Qed.

Lemma get_prop_set_prop k k' (v : A) l :
  get_prop k (set_prop k' v l)
  = if bool_decide (k' = k) then Some v else get_prop k l.
Proof.
  induction l as [|[k0 v0] l IH]; cbn [set_prop get_prop].
  - destruct (bool_decide (k' = k)); reflexivity.
  - destruct (bool_decide_reflect (k0 = k')) as [->|Hne]; cbn [get_prop].
    + destruct (bool_decide (k' = k)); reflexivity.
    + rewrite IH. destruct (bool_decide_reflect (k0 = k)) as [->|Hne'].
      * rewrite bool_decide_eq_false_2 by congruence. reflexivity.
      * reflexivity.
Qed.

Lemma get_prop_fold_set_prop k l acc :
  get_prop k (fold_left (fun acc kv => set_prop (fst kv) (snd kv) acc) l acc)
  = match last_prop k l with
    | Some v => Some v
    | None => get_prop k acc
    end.
Proof.
  revert acc. induction l as [|[k' v] l IH]; intros acc; cbn [fold_left last_prop].
  - reflexivity.
  - rewrite IH. cbn [fst snd]. destruct (last_prop k l); [reflexivity|].
    rewrite get_prop_set_prop. destruct (bool_decide (k' = k)); reflexivity.
Qed.

End Props.

Lemma get_prop_retag {A B} (f : A -> B) (k : jsstring) (l : list (jsstring * A)) :
  get_prop k (map (fun kv => (fst kv, f (snd kv))) l) = option_map f (get_prop k l).
Proof.
  induction l as [|[k' v] l IH]; [reflexivity|].
  cbn [map get_prop fst snd]. rewrite IH. destruct (bool_decide (k' = k)); reflexivity.
Qed.

Lemma get_prop_canonical (k : jsstring) (props : list (jsstring * json)) :
  get_prop k
    (fold_left (fun acc kv => set_prop (fst kv) (snd kv) acc)
       (sort_props (map (fun kv => (fst kv, canonical (snd kv))) props)) [])
  = option_map canonical (get_prop k props).
Proof.
  rewrite get_prop_fold_set_prop, last_prop_sort_props, get_prop_retag.
  destruct (get_prop k props); reflexivity.
Qed.

Lemma get_prop_In {A} (k : jsstring) (l : list (jsstring * A)) (v : A) :
  get_prop k l = Some v -> In (k, v) l.
Proof.
  induction l as [|[k' v'] l IH]; cbn [get_prop]; [discriminate|].
  destruct (bool_decide_reflect (k' = k)) as [->|Hne].
  - intros [= ->]. left. reflexivity.
  - intros H. right. exact (IH H).
Qed.

Theorem canonical_deep_equal (v : json) : deep_equal (canonical v) v.
Proof.
  induction v as [| b | m e | s | items IH | props IH] using json_induction;
    cbn [canonical].
  - constructor.
  - constructor.
  - destruct (normalize _ m e) as [m' e'] eqn:H. constructor.
    exact (same_number_normalize _ _ _ _ _ H).
  - constructor.
  - constructor. induction IH as [|x items Hx _ IHitems]; cbn [map]; constructor; assumption.
  - constructor. intros k. rewrite get_prop_canonical.
    destruct (get_prop k props) as [w|] eqn:Hk; cbn [option_map]; constructor.
    apply get_prop_In in Hk. rewrite List.Forall_forall in IH.
    exact (IH _ Hk).
Qed.


(** * The fuel of the parser is never used up *)

Lemma skip_ws_length (s : jsstring) : (length (skip_ws s) <= length s)%nat.
Proof.
  induction s as [|c s IH]; cbn [skip_ws]; [lia|].
  destruct (is_ws c); cbn [length] in *; lia.
Qed.

Lemma cons_fst_some {A B} (a : A) (r : option (list A * B)) (l : list A) (b : B) :
  cons_fst a r = Some (l, b) -> exists l', r = Some (l', b).
Proof.
  destruct r as [[l' b']|]; cbn [cons_fst]; [|discriminate].
  intros [= <- <-]. eauto.
Qed.

Lemma parse_string_length (n : nat) (s x r : jsstring) :
  (length s <= n)%nat -> parse_string s = Some (x, r) -> (length r < length s)%nat.
Proof.
  revert s x r. induction n as [|n IH]; intros s x r Hn H.
  - destruct s; [discriminate | cbn [length] in Hn; lia].
  - destruct s as [|c s]; [discriminate|]. cbn [parse_string] in H. cbn [length] in *.
    destruct (bool_decide (c = dquote)).
    { injection H as <- <-. lia. }
    destruct (bool_decide (c = ch "\")).
    + destruct s as [|x0 r1]; [discriminate|].
      destruct (bool_decide (x0 = ch "u")).
      * destruct r1 as [|h1 [|h2 [|h3 [|h4 r2]]]]; try discriminate.
        destruct (hex_value h1), (hex_value h2), (hex_value h3), (hex_value h4);
          try discriminate.
        apply cons_fst_some in H as [l' H]. apply IH in H; cbn [length] in *; lia.
      * destruct (simple_escape x0); [|discriminate].
        apply cons_fst_some in H as [l' H]. apply IH in H; cbn [length] in *; lia.
    + destruct (code c <? 0x20); [discriminate|].
      apply cons_fst_some in H as [l' H]. apply IH in H; lia.
Qed.

Lemma span_digits_length (s : jsstring) :
  (length (snd (span_digits s)) <= length s)%nat.
Proof.
  induction s as [|c s IH]; cbn [span_digits]; [cbn; lia|].
  destruct (is_digit c); [|cbn; lia].
  destruct (span_digits s) as [ds r]. cbn [snd length] in *. lia.
Qed.

Lemma parse_fraction_length (s : jsstring) (fs : list Z) (r : jsstring) :
  parse_fraction s = Some (fs, r) -> (length r <= length s)%nat.
Proof.
  unfold parse_fraction. destruct s as [|c s]; [intros [= <- <-]; lia|].
  destruct (bool_decide (c = ch ".")).
  - pose proof (span_digits_length s) as Hs.
    destruct (span_digits s) as [[|d ds] r']; [discriminate|].
    intros [= <- <-]. cbn [snd length] in *. lia.
  - intros [= <- <-]. lia.
Qed.

Lemma parse_exponent_length (s : jsstring) (ex : Z) (r : jsstring) :
  parse_exponent s = Some (ex, r) -> (length r <= length s)%nat.
Proof.
  unfold parse_exponent. destruct s as [|c s]; [intros [= <- <-]; lia|].
  destruct (bool_decide (c = ch "e") || bool_decide (c = ch "E")).
  - destruct s as [|x r'].
    + cbn. discriminate.
    + destruct (bool_decide (x = ch "-")); [|destruct (bool_decide (x = ch "+"))].
      * intros H. pose proof (span_digits_length r') as Hs.
        destruct (span_digits r') as [[|d ds] r2]; [discriminate|].
        injection H as _ <-. cbn [snd length] in *. lia.
      * intros H. pose proof (span_digits_length r') as Hs.
        destruct (span_digits r') as [[|d ds] r2]; [discriminate|].
        injection H as _ <-. cbn [snd length] in *. lia.
      * intros H. pose proof (span_digits_length (x :: r')) as Hs.
        destruct (span_digits (x :: r')) as [[|d ds] r2]; [discriminate|].
        injection H as _ <-. cbn [snd length] in *. lia.
  - intros [= <- <-]. lia.
Qed.

Lemma parse_number_length (s : jsstring) (v : json) (r : jsstring) :
  parse_number s = Some (v, r) -> (length r <= length s)%nat.
Proof.
  unfold parse_number.
  assert (forall neg s1, (length s1 <= length s)%nat ->
            match span_digits s1 with
            | ([], _) => None
            | (d :: ds, r) =>
                if (d =? 0) && negb (bool_decide (ds = [])) then None
                else
                  match parse_fraction r with
                  | None => None
                  | Some (fs, r1) =>
                      match parse_exponent r1 with
                      | None => None
                      | Some (ex, r2) =>
                          let m := digits_value (d :: ds ++ fs) in
                          let '(m', e') :=
                            normalize (length (d :: ds ++ fs)) m
                              (ex - Z.of_nat (length fs)) in
                          Some (JNumber (if neg : bool then - m' else m') e', r2)
                      end
                  end
            end = Some (v, r) -> (length r <= length s)%nat) as Hbody.
  { intros neg s1 Hs1. pose proof (span_digits_length s1) as Hs.
    destruct (span_digits s1) as [[|d ds] r0]; [discriminate|].
    destruct ((d =? 0) && negb (bool_decide (ds = []))); [discriminate|].
    destruct (parse_fraction r0) as [[fs r1]|] eqn:Hf; [|discriminate].
    destruct (parse_exponent r1) as [[ex r2]|] eqn:He; [|discriminate].
    cbv zeta. destruct (normalize _ _ _) as [m' e'].
    intros [= _ <-]. apply parse_fraction_length in Hf.
    apply parse_exponent_length in He. cbn [snd] in Hs. lia. }
  destruct s as [|c s'].
  - apply (Hbody false []). lia.
  - destruct (bool_decide (c = ch "-"));
      [apply (Hbody true s') | apply (Hbody false (c :: s'))]; cbn [length]; lia.
Qed.

Lemma expect_length (lit : jsstring) (v v' : json) (s r : jsstring) :
  expect lit v s = Some (v', r) -> (length r <= length s)%nat.
Proof.
  unfold expect. destruct (bool_decide _); [|discriminate].
  intros [= _ <-]. rewrite length_skipn. lia.
Qed.

Lemma parse_length (fuel : nat) :
  (forall s v r, parse_value fuel s = Some (v, r) -> (length r <= length s)%nat)
  /\ (forall s acc v r,
        parse_elements fuel s acc = Some (v, r) -> (length r <= length s)%nat)
  /\ (forall s acc v r,
        parse_members fuel s acc = Some (v, r) -> (length r <= length s)%nat).
Proof.
  induction fuel as [|fuel (IHv & IHe & IHm)].
  - repeat split; intros; discriminate.
  - split; [|split].
    + intros s v r H. cbn [parse_value] in H.
      pose proof (skip_ws_length s) as Hws.
      destruct (skip_ws s) as [|c r0]; [discriminate|]. cbn [length] in Hws.
      destruct (bool_decide (c = dquote)).
      { destruct (parse_string r0) as [[str r']|] eqn:Hs; [|discriminate].
        injection H as _ <-. apply (parse_string_length (length r0)) in Hs; lia. }
      destruct (bool_decide (c = ch "[")).
      { pose proof (skip_ws_length r0) as Hws'.
        destruct (skip_ws r0) as [|d r']; [discriminate|]. cbn [length] in Hws'.
        destruct (bool_decide (d = ch "]")).
        - injection H as _ <-. lia.
        - apply IHe in H. cbn [length] in H. lia. }
      destruct (bool_decide (c = ch "{")).
      { pose proof (skip_ws_length r0) as Hws'.
        destruct (skip_ws r0) as [|d r']; [discriminate|]. cbn [length] in Hws'.
        destruct (bool_decide (d = ch "}")).
        - injection H as _ <-. lia.
        - apply IHm in H. cbn [length] in H. lia. }
      destruct (bool_decide (c = ch "t")).
      { apply expect_length in H. cbn [length] in H. lia. }
      destruct (bool_decide (c = ch "f")).
      { apply expect_length in H. cbn [length] in H. lia. }
      destruct (bool_decide (c = ch "n")).
      { apply expect_length in H. cbn [length] in H. lia. }
      apply parse_number_length in H. cbn [length] in H. lia.
    + intros s acc v r H. cbn [parse_elements] in H.
      destruct (parse_value fuel s) as [[v0 r0]|] eqn:Hv; [|discriminate].
      apply IHv in Hv. pose proof (skip_ws_length r0) as Hws.
      destruct (skip_ws r0) as [|d r']; [discriminate|]. cbn [length] in Hws.
      destruct (bool_decide (d = ch ",")).
      { apply IHe in H. lia. }
      destruct (bool_decide (d = ch "]")); [|discriminate].
      injection H as _ <-. lia.
    + intros s acc v r H. cbn [parse_members] in H.
      pose proof (skip_ws_length s) as Hws.
      destruct (skip_ws s) as [|q r0]; [discriminate|]. cbn [length] in Hws.
      destruct (bool_decide (q = dquote)); [|discriminate].
      destruct (parse_string r0) as [[k r1]|] eqn:Hs; [|discriminate].
      apply (parse_string_length (length r0)) in Hs; [|lia].
      pose proof (skip_ws_length r1) as Hws1.
      destruct (skip_ws r1) as [|c r2]; [discriminate|]. cbn [length] in Hws1.
      destruct (bool_decide (c = ch ":")); [|discriminate].
      destruct (parse_value fuel r2) as [[v0 r3]|] eqn:Hv; [|discriminate].
      apply IHv in Hv. pose proof (skip_ws_length r3) as Hws3.
      destruct (skip_ws r3) as [|d r4]; [discriminate|]. cbn [length] in Hws3.
      destruct (bool_decide (d = ch ",")).
      { apply IHm in H. lia. }
      destruct (bool_decide (d = ch "}")); [|discriminate].
      injection H as _ <-. lia.
Qed.

(** Past twice the length of the text, more fuel changes nothing. *)
Lemma parse_fuel (fuel : nat) :
  (forall fuel' s,
     (2 * length s <= fuel <= fuel')%nat -> parse_value fuel s = parse_value fuel' s)
  /\ (forall fuel' s acc,
        (2 * length s + 1 <= fuel <= fuel')%nat ->
        parse_elements fuel s acc = parse_elements fuel' s acc)
  /\ (forall fuel' s acc,
        (2 * length s + 1 <= fuel <= fuel')%nat ->
        parse_members fuel s acc = parse_members fuel' s acc).
Proof.
  induction fuel as [|fuel (IHv & IHe & IHm)].
  - split; [|split; intros; lia].
    intros fuel' s Hs. destruct s; [|cbn [length] in Hs; lia].
    destruct fuel'; reflexivity.
  - split; [|split].
    + intros [|fuel'] s Hs; [lia|]. cbn [parse_value].
      pose proof (skip_ws_length s) as Hws.
      destruct (skip_ws s) as [|c r0]; [reflexivity|]. cbn [length] in Hws.
      destruct (bool_decide (c = dquote)); [reflexivity|].
      destruct (bool_decide (c = ch "[")).
      { pose proof (skip_ws_length r0) as Hws'.
        destruct (skip_ws r0) as [|d r']; [reflexivity|]. cbn [length] in Hws'.
        destruct (bool_decide (d = ch "]")); [reflexivity|].
        apply IHe. cbn [length]. lia. }
      destruct (bool_decide (c = ch "{")); [|reflexivity].
      pose proof (skip_ws_length r0) as Hws'.
      destruct (skip_ws r0) as [|d r']; [reflexivity|]. cbn [length] in Hws'.
      destruct (bool_decide (d = ch "}")); [reflexivity|].
      apply IHm. cbn [length]. lia.
    + intros [|fuel'] s acc Hs; [lia|]. cbn [parse_elements].
      rewrite <- (IHv fuel' s) by lia.
      destruct (parse_value fuel s) as [[v0 r0]|] eqn:Hv; [|reflexivity].
      apply (proj1 (parse_length fuel)) in Hv.
      pose proof (skip_ws_length r0) as Hws.
      destruct (skip_ws r0) as [|d r']; [reflexivity|]. cbn [length] in Hws.
      destruct (bool_decide (d = ch ",")); [|reflexivity].
      apply IHe. lia.
    + intros [|fuel'] s acc Hs; [lia|]. cbn [parse_members].
      pose proof (skip_ws_length s) as Hws.
      destruct (skip_ws s) as [|q r0]; [reflexivity|]. cbn [length] in Hws.
      destruct (bool_decide (q = dquote)); [|reflexivity].
      destruct (parse_string r0) as [[k r1]|] eqn:Hk; [|reflexivity].
      apply (parse_string_length (length r0)) in Hk; [|lia].
      pose proof (skip_ws_length r1) as Hws1.
      destruct (skip_ws r1) as [|c r2]; [reflexivity|]. cbn [length] in Hws1.
      destruct (bool_decide (c = ch ":")); [|reflexivity].
      rewrite <- (IHv fuel' r2) by lia.
      destruct (parse_value fuel r2) as [[v0 r3]|] eqn:Hv; [|reflexivity].
      apply (proj1 (parse_length fuel)) in Hv.
      pose proof (skip_ws_length r3) as Hws3.
      destruct (skip_ws r3) as [|d r4]; [reflexivity|]. cbn [length] in Hws3.
      destruct (bool_decide (d = ch ",")); [|reflexivity].
      apply IHm. lia.
Qed.

(** With less fuel the parser may give up, but it never gives another
    result. *)
Lemma parse_fuel_mono (fuel : nat) :
  (forall fuel' s x,
     (fuel <= fuel')%nat -> parse_value fuel s = Some x -> parse_value fuel' s = Some x)
  /\ (forall fuel' s acc x,
        (fuel <= fuel')%nat ->
        parse_elements fuel s acc = Some x -> parse_elements fuel' s acc = Some x)
  /\ (forall fuel' s acc x,
        (fuel <= fuel')%nat ->
        parse_members fuel s acc = Some x -> parse_members fuel' s acc = Some x).
Proof.
  induction fuel as [|fuel (IHv & IHe & IHm)].
  - repeat split; intros; discriminate.
  - split; [|split].
    + intros [|fuel'] s x Hle; [lia|]. cbn [parse_value].
      destruct (skip_ws s) as [|c r0]; [discriminate|].
      destruct (bool_decide (c = dquote)); [trivial|].
      destruct (bool_decide (c = ch "[")).
      { destruct (skip_ws r0) as [|d r']; [discriminate|].
        destruct (bool_decide (d = ch "]")); [trivial|]. apply IHe. lia. }
      destruct (bool_decide (c = ch "{")); [|trivial].
      destruct (skip_ws r0) as [|d r']; [discriminate|].
      destruct (bool_decide (d = ch "}")); [trivial|]. apply IHm. lia.
    + intros [|fuel'] s acc x Hle; [lia|]. cbn [parse_elements].
      destruct (parse_value fuel s) as [[v0 r0]|] eqn:Hv; [|discriminate].
      rewrite (IHv fuel' s _ ltac:(lia) Hv).
      destruct (skip_ws r0) as [|d r']; [discriminate|].
      destruct (bool_decide (d = ch ",")); [|trivial]. apply IHe. lia.
    + intros [|fuel'] s acc x Hle; [lia|]. cbn [parse_members].
      destruct (skip_ws s) as [|q r0]; [discriminate|].
      destruct (bool_decide (q = dquote)); [|discriminate].
      destruct (parse_string r0) as [[k r1]|]; [|discriminate].
      destruct (skip_ws r1) as [|c r2]; [discriminate|].
      destruct (bool_decide (c = ch ":")); [|discriminate].
      destruct (parse_value fuel r2) as [[v0 r3]|] eqn:Hv; [|discriminate].
      rewrite (IHv fuel' r2 _ ltac:(lia) Hv).
      destruct (skip_ws r3) as [|d r4]; [discriminate|].
      destruct (bool_decide (d = ch ",")); [|trivial]. apply IHm. lia.
Qed.

(** Whatever some amount of fuel reads from a text, [JSON_parse] reads
    with the fuel it takes: it never throws for want of fuel. *)
Theorem JSON_parse_fuel (fuel : nat) (s : jsstring) (x : json * jsstring) :
  parse_value fuel s = Some x -> parse_value (2 * length s + 2) s = Some x.
Proof.
  intros H.
  rewrite (proj1 (parse_fuel (2 * length s + 2)) (Nat.max fuel (2 * length s + 2)) s) by lia.
  apply (proj1 (parse_fuel_mono fuel)); [lia | exact H].
Qed.


(** * The claims *)

Lemma verify_own_signature (node : process) (key : jsstring) (d : data) (g : rng) :
  outcome (verify node key d (sign d key default_sign)) g = Ok true.
Proof.
  unfold verify. rewrite timeSafeCompare_outcome.
  rewrite bool_decide_eq_true_2; reflexivity.
Qed.

Lemma stringify_text (P : json) (text : jsstring) :
  stringify P = Ok text -> strings_well_formed P = true /\ text = serialize P.
Proof.
  unfold stringify. destruct (strings_well_formed P); [|discriminate].
  intros [= <-]. split; reflexivity.
Qed.

(** Claim C1. For every payload [P] and every key [K] (whatever its
    length, so in particular for keys of 32 bytes or more), [verify]
    returns [true], without throwing, when it is given the canonical
    serialization that [stringify] returns for [P] and the signature
    that [sign] computes over that same serialization with [K], with
    the default algorithm (sha1) and encoding (base64). The same holds
    of the canonical text [serialize P] of any payload, [stringify]
    returning it or not. *)
Theorem verify_accepts_signature (node : process) (P : json) (K : jsstring) (g : rng) :
  (forall text,
     stringify P = Ok text ->
     outcome (verify node K (Str text) (sign (Str text) K default_sign)) g = Ok true)
  /\ outcome
       (verify node K (Str (serialize P)) (sign (Str (serialize P)) K default_sign)) g
     = Ok true.
Proof. split; [intros text _|]; apply verify_own_signature. Qed.

(** Claim C3. For every data (string or bytes) and every key, [sign]
    with the default options is the base64 text of the HMAC-SHA1 digest
    passed through the replacement; it has exactly 27 characters, none of
    which is a slash, a plus or an equals sign: the replacement turns the
    slash into an underscore, the plus into a hyphen, and deletes the
    equals sign. *)
Theorem sign_default_shape (d : data) (key : jsstring) :
  let digest := Crypto.hmac Crypto.sha1_alg (utf8_encode key) (data_bytes d) in
  let signature := sign d key default_sign in
  signature = url_safe (base64_encode digest)
  /\ length signature = 27%nat
  /\ Forall (fun c => c <> ch "/" /\ c <> ch "+" /\ c <> ch "=") signature
  /\ url_safe_unit (ch "/") = js "_"
  /\ url_safe_unit (ch "+") = js "-"
  /\ url_safe_unit (ch "=") = [].
Proof.
  cbv zeta. split; [reflexivity|]. split; [apply sign_default_length|].
  split; [|split; [|split]; reflexivity].
  rewrite sign_default. apply base64url_safe.
Qed.

(** Claim C4. For all strings [a] and [b], whatever the random key
    drawn and whether or not the platform has [crypto.timingSafeEqual],
    [timeSafeCompare a b] returns a boolean and never throws; that
    boolean is [true] exactly when [a] and [b] are the same string, and
    it is [false] when their lengths differ. *)
Theorem timeSafeCompare_iff (node : process) (a b : jsstring) (g : rng) :
  exists r,
    outcome (timeSafeCompare node a b) g = Ok r
    /\ (r = true <-> a = b)
    /\ (length a <> length b -> r = false).
Proof.
  exists (bool_decide (a = b)). split; [apply timeSafeCompare_outcome|].
  split; [apply bool_decide_eq_true|].
  intros Hlen. apply bool_decide_eq_false_2. intros ->. apply Hlen. reflexivity.
Qed.

Lemma createCookie_value (node : process) (P : json) (secretKey : option jsstring)
    (cookie : jsstring) :
  createCookie node P secretKey = Ok cookie ->
  stringify P = Ok (serialize P)
  /\ exists key,
       cookie = sign (Str (serialize P)) key default_sign
                  ++ base64_encode (utf8_encode (serialize P)).
Proof.
  unfold createCookie. intros H.
  destruct (match nonempty secretKey with Some k => Ok k | None => getSecretKey node end)
    as [key|e]; cbn [bind] in H; [|discriminate].
  destruct (stringify P) as [text|e] eqn:Htext; cbn [bind] in H; [|discriminate].
  apply stringify_text in Htext as [_ ->].
  split; [reflexivity|]. exists key. congruence.
Qed.

(** Claim C7. When [createCookie] returns a cookie value for the
    payload [P] (with the key passed to it or the key of the
    environment), [stringify] has returned the canonical JSON of [P];
    the first 27 characters of the cookie value are the signature of
    that canonical JSON; the rest base64-decodes and UTF-8-decodes to
    exactly that canonical JSON; and [parseSession] returns, without
    throwing, what [JSON.parse] reads from it, namely [canonical P], a
    value deep-equal to [P]. *)
Theorem parseSession_createCookie (node : process) (P : json)
    (secretKey : option jsstring) (cookie : jsstring) :
  createCookie node P secretKey = Ok cookie ->
  stringify P = Ok (serialize P)
  /\ (exists key,
       substring_to SIGNATURE_DIGEST_LENGTH cookie
       = sign (Str (serialize P)) key default_sign)
  /\ payload_text cookie = serialize P
  /\ parseSession cookie = JSON_parse (serialize P)
  /\ parseSession cookie = Ok (canonical P)
  /\ deep_equal (canonical P) P.
Proof.
  intros H. apply createCookie_value in H as [Hcanon [key ->]].
  split; [exact Hcanon|]. split.
  { exists key. unfold substring_to.
    rewrite <- (sign_default_length (Str (serialize P)) key).
    rewrite firstn_app, Nat.sub_diag, firstn_all. cbn [firstn]. apply app_nil_r. }
  assert (payload_text
            (sign (Str (serialize P)) key default_sign
               ++ base64_encode (utf8_encode (serialize P))) = serialize P) as Htext.
  { unfold payload_text, substring_from.
    rewrite <- (sign_default_length (Str (serialize P)) key).
    rewrite skipn_app, skipn_all, Nat.sub_diag. cbn [app]. rewrite skipn_O.
    rewrite base64_roundtrip. apply utf8_roundtrip, serialize_well_formed. }
  split; [exact Htext|].
  assert (parseSession
            (sign (Str (serialize P)) key default_sign
               ++ base64_encode (utf8_encode (serialize P)))
          = JSON_parse (serialize P)) as Hparse.
  { unfold parseSession. fold (payload_text
            (sign (Str (serialize P)) key default_sign
               ++ base64_encode (utf8_encode (serialize P)))).
    rewrite Htext. reflexivity. }
  split; [exact Hparse|]. split.
  - rewrite Hparse. apply JSON_parse_serialize.
  - apply canonical_deep_equal.
Qed.

Lemma getSecretKey_env (node : process) :
  (forall k, getSecretKey node = Ok k
             <-> SESSION_COOKIE_SECRET node = Some k /\ 32 <= byteLength k)
  /\ (SESSION_COOKIE_SECRET node = None
      \/ (exists k, SESSION_COOKIE_SECRET node = Some k /\ byteLength k < 32) ->
      exists msg, getSecretKey node = Throw (Error msg)).
Proof.
  unfold getSecretKey. destruct (SESSION_COOKIE_SECRET node) as [[|c s]|].
  - split.
    + intros k. split; [discriminate|]. intros [[= <-] H]. change (byteLength []) with 0 in H. lia.
    + intros _. eexists. reflexivity.
  - destruct (Z.ltb_spec (byteLength (c :: s)) 32) as [Hlt|Hge].
    + split.
      * intros k. split; [discriminate|]. intros [[= <-] H]. lia.
      * intros _. eexists. reflexivity.
    + split.
      * intros k. split; [intros [= <-]; auto | intros [[= <-] _]; reflexivity].
      * intros [[=] | (k & [= <-] & H)]. lia.
  - split.
    + intros k. split; [discriminate | intros [[=] _]].
    + intros _. eexists. reflexivity.
Qed.

(** Claim C9. [getSecretKey] returns a key exactly when the environment
    holds one whose UTF-8 encoding has at least 32 bytes (bytes, not
    characters), and then it returns that key, so it succeeds at exactly
    32 bytes; when the key is absent, or has fewer than 32 bytes (for
    one, 31), it throws an [Error]. *)
Theorem getSecretKey_spec (node : process) :
  (forall k, getSecretKey node = Ok k
             <-> SESSION_COOKIE_SECRET node = Some k /\ 32 <= byteLength k)
  /\ (SESSION_COOKIE_SECRET node = None
      \/ (exists k, SESSION_COOKIE_SECRET node = Some k /\ byteLength k < 32) ->
      exists msg, getSecretKey node = Throw (Error msg)).
Proof. exact (getSecretKey_env node). Qed.

Lemma JSON_parse_valid (text : jsstring) :
  valid_json text <-> exists v, JSON_parse text = Ok v.
Proof.
  unfold JSON_parse. split.
  - intros (fuel & v & rest & Hv & Hrest). apply JSON_parse_fuel in Hv.
    rewrite Hv, Hrest. eauto.
  - intros [v Hv]. destruct (parse_value _ text) as [[v' rest]|] eqn:Hp; [|discriminate].
    exists (2 * length text + 2)%nat, v', rest. split; [exact Hp|].
    destruct (skip_ws rest); [reflexivity | discriminate].
Qed.

Lemma JSON_parse_outcome (text : jsstring) :
  (exists v, JSON_parse text = Ok v) \/ JSON_parse text = Throw SyntaxError.
Proof.
  unfold JSON_parse. destruct (parse_value _ text) as [[v rest]|]; [|right; reflexivity].
  destruct (skip_ws rest); [left; eauto | right; reflexivity].
Qed.

(** Claim C10. [parseSession] throws a [SyntaxError] whenever the text
    that the payload portion of its input decodes to is not a JSON text,
    and only then: on a JSON text it returns a value. For every input of
    at most 27 characters, the width of the signature, the payload
    portion is empty and [parseSession] throws. *)
Theorem parseSession_throws (s : jsstring) :
  (~ valid_json (payload_text s) -> parseSession s = Throw SyntaxError)
  /\ (valid_json (payload_text s) -> exists v, parseSession s = Ok v)
  /\ ((length s <= 27)%nat ->
      payload_text s = [] /\ parseSession s = Throw SyntaxError).
Proof.
  change (parseSession s) with (JSON_parse (payload_text s)).
  split; [|split].
  - intros Hbad. destruct (JSON_parse_outcome (payload_text s)) as [Hv|Hthrow];
      [|exact Hthrow].
    exfalso. apply Hbad, JSON_parse_valid, Hv.
  - apply JSON_parse_valid.
  - intros Hlen.
    assert (payload_text s = []) as ->; [|split; reflexivity].
    unfold payload_text, substring_from.
    rewrite skipn_all2 by exact Hlen. reflexivity.
Qed.


Lemma cookie_of_ok r k v :
  cookie_of r k = Ok v -> exists m, r = Ok m /\ m !! k = v.
Proof.
  destruct r as [m|e]; cbn; [|discriminate]. intros [= <-]. eauto.
Qed.

Lemma serializeCookie_last_block (name val : jsstring) (opts : cookie_options) :
  serializeCookie name val opts
  = let* str := serializeCookie name val (without_sameSite opts) in
    add_sameSite opts str.
Proof.
  unfold serializeCookie.
  change (encoder (without_sameSite opts)) with (encoder opts).
  change (add_maxAge (without_sameSite opts)) with (add_maxAge opts).
  change (add_domain (without_sameSite opts)) with (add_domain opts).
  change (add_path (without_sameSite opts)) with (add_path opts).
  change (add_expires (without_sameSite opts)) with (add_expires opts).
  change (add_flags (without_sameSite opts)) with (add_flags opts).
  change (add_priority (without_sameSite opts)) with (add_priority opts).
  destruct (encoder opts) as [enc|e]; cbn [bind]; [|reflexivity].
  destruct (negb (fieldContentRegExp name)); [reflexivity|].
  destruct (enc val) as [value|e]; cbn [bind]; [|reflexivity].
  destruct (negb (bool_decide (value = [])) && negb (fieldContentRegExp value));
    [reflexivity|].
  destruct (add_maxAge opts _) as [s1|e]; cbn [bind]; [|reflexivity].
  destruct (add_domain opts _) as [s2|e]; cbn [bind]; [|reflexivity].
  destruct (add_path opts _) as [s3|e]; cbn [bind]; [|reflexivity].
  destruct (add_expires opts _) as [s4|e]; cbn [bind]; [|reflexivity].
  destruct (add_priority opts _) as [s5|e]; cbn [bind]; [|reflexivity].
  change (add_sameSite (without_sameSite opts) s5) with (@Ok jsstring s5).
  cbn [bind]. destruct (add_sameSite opts s5); reflexivity.
Qed.

(** Claim C8. When the options without [sameSite] serialize to [str]
    and [sameSite] is truthy, [serializeCookie] appends to [str] the text
    [; SameSite=Strict] for the boolean [true], and [; SameSite=Lax],
    [; SameSite=Strict] or [; SameSite=None] for a string that is
    [lax], [strict] or [none] once put in lower case; for every other
    truthy value it throws a [TypeError]. *)
Theorem serializeCookie_sameSite (name val : jsstring) (opts : cookie_options)
    (str : jsstring) :
  serializeCookie name val (without_sameSite opts) = Ok str ->
  truthy (sameSite opts) = true ->
  serializeCookie name val opts =
    match sameSite opts with
    | VBool true => Ok (str ++ js "; SameSite=Strict")
    | VString s =>
        if bool_decide (toLowerCase s = js "lax")
        then Ok (str ++ js "; SameSite=Lax")
        else if bool_decide (toLowerCase s = js "strict")
        then Ok (str ++ js "; SameSite=Strict")
        else if bool_decide (toLowerCase s = js "none")
        then Ok (str ++ js "; SameSite=None")
        else Throw (TypeError (js "option sameSite is invalid"))
    | _ => Throw (TypeError (js "option sameSite is invalid"))
    end.
Proof.
  intros Hstr Htruthy. rewrite serializeCookie_last_block, Hstr. cbn [bind].
  unfold add_sameSite. rewrite Htruthy.
  destruct (sameSite opts) as [| | [|] | n | z | s | t |]; reflexivity.
Qed.

(** Claim C5, which the code does not meet. On the header [a=b=c],
    [parseCookie] splits the segment at every equals sign and keeps the
    first two pieces only: the key [a] gets the value [b], and not the
    remainder [b=c] after the first equals sign. *)
Theorem parseCookie_cuts_at_second_equals :
  exists m,
    parseCookie [js "a=b=c"] None = Ok m
    /\ m !! js "a" = Some (CString (js "b"))
    /\ m !! js "a" <> Some (CString (js "b=c")).
Proof.
  assert (cookie_of (parseCookie [js "a=b=c"] None) (js "a")
          = Ok (Some (CString (js "b")))) as H by (vm_compute; reflexivity).
  apply cookie_of_ok in H as (m & Hm & Ha).
  exists m. split; [exact Hm|]. split; [exact Ha|]. rewrite Ha. discriminate.
Qed.

Lemma tryDecode_ok (str : option jsstring) (dec : decoder) :
  tryDecode str dec = Ok (match dec str with Ok s => Some s | Throw _ => str end).
Proof. unfold tryDecode. destruct (dec str); reflexivity. Qed.

Lemma parse_segment_ok (dec : decoder) acc val :
  exists m, parse_segment dec acc val = Ok m.
Proof. unfold parse_segment. rewrite tryDecode_ok. cbn [bind]. eauto. Qed.

Lemma reduce_ok {A B} (f : B -> A -> result B) (l : list A) (init : B) :
  (forall acc x, exists y, f acc x = Ok y) -> exists r, reduce f l init = Ok r.
Proof.
  intros Hf. revert init. induction l as [|x l IH]; intros init; cbn [reduce].
  - eauto.
  - destruct (Hf init x) as [y ->]. cbn [bind]. apply IH.
Qed.

Lemma map_result_ok {A B} (f : A -> result B) (l : list A) :
  (forall x, exists y, f x = Ok y) -> exists r, map_result f l = Ok r.
Proof.
  intros Hf. induction l as [|x l [r IH]]; cbn [map_result].
  - eauto.
  - destruct (Hf x) as [y ->]. rewrite IH. cbn [bind]. eauto.
Qed.

Lemma last_binding_app (k : jsstring) (l1 l2 : list (jsstring * cookie_value)) :
  last_binding k (l1 ++ l2)
  = match last_binding k l2 with
    | Some w => Some w
    | None => last_binding k l1
    end.
Proof.
  induction l1 as [|[k' v] l1 IH]; cbn [app last_binding].
  - destruct (last_binding k l2); reflexivity.
  - rewrite IH. destruct (last_binding k l2); reflexivity.
Qed.

(** The bindings that reach the mapping: those of [__proto__] are
    dropped by the prototype setter. *)
Lemma parse_segment_kept (dec : decoder) (acc : gmap jsstring cookie_value)
    (piece : list jsstring) :
  parse_segment dec acc piece = Ok (assign acc (fst (kept dec piece)) (snd (kept dec piece))).
Proof.
  unfold parse_segment, kept. rewrite tryDecode_ok. cbn [bind fst snd].
  destruct (dec (nth_error piece 1)); [reflexivity|].
  destruct (nth_error piece 1); reflexivity.
Qed.

Lemma reduce_lookup (dec : decoder) (l : list (list jsstring))
    (acc : gmap jsstring cookie_value) :
  exists m,
    reduce (parse_segment dec) l acc = Ok m
    /\ forall k,
         m !! k
         = match
             (if bool_decide (k = js "__proto__") then None
              else last_binding k (map (kept dec) l))
           with
           | Some w => Some w
           | None => acc !! k
           end.
Proof.
  revert acc. induction l as [|piece l IH]; intros acc; cbn [reduce map last_binding].
  - exists acc. split; [reflexivity|]. intros k. destruct (bool_decide _); reflexivity.
  - rewrite parse_segment_kept. cbn [bind].
    destruct (kept dec piece) as [k0 v0]. cbn [fst snd].
    destruct (IH (assign acc k0 v0)) as (m & Hm & Hk). exists m. split; [exact Hm|].
    intros k. rewrite Hk. unfold assign.
    destruct (bool_decide_reflect (k = js "__proto__")) as [->|Hproto].
    + destruct (bool_decide_reflect (k0 = js "__proto__")) as [_|Hk0]; [reflexivity|].
      rewrite lookup_insert_ne by exact Hk0. reflexivity.
    + destruct (last_binding k (map (kept dec) l)) as [w|]; [reflexivity|].
      destruct (bool_decide_reflect (k0 = k)) as [->|Hne].
      * rewrite bool_decide_eq_false_2 by exact Hproto.
        rewrite lookup_insert_eq. reflexivity.
      * destruct (bool_decide (k0 = js "__proto__")); [reflexivity|].
        rewrite lookup_insert_ne by exact Hne. reflexivity.
Qed.

Lemma parse_header_lookup (dec : decoder) (h : jsstring) :
  exists m,
    parse_header dec h = Ok m
    /\ forall k,
         m !! k
         = if bool_decide (k = js "__proto__") then None
           else last_binding k (map (kept dec) (pieces h)).
Proof.
  destruct (reduce_lookup dec (pieces h) ∅) as (m & Hm & Hk).
  exists m. split; [exact Hm|]. intros k. rewrite Hk, lookup_empty.
  destruct (bool_decide _); [reflexivity|].
  destruct (last_binding _ _); reflexivity.
Qed.

Lemma parseCookie_lookup (dec : decoder) (cookies : list jsstring) :
  exists ms,
    map_result (parse_header dec) cookies = Ok ms
    /\ forall acc k,
         fold_left (fun acc val => val ∪ acc) ms acc !! k
         = match
             (if bool_decide (k = js "__proto__") then None
              else last_binding k (map (kept dec) (flat_map pieces cookies)))
           with
           | Some w => Some w
           | None => acc !! k
           end.
Proof.
  induction cookies as [|h cookies (ms & Hms & IH)]; cbn [map_result flat_map].
  - exists []. split; [reflexivity|]. intros acc k. cbn [fold_left map last_binding].
    destruct (bool_decide _); reflexivity.
  - destruct (parse_header_lookup dec h) as (mh & Hmh & Hk).
    rewrite Hmh, Hms. cbn [bind]. exists (mh :: ms). split; [reflexivity|].
    intros acc k. cbn [fold_left]. rewrite IH, map_app, last_binding_app.
    rewrite lookup_union, Hk.
    destruct (bool_decide (k = js "__proto__")).
    + destruct (acc !! k); reflexivity.
    + destruct (last_binding k (map (kept dec) (flat_map pieces cookies))); [reflexivity|].
      destruct (last_binding k (map (kept dec) (pieces h))); destruct (acc !! k); reflexivity.
Qed.

Lemma last_binding_last (k : jsstring) (v : cookie_value)
    (l1 l2 : list (jsstring * cookie_value)) :
  (forall kv, In kv l2 -> fst kv <> k) ->
  last_binding k (l1 ++ (k, v) :: l2) = Some v.
Proof.
  intros Hl2. rewrite last_binding_app. cbn [last_binding].
  assert (last_binding k l2 = None) as ->.
  { induction l2 as [|[k' v'] l2 IH]; [reflexivity|]. cbn [last_binding].
    rewrite IH by (intros kv Hkv; apply Hl2; right; exact Hkv).
    rewrite bool_decide_eq_false_2; [reflexivity|]. apply (Hl2 (k', v')). left. reflexivity. }
  rewrite bool_decide_eq_true_2 by reflexivity. reflexivity.
Qed.

(** Claim C6. For every list of header strings and every decoder,
    [parseCookie] returns a mapping and does not throw. The mapping
    gives each key other than [__proto__] what the last segment with
    that key, in the last header that has one, gives it: the decoded
    value of the segment or, when the decoder throws on it, the raw
    value. In particular, when the decoder throws on the value [raw] of
    the last segment of a key, the mapping returned holds [raw] for that
    key. *)
Theorem parseCookie_never_throws (cookies : list jsstring) (_decode : option decoder) :
  exists m,
    parseCookie cookies _decode = Ok m
    /\ (forall k,
          m !! k
          = if bool_decide (k = js "__proto__") then None
            else last_binding k
                   (map (kept (default decode _decode)) (flat_map pieces cookies)))
    /\ (forall k raw rest before after,
          flat_map pieces cookies = before ++ (k :: raw :: rest) :: after ->
          (forall piece, In piece after -> nth 0 piece [] <> k) ->
          k <> js "__proto__" ->
          is_ok (default decode _decode (Some raw)) = false ->
          m !! k = Some (CString raw)).
Proof.
  destruct (parseCookie_lookup (default decode _decode) cookies) as (ms & Hms & Hk).
  assert (forall k,
            fold_left (fun acc val => val ∪ acc) ms ∅ !! k
            = if bool_decide (k = js "__proto__") then None
              else last_binding k
                     (map (kept (default decode _decode)) (flat_map pieces cookies)))
    as Hlookup.
  { intros k. rewrite Hk, lookup_empty.
    destruct (bool_decide _); [reflexivity|].
    destruct (last_binding _ _); reflexivity. }
  exists (fold_left (fun acc val => val ∪ acc) ms ∅).
  split; [unfold parseCookie; rewrite Hms; reflexivity|].
  split; [exact Hlookup|].
  intros k raw rest before after Hpieces Hafter Hproto Hthrow.
  rewrite Hlookup, bool_decide_eq_false_2 by exact Hproto.
  rewrite Hpieces, map_app. cbn [map].
  replace (kept (default decode _decode) (k :: raw :: rest)) with (k, CString raw).
  - apply last_binding_last. intros kv Hkv.
    apply in_map_iff in Hkv as (piece & <- & Hpiece). apply Hafter, Hpiece.
  - unfold kept. cbn [nth nth_error].
    destruct (default decode _decode (Some raw)); [discriminate | reflexivity].
Qed.



(** * Further properties of the code *)

(** ** Comparison and signatures *)

Lemma scan_decides (a b : list byte) :
  length a = length b -> scan a b = bool_decide (a = b).
Proof.
  revert b. induction a as [|x a IH]; intros [|y b] Hlen; try discriminate.
  - reflexivity.
  - cbn [scan]. injection Hlen as Hlen.
    destruct (bool_decide_reflect (x = y)) as [->|Hne].
    + rewrite (IH b Hlen).
      destruct (bool_decide_reflect (a = b)) as [->|Hab].
      * rewrite bool_decide_eq_true_2; reflexivity.
      * rewrite bool_decide_eq_false_2; [reflexivity | congruence].
    + rewrite bool_decide_eq_false_2; [reflexivity | congruence].
Qed.

(** X1. On all buffers, of equal length or not, with or without
    [crypto.timingSafeEqual], [bufferEqual] returns whether the two
    buffers are the same; the length guard keeps [timingSafeEqual] from
    ever throwing. *)
Theorem bufferEqual_decides (node : process) (a b : list byte) :
  bufferEqual node a b = Ok (bool_decide (a = b)).
Proof.
  unfold bufferEqual, timingSafeEqual.
  destruct (bool_decide_reflect (length a = length b)) as [Hlen|Hlen]; cbn [negb].
  - destruct (has_timingSafeEqual node); [reflexivity|].
    rewrite (scan_decides a b Hlen). reflexivity.
  - rewrite bool_decide_eq_false_2; [reflexivity|]. intros ->. apply Hlen. reflexivity.
Qed.

Lemma url_safe_unit_safe (c : u16) : Forall url_safe_char (url_safe_unit c).
Proof.
  unfold url_safe_unit.
  destruct (bool_decide_reflect (c = ch "/")) as [->|H1].
  { constructor; [|constructor]. repeat split; discriminate. }
  destruct (bool_decide_reflect (c = ch "+")) as [->|H2].
  { constructor; [|constructor]. repeat split; discriminate. }
  destruct (bool_decide_reflect (c = ch "=")) as [->|H3]; [constructor|].
  constructor; [|constructor]. repeat split; assumption.
Qed.

Lemma url_safe_safe (s : jsstring) : Forall url_safe_char (url_safe s).
Proof.
  unfold url_safe. induction s as [|c s IH]; cbn [flat_map]; [constructor|].
  apply Forall_app. split; [apply url_safe_unit_safe | exact IH].
Qed.

(** X2. Whatever the algorithm and the encoding asked for, and whatever
    the data and the key, a signature contains no slash, no plus and no
    equals sign. *)
Theorem sign_never_unsafe (d : data) (key : jsstring) (opts : sign_options) :
  Forall url_safe_char (sign d key opts).
Proof. unfold sign. apply url_safe_safe. Qed.

Lemma url_safe_id (s : jsstring) : Forall url_safe_char s -> url_safe s = s.
Proof.
  unfold url_safe. induction 1 as [|c s (H1 & H2 & H3) _ IH]; [reflexivity|].
  cbn [flat_map]. rewrite IH. unfold url_safe_unit.
  rewrite !bool_decide_eq_false_2 by assumption. reflexivity.
Qed.

Lemma nibble_check' (f : nat -> bool) (i : Z) :
  forallb f (seq 0 16) = true -> f (Z.to_nat (i mod 16)) = true.
Proof.
  intros H. rewrite forallb_forall in H. apply H, in_seq.
  assert (0 <= i mod 16 < 16) by (apply Z.mod_pos_bound; lia). lia.
Qed.

Lemma hex_digit_safe (i : Z) : url_safe_char (hex_digit i).
Proof.
  pose proof (nibble_check'
    (fun n => let c := nth n (js "0123456789abcdef") (ch "0") in
              bool_decide (c <> ch "/") && bool_decide (c <> ch "+")
              && bool_decide (c <> ch "=")) i) as H.
  cbv beta zeta in H. rewrite !andb_true_iff, !bool_decide_eq_true in H.
  unfold url_safe_char, hex_digit.
  destruct H as [[? ?] ?]; [vm_compute; reflexivity | auto].
Qed.

Lemma hex_text_safe (l : list byte) : Forall url_safe_char (to_text hex l).
Proof.
  cbn [to_text]. induction l as [|b l IH]; cbn [flat_map app]; [constructor|].
  constructor; [apply hex_digit_safe|]. constructor; [apply hex_digit_safe | exact IH].
Qed.

Lemma hex_text_length (l : list byte) : length (to_text hex l) = (2 * length l)%nat.
Proof.
  cbn [to_text]. induction l as [|b l IH]; [reflexivity|].
  cbn [flat_map app length]. rewrite IH. lia.
Qed.

Lemma sign_length_table (d : data) (key : jsstring)
    (alg : option Crypto.algorithm) (enc : option Buffer.encoding) :
  enc <> Some binary ->
  length (sign d key {| algorithm := alg; encoding := enc |})
  = match default base64 enc, default Crypto.sha1_alg alg with
    | hex, Crypto.sha1_alg => 40
    | hex, Crypto.sha256_alg => 64
    | hex, Crypto.sha512_alg => 128
    | _, Crypto.sha1_alg => SIGNATURE_DIGEST_LENGTH
    | _, Crypto.sha256_alg => 43
    | _, Crypto.sha512_alg => 86
    end%nat.
Proof.
  intros Hbin. unfold sign. cbn [algorithm encoding].
  set (a := default Crypto.sha1_alg alg).
  set (h := Crypto.hmac a (utf8_encode key) (data_bytes d)).
  assert (length h = Crypto.digest_size a) as Hh by apply hmac_length.
  assert (default base64 enc = base64 \/ default base64 enc = base64url
          \/ default base64 enc = hex) as [-> | [-> | ->]].
  { destruct enc as [[| | |]|]; cbn; auto. contradiction. }
  - cbn [to_text]. rewrite url_safe_base64. apply Nat2Z.inj.
    rewrite base64url_length, Hh. destruct a; reflexivity.
  - cbn [to_text]. rewrite url_safe_id by apply base64url_safe. apply Nat2Z.inj.
    rewrite base64url_length, Hh. destruct a; reflexivity.
  - rewrite url_safe_id by apply hex_text_safe.
    rewrite hex_text_length, Hh. destruct a; reflexivity.
Qed.

(** X3. The length of a signature depends on the algorithm and on the
    encoding alone: 27, 43 or 86 characters in base64 (the default) and
    in base64url for sha1 (the default), sha256 and sha512, and 40, 64 or
    128 in hex. The width [SIGNATURE_DIGEST_LENGTH] at which the other
    functions cut a cookie is the first of these only. *)
Theorem sign_length (d : data) (key : jsstring)
    (alg : option Crypto.algorithm) (enc : option Buffer.encoding) :
  enc <> Some binary ->
  length (sign d key {| algorithm := alg; encoding := enc |})
  = match default base64 enc, default Crypto.sha1_alg alg with
    | hex, Crypto.sha1_alg => 40
    | hex, Crypto.sha256_alg => 64
    | hex, Crypto.sha512_alg => 128
    | _, Crypto.sha1_alg => SIGNATURE_DIGEST_LENGTH
    | _, Crypto.sha256_alg => 43
    | _, Crypto.sha512_alg => 86
    end%nat.
Proof. apply sign_length_table. Qed.

(** ** Verification of session strings *)

Lemma payload_text_cookie (sig text : jsstring) :
  length sig = SIGNATURE_DIGEST_LENGTH -> well_formed text = true ->
  payload_text (sig ++ base64_encode (utf8_encode text)) = text.
Proof.
  intros Hlen Hwf. unfold payload_text, substring_from. rewrite <- Hlen.
  rewrite skipn_app, skipn_all, Nat.sub_diag. cbn [app]. rewrite skipn_O.
  rewrite base64_roundtrip. apply utf8_roundtrip, Hwf.
Qed.

Lemma signature_of_cookie (sig rest : jsstring) :
  length sig = SIGNATURE_DIGEST_LENGTH ->
  substring_to SIGNATURE_DIGEST_LENGTH (sig ++ rest) = sig.
Proof.
  intros Hlen. unfold substring_to. rewrite <- Hlen.
  rewrite firstn_app, Nat.sub_diag, firstn_all. cbn [firstn]. apply app_nil_r.
Qed.

Lemma verifySessionString_outcome (node : process) (key session : jsstring) (g : rng) :
  getSecretKey node = Ok key ->
  outcome (verifySessionString node session) g
  = Ok (bool_decide (substring_to SIGNATURE_DIGEST_LENGTH session
                     = sign (Str (payload_text session)) key default_sign)).
Proof.
  intros Hkey. unfold outcome, verifySessionString. rewrite Hkey.
  apply (timeSafeCompare_outcome node).
Qed.

(** X4. With a secret key of 32 bytes or more in the environment,
    [verifySessionString] never throws: it returns [true] exactly when
    the first 27 characters of the string are the signature, under that
    key, of the text the rest decodes to; in particular it returns
    [false] on every string shorter than 27 characters. *)
Theorem verifySessionString_iff (node : process) (key session : jsstring) (g : rng) :
  getSecretKey node = Ok key ->
  exists r,
    outcome (verifySessionString node session) g = Ok r
    /\ (r = true <->
        substring_to SIGNATURE_DIGEST_LENGTH session
        = sign (Str (payload_text session)) key default_sign)
    /\ ((length session < SIGNATURE_DIGEST_LENGTH)%nat -> r = false).
Proof.
  intros Hkey. eexists. split; [apply (verifySessionString_outcome node key), Hkey|].
  split; [apply bool_decide_eq_true|].
  intros Hlen. apply bool_decide_eq_false_2. intros Heq.
  apply (f_equal (@length u16)) in Heq.
  rewrite sign_default_length in Heq. unfold substring_to in Heq.
  rewrite length_firstn in Heq. lia.
Qed.

Lemma createCookie_env (node : process) (P : json) (cookie : jsstring) :
  createCookie node P None = Ok cookie ->
  exists key,
    getSecretKey node = Ok key
    /\ cookie = sign (Str (serialize P)) key default_sign
                  ++ base64_encode (utf8_encode (serialize P)).
Proof.
  unfold createCookie. cbn [nonempty].
  destruct (getSecretKey node) as [key|e]; cbn [bind]; [|discriminate].
  destruct (stringify P) as [text|e] eqn:Htext; cbn [bind]; [|discriminate].
  apply stringify_text in Htext as [_ ->].
  intros [= <-]. exists key. split; reflexivity.
Qed.

Lemma verifySessionString_signed (node : process) (key text : jsstring) (g : rng) :
  getSecretKey node = Ok key -> well_formed text = true ->
  outcome
    (verifySessionString node
       (sign (Str text) key default_sign ++ base64_encode (utf8_encode text))) g
  = Ok true.
Proof.
  intros Hkey Hwf. rewrite (verifySessionString_outcome node key) by exact Hkey.
  rewrite signature_of_cookie by apply sign_default_length.
  rewrite payload_text_cookie by (try apply sign_default_length; exact Hwf).
  rewrite bool_decide_eq_true_2; reflexivity.
Qed.

(** X5. A cookie value that [createCookie] makes with the key of the
    environment is accepted by [verifySessionString], whatever the
    payload. *)
Theorem verifySessionString_accepts_createCookie (node : process) (P : json)
    (cookie : jsstring) (g : rng) :
  createCookie node P None = Ok cookie ->
  outcome (verifySessionString node cookie) g = Ok true.
Proof.
  intros H. apply createCookie_env in H as (key & Hkey & ->).
  apply verifySessionString_signed; [exact Hkey | apply serialize_well_formed].
Qed.

(** X6. [verifyCookieFromEvent] answers [true] only for a request that
    carries, under the name of the session cookie, a string whose first
    27 characters are the signature, under the key of the environment,
    of the text the rest of it decodes to. *)
Theorem verifyCookieFromEvent_sound (node : process) (ev : HandlerEvent) (g : rng) :
  outcome (verifyCookieFromEvent node ev) g = Ok true ->
  exists cookies cookieMap cookieName key value,
    getCookiesFromEvent ev = Some cookies
    /\ parseCookie cookies None = Ok cookieMap
    /\ getCookieName node = Ok cookieName
    /\ cookieMap !! cookieName = Some (CString value)
    /\ getSecretKey node = Ok key
    /\ substring_to SIGNATURE_DIGEST_LENGTH value
       = sign (Str (payload_text value)) key default_sign.
Proof.
  unfold outcome, verifyCookieFromEvent.
  destruct (getCookiesFromEvent ev) as [cookies|]; [|discriminate].
  destruct (parseCookie cookies None) as [cookieMap|] eqn:Hmap; [|discriminate].
  destruct (getCookieName node) as [cookieName|] eqn:Hname; [|discriminate].
  unfold get.
  destruct (cookieMap !! cookieName) as [[value|]|] eqn:Hget; cbn [fst].
  - destruct value as [|c value]; [discriminate|].
    destruct (getSecretKey node) as [key|] eqn:Hkey; [|discriminate].
    intros H. exists cookies, cookieMap, cookieName, key, (c :: value).
    split; [reflexivity|]. split; [exact Hmap|]. split; [reflexivity|].
    split; [exact Hget|]. split; [reflexivity|].
    change (outcome (verify node key
              (Str (payload_text (c :: value)))
              (substring_to SIGNATURE_DIGEST_LENGTH (c :: value))) g = Ok true) in H.
    unfold verify in H. rewrite timeSafeCompare_outcome in H.
    injection H as H. apply bool_decide_eq_true in H. exact H.
  - discriminate.
  - destruct (bool_decide _); discriminate.
Qed.

(** ** The name of the session cookie *)

Lemma is_space_printable (c : u16) : 0x21 <= code c <= 0x7e -> is_space c = false.
Proof.
  intros Hcode. unfold is_space.
  repeat match goal with
         | |- context [(?a <=? ?b)] =>
             let H := fresh in destruct (Z.leb_spec a b) as [H|H]
         | |- context [(?a =? ?b)] =>
             let H := fresh in destruct (Z.eqb_spec a b) as [H|H]
         end; try reflexivity; lia.
Qed.

Lemma take_while_all (f : u16 -> bool) (s : jsstring) :
  take_while f s = s <-> forallb f s = true.
Proof.
  induction s as [|c s IH]; cbn [take_while forallb]; [tauto|].
  destruct (f c); cbn [andb].
  - rewrite <- IH. split; [intros [= H]; exact H | intros ->; reflexivity].
  - split; discriminate.
Qed.

Lemma first_match_whole (s : jsstring) :
  first_match s = Some s <-> s <> [] /\ forallb name_char s = true.
Proof.
  unfold first_match. destruct s as [|c s].
  - cbn. split; [discriminate | intros [H _]; contradiction].
  - cbn [drop_until]. destruct (name_char c) eqn:Hc.
    + split.
      * intros [= H]. split; [discriminate|]. apply take_while_all, H.
      * intros [_ H]. f_equal. apply take_while_all, H.
    + split.
      * intros H. exfalso.
        assert (forall r t, take_while name_char r = t ->
                  (length t <= length r)%nat) as Hlen.
        { clear. induction r as [|x r IH]; intros t <-; cbn [take_while]; [cbn; lia|].
          destruct (name_char x); cbn [length]; [|lia].
          specialize (IH _ eq_refl). lia. }
        assert (forall r, (length (drop_until name_char r) <= length r)%nat) as Hdrop.
        { clear. induction r as [|x r IH]; cbn [drop_until]; [lia|].
          destruct (name_char x); cbn [length]; lia. }
        destruct (drop_until name_char s) as [|x r] eqn:Hd; [discriminate|].
        injection H as H. specialize (Hlen (x :: r) (c :: s) H). specialize (Hdrop s).
        rewrite Hd in Hdrop. cbn [length] in *. lia.
      * intros [_ H]. cbn [forallb] in H. rewrite Hc in H. discriminate.
Qed.

Lemma name_chars_plain (s : jsstring) :
  forallb name_char s = true ->
  includes (ch ";") s = false /\ includes (ch "=") s = false
  /\ existsb is_space s = false.
Proof.
  induction s as [|c s IH]; [intros _; repeat split|].
  cbn [forallb includes existsb]. intros H.
  apply andb_true_iff in H as [Hc Hs]. destruct (IH Hs) as (H1 & H2 & H3).
  unfold includes in H1, H2. rewrite H1, H2, H3, !orb_false_r.
  assert (0x21 <= code c <= 0x7e /\ code c <> 0x3b /\ code c <> 0x3d) as Hcode.
  { unfold name_char, within in Hc. cbn [existsb] in Hc.
    rewrite !orb_true_iff, !andb_true_iff, !Z.leb_le, !Z.eqb_eq in Hc. lia. }
  repeat split.
  - apply bool_decide_eq_false_2. intros ->. vm_compute in Hcode. lia.
  - apply bool_decide_eq_false_2. intros ->. vm_compute in Hcode. lia.
  - apply is_space_printable. lia.
Qed.

Lemma getCookieName_ok (node : process) (name : jsstring) :
  getCookieName node = Ok name -> name <> [] /\ forallb name_char name = true.
Proof.
  unfold getCookieName. destruct (SESSION_COOKIE_NAME node) as [n|].
  - destruct (bool_decide_reflect (n = [])) as [->|Hne]; [discriminate|].
    destruct (bool_decide_reflect (first_match n = Some n)) as [Hm|Hm];
      cbn [negb]; [|discriminate].
    intros [= <-]. apply first_match_whole in Hm as [_ Hall]. split; assumption.
  - intros [= <-]. split; [discriminate | reflexivity].
Qed.

(** X7. [getCookieName] returns [session] when [SESSION_COOKIE_NAME] is
    not set. When it is set, the function returns it exactly when it is
    not empty and made only of ASCII letters, digits and the characters
    [!#$%&'*+-.^_`|~], and throws an [Error] otherwise; so a name it
    returns never holds a semicolon, an equals sign or a space. *)
Theorem getCookieName_spec (node : process) :
  (SESSION_COOKIE_NAME node = None -> getCookieName node = Ok (js "session"))
  /\ (forall name,
        SESSION_COOKIE_NAME node = Some name ->
        if negb (bool_decide (name = [])) && forallb name_char name
        then getCookieName node = Ok name
        else exists msg, getCookieName node = Throw (Error msg))
  /\ (forall name,
        getCookieName node = Ok name ->
        name <> [] /\ forallb name_char name = true
        /\ includes (ch ";") name = false /\ includes (ch "=") name = false
        /\ existsb is_space name = false).
Proof.
  split; [|split].
  - unfold getCookieName. intros ->. reflexivity.
  - unfold getCookieName. intros name ->.
    destruct (bool_decide_reflect (name = [])) as [->|Hne]; cbn [negb andb].
    { eexists. reflexivity. }
    destruct (forallb name_char name) eqn:Hall.
    + rewrite bool_decide_eq_true_2; [reflexivity|].
      apply first_match_whole. split; assumption.
    + rewrite bool_decide_eq_false_2; [eexists; reflexivity|].
      intros H. apply first_match_whole in H as [_ H]. congruence.
  - intros name H. apply getCookieName_ok in H as [Hne Hall].
    split; [exact Hne|]. split; [exact Hall|]. apply name_chars_plain, Hall.
Qed.


(** ** URI component coding of cookie values *)

Lemma upper_hex_value (i : Z) : hex_value (upper_hex_digit i) = Some (i mod 16).
Proof.
  assert (0 <= i mod 16 < 16) as Hi by (apply Z.mod_pos_bound; lia).
  pose proof (nibble_check'
    (fun n => bool_decide (hex_value (nth n (js "0123456789ABCDEF") (ch "0"))
                           = Some (Z.of_nat n))) i) as H.
  cbv beta in H. rewrite bool_decide_eq_true, Z2Nat.id in H by lia.
  apply H. vm_compute. reflexivity.
Qed.

Lemma tokens_percent (l : list byte) (r : jsstring) :
  tokens (percent l ++ r) = map (fun b => Pct (to_Z b)) l ++ tokens r.
Proof.
  unfold percent. induction l as [|b l IH]; [reflexivity|].
  cbn [flat_map app map]. cbn [tokens].
  rewrite bool_decide_eq_true_2 by reflexivity.
  rewrite !upper_hex_value. rewrite IH. f_equal. f_equal.
  pose proof (to_Z_range b). zlia.
Qed.

Lemma tokens_lit (c : u16) (r : jsstring) :
  c <> ch "%" -> tokens (c :: r) = Lit c :: tokens r.
Proof. intros H. cbn [tokens]. rewrite bool_decide_eq_false_2 by exact H. reflexivity. Qed.

Lemma unreserved_not_percent (c : u16) : unreserved (code c) = true -> c <> ch "%".
Proof. intros H ->. vm_compute in H. discriminate. Qed.

(** Decoding the escapes of one code unit outside the surrogates. *)
Lemma decode_tokens_bmp (c : u16) (ts : list token) :
  is_high (code c) = false -> is_low (code c) = false ->
  decode_tokens (map (fun b => Pct (to_Z b)) (utf8_encode [c]) ++ ts)
  = cons_ok c (decode_tokens ts).
Proof.
  intros Hh Hl. apply is_high_false in Hh. apply is_low_false in Hl.
  pose proof (code_range c) as Hc.
  cbn [utf8_encode].
  destruct (Z.ltb_spec (code c) 0x80).
  { cbn [map app decode_tokens]. rewrite to_Z_of_Z by lia.
    destruct (Z.ltb_spec (code c) 128); [|lia]. rewrite unit_code. reflexivity. }
  destruct (Z.ltb_spec (code c) 0x800).
  { cbn [map app decode_tokens]. rewrite !to_Z_of_Z by zlia.
    destruct (Z.ltb_spec (192 + code c / 64) 128); [zlia|].
    assert (within 194 223 (192 + code c / 64) = true) as ->.
    { unfold within. apply andb_true_intro. split; apply Z.leb_le; zlia. }
    assert (within 128 191 (128 + code c mod 64) = true) as ->.
    { unfold within. apply andb_true_intro. split; apply Z.leb_le; zlia. }
    f_equal. apply unit_eq. zlia. }
  assert (is_high (code c) = false) as -> by (apply is_high_false; lia).
  assert (is_low (code c) = false) as -> by (apply is_low_false; lia).
  cbn [map app decode_tokens]. rewrite !to_Z_of_Z by zlia.
  destruct (Z.ltb_spec (224 + code c / 4096) 128); [zlia|].
  assert (within 194 223 (224 + code c / 4096) = false) as ->.
  { unfold within. apply andb_false_iff. right. apply Z.leb_gt. zlia. }
  assert (within 224 239 (224 + code c / 4096) = true) as ->.
  { unfold within. apply andb_true_intro. split; apply Z.leb_le; zlia. }
  assert (within (if 224 + code c / 4096 =? 224 then 160 else 128)
            (if 224 + code c / 4096 =? 237 then 159 else 191)
            (128 + (code c / 64) mod 64) = true) as ->.
  { unfold within. apply andb_true_intro.
    destruct (Z.eqb_spec (224 + code c / 4096) 224);
      destruct (Z.eqb_spec (224 + code c / 4096) 237);
      split; apply Z.leb_le; zlia. }
  assert (within 128 191 (128 + code c mod 64) = true) as ->.
  { unfold within. apply andb_true_intro. split; apply Z.leb_le; zlia. }
  cbn [andb]. f_equal. apply unit_eq. zlia.
Qed.

(** Decoding the escapes of a surrogate pair. *)
Lemma decode_tokens_pair (c d : u16) (ts : list token) :
  is_high (code c) = true -> is_low (code d) = true ->
  decode_tokens (map (fun b => Pct (to_Z b)) (utf8_encode [c; d]) ++ ts)
  = app_ok [c; d] (decode_tokens ts).
Proof.
  intros Hh Hl. pose proof Hh as Hh'. pose proof Hl as Hl'.
  apply is_high_spec in Hh'. apply is_low_spec in Hl'.
  cbn [utf8_encode].
  destruct (Z.ltb_spec (code c) 0x80); [lia|].
  destruct (Z.ltb_spec (code c) 0x800); [lia|].
  rewrite Hh, Hl.
  set (cp := 65536 + (code c - 55296) * 1024 + (code d - 56320)).
  assert (0x10000 <= cp <= 0x10ffff) as Hcp by (unfold cp; lia).
  cbn [map app decode_tokens]. rewrite !to_Z_of_Z by zlia.
  destruct (Z.ltb_spec (240 + cp / 262144) 128); [zlia|].
  assert (within 194 223 (240 + cp / 262144) = false) as ->.
  { unfold within. apply andb_false_iff. right. apply Z.leb_gt. zlia. }
  assert (within 224 239 (240 + cp / 262144) = false) as ->.
  { unfold within. apply andb_false_iff. right. apply Z.leb_gt. zlia. }
  assert (within 240 244 (240 + cp / 262144) = true) as ->.
  { unfold within. apply andb_true_intro. split; apply Z.leb_le; zlia. }
  assert (within (if 240 + cp / 262144 =? 240 then 144 else 128)
            (if 240 + cp / 262144 =? 244 then 143 else 191)
            (128 + (cp / 4096) mod 64) = true) as ->.
  { unfold within. apply andb_true_intro.
    destruct (Z.eqb_spec (240 + cp / 262144) 240);
      destruct (Z.eqb_spec (240 + cp / 262144) 244);
      split; apply Z.leb_le; zlia. }
  assert (within 128 191 (128 + (cp / 64) mod 64) = true) as ->.
  { unfold within. apply andb_true_intro. split; apply Z.leb_le; zlia. }
  assert (within 128 191 (128 + cp mod 64) = true) as ->.
  { unfold within. apply andb_true_intro. split; apply Z.leb_le; zlia. }
  cbn [andb].
  replace ((240 + cp / 262144 - 240) * 262144 + (128 + (cp / 4096) mod 64 - 128) * 4096
           + (128 + (cp / 64) mod 64 - 128) * 64 + (128 + cp mod 64 - 128)) with cp by zlia.
  f_equal. unfold units_of. destruct (Z.ltb_spec cp 65536); [lia|].
  f_equal; [|f_equal]; apply unit_eq; unfold cp; zlia.
Qed.

Lemma Ok_inj {A} (a b : A) : Ok a = Ok b -> a = b.
Proof. intros [= H]. exact H. Qed.

Lemma decodeURIComponent_encodeURIComponent_len (n : nat) (s v : jsstring) :
  (length s <= n)%nat ->
  encodeURIComponent s = Ok v -> decodeURIComponent v = Ok s.
Proof.
  unfold decodeURIComponent.
  revert s v. induction n as [|n IH]; intros s v Hn H.
  { destruct s; [apply Ok_inj in H as <-; reflexivity | cbn [length] in Hn; lia]. }
  destruct s as [|c s]; [apply Ok_inj in H as <-; reflexivity|].
  cbn [length] in Hn. cbn [encodeURIComponent] in H.
  destruct (unreserved (code c)) eqn:Hu.
  { unfold cons_ok in H.
    destruct (encodeURIComponent s) as [v'|] eqn:Hv; cbn [bind] in H; [|discriminate].
    apply Ok_inj in H as <-. rewrite tokens_lit by (apply unreserved_not_percent, Hu).
    cbn [decode_tokens]. rewrite (IH s v') by (lia || exact Hv). reflexivity. }
  destruct (is_high (code c)) eqn:Hh.
  { destruct s as [|d s]; [discriminate|].
    destruct (is_low (code d)) eqn:Hl; [|discriminate].
    unfold app_ok in H.
    destruct (encodeURIComponent s) as [v'|] eqn:Hv; cbn [bind] in H; [|discriminate].
    apply Ok_inj in H as <-. rewrite tokens_percent.
    rewrite decode_tokens_pair by assumption.
    cbn [length] in Hn. rewrite (IH s v') by (lia || exact Hv). reflexivity. }
  destruct (is_low (code c)) eqn:Hl; [discriminate|].
  unfold app_ok in H.
  destruct (encodeURIComponent s) as [v'|] eqn:Hv; cbn [bind] in H; [|discriminate].
  apply Ok_inj in H as <-. rewrite tokens_percent.
  rewrite decode_tokens_bmp by assumption.
  rewrite (IH s v') by (lia || exact Hv). reflexivity.
Qed.

Lemma decodeURIComponent_encodeURIComponent (s v : jsstring) :
  encodeURIComponent s = Ok v -> decodeURIComponent v = Ok s.
Proof. apply (decodeURIComponent_encodeURIComponent_len (length s)). lia. Qed.

Lemma decodeURIComponent_plain (s : jsstring) :
  includes (ch "%") s = false -> decodeURIComponent s = Ok s.
Proof.
  unfold decodeURIComponent, includes.
  induction s as [|c s IH]; [reflexivity|].
  cbn [existsb]. intros H. apply orb_false_iff in H as [Hc Hs].
  apply bool_decide_eq_false in Hc. rewrite tokens_lit by exact Hc.
  cbn [decode_tokens]. rewrite (IH Hs). reflexivity.
Qed.

Lemma decode_encode (val v : jsstring) :
  encode val = Ok v -> decode (Some v) = Ok val.
Proof.
  unfold encode, decode. intros H.
  pose proof (decodeURIComponent_encodeURIComponent val v H) as Hd.
  destruct (includes (ch "%") v) eqn:Hp; [exact Hd|].
  rewrite (decodeURIComponent_plain v Hp) in Hd. exact Hd.
Qed.

(** A character that [encodeURIComponent] can produce. *)
Lemma percent_chars (l : list byte) :
  Forall (fun c => unreserved (code c) = true \/ c = ch "%") (percent l).
Proof.
  unfold percent. induction l as [|b l IH]; cbn [flat_map app]; [constructor|].
  assert (forall i, unreserved (code (upper_hex_digit i)) = true) as Hhex.
  { intros i. exact (nibble_check'
      (fun n => unreserved (code (nth n (js "0123456789ABCDEF") (ch "0")))) i eq_refl). }
  constructor; [right; reflexivity|].
  constructor; [left; apply Hhex|]. constructor; [left; apply Hhex | exact IH].
Qed.

Lemma encodeURIComponent_chars_len (n : nat) (s v : jsstring) :
  (length s <= n)%nat -> encodeURIComponent s = Ok v ->
  Forall (fun c => unreserved (code c) = true \/ c = ch "%") v.
Proof.
  revert s v. induction n as [|n IH]; intros s v Hn H.
  { destruct s; [apply Ok_inj in H as <-; constructor | cbn [length] in Hn; lia]. }
  destruct s as [|c s]; [apply Ok_inj in H as <-; constructor|].
  cbn [length] in Hn. cbn [encodeURIComponent] in H.
  destruct (unreserved (code c)) eqn:Hu.
  { unfold cons_ok in H.
    destruct (encodeURIComponent s) as [v'|] eqn:Hv; cbn [bind] in H; [|discriminate].
    apply Ok_inj in H as <-. constructor; [left; exact Hu|]. apply (IH s); [lia | exact Hv]. }
  destruct (is_high (code c)) eqn:Hh.
  { destruct s as [|d s]; [discriminate|].
    destruct (is_low (code d)) eqn:Hl; [|discriminate].
    unfold app_ok in H.
    destruct (encodeURIComponent s) as [v'|] eqn:Hv; cbn [bind] in H; [|discriminate].
    apply Ok_inj in H as <-. apply Forall_app. split; [apply percent_chars|].
    cbn [length] in Hn. apply (IH s); [lia | exact Hv]. }
  destruct (is_low (code c)) eqn:Hl; [discriminate|].
  unfold app_ok in H.
  destruct (encodeURIComponent s) as [v'|] eqn:Hv; cbn [bind] in H; [|discriminate].
  apply Ok_inj in H as <-. apply Forall_app. split; [apply percent_chars|].
  apply (IH s); [lia | exact Hv].
Qed.

Lemma encode_chars (val v : jsstring) :
  encode val = Ok v -> Forall (fun c => unreserved (code c) = true \/ c = ch "%") v.
Proof. apply (encodeURIComponent_chars_len (length val)). lia. Qed.

Lemma encodeURIComponent_outcome_len (n : nat) (s : jsstring) :
  (length s <= n)%nat ->
  if well_formed s then exists v, encodeURIComponent s = Ok v
  else encodeURIComponent s = Throw URIError.
Proof.
  revert s. induction n as [|n IH]; intros s Hn.
  { destruct s; [cbn; eauto | cbn [length] in Hn; lia]. }
  destruct s as [|c s]; [cbn; eauto|].
  cbn [length] in Hn. cbn [encodeURIComponent well_formed].
  assert (forall r, (length r <= n)%nat -> forall p,
            if well_formed r then exists v, app_ok p (encodeURIComponent r) = Ok v
            else app_ok p (encodeURIComponent r) = Throw URIError) as Happ.
  { intros r Hr p. specialize (IH r Hr). destruct (well_formed r).
    - destruct IH as [v ->]. cbn. eauto.
    - rewrite IH. reflexivity. }
  destruct (unreserved (code c)) eqn:Hu.
  { assert (is_high (code c) = false) as ->.
    { apply is_high_false. unfold unreserved in Hu. cbn [existsb] in Hu.
      rewrite !orb_true_iff, !andb_true_iff, !Z.leb_le, !Z.eqb_eq in Hu. lia. }
    assert (is_low (code c) = false) as ->.
    { apply is_low_false. unfold unreserved in Hu. cbn [existsb] in Hu.
      rewrite !orb_true_iff, !andb_true_iff, !Z.leb_le, !Z.eqb_eq in Hu. lia. }
    exact (Happ s ltac:(lia) [c]). }
  destruct (is_high (code c)).
  { destruct s as [|d s]; [reflexivity|].
    destruct (is_low (code d)); cbn [andb]; [|reflexivity].
    cbn [length] in Hn. apply Happ. lia. }
  destruct (is_low (code c)); [reflexivity|].
  apply Happ. lia.
Qed.

Lemma encode_outcome (val : jsstring) :
  if well_formed val then exists v, encode val = Ok v
  else encode val = Throw URIError.
Proof. apply (encodeURIComponent_outcome_len (length val)). lia. Qed.

(** X8. [encode] throws (a [URIError]) exactly on the strings that hold
    a lone surrogate; on every other string it returns a text made of
    unreserved characters and percent signs, which [decode] turns back
    into the string it came from. *)
Theorem decode_inverts_encode (val : jsstring) :
  (well_formed val = false -> encode val = Throw URIError)
  /\ (well_formed val = true ->
      exists v,
        encode val = Ok v
        /\ Forall (fun c => unreserved (code c) = true \/ c = ch "%") v
        /\ decode (Some v) = Ok val).
Proof.
  pose proof (encode_outcome val) as H. split.
  - intros Hwf. rewrite Hwf in H. exact H.
  - intros Hwf. rewrite Hwf in H. destruct H as [v Hv]. exists v.
    split; [exact Hv|]. split; [apply (encode_chars val), Hv | apply decode_encode, Hv].
Qed.


(** ** What [serializeCookie] returns *)

Lemma fieldContentRegExp_chars (s : jsstring) :
  fieldContentRegExp s = negb (bool_decide (s = [])) && field_chars s.
Proof. reflexivity. Qed.

Lemma field_chars_app (a b : jsstring) :
  field_chars (a ++ b) = field_chars a && field_chars b.
Proof. apply forallb_app. Qed.

Lemma fieldContentRegExp_app (a b : jsstring) :
  fieldContentRegExp a = true -> field_chars b = true ->
  fieldContentRegExp (a ++ b) = true.
Proof.
  rewrite !fieldContentRegExp_chars, field_chars_app. intros Ha Hb.
  apply andb_true_iff in Ha as [Hne Ha]. rewrite Ha, Hb.
  destruct a; [discriminate | reflexivity].
Qed.

Lemma field_chars_impl (f : u16 -> bool) (s : jsstring) :
  (forall c, f c = true -> field_char c = true) ->
  forallb f s = true -> field_chars s = true.
Proof.
  intros Hf H. unfold field_chars. rewrite forallb_forall in *.
  intros c Hc. apply Hf, H, Hc.
Qed.

Lemma field_char_ascii (c : u16) : 0x20 <= code c <= 0x7e -> field_char c = true.
Proof.
  intros H. unfold field_char, within.
  apply orb_true_iff. left. apply orb_true_iff. right.
  apply andb_true_intro. split; apply Z.leb_le; lia.
Qed.

Lemma text_char_spec (c : u16) :
  text_char c = true <-> 0x20 <= code c <= 0x7e /\ code c <> 0x3b.
Proof.
  unfold text_char, within.
  rewrite !andb_true_iff, negb_true_iff, !Z.leb_le, Z.eqb_neq. reflexivity.
Qed.

Lemma text_chars_app (a b : jsstring) :
  text_chars (a ++ b) = text_chars a && text_chars b.
Proof. apply forallb_app. Qed.

Lemma text_chars_field (s : jsstring) : text_chars s = true -> field_chars s = true.
Proof.
  apply field_chars_impl. intros c Hc. apply text_char_spec in Hc as [Hc _].
  apply field_char_ascii, Hc.
Qed.

Lemma text_chars_no_semicolon (s : jsstring) :
  text_chars s = true -> includes (ch ";") s = false.
Proof.
  unfold text_chars, includes. induction s as [|c s IH]; [reflexivity|].
  cbn [forallb existsb]. intros H. apply andb_true_iff in H as [Hc Hs].
  rewrite (IH Hs), orb_false_r. apply bool_decide_eq_false_2. intros ->.
  apply text_char_spec in Hc as [_ Hc]. apply Hc. reflexivity.
Qed.

Lemma text_chars_impl (f : u16 -> bool) (s : jsstring) :
  (forall c, f c = true -> text_char c = true) ->
  forallb f s = true -> text_chars s = true.
Proof.
  intros Hf H. unfold text_chars. rewrite forallb_forall in *.
  intros c Hc. apply Hf, H, Hc.
Qed.

Lemma text_char_number (c : u16) : number_char c = true -> text_char c = true.
Proof.
  unfold number_char, is_digit, within. intros H.
  rewrite !orb_true_iff, andb_true_iff, !Z.leb_le, !bool_decide_eq_true in H.
  destruct H as [[[[H | ->] | ->] | ->] | ->];
    [apply text_char_spec; lia | reflexivity..].
Qed.

Lemma text_chars_number (m e : Z) : text_chars (number_to_string m e) = true.
Proof. apply (text_chars_impl number_char); [apply text_char_number | apply number_chars]. Qed.

Lemma text_chars_floor (m e : Z) : text_chars (floor_to_string m e) = true.
Proof. unfold floor_to_string. destruct (0 <=? e); apply text_chars_number. Qed.

Lemma text_char_digit (z : Z) : text_char (unit (0x30 + z mod 10)) = true.
Proof. apply text_char_spec. rewrite code_unit by zlia. zlia. Qed.

Lemma text_chars_digits (fuel : nat) (n : Z) (acc : jsstring) :
  text_chars acc = true -> text_chars (digits fuel n acc) = true.
Proof.
  revert n acc. induction fuel as [|fuel IH]; intros n acc Hacc; cbn [digits]; [exact Hacc|].
  assert (text_chars (unit (48 + n mod 10) :: acc) = true) as Hcons.
  { cbn [text_chars forallb]. rewrite text_char_digit. exact Hacc. }
  destruct (n <? 10); [exact Hcons | apply IH, Hcons].
Qed.

Lemma text_chars_decimal (n : Z) : text_chars (decimal n) = true.
Proof.
  unfold decimal. destruct (n <? 0).
  - cbn [text_chars forallb]. apply andb_true_intro. split; [reflexivity|].
    apply text_chars_digits. reflexivity.
  - apply text_chars_digits. reflexivity.
Qed.

Lemma text_chars_nth (i : nat) (l : list jsstring) :
  forallb text_chars l = true -> text_chars (nth i l []) = true.
Proof.
  revert i. induction l as [|x l IH]; intros [|i] H; cbn [nth]; try reflexivity;
    cbn [forallb] in H; apply andb_true_iff in H as [Hx Hl]; [exact Hx | apply IH, Hl].
Qed.

Lemma text_chars_pad2 (n : Z) : text_chars (pad2 n) = true.
Proof.
  unfold pad2. cbn [text_chars forallb]. rewrite !text_char_digit. reflexivity.
Qed.

Lemma text_chars_repeat (c : u16) (n : nat) :
  text_char c = true -> text_chars (repeat c n) = true.
Proof. intros Hc. induction n as [|n IH]; [reflexivity|]. cbn. rewrite Hc. exact IH. Qed.

Lemma text_chars_toUTCString (t : Z) : text_chars (toUTCString t) = true.
Proof.
  unfold toUTCString. destruct (civil _) as [[year month] day].
  rewrite !text_chars_app.
  rewrite !text_chars_pad2, text_chars_decimal.
  rewrite text_chars_repeat by reflexivity.
  unfold day_name, month_name. rewrite !text_chars_nth by reflexivity.
  destruct (year <? 0); reflexivity.
Qed.

Lemma field_chars_floor (m e : Z) : field_chars (floor_to_string m e) = true.
Proof. apply text_chars_field, text_chars_floor. Qed.

Lemma field_chars_toUTCString (t : Z) : field_chars (toUTCString t) = true.
Proof. apply text_chars_field, text_chars_toUTCString. Qed.

Lemma add_maxAge_field (opts : cookie_options) (str str' : jsstring) :
  add_maxAge opts str = Ok str' ->
  fieldContentRegExp str = true -> fieldContentRegExp str' = true.
Proof.
  unfold add_maxAge. destruct (maxAge opts) as [[| |m e]|]; try discriminate.
  - intros H Hstr. apply Ok_inj in H as <-.
    apply fieldContentRegExp_app; [exact Hstr|].
    rewrite field_chars_app, field_chars_floor. reflexivity.
  - intros H Hstr. apply Ok_inj in H as <-. exact Hstr.
Qed.

Lemma add_domain_field (opts : cookie_options) (str str' : jsstring) :
  add_domain opts str = Ok str' ->
  fieldContentRegExp str = true -> fieldContentRegExp str' = true.
Proof.
  unfold add_domain. destruct (nonempty (domain opts)) as [d|].
  - destruct (fieldContentRegExp d) eqn:Hd; cbn [negb]; [|discriminate].
    intros H Hstr. apply Ok_inj in H as <-.
    apply fieldContentRegExp_app; [exact Hstr|].
    rewrite field_chars_app. rewrite fieldContentRegExp_chars in Hd.
    apply andb_true_iff in Hd as [_ ->]. reflexivity.
  - intros H Hstr. apply Ok_inj in H as <-. exact Hstr.
Qed.

Lemma add_path_field (opts : cookie_options) (str str' : jsstring) :
  add_path opts str = Ok str' ->
  fieldContentRegExp str = true -> fieldContentRegExp str' = true.
Proof.
  unfold add_path. destruct (nonempty (path opts)) as [d|].
  - destruct (fieldContentRegExp d) eqn:Hd; cbn [negb]; [|discriminate].
    intros H Hstr. apply Ok_inj in H as <-.
    apply fieldContentRegExp_app; [exact Hstr|].
    rewrite field_chars_app. rewrite fieldContentRegExp_chars in Hd.
    apply andb_true_iff in Hd as [_ ->]. reflexivity.
  - intros H Hstr. apply Ok_inj in H as <-. exact Hstr.
Qed.

Lemma add_expires_field (opts : cookie_options) (str str' : jsstring) :
  add_expires opts str = Ok str' ->
  fieldContentRegExp str = true -> fieldContentRegExp str' = true.
Proof.
  unfold add_expires. destruct (truthy (expires opts)).
  - destruct (expires opts) as [| | | | | |[t|]|]; try discriminate.
    intros H Hstr. apply Ok_inj in H as <-.
    apply fieldContentRegExp_app; [exact Hstr|].
    rewrite field_chars_app, field_chars_toUTCString. reflexivity.
  - intros H Hstr. apply Ok_inj in H as <-. exact Hstr.
Qed.

Lemma add_flags_field (opts : cookie_options) (str : jsstring) :
  fieldContentRegExp str = true -> fieldContentRegExp (add_flags opts str) = true.
Proof.
  intros Hstr. unfold add_flags.
  destruct (httpOnly opts), (truthy (secure opts)), (truthy (partitioned opts));
    repeat (apply fieldContentRegExp_app; [|reflexivity]); exact Hstr.
Qed.

Lemma add_priority_field (opts : cookie_options) (str str' : jsstring) :
  add_priority opts str = Ok str' ->
  fieldContentRegExp str = true -> fieldContentRegExp str' = true.
Proof.
  unfold add_priority. intros H Hstr.
  destruct (truthy (priority opts)); [|apply Ok_inj in H as <-; exact Hstr].
  cbv zeta in H.
  destruct (is_string _ (js "low"));
    [apply Ok_inj in H as <-; apply fieldContentRegExp_app; [exact Hstr | reflexivity]|].
  destruct (is_string _ (js "medium"));
    [apply Ok_inj in H as <-; apply fieldContentRegExp_app; [exact Hstr | reflexivity]|].
  destruct (is_string _ (js "high"));
    [apply Ok_inj in H as <-; apply fieldContentRegExp_app; [exact Hstr | reflexivity]|].
  discriminate.
Qed.

Lemma add_sameSite_field (opts : cookie_options) (str str' : jsstring) :
  add_sameSite opts str = Ok str' ->
  fieldContentRegExp str = true -> fieldContentRegExp str' = true.
Proof.
  unfold add_sameSite. intros H Hstr.
  destruct (truthy (sameSite opts)); [|apply Ok_inj in H as <-; exact Hstr].
  cbv zeta in H.
  destruct (is_true _);
    [apply Ok_inj in H as <-; apply fieldContentRegExp_app; [exact Hstr | reflexivity]|].
  destruct (is_string _ (js "lax"));
    [apply Ok_inj in H as <-; apply fieldContentRegExp_app; [exact Hstr | reflexivity]|].
  destruct (is_string _ (js "strict"));
    [apply Ok_inj in H as <-; apply fieldContentRegExp_app; [exact Hstr | reflexivity]|].
  destruct (is_string _ (js "none"));
    [apply Ok_inj in H as <-; apply fieldContentRegExp_app; [exact Hstr | reflexivity]|].
  discriminate.
Qed.

(** The steps of [serializeCookie], one after the other. *)
Lemma serializeCookie_steps (name val : jsstring) (opts : cookie_options)
    (header : jsstring) :
  serializeCookie name val opts = Ok header ->
  exists enc value s1 s2 s3 s4 s5,
    encoder opts = Ok enc
    /\ fieldContentRegExp name = true
    /\ enc val = Ok value
    /\ (value = [] \/ fieldContentRegExp value = true)
    /\ add_maxAge opts (name ++ js "=" ++ value) = Ok s1
    /\ add_domain opts s1 = Ok s2
    /\ add_path opts s2 = Ok s3
    /\ add_expires opts s3 = Ok s4
    /\ add_priority opts (add_flags opts s4) = Ok s5
    /\ add_sameSite opts s5 = Ok header.
Proof.
  unfold serializeCookie. intros H.
  destruct (encoder opts) as [enc|] eqn:Henc; cbn [bind] in H; [|discriminate].
  destruct (fieldContentRegExp name) eqn:Hname; cbn [negb] in H; [|discriminate].
  destruct (enc val) as [value|] eqn:Hvalue; cbn [bind] in H; [|discriminate].
  destruct (negb (bool_decide (value = [])) && negb (fieldContentRegExp value)) eqn:Hval;
    [discriminate|].
  cbv zeta in H.
  destruct (add_maxAge opts _) as [s1|] eqn:H1; cbn [bind] in H; [|discriminate].
  destruct (add_domain opts s1) as [s2|] eqn:H2; cbn [bind] in H; [|discriminate].
  destruct (add_path opts s2) as [s3|] eqn:H3; cbn [bind] in H; [|discriminate].
  destruct (add_expires opts s3) as [s4|] eqn:H4; cbn [bind] in H; [|discriminate].
  destruct (add_priority opts _) as [s5|] eqn:H5; cbn [bind] in H; [|discriminate].
  destruct (add_sameSite opts s5) as [s6|] eqn:H6; cbn [bind] in H; [|discriminate].
  apply Ok_inj in H as <-.
  exists enc, value, s1, s2, s3, s4, s5. repeat (split; [reflexivity || assumption|]).
  split; [|repeat split; assumption].
  apply andb_false_iff in Hval as [Hval|Hval].
  - left. apply negb_false_iff, bool_decide_eq_true in Hval. exact Hval.
  - right. apply negb_false_iff in Hval. exact Hval.
Qed.

(** X9. Whatever the options, custom encoder included, a string that
    [serializeCookie] returns is not empty and holds only tabs,
    printable ASCII characters and characters from U+0080 to U+00FF:
    never a carriage return, a line feed or another control character. *)
Theorem serializeCookie_field_content (name val : jsstring) (opts : cookie_options)
    (header : jsstring) :
  serializeCookie name val opts = Ok header ->
  fieldContentRegExp header = true
  /\ includes (unit 0x0d) header = false /\ includes (unit 0x0a) header = false.
Proof.
  intros H.
  assert (fieldContentRegExp header = true) as Hfield.
  { apply serializeCookie_steps in H
      as (enc & value & s1 & s2 & s3 & s4 & s5 & _ & Hname & _ & Hval
          & H1 & H2 & H3 & H4 & H5 & H6).
    apply (add_sameSite_field opts s5); [exact H6|].
    apply (add_priority_field opts (add_flags opts s4)); [exact H5|].
    apply add_flags_field.
    apply (add_expires_field opts s3); [exact H4|].
    apply (add_path_field opts s2); [exact H3|].
    apply (add_domain_field opts s1); [exact H2|].
    apply (add_maxAge_field opts _ _ H1).
    apply fieldContentRegExp_app; [exact Hname|].
    rewrite field_chars_app. destruct Hval as [->|Hval]; [reflexivity|].
    rewrite fieldContentRegExp_chars in Hval. apply andb_true_iff in Hval as [_ ->].
    reflexivity. }
  split; [exact Hfield|].
  rewrite fieldContentRegExp_chars in Hfield. apply andb_true_iff in Hfield as [_ Hfield].
  unfold field_chars in Hfield. rewrite forallb_forall in Hfield.
  assert (forall z, field_char (unit z) = false -> includes (unit z) header = false) as Hnot.
  { intros z Hz. unfold includes.
    destruct (existsb _ header) eqn:Hex; [|reflexivity].
    apply existsb_exists in Hex as (c & Hin & Hc).
    apply bool_decide_eq_true in Hc as ->. rewrite (Hfield _ Hin) in Hz. discriminate. }
  split; apply Hnot; reflexivity.
Qed.

Lemma text_char_encoded (c : u16) :
  unreserved (code c) = true \/ c = ch "%" -> text_char c = true.
Proof.
  intros [H| ->]; [|reflexivity]. apply text_char_spec.
  unfold unreserved in H. cbn [existsb] in H.
  rewrite !orb_true_iff, !andb_true_iff, !Z.leb_le, !Z.eqb_eq in H. lia.
Qed.

Lemma text_chars_encode (val v : jsstring) :
  encode val = Ok v -> text_chars v = true.
Proof.
  intros H. apply encode_chars in H. unfold text_chars.
  apply forallb_forall. intros c Hc. rewrite List.Forall_forall in H.
  apply text_char_encoded, H, Hc.
Qed.

Lemma field_chars_encode (val v : jsstring) :
  encode val = Ok v -> field_chars v = true.
Proof. intros H. apply text_chars_field, (text_chars_encode val), H. Qed.

(** X10. Without options, [serializeCookie] checks the name first and
    throws a [TypeError] when it is empty or holds a character outside
    field-content; then it throws a [URIError] when the value holds a
    lone surrogate; otherwise it returns the name, an equals sign and
    the encoded value. With the default encoder the check of the encoded
    value never fails. *)
Theorem serializeCookie_plain (name val : jsstring) :
  serializeCookie name val no_opts
  = if negb (fieldContentRegExp name)
    then Throw (TypeError (js "argument name is invalid"))
    else if negb (well_formed val) then Throw URIError
    else
      match encode val with
      | Ok value => Ok (name ++ js "=" ++ value)
      | Throw e => Throw e
      end.
Proof.
  unfold serializeCookie. cbn [encoder no_opts opt_encode bind].
  destruct (fieldContentRegExp name); cbn [negb]; [|reflexivity].
  pose proof (encode_outcome val) as Hout.
  destruct (well_formed val); cbn [negb].
  - destruct Hout as [v Hv]. rewrite Hv. cbn [bind].
    rewrite fieldContentRegExp_chars, (field_chars_encode val v Hv).
    rewrite andb_true_r, andb_negb_r. reflexivity.
  - rewrite Hout. reflexivity.
Qed.


(** ** Parsing cookie headers *)

Lemma split_nonempty (sep : u16) (s : jsstring) : split sep s <> [].
Proof.
  induction s as [|c s IH]; cbn [split]; [discriminate|].
  destruct (bool_decide (c = sep)); [discriminate|].
  destruct (split sep s); [contradiction | discriminate].
Qed.

Lemma split_plain (sep : u16) (a : jsstring) :
  includes sep a = false -> split sep a = [a].
Proof.
  unfold includes. induction a as [|c a IH]; [reflexivity|].
  cbn [existsb split]. intros H. apply orb_false_iff in H as [Hc Ha].
  rewrite Hc, (IH Ha). reflexivity.
Qed.

Lemma split_first (sep : u16) (a b : jsstring) :
  includes sep a = false -> split sep (a ++ sep :: b) = a :: split sep b.
Proof.
  unfold includes. induction a as [|c a IH].
  - intros _. cbn [app split]. rewrite bool_decide_eq_true_2; reflexivity.
  - cbn [existsb app split]. intros H. apply orb_false_iff in H as [Hc Ha].
    rewrite Hc, (IH Ha). reflexivity.
Qed.

Lemma split_snoc (sep : u16) (a b : jsstring) :
  includes sep b = false -> split sep (a ++ sep :: b) = split sep a ++ [b].
Proof.
  intros Hb. induction a as [|c a IH].
  - cbn [app split]. rewrite bool_decide_eq_true_2 by reflexivity.
    rewrite (split_plain sep b Hb). reflexivity.
  - cbn [app split]. rewrite IH. destruct (bool_decide (c = sep)); [reflexivity|].
    pose proof (split_nonempty sep a) as Hne.
    destruct (split sep a) as [|p ps]; [contradiction | reflexivity].
Qed.

Lemma reduce_snoc {A B} (f : B -> A -> result B) (l : list A) (x : A) (init : B) :
  reduce f (l ++ [x]) init = let* acc := reduce f l init in f acc x.
Proof.
  revert init. induction l as [|y l IH]; intros init; cbn [app reduce bind].
  - destruct (f init x); reflexivity.
  - destruct (f init y) as [acc|e]; cbn [bind]; [apply IH | reflexivity].
Qed.

Lemma parse_header_snoc (dec : decoder) (h seg : jsstring) :
  includes (ch ";") seg = false ->
  parse_header dec (h ++ ch ";" :: seg)
  = let* acc := parse_header dec h in
    parse_segment dec acc (split (ch "=") (trim seg)).
Proof.
  intros Hseg. unfold parse_header.
  rewrite (split_snoc _ _ _ Hseg), map_app. cbn [map]. apply reduce_snoc.
Qed.

Lemma parse_segment_other (dec : decoder) (acc : gmap jsstring cookie_value)
    (pieces : list jsstring) (name : jsstring) :
  nth 0 pieces [] <> name ->
  exists m, parse_segment dec acc pieces = Ok m /\ m !! name = acc !! name.
Proof.
  intros Hkey. unfold parse_segment. rewrite tryDecode_ok. cbn [bind].
  eexists. split; [reflexivity|]. unfold assign.
  destruct (bool_decide _); [reflexivity|]. apply lookup_insert_ne, Hkey.
Qed.

(** *** Trimming *)

Lemma trim_start_id (s : jsstring) : existsb is_space s = false -> trim_start s = s.
Proof.
  destruct s as [|c s]; [reflexivity|]. cbn [existsb trim_start].
  intros H. apply orb_false_iff in H as [-> _]. reflexivity.
Qed.

Lemma existsb_rev {A} (f : A -> bool) (l : list A) : existsb f (rev l) = existsb f l.
Proof.
  induction l as [|x l IH]; [reflexivity|]. cbn [rev existsb].
  rewrite existsb_app, IH. cbn [existsb]. rewrite orb_false_r. apply orb_comm.
Qed.

Lemma trim_id (s : jsstring) : existsb is_space s = false -> trim s = s.
Proof.
  intros H. unfold trim. rewrite (trim_start_id s H).
  rewrite trim_start_id by (rewrite existsb_rev; exact H). apply rev_involutive.
Qed.

Lemma trim_start_app (x y : jsstring) :
  trim_start (x ++ y)
  = match trim_start x with
    | [] => trim_start y
    | t => t ++ y
    end.
Proof.
  induction x as [|c x IH]; cbn [app trim_start].
  - destruct (trim_start y); reflexivity.
  - destruct (is_space c); [exact IH | reflexivity].
Qed.

Lemma trim_end_app (a r : jsstring) :
  trim_end (a ++ r)
  = match trim_end r with
    | [] => trim_end a
    | t => a ++ t
    end.
Proof.
  unfold trim_end. rewrite rev_app_distr, trim_start_app.
  destruct (trim_start (rev r)) as [|c t]; [reflexivity|].
  rewrite rev_app_distr, rev_involutive.
  destruct (rev (c :: t)) eqn:Hrev; [|reflexivity].
  apply (f_equal (@length u16)) in Hrev. rewrite length_rev in Hrev. discriminate.
Qed.

Lemma trim_end_keep (a : jsstring) (c : u16) :
  is_space c = false -> trim_end (a ++ [c]) = a ++ [c].
Proof.
  intros Hc. unfold trim_end. rewrite rev_app_distr. cbn [rev app trim_start].
  rewrite Hc. cbn [rev]. rewrite rev_involutive. reflexivity.
Qed.

(** The key of an attribute as [serializeCookie] writes it: a space,
    the name, an equals sign and anything. *)
Lemma attribute_key (K w : jsstring) :
  K <> [] -> existsb is_space K = false -> includes (ch "=") K = false ->
  nth 0 (split (ch "=") (trim (ch " " :: K ++ ch "=" :: w))) [] = K.
Proof.
  intros Hne Hsp Heq.
  assert (exists w', trim (ch " " :: K ++ ch "=" :: w) = K ++ ch "=" :: w') as [w' ->].
  { unfold trim. fold (trim_end (trim_start (ch " " :: K ++ ch "=" :: w))).
    assert (trim_start (ch " " :: K ++ ch "=" :: w) = K ++ ch "=" :: w) as ->.
    { cbn [trim_start]. change (is_space (ch " ")) with true. cbv iota.
      destruct K as [|k K]; [contradiction|]. cbn [existsb] in Hsp.
      apply orb_false_iff in Hsp as [Hk _]. cbn [app trim_start]. rewrite Hk. reflexivity. }
    change (K ++ ch "=" :: w) with (K ++ [ch "="] ++ w).
    rewrite app_assoc, trim_end_app.
    destruct (trim_end w) as [|c t].
    - exists []. rewrite trim_end_keep by reflexivity. reflexivity.
    - exists (c :: t). rewrite <- app_assoc. reflexivity. }
  rewrite (split_first _ _ _ Heq). reflexivity.
Qed.

(** *** A header and what it binds *)

Lemma binds_attribute (h seg name val : jsstring) :
  binds h name val -> includes (ch ";") seg = false ->
  nth 0 (split (ch "=") (trim seg)) [] <> name ->
  binds (h ++ ch ";" :: seg) name val.
Proof.
  intros (m & Hm & Hname) Hseg Hkey. unfold binds.
  rewrite (parse_header_snoc _ _ _ Hseg), Hm. cbn [bind].
  destruct (parse_segment_other decode m (split (ch "=") (trim seg)) name Hkey)
    as (m' & -> & Hm').
  exists m'. split; [reflexivity|]. rewrite Hm'. exact Hname.
Qed.

Lemma binds_pair (h K w name val : jsstring) :
  binds h name val -> includes (ch ";") w = false ->
  K <> [] -> includes (ch ";") K = false -> existsb is_space K = false ->
  includes (ch "=") K = false -> K <> name ->
  binds (h ++ (ch ";" :: ch " " :: K ++ [ch "="]) ++ w) name val.
Proof.
  intros Hb Hw Hne HK Hsp Heq Hname.
  replace (h ++ (ch ";" :: ch " " :: K ++ [ch "="]) ++ w)
    with (h ++ ch ";" :: (ch " " :: K ++ ch "=" :: w)).
  2:{ cbn [app]. rewrite <- app_assoc. reflexivity. }
  apply binds_attribute; [exact Hb | |].
  - change (ch " " :: K ++ ch "=" :: w) with ([ch " "] ++ K ++ [ch "="] ++ w).
    unfold includes in *. rewrite !existsb_app, HK, Hw. reflexivity.
  - rewrite attribute_key by assumption. exact Hname.
Qed.

Lemma encoded_no_space (val v : jsstring) :
  encode val = Ok v ->
  existsb is_space v = false /\ includes (ch "=") v = false
  /\ includes (ch ";") v = false.
Proof.
  intros H. apply encode_chars in H. induction H as [|c v Hc _ (IH1 & IH2 & IH3)].
  - repeat split.
  - unfold includes in *. cbn [existsb]. rewrite IH1, IH2, IH3, !orb_false_r.
    destruct Hc as [Hc| ->]; [|repeat split].
    assert (0x21 <= code c <= 0x7e /\ code c <> 0x3d /\ code c <> 0x3b) as Hcode.
    { unfold unreserved in Hc. cbn [existsb] in Hc.
      rewrite !orb_true_iff, !andb_true_iff, !Z.leb_le, !Z.eqb_eq in Hc. lia. }
    split; [apply is_space_printable; lia|].
    split; apply bool_decide_eq_false_2; intros ->; vm_compute in Hcode; lia.
Qed.

Lemma binds_first (name val value : jsstring) :
  encode val = Ok value ->
  existsb is_space name = false -> includes (ch ";") name = false ->
  includes (ch "=") name = false -> name <> js "__proto__" ->
  binds (name ++ js "=" ++ value) name val.
Proof.
  intros Hval Hsp Hsemi Heq Hproto.
  destruct (encoded_no_space val value Hval) as (Hvsp & Hveq & Hvsemi).
  unfold binds, parse_header.
  assert (includes (ch ";") (name ++ js "=" ++ value) = false) as Hno.
  { unfold includes in *. rewrite !existsb_app, Hsemi, Hvsemi. reflexivity. }
  rewrite (split_plain _ _ Hno). cbn [map reduce].
  rewrite trim_id by (rewrite !existsb_app, Hsp, Hvsp; reflexivity).
  change (name ++ js "=" ++ value) with (name ++ ch "=" :: value).
  rewrite (split_first _ _ _ Heq), (split_plain _ _ Hveq).
  unfold parse_segment. rewrite tryDecode_ok. cbn [nth_error nth bind].
  rewrite (decode_encode val value Hval). cbn [or_true].
  eexists. split; [reflexivity|]. unfold assign.
  rewrite bool_decide_eq_false_2 by exact Hproto. apply lookup_insert_eq.
Qed.

Lemma parseCookie_single (h name val : jsstring) :
  binds h name val ->
  cookie_of (parseCookie [h] None) name = Ok (Some (CString val)).
Proof.
  intros (m & Hm & Hname). unfold parseCookie. cbn [default map_result].
  rewrite Hm. cbn [bind fold_left cookie_of].
  rewrite (right_id ∅ (∪) m), Hname. reflexivity.
Qed.


(** *** Reading back what [serializeCookie] wrote *)

Lemma safe_name_spec (name : jsstring) :
  safe_name name = true ->
  existsb is_space name = false /\ includes (ch ";") name = false
  /\ includes (ch "=") name = false /\ name <> js "__proto__"
  /\ Forall (fun K => K <> name) attribute_names.
Proof.
  unfold safe_name. rewrite !andb_true_iff, !negb_true_iff, !bool_decide_eq_false.
  intros ((((H1 & H2) & H3) & H4) & H5). repeat (split; [assumption|]).
  apply List.Forall_forall. intros K HK ->. apply H5, list_elem_of_In, HK.
Qed.

Ltac attribute_other Hattr :=
  let H := fresh in
  pose proof Hattr as H; rewrite List.Forall_forall in H; apply H;
  cbn [attribute_names In]; tauto.

Lemma add_maxAge_binds (opts : cookie_options) (str str' name val : jsstring) :
  add_maxAge opts str = Ok str' -> Forall (fun K => K <> name) attribute_names ->
  binds str name val -> binds str' name val.
Proof.
  unfold add_maxAge. intros H Hattr Hb.
  destruct (maxAge opts) as [[| |m e]|]; try discriminate;
    apply Ok_inj in H as <-; [|exact Hb].
  change (js "; Max-Age=") with (ch ";" :: ch " " :: js "Max-Age" ++ [ch "="]).
  apply binds_pair; try reflexivity; try discriminate; [exact Hb | |].
  - apply text_chars_no_semicolon, text_chars_floor.
  - attribute_other Hattr.
Qed.

Lemma add_domain_binds (opts : cookie_options) (str str' name val : jsstring) :
  add_domain opts str = Ok str' -> Forall (fun K => K <> name) attribute_names ->
  no_semicolon (domain opts) ->
  binds str name val -> binds str' name val.
Proof.
  unfold add_domain. intros H Hattr Hsemi Hb.
  destruct (domain opts) as [[|c d]|]; cbn [nonempty] in H;
    [apply Ok_inj in H as <-; exact Hb | | apply Ok_inj in H as <-; exact Hb].
  destruct (negb (fieldContentRegExp (c :: d))); [discriminate|].
  apply Ok_inj in H as <-.
  change (js "; Domain=") with (ch ";" :: ch " " :: js "Domain" ++ [ch "="]).
  apply binds_pair; try reflexivity; try discriminate; [exact Hb | |].
  - apply Hsemi. reflexivity.
  - attribute_other Hattr.
Qed.

Lemma add_path_binds (opts : cookie_options) (str str' name val : jsstring) :
  add_path opts str = Ok str' -> Forall (fun K => K <> name) attribute_names ->
  no_semicolon (path opts) ->
  binds str name val -> binds str' name val.
Proof.
  unfold add_path. intros H Hattr Hsemi Hb.
  destruct (path opts) as [[|c d]|]; cbn [nonempty] in H;
    [apply Ok_inj in H as <-; exact Hb | | apply Ok_inj in H as <-; exact Hb].
  destruct (negb (fieldContentRegExp (c :: d))); [discriminate|].
  apply Ok_inj in H as <-.
  change (js "; Path=") with (ch ";" :: ch " " :: js "Path" ++ [ch "="]).
  apply binds_pair; try reflexivity; try discriminate; [exact Hb | |].
  - apply Hsemi. reflexivity.
  - attribute_other Hattr.
Qed.

Lemma add_expires_binds (opts : cookie_options) (str str' name val : jsstring) :
  add_expires opts str = Ok str' -> Forall (fun K => K <> name) attribute_names ->
  binds str name val -> binds str' name val.
Proof.
  unfold add_expires. intros H Hattr Hb.
  destruct (truthy (expires opts)); [|apply Ok_inj in H as <-; exact Hb].
  destruct (expires opts) as [| | | | | |[t|]|]; try discriminate.
  apply Ok_inj in H as <-.
  change (js "; Expires=") with (ch ";" :: ch " " :: js "Expires" ++ [ch "="]).
  apply binds_pair; try reflexivity; try discriminate; [exact Hb | |].
  - apply text_chars_no_semicolon, text_chars_toUTCString.
  - attribute_other Hattr.
Qed.

(** Appending a constant attribute. *)
Lemma binds_constant (h name val : jsstring) (K seg : jsstring) :
  binds h name val -> includes (ch ";") seg = false ->
  nth 0 (split (ch "=") (trim seg)) [] = K -> K <> name ->
  binds (h ++ ch ";" :: seg) name val.
Proof.
  intros Hb Hseg Hkey Hname. apply binds_attribute; [exact Hb | exact Hseg|].
  rewrite Hkey. exact Hname.
Qed.

Lemma add_flags_binds (opts : cookie_options) (str name val : jsstring) :
  Forall (fun K => K <> name) attribute_names ->
  binds str name val -> binds (add_flags opts str) name val.
Proof.
  intros Hattr Hb. unfold add_flags.
  assert (binds (if httpOnly opts then str ++ js "; HttpOnly" else str) name val) as H1.
  { destruct (httpOnly opts); [|exact Hb].
    apply (binds_constant _ _ _ (js "HttpOnly") (js " HttpOnly"));
      [exact Hb | reflexivity | reflexivity | attribute_other Hattr]. }
  revert H1. generalize (if httpOnly opts then str ++ js "; HttpOnly" else str).
  intros s1 H1.
  assert (binds (if truthy (secure opts) then s1 ++ js "; Secure" else s1) name val) as H2.
  { destruct (truthy (secure opts)); [|exact H1].
    apply (binds_constant _ _ _ (js "Secure") (js " Secure"));
      [exact H1 | reflexivity | reflexivity | attribute_other Hattr]. }
  revert H2. generalize (if truthy (secure opts) then s1 ++ js "; Secure" else s1).
  intros s2 H2. cbv zeta.
  destruct (truthy (partitioned opts)); [|exact H2].
  apply (binds_constant _ _ _ (js "Partitioned") (js " Partitioned"));
    [exact H2 | reflexivity | reflexivity | attribute_other Hattr].
Qed.

Lemma add_priority_binds (opts : cookie_options) (str str' name val : jsstring) :
  add_priority opts str = Ok str' -> Forall (fun K => K <> name) attribute_names ->
  binds str name val -> binds str' name val.
Proof.
  unfold add_priority. intros H Hattr Hb.
  destruct (truthy (priority opts)); [|apply Ok_inj in H as <-; exact Hb].
  cbv zeta in H.
  destruct (is_string _ (js "low")).
  { apply Ok_inj in H as <-.
    apply (binds_constant _ _ _ (js "Priority") (js " Priority=Low"));
      [exact Hb | reflexivity | reflexivity | attribute_other Hattr]. }
  destruct (is_string _ (js "medium")).
  { apply Ok_inj in H as <-.
    apply (binds_constant _ _ _ (js "Priority") (js " Priority=Medium"));
      [exact Hb | reflexivity | reflexivity | attribute_other Hattr]. }
  destruct (is_string _ (js "high")); [|discriminate].
  apply Ok_inj in H as <-.
  apply (binds_constant _ _ _ (js "Priority") (js " Priority=High"));
    [exact Hb | reflexivity | reflexivity | attribute_other Hattr].
Qed.

Lemma add_sameSite_binds (opts : cookie_options) (str str' name val : jsstring) :
  add_sameSite opts str = Ok str' -> Forall (fun K => K <> name) attribute_names ->
  binds str name val -> binds str' name val.
Proof.
  unfold add_sameSite. intros H Hattr Hb.
  destruct (truthy (sameSite opts)); [|apply Ok_inj in H as <-; exact Hb].
  cbv zeta in H.
  destruct (is_true _).
  { apply Ok_inj in H as <-.
    apply (binds_constant _ _ _ (js "SameSite") (js " SameSite=Strict"));
      [exact Hb | reflexivity | reflexivity | attribute_other Hattr]. }
  destruct (is_string _ (js "lax")).
  { apply Ok_inj in H as <-.
    apply (binds_constant _ _ _ (js "SameSite") (js " SameSite=Lax"));
      [exact Hb | reflexivity | reflexivity | attribute_other Hattr]. }
  destruct (is_string _ (js "strict")).
  { apply Ok_inj in H as <-.
    apply (binds_constant _ _ _ (js "SameSite") (js " SameSite=Strict"));
      [exact Hb | reflexivity | reflexivity | attribute_other Hattr]. }
  destruct (is_string _ (js "none")); [|discriminate].
  apply Ok_inj in H as <-.
  apply (binds_constant _ _ _ (js "SameSite") (js " SameSite=None"));
    [exact Hb | reflexivity | reflexivity | attribute_other Hattr].
Qed.

Lemma serializeCookie_binds (name val : jsstring) (opts : cookie_options)
    (header : jsstring) :
  serializeCookie name val opts = Ok header ->
  opt_encode opts = encode_absent -> safe_name name = true ->
  no_semicolon (domain opts) -> no_semicolon (path opts) ->
  binds header name val.
Proof.
  intros H Henc Hname Hdomain Hpath.
  apply safe_name_spec in Hname as (Hsp & Hsemi & Heq & Hproto & Hattr).
  apply serializeCookie_steps in H
    as (enc & value & s1 & s2 & s3 & s4 & s5 & He & _ & Hvalue & _
        & H1 & H2 & H3 & H4 & H5 & H6).
  unfold encoder in He. rewrite Henc in He. apply Ok_inj in He as <-.
  apply (add_sameSite_binds opts s5 _ _ _ H6 Hattr).
  apply (add_priority_binds opts _ _ _ _ H5 Hattr).
  apply add_flags_binds; [exact Hattr|].
  apply (add_expires_binds opts s3 _ _ _ H4 Hattr).
  apply (add_path_binds opts s2 _ _ _ H3 Hattr Hpath).
  apply (add_domain_binds opts s1 _ _ _ H2 Hattr Hdomain).
  apply (add_maxAge_binds opts _ _ _ _ H1 Hattr).
  apply binds_first; assumption.
Qed.

(** X11. A cookie written by [serializeCookie] with the default encoder
    is read back by [parseCookie]: when the name holds no white space,
    semicolon or equals sign and is neither [__proto__] nor the name of
    an attribute, and the domain and the path hold no semicolon, the
    header parses to a mapping that gives the name the value that was
    serialized, whatever the other options. *)
Theorem parseCookie_serializeCookie (name val : jsstring) (opts : cookie_options)
    (header : jsstring) :
  serializeCookie name val opts = Ok header ->
  opt_encode opts = encode_absent -> safe_name name = true ->
  no_semicolon (domain opts) -> no_semicolon (path opts) ->
  cookie_of (parseCookie [header] None) name = Ok (Some (CString val)).
Proof.
  intros H Henc Hname Hdomain Hpath.
  apply parseCookie_single, (serializeCookie_binds name val opts); assumption.
Qed.


(** *** The keys of a parsed header *)

Lemma split_pieces (sep c : u16) (s : jsstring) :
  Forall (fun p => includes sep p = false
                   /\ (includes c s = false -> includes c p = false))
    (split sep s).
Proof.
  unfold includes. induction s as [|x s IH]; cbn [split].
  - constructor; [split; reflexivity | constructor].
  - cbn [existsb]. destruct (bool_decide_reflect (x = sep)) as [->|Hx].
    + constructor; [split; reflexivity|].
      eapply List.Forall_impl; [|exact IH]. cbn beta. intros p [Hp1 Hp2].
      split; [exact Hp1|]. intros H. apply orb_false_iff in H as [_ H]. exact (Hp2 H).
    + pose proof (split_nonempty sep s) as Hne.
      destruct (split sep s) as [|p ps]; [contradiction|].
      apply Forall_cons_1 in IH as [[Hp1 Hp2] Hps]. constructor.
      * cbn [existsb]. rewrite Hp1, orb_false_r.
        split; [apply bool_decide_eq_false_2, Hx|].
        intros H. apply orb_false_iff in H as [-> H]. exact (Hp2 H).
      * eapply List.Forall_impl; [|exact Hps]. cbn beta. intros q [Hq1 Hq2].
        split; [exact Hq1|]. intros H. apply orb_false_iff in H as [_ H]. exact (Hq2 H).
Qed.

Lemma includes_trim_start (c : u16) (s : jsstring) :
  includes c s = false -> includes c (trim_start s) = false.
Proof.
  unfold includes. induction s as [|x s IH]; [reflexivity|].
  cbn [trim_start]. destruct (is_space x); [|trivial].
  cbn [existsb]. intros H. apply orb_false_iff in H as [_ H]. exact (IH H).
Qed.

Lemma includes_trim (c : u16) (s : jsstring) :
  includes c s = false -> includes c (trim s) = false.
Proof.
  intros H. unfold trim, includes. rewrite existsb_rev.
  apply includes_trim_start. unfold includes. rewrite existsb_rev.
  apply includes_trim_start, H.
Qed.

Lemma head_piece (sep : u16) (s : jsstring) (Q : jsstring -> Prop) :
  Forall Q (split sep s) -> Q (nth 0 (split sep s) []).
Proof.
  pose proof (split_nonempty sep s) as Hne.
  destruct (split sep s) as [|p ps]; [contradiction|].
  intros H. apply Forall_cons_1 in H as [H _]. exact H.
Qed.

Lemma parse_segment_keys (dec : decoder) (acc m : gmap jsstring cookie_value)
    (seg : jsstring) :
  includes (ch ";") seg = false ->
  parse_segment dec acc (split (ch "=") (trim seg)) = Ok m ->
  (forall k v, acc !! k = Some v -> key_ok k) ->
  forall k v, m !! k = Some v -> key_ok k.
Proof.
  intros Hseg H Hacc k v. unfold parse_segment in H. rewrite tryDecode_ok in H.
  cbn [bind] in H. apply Ok_inj in H as <-. unfold assign.
  destruct (bool_decide_reflect (nth 0 (split (ch "=") (trim seg)) [] = js "__proto__"))
    as [Hp|Hp]; [apply Hacc|].
  intros Hk. apply lookup_insert_Some in Hk as [[<- _]|[_ Hk]]; [|exact (Hacc _ _ Hk)].
  pose proof (head_piece (ch "=") (trim seg) _ (split_pieces (ch "=") (ch ";") (trim seg)))
    as [H1 H2].
  split; [apply H2, includes_trim, Hseg|]. split; [exact H1 | exact Hp].
Qed.

Lemma reduce_keys (dec : decoder) (segs : list jsstring)
    (acc m : gmap jsstring cookie_value) :
  Forall (fun seg => includes (ch ";") seg = false) segs ->
  reduce (parse_segment dec) (map (fun str => split (ch "=") (trim str)) segs) acc = Ok m ->
  (forall k v, acc !! k = Some v -> key_ok k) ->
  forall k v, m !! k = Some v -> key_ok k.
Proof.
  intros Hsegs. revert acc. induction Hsegs as [|seg segs Hseg _ IH]; intros acc H Hacc.
  - cbn [map reduce] in H. apply Ok_inj in H as <-. exact Hacc.
  - cbn [map reduce] in H.
    destruct (parse_segment dec acc _) as [acc'|] eqn:Hstep; cbn [bind] in H; [|discriminate].
    apply (IH acc' H). exact (parse_segment_keys dec acc acc' seg Hseg Hstep Hacc).
Qed.

Lemma parse_header_keys (dec : decoder) (h : jsstring) (m : gmap jsstring cookie_value) :
  parse_header dec h = Ok m -> forall k v, m !! k = Some v -> key_ok k.
Proof.
  unfold parse_header. intros H.
  apply (reduce_keys dec (split (ch ";") h) ∅ m); [|exact H|].
  - eapply List.Forall_impl; [|apply (split_pieces (ch ";") (ch ";") h)].
    cbn beta. intros p [Hp _]. exact Hp.
  - intros k v Hk. rewrite lookup_empty in Hk. discriminate.
Qed.

Lemma map_result_snoc {A B} (f : A -> result B) (l : list A) (x : A) :
  map_result f (l ++ [x])
  = let* ys := map_result f l in let* y := f x in Ok (ys ++ [y]).
Proof.
  induction l as [|a l IH]; cbn [app map_result].
  - destruct (f x); reflexivity.
  - destruct (f a) as [b|]; cbn [bind]; [|reflexivity]. rewrite IH.
    destruct (map_result f l) as [ys|]; cbn [bind]; [|reflexivity].
    destruct (f x); reflexivity.
Qed.

Lemma parse_header_ok (dec : decoder) (h : jsstring) :
  exists m, parse_header dec h = Ok m.
Proof. unfold parse_header. apply reduce_ok. intros acc val. apply parse_segment_ok. Qed.

Lemma parseCookie_snoc (cookies : list jsstring) (h : jsstring) (_decode : option decoder) :
  exists ms mh,
    parseCookie cookies _decode = Ok ms
    /\ parse_header (default decode _decode) h = Ok mh
    /\ parseCookie (cookies ++ [h]) _decode = Ok (mh ∪ ms).
Proof.
  unfold parseCookie.
  destruct (map_result_ok (parse_header (default decode _decode)) cookies) as [l Hl];
    [intros x; apply parse_header_ok|].
  destruct (parse_header_ok (default decode _decode) h) as [mh Hh].
  rewrite map_result_snoc, Hl, Hh. cbn [bind].
  eexists _, mh. split; [reflexivity|]. split; [reflexivity|].
  rewrite fold_left_app. reflexivity.
Qed.

Lemma parseCookie_all_keys (cookies : list jsstring) (_decode : option decoder)
    (m : gmap jsstring cookie_value) :
  parseCookie cookies _decode = Ok m -> forall k v, m !! k = Some v -> key_ok k.
Proof.
  revert m. induction cookies as [|h cookies IH] using rev_ind; intros m H k v Hk.
  - unfold parseCookie in H. cbn [map_result bind fold_left] in H.
    apply Ok_inj in H as <-. rewrite lookup_empty in Hk. discriminate.
  - destruct (parseCookie_snoc cookies h _decode) as (ms & mh & Hms & Hmh & Hall).
    rewrite Hall in H. apply Ok_inj in H as <-.
    apply lookup_union_Some_raw in Hk as [Hk|[_ Hk]].
    + exact (parse_header_keys _ h mh Hmh k v Hk).
    + exact (IH ms Hms k v Hk).
Qed.

(** X12. Whatever the headers and the decoder, no key of the mapping
    that [parseCookie] returns holds a semicolon or an equals sign, and
    [__proto__] is never a key of it: a header cannot reach the
    prototype of the result. *)
Theorem parseCookie_keys (cookies : list jsstring) (_decode : option decoder) :
  exists m,
    parseCookie cookies _decode = Ok m
    /\ m !! js "__proto__" = None
    /\ forall k v, m !! k = Some v ->
         includes (ch ";") k = false /\ includes (ch "=") k = false.
Proof.
  destruct (map_result_ok (parse_header (default decode _decode)) cookies) as [l Hl];
    [intros x; apply parse_header_ok|].
  assert (exists m, parseCookie cookies _decode = Ok m) as [m Hm].
  { unfold parseCookie. rewrite Hl. cbn [bind]. eauto. }
  exists m. split; [exact Hm|]. split.
  - destruct (m !! js "__proto__") as [v|] eqn:Hp; [|reflexivity].
    destruct (parseCookie_all_keys cookies _decode m Hm _ _ Hp) as (_ & _ & Hne).
    contradiction.
  - intros k v Hk.
    destruct (parseCookie_all_keys cookies _decode m Hm _ _ Hk) as (H1 & H2 & _).
    split; assumption.
Qed.

(** X13. Headers are merged from the first to the last: the mapping for
    a list of headers followed by one more gives each key the value it
    has in the last header, and for the keys that header does not bind
    the value it has in the mapping for the list before it. *)
Theorem parseCookie_later_wins (cookies : list jsstring) (h : jsstring)
    (_decode : option decoder) :
  exists before last all,
    parseCookie cookies _decode = Ok before
    /\ parseCookie [h] _decode = Ok last
    /\ parseCookie (cookies ++ [h]) _decode = Ok all
    /\ forall k,
         all !! k = match last !! k with
                    | Some v => Some v
                    | None => before !! k
                    end.
Proof.
  destruct (parseCookie_snoc cookies h _decode) as (ms & mh & Hms & Hmh & Hall).
  exists ms, mh, (mh ∪ ms). split; [exact Hms|]. split; [|split; [exact Hall|]].
  - unfold parseCookie. cbn [map_result]. rewrite Hmh. cbn [bind fold_left].
    rewrite (right_id ∅ (∪) mh). reflexivity.
  - intros k. rewrite lookup_union. destruct (mh !! k), (ms !! k); reflexivity.
Qed.


(** ** Generated keys *)

Lemma base64_length (l : list byte) :
  Z.of_nat (length (base64_encode l)) = 4 * ((Z.of_nat (length l) + 2) / 3).
Proof.
  unfold base64_encode.
  induction l as [|a|a b|a b c l IH] using list_ind3; try reflexivity.
  cbn [base64_with length]. rewrite !Nat2Z.inj_succ, IH. zlia.
Qed.

Lemma sextet_ascii (i : Z) : code (sextet_char alphabet i) < 0x80.
Proof.
  pose proof (sextet_check
    (fun n => code (nth n alphabet (ch "A")) <? 0x80) i) as H.
  cbv beta in H. apply Z.ltb_lt, H. vm_compute. reflexivity.
Qed.

Lemma base64_ascii (l : list byte) : is_ascii (base64_encode l) = true.
Proof.
  unfold base64_encode, is_ascii.
  induction l as [|a|a b|a b c l IH] using list_ind3;
    cbn [base64_with pads app repeat forallb];
    rewrite ?IH;
    repeat match goal with
           | |- context [code (sextet_char alphabet ?i) <? 128] =>
               rewrite (proj2 (Z.ltb_lt _ _) (sextet_ascii i))
           end; reflexivity.
Qed.

Lemma utf8_encode_ascii (s : jsstring) :
  is_ascii s = true -> length (utf8_encode s) = length s.
Proof.
  unfold is_ascii. induction s as [|c s IH]; [reflexivity|].
  cbn [forallb utf8_encode]. intros H. apply andb_true_iff in H as [Hc Hs].
  rewrite Hc. cbn [length]. rewrite (IH Hs). reflexivity.
Qed.

(** X14. Whatever the random bytes, [generateSecretKey] returns a string
    of 44 characters and 44 bytes, the base64 text of 32 random bytes;
    [getSecretKey] accepts it when it is the secret of the environment. *)
Theorem generateSecretKey_accepted (g : rng) :
  exists key,
    outcome Handler.generateSecretKey g = Ok key
    /\ length key = 44%nat /\ byteLength key = 44
    /\ base64_decode key = map g (seq 0 32)
    /\ forall node, SESSION_COOKIE_SECRET node = Some key -> getSecretKey node = Ok key.
Proof.
  exists (base64_encode (map g (seq 0 32))).
  assert (length (base64_encode (map g (seq 0 32))) = 44%nat) as Hlen.
  { apply Nat2Z.inj. rewrite base64_length, length_map, length_seq. reflexivity. }
  assert (byteLength (base64_encode (map g (seq 0 32))) = 44) as Hbytes.
  { unfold byteLength. rewrite utf8_encode_ascii by apply base64_ascii.
    rewrite Hlen. reflexivity. }
  split; [reflexivity|]. split; [exact Hlen|]. split; [exact Hbytes|].
  split; [apply base64_roundtrip|].
  intros node Hnode. apply (proj1 (getSecretKey_env node)).
  split; [exact Hnode | lia].
Qed.

(** ** The session data of a context *)

(** X15. [getSession] throws an [Error], and leaves the context as it
    is, exactly when there is no context or no client context. Otherwise
    it returns the session data, after putting an empty object in the
    context when there was none; a second call returns the same data
    and changes nothing. *)
Theorem getSession_spec (context : option Handler.HandlerContext) :
  match context with
  | Some {| Handler.clientContext := Some c |} =>
      exists session context',
        Handler.getSession context = (Ok session, context')
        /\ session = default [] (Handler.sessionCookieData c)
        /\ context' = Some {| Handler.clientContext :=
                                Some {| Handler.sessionCookieData := Some session |} |}
        /\ Handler.getSession context' = (Ok session, context')
  | _ => exists msg, Handler.getSession context = (Throw (Error msg), context)
  end.
Proof.
  destruct context as [[[[[session|]]|]]|]; cbn [Handler.getSession Handler.sessionCookieData].
  - exists session, (Some {| Handler.clientContext :=
                              Some {| Handler.sessionCookieData := Some session |} |}).
    repeat split; reflexivity.
  - exists [], (Some {| Handler.clientContext :=
                         Some {| Handler.sessionCookieData := Some [] |} |}).
    repeat split; reflexivity.
  - eexists. reflexivity.
  - eexists. reflexivity.
Qed.

(** ** The options of the session cookie *)

Lemma leading_digits_nonneg (radix : Z) (s : jsstring) :
  Forall (fun d => 0 <= d) (Handler.leading_digits radix s).
Proof.
  induction s as [|c s IH]; cbn [Handler.leading_digits]; [constructor|].
  destruct (Handler.digit_in radix c) as [d|] eqn:Hd; [|constructor].
  constructor; [|exact IH].
  unfold Handler.digit_in, hex_value in Hd.
  repeat match type of Hd with
         | context [if ?b then _ else _] => destruct b eqn:?
         end; try discriminate; injection Hd as <-;
    rewrite ?andb_true_iff, ?Z.leb_le in *; lia.
Qed.

Lemma radix_value_nonneg (radix : Z) (ds : list Z) :
  0 <= radix -> Forall (fun d => 0 <= d) ds -> 0 <= Handler.radix_value radix ds.
Proof.
  intros Hr. unfold Handler.radix_value.
  assert (forall l acc, 0 <= acc -> Forall (fun d => 0 <= d) l ->
            0 <= fold_left (fun acc d => radix * acc + d) l acc) as Hfold.
  { induction l as [|x l IH]; intros acc Hacc Hl; cbn [fold_left]; [exact Hacc|].
    apply Forall_cons_1 in Hl as [Hx Hl]. apply IH; [nia | exact Hl]. }
  intros Hl. apply Hfold; [lia | exact Hl].
Qed.

(** The doubles end below 2^1024: an integer rounds to [Infinity] from
    2^1024 - 2^970 on, half way between the largest double and 2^1024. *)
Lemma nearest_double_None (v : Z) :
  0 <= v -> Handler.nearest_double v = None <-> 2 ^ 1024 - 2 ^ 970 <= v.
Proof.
  intros Hv. unfold Handler.nearest_double.
  assert (exists H, 0 < H /\ 2 ^ 970 = H /\ 2 ^ 971 = 2 * H /\ 2 ^ 972 = 4 * H
                    /\ 2 ^ 1024 = 2 ^ 54 * H) as (H & HH & E970 & E971 & E972 & E1024).
  { exists (2 ^ 970). split; [apply Z.pow_pos_nonneg; lia|]. split; [reflexivity|].
    split; [|split].
    - change 971 with (1 + 970). rewrite Z.pow_add_r by lia. reflexivity.
    - change 972 with (2 + 970). rewrite Z.pow_add_r by lia. reflexivity.
    - change 1024 with (54 + 970). rewrite Z.pow_add_r by lia. reflexivity. }
  rewrite E1024, E970.
  destruct (Z.eq_dec v 0) as [->|Hv0].
  { cbn. split; [discriminate | lia]. }
  assert (0 < v) as Hpos by lia.
  pose proof (Z.log2_spec v Hpos) as [Hlo Hhi].
  pose proof (Z.log2_nonneg v) as Hb.
  set (b := Z.log2 v) in *.
  destruct (Z.leb_spec (b - 52) 0) as [Hsh|Hsh].
  - split; [discriminate|]. intros Hbig. exfalso.
    assert (2 ^ Z.succ b <= 2 ^ 53) as H53 by (apply Z.pow_le_mono_r; lia).
    lia.
  - cbv zeta. set (sh := b - 52) in *. set (T := 2 ^ sh) in *.
    assert (2 ^ b = 2 ^ 52 * T) as Hb2.
    { unfold T. rewrite <- Z.pow_add_r by lia. f_equal. lia. }
    assert (2 ^ Z.succ b = 2 ^ 53 * T) as Hb3.
    { unfold T. rewrite <- Z.pow_add_r by lia. f_equal. lia. }
    assert (0 < T) as HT by (apply Z.pow_pos_nonneg; lia).
    pose proof (Z.div_mod v T ltac:(lia)) as Hdm.
    pose proof (Z.mod_pos_bound v T HT) as Hr.
    set (q := v / T) in *. set (r := v mod T) in *. set (half := 2 ^ (sh - 1)) in *.
    assert (2 ^ 52 <= q < 2 ^ 53) as Hq by nia.
    set (q' := if (half <? r) || (r =? half) && Z.odd q then q + 1 else q).
    assert (q <= q' <= q + 1) as Hq' by (unfold q'; destruct (_ || _); lia).
    assert (q * T <= q' * T) as Hmono by (apply Z.mul_le_mono_nonneg_r; lia).
    assert (q' * T <= 2 ^ 53 * T) as Hmax by (apply Z.mul_le_mono_nonneg_r; lia).
    assert (2 ^ 52 * T <= q * T) as Hmin by (apply Z.mul_le_mono_nonneg_r; lia).
    rewrite (Z.mul_comm T q) in Hdm.
    destruct (Z.lt_trichotomy sh 971) as [Hlt | [Heq | Hgt]].
    + assert (T <= H) as HT970.
      { rewrite <- E970. apply Z.pow_le_mono_r; lia. }
      destruct (Z.leb_spec (2 ^ 54 * H) (q' * T)) as [Hover|_].
      * exfalso. lia.
      * split; [discriminate|]. intros Hbig. exfalso. lia.
    + assert (T = 2 * H) as HT971 by (unfold T; rewrite Heq; exact E971).
      assert (half = H) as Hh970 by (unfold half; rewrite Heq; exact E970).
      destruct (Z.eq_dec q (2 ^ 53 - 1)) as [Hq52|Hq52].
      * unfold q'. rewrite Hq52 in *. change (Z.odd (2 ^ 53 - 1)) with true.
        rewrite andb_true_r, Hh970, HT971.
        destruct (Z.ltb_spec H r); cbn [orb].
        { destruct (Z.leb_spec (2 ^ 54 * H) ((2 ^ 53 - 1 + 1) * (2 * H)));
            [split; [intros _; lia | reflexivity] | exfalso; lia]. }
        destruct (Z.eqb_spec r H).
        { destruct (Z.leb_spec (2 ^ 54 * H) ((2 ^ 53 - 1 + 1) * (2 * H)));
            [split; [intros _; lia | reflexivity] | exfalso; lia]. }
        destruct (Z.leb_spec (2 ^ 54 * H) ((2 ^ 53 - 1) * (2 * H)));
          [exfalso; lia | split; [discriminate | intros Hbig; exfalso; lia]].
      * assert (q' * T <= (2 ^ 53 - 1) * T) as Hless
          by (apply Z.mul_le_mono_nonneg_r; lia).
        assert (q * T <= (2 ^ 53 - 2) * T) as Hless'
          by (apply Z.mul_le_mono_nonneg_r; lia).
        destruct (Z.leb_spec (2 ^ 54 * H) (q' * T)) as [Hover|_].
        { exfalso. lia. }
        split; [discriminate|]. intros Hbig. exfalso. lia.
    + assert (4 * H <= T) as HT972.
      { rewrite <- E972. apply Z.pow_le_mono_r; lia. }
      destruct (Z.leb_spec (2 ^ 54 * H) (q' * T)) as [_|Hunder].
      * split; [intros _ | reflexivity]. lia.
      * exfalso. lia.
Qed.

(** The decimal that stands for a double reads back as that double. *)
Lemma shortest_from_reads_back (fuel : nat) (p x s q : Z) :
  Handler.nearest_double x = Some x ->
  Handler.shortest_from fuel p x = (s, q) ->
  Handler.nearest_double (s * 10 ^ q) = Some x.
Proof.
  intros Hx. revert p. induction fuel as [|fuel IH]; intros p; cbn [Handler.shortest_from].
  - intros [= <- <-]. rewrite Z.mul_1_r. exact Hx.
  - cbv zeta. unfold Handler.reads_as.
    destruct (Handler.nearest_double (x / 10 ^ p * 10 ^ p)) as [y|] eqn:Hbelow;
      destruct (Handler.nearest_double ((x / 10 ^ p + 1) * 10 ^ p)) as [z|] eqn:Habove;
      repeat match goal with
             | |- context [?a =? ?b] => destruct (Z.eqb_spec a b)
             | |- context [?a <? ?b] => destruct (Z.ltb_spec a b)
             | |- context [Z.even ?a] => destruct (Z.even a)
             end;
      try (intros [= <- <-]; congruence); apply IH.
Qed.

Lemma integer_prefix_nonneg (input : option jsstring) :
  0 <= Handler.integer_value input.
Proof.
  unfold Handler.integer_value, Handler.integer_prefix.
  destruct (Handler.read_sign _) as [negative s].
  destruct (Handler.read_radix s) as [radix s'] eqn:Hradix.
  assert (0 <= radix) as Hr.
  { unfold Handler.read_radix in Hradix.
    destruct s as [|z [|x s'']]; try (injection Hradix as <- _; lia).
    destruct (bool_decide (z = ch "0") && _); injection Hradix as <- _; lia. }
  apply radix_value_nonneg; [exact Hr | apply leading_digits_nonneg].
Qed.

Lemma infinity_bound_large : 2 ^ 53 < 2 ^ 1024 - 2 ^ 970.
Proof.
  change 1024 with (54 + 970). rewrite Z.pow_add_r by lia.
  assert (0 < 2 ^ 970) by (apply Z.pow_pos_nonneg; lia).
  generalize dependent (2 ^ 970). intros H HH. lia.
Qed.

Lemma number_of_finite (negative : bool) (v : Z) :
  0 <= v -> isFinite (Handler.number_of negative v) = true <-> v < 2 ^ 1024 - 2 ^ 970.
Proof.
  intros Hv. unfold Handler.number_of.
  pose proof (nearest_double_None v Hv) as Hnone.
  pose proof infinity_bound_large as Hlarge.
  generalize dependent (2 ^ 1024 - 2 ^ 970). intros B Hnone Hlarge.
  destruct (Z.leb_spec v (2 ^ 53)) as [Hsmall|Hbig].
  - cbn [isFinite]. split; [intros _; lia | reflexivity].
  - destruct (Handler.nearest_double v) as [x|].
    + destruct (Handler.shortest x) as [s p]. cbn [isFinite].
      split; [intros _ | reflexivity].
      destruct (Z.lt_ge_cases v B) as [Hlt|Hge]; [exact Hlt|].
      apply Hnone in Hge. discriminate.
    + cbn [isFinite]. split; [discriminate|]. intros Hlt.
      assert (B <= v) by (apply Hnone; reflexivity). lia.
Qed.

(** [parseInt] gives an infinity exactly from 2^1024 - 2^970 on. *)
Lemma parseInt_finite (input : option jsstring) :
  (isFinite (Handler.parseInt input) = true \/ Handler.parseInt input = NaN)
  <-> Handler.integer_value input < 2 ^ 1024 - 2 ^ 970.
Proof.
  pose proof (integer_prefix_nonneg input) as Hpos. revert Hpos.
  unfold Handler.parseInt, Handler.integer_value.
  destruct (Handler.integer_prefix input) as [[negative radix] ds].
  destruct ds as [|d ds].
  - intros _. change (Handler.radix_value radix []) with 0.
    pose proof infinity_bound_large as Hlarge.
    split; [intros _; generalize dependent (2 ^ 1024 - 2 ^ 970); intros; lia
           | right; reflexivity].
  - intros Hpos. rewrite <- (number_of_finite negative _ Hpos). split; [|left; assumption].
    intros [H|H]; [exact H|]. exfalso. revert H. unfold Handler.number_of.
    destruct (_ <=? _); [discriminate|].
    destruct (Handler.nearest_double _) as [x|]; [|discriminate].
    destruct (Handler.shortest x). discriminate.
Qed.

Lemma nonempty_idem (o : option jsstring) : nonempty (nonempty o) = nonempty o.
Proof. destruct o as [[|c s]|]; reflexivity. Qed.

Lemma getCookieOptions_fields (env : Handler.options_env) :
  let opts := Handler.getCookieOptions env in
  opt_encode opts = encode_absent
  /\ (exists n, maxAge opts = Some n
        /\ (isFinite n = true
            <-> Handler.integer_value (Handler.SESSION_COOKIE_MAX_AGE_SPAN env)
                < 2 ^ 1024 - 2 ^ 970))
  /\ domain opts = nonempty (Handler.SESSION_COOKIE_DOMAIN env)
  /\ path opts = Some (default (js "/") (nonempty (Handler.SESSION_COOKIE_PATH env)))
  /\ expires opts = VUndefined /\ partitioned opts = VUndefined
  /\ priority opts = VUndefined
  /\ (sameSite opts = VString (js "lax") \/ sameSite opts = VString (js "strict")
      \/ sameSite opts = VString (js "none")).
Proof.
  cbv zeta. unfold Handler.getCookieOptions.
  cbn [opt_encode maxAge domain path expires partitioned priority sameSite].
  split; [reflexivity|]. split.
  { eexists. split; [reflexivity|].
    rewrite <- parseInt_finite.
    destruct (Handler.parseInt _) as [|negative|m e]; cbn [isNaN negb isFinite].
    - split; [right; reflexivity | reflexivity].
    - split; [discriminate | intros [H|H]; discriminate].
    - split; [left|]; reflexivity. }
  split; [reflexivity|]. split.
  { destruct (nonempty _); reflexivity. }
  repeat (split; [reflexivity|]).
  destruct (Handler.SESSION_COOKIE_SAMESITE env) as [s|]; [|auto].
  destruct (bool_decide_reflect (s ∈ [js "Strict"; js "Lax"; js "None"])) as [Hs|Hs]; [|auto].
  rewrite !elem_of_cons, elem_of_nil in Hs.
  destruct Hs as [->|[->|[->|[]]]]; auto.
Qed.

Lemma encode_well_formed (val v : jsstring) : encode val = Ok v -> well_formed val = true.
Proof.
  intros H. pose proof (encode_outcome val) as Hout.
  destruct (well_formed val); [reflexivity|]. rewrite Hout in H. discriminate.
Qed.

Lemma add_domain_ok (opts : cookie_options) (str : jsstring) :
  (forall d, nonempty (domain opts) = Some d -> fieldContentRegExp d = true) ->
  exists str', add_domain opts str = Ok str'.
Proof.
  intros H. unfold add_domain. destruct (nonempty (domain opts)) as [d|]; [|eauto].
  rewrite (H d eq_refl). cbn [negb]. eauto.
Qed.

Lemma add_path_ok (opts : cookie_options) (str : jsstring) :
  (forall p, nonempty (path opts) = Some p -> fieldContentRegExp p = true) ->
  exists str', add_path opts str = Ok str'.
Proof.
  intros H. unfold add_path. destruct (nonempty (path opts)) as [p|]; [|eauto].
  rewrite (H p eq_refl). cbn [negb]. eauto.
Qed.

(** X16. With the options that [getCookieOptions] builds from the
    environment, [serializeCookie] returns a header exactly when the
    name is field-content, the value holds no lone surrogate,
    [SESSION_COOKIE_DOMAIN] and [SESSION_COOKIE_PATH], where they are set
    and not empty, are field-content, and the integer that
    [SESSION_COOKIE_MAX_AGE_SPAN] starts with is below 2^1024 - 2^970,
    from where [parseInt] gives [Infinity]. The SameSite and flag
    attributes never make it throw. *)
Theorem getCookieOptions_serializable (env : Handler.options_env)
    (name val : jsstring) :
  (exists header, serializeCookie name val (Handler.getCookieOptions env) = Ok header)
  <-> fieldContentRegExp name = true /\ well_formed val = true
      /\ (forall d, nonempty (Handler.SESSION_COOKIE_DOMAIN env) = Some d ->
            fieldContentRegExp d = true)
      /\ (forall p, nonempty (Handler.SESSION_COOKIE_PATH env) = Some p ->
            fieldContentRegExp p = true)
      /\ Handler.integer_value (Handler.SESSION_COOKIE_MAX_AGE_SPAN env)
         < 2 ^ 1024 - 2 ^ 970.
Proof.
  pose proof (getCookieOptions_fields env) as Hopts. cbv zeta in Hopts.
  set (opts := Handler.getCookieOptions env) in *.
  destruct Hopts as (Henc & (n & Hage & Hfinite) & Hdomain & Hpath & Hexp & Hpart
                     & Hprio & Hsame).
  split.
  - intros [header H]. apply serializeCookie_steps in H
      as (enc & value & s1 & s2 & s3 & s4 & s5 & He & Hname & Hvalue & _
          & H1 & H2 & H3 & H4 & H5 & H6).
    unfold encoder in He. rewrite Henc in He. apply Ok_inj in He as <-.
    split; [exact Hname|]. split; [exact (encode_well_formed _ _ Hvalue)|].
    split; [|split].
    + intros d Hd. unfold add_domain in H2. rewrite Hdomain, nonempty_idem, Hd in H2.
      destruct (fieldContentRegExp d); [reflexivity | discriminate].
    + intros p Hp. unfold add_path in H3. rewrite Hpath, Hp in H3.
      change (default (js "/") (Some p)) with p in H3.
      assert (nonempty (Some p) = Some p) as Hne.
      { rewrite <- Hp. apply nonempty_idem. }
      rewrite Hne in H3. destruct (fieldContentRegExp p); [reflexivity | discriminate].
    + apply Hfinite. unfold add_maxAge in H1. rewrite Hage in H1.
      destruct n; [discriminate | discriminate | reflexivity].
  - intros (Hname & Hwf & Hd & Hp & Hmax). unfold serializeCookie, encoder.
    rewrite Henc, Hname. cbn [bind negb].
    pose proof (encode_outcome val) as Hout. rewrite Hwf in Hout. destruct Hout as [v Hv].
    rewrite Hv. cbn [bind].
    rewrite fieldContentRegExp_chars, (field_chars_encode _ _ Hv), andb_true_r, andb_negb_r.
    cbv zeta. unfold add_maxAge at 1. rewrite Hage.
    apply Hfinite in Hmax. destruct n as [| |m e]; try discriminate. cbn [bind].
    assert (forall d, nonempty (domain opts) = Some d -> fieldContentRegExp d = true)
      as Hdom.
    { intros d Hdd. apply Hd. rewrite <- Hdd, Hdomain, nonempty_idem. reflexivity. }
    match goal with
    | |- context [add_domain opts ?s] =>
        destruct (add_domain_ok opts s Hdom) as [s2 Hs2]; rewrite Hs2
    end.
    cbn [bind].
    destruct (add_path_ok opts s2) as [s3 ->].
    { intros p Hpp. rewrite Hpath in Hpp.
      destruct (nonempty (Handler.SESSION_COOKIE_PATH env)) as [q|] eqn:Hq.
      - change (default (js "/") (Some q)) with q in Hpp.
        rewrite <- Hq, nonempty_idem, Hq in Hpp. injection Hpp as <-. apply Hp. reflexivity.
      - injection Hpp as <-. reflexivity. }
    cbn [bind].
    unfold add_expires, add_priority, add_sameSite. rewrite Hexp, Hprio. cbn [truthy bind].
    destruct Hsame as [-> | [-> | ->]]; cbn; eauto.
Qed.


(** ** Setting and removing the session cookie *)

Lemma multi_header_with_set_cookie (response : Handler.HandlerResponse) (k : jsstring) :
  multi_header (Handler.with_set_cookie response) k
  = if bool_decide (k = Handler.Set_Cookie) then Some (set_cookies response)
    else multi_header response k.
Proof.
  unfold multi_header, set_cookies, Handler.with_set_cookie.
  cbn [Handler.multiValueHeaders default].
  set (m := default ∅ (Handler.multiValueHeaders response)).
  destruct (bool_decide_reflect (k = Handler.Set_Cookie)) as [->|Hk].
  - destruct (m !! Handler.Set_Cookie) as [l|] eqn:Hl; cbn [default].
    + exact Hl.
    + apply lookup_insert_eq.
  - destruct (m !! Handler.Set_Cookie) as [l|] eqn:Hl; [reflexivity|].
    apply lookup_insert_ne. congruence.
Qed.

Lemma multi_header_push (v : Handler.header_value) (response : Handler.HandlerResponse)
    (k : jsstring) :
  multi_header (Handler.push v response) k
  = if bool_decide (k = Handler.Set_Cookie)
    then (fun l => l ++ [v]) <$> multi_header response Handler.Set_Cookie
    else multi_header response k.
Proof.
  unfold multi_header, Handler.push. cbn [Handler.multiValueHeaders default].
  destruct (bool_decide_reflect (k = Handler.Set_Cookie)) as [->|Hk].
  - apply lookup_alter_eq.
  - apply lookup_alter_ne. congruence.
Qed.

Lemma multi_header_move (response : Handler.HandlerResponse) (k : jsstring) :
  multi_header (Handler.move_header response) k
  = if bool_decide (k = Handler.Set_Cookie)
    then (fun l => l ++ single_set_cookie response)
           <$> multi_header response Handler.Set_Cookie
    else multi_header response k.
Proof.
  unfold Handler.move_header, single_set_cookie.
  destruct (Handler.headers response) as [h|];
    [destruct (h !! Handler.Set_Cookie) as [v|]; [destruct (Handler.header_truthy v)|]|].
  - change (multi_header (Handler.push v response) k
            = if bool_decide (k = Handler.Set_Cookie)
              then (fun l => l ++ [v]) <$> multi_header response Handler.Set_Cookie
              else multi_header response k).
    apply multi_header_push.
  - destruct (bool_decide_reflect (k = Handler.Set_Cookie)) as [->|_]; [|reflexivity].
    destruct (multi_header response Handler.Set_Cookie); cbn; [|reflexivity].
    rewrite app_nil_r. reflexivity.
  - destruct (bool_decide_reflect (k = Handler.Set_Cookie)) as [->|_]; [|reflexivity].
    destruct (multi_header response Handler.Set_Cookie); cbn; [|reflexivity].
    rewrite app_nil_r. reflexivity.
  - destruct (bool_decide_reflect (k = Handler.Set_Cookie)) as [->|_]; [|reflexivity].
    destruct (multi_header response Handler.Set_Cookie); cbn; [|reflexivity].
    rewrite app_nil_r. reflexivity.
Qed.

Lemma single_header_move (response : Handler.HandlerResponse) (k : jsstring) :
  single_header (Handler.move_header response) k
  = if bool_decide (k = Handler.Set_Cookie)
    then match single_header response k with
         | Some v => if Handler.header_truthy v then None else Some v
         | None => None
         end
    else single_header response k.
Proof.
  destruct response as [sc bd b64 [h|] mv];
    unfold Handler.move_header, single_header; cbn [Handler.headers].
  - change (default ∅ (Some h)) with h.
    destruct (h !! Handler.Set_Cookie) as [v|] eqn:Hv.
    + destruct (Handler.header_truthy v) eqn:Ht.
      * cbn [Handler.headers]. change (default ∅ (Some ?m)) with m.
        destruct (bool_decide_reflect (k = Handler.Set_Cookie)) as [->|Hk].
        -- rewrite Hv, Ht. apply lookup_delete_eq.
        -- apply lookup_delete_ne. congruence.
      * cbn [Handler.headers]. change (default ∅ (Some h)) with h.
        destruct (bool_decide_reflect (k = Handler.Set_Cookie)) as [->|Hk]; [|reflexivity].
        rewrite Hv, Ht. reflexivity.
    + cbn [Handler.headers]. change (default ∅ (Some h)) with h.
      destruct (bool_decide_reflect (k = Handler.Set_Cookie)) as [->|Hk]; [|reflexivity].
      rewrite Hv. reflexivity.
  - cbn [Handler.headers]. change (default ∅ None) with (∅ : gmap jsstring Handler.header_value).
    rewrite lookup_empty. destruct (bool_decide _); reflexivity.
Qed.

Lemma single_set_cookie_header (response : Handler.HandlerResponse) :
  single_set_cookie response
  = match single_header response Handler.Set_Cookie with
    | Some v => if Handler.header_truthy v then [v] else []
    | None => []
    end.
Proof.
  unfold single_set_cookie, single_header.
  destruct (Handler.headers response) as [h|]; [reflexivity|].
  change (default ∅ None) with (∅ : gmap jsstring Handler.header_value).
  rewrite lookup_empty. reflexivity.
Qed.

Lemma untouched_push (v : Handler.header_value) (response : Handler.HandlerResponse) :
  Handler.headers (Handler.push v response) = Handler.headers response
  /\ Handler.statusCode (Handler.push v response) = Handler.statusCode response
  /\ Handler.body (Handler.push v response) = Handler.body response
  /\ Handler.isBase64Encoded (Handler.push v response)
     = Handler.isBase64Encoded response.
Proof. repeat split. Qed.

Lemma untouched_move (response : Handler.HandlerResponse) :
  Handler.statusCode (Handler.move_header response) = Handler.statusCode response
  /\ Handler.body (Handler.move_header response) = Handler.body response
  /\ Handler.isBase64Encoded (Handler.move_header response)
     = Handler.isBase64Encoded response.
Proof.
  unfold Handler.move_header.
  destruct (Handler.headers response) as [h|]; [|repeat split].
  destruct (h !! Handler.Set_Cookie) as [v|]; [|repeat split].
  destruct (Handler.header_truthy v); repeat split.
Qed.

Lemma createCookie_given (node : process) (P : json) (key : jsstring) :
  key <> [] ->
  createCookie node P (Some key)
  = let* text := stringify P in
    Ok (sign (Str text) key default_sign ++ base64_encode (utf8_encode text)).
Proof. intros Hne. destruct key; [contradiction | reflexivity]. Qed.

Lemma getSecretKey_nonempty (node : process) (key : jsstring) :
  getSecretKey node = Ok key -> key <> [].
Proof.
  unfold getSecretKey. destruct (SESSION_COOKIE_SECRET node) as [[|c s]|];
    [discriminate | | discriminate].
  destruct (_ <? _); [discriminate|]. intros [= <-]. discriminate.
Qed.

(** The steps of a call of [setCookie] that returns. *)
Lemma setCookie_returns (node : process) (env : Handler.options_env)
    (response : Handler.HandlerResponse) (ctx : option Handler.HandlerContext)
    (newData : list (jsstring * json)) (r : Handler.HandlerResponse) :
  Handler.returned (Handler.setCookie node env response ctx newData) = Ok r ->
  exists session ctx' key name header,
    Handler.getSession ctx = (Ok session, ctx')
    /\ getSecretKey node = Ok key
    /\ getCookieName node = Ok name
    /\ strings_well_formed (JObject (Handler.spread session newData)) = true
    /\ serializeCookie name
         (sign (Str (serialize (JObject (Handler.spread session newData)))) key
            default_sign
          ++ base64_encode
               (utf8_encode (serialize (JObject (Handler.spread session newData)))))
         (Handler.getCookieOptions env) = Ok header
    /\ r = Handler.push (Handler.HString header)
             (Handler.move_header (Handler.with_set_cookie response))
    /\ Handler.response_after (Handler.setCookie node env response ctx newData) = r
    /\ Handler.context_after (Handler.setCookie node env response ctx newData) = ctx'.
Proof.
  unfold Handler.setCookie.
  destruct (Handler.getSession ctx) as [[session|e] ctx'] eqn:Hsession; [|discriminate].
  destruct (getSecretKey node) as [key|e] eqn:Hkey; cbn [bind]; [|discriminate].
  rewrite (createCookie_given node _ key (getSecretKey_nonempty node key Hkey)).
  destruct (stringify (JObject (Handler.spread session newData))) as [text|e] eqn:Htext;
    cbn [bind]; [|discriminate].
  apply stringify_text in Htext as [Hwf ->].
  destruct (getCookieName node) as [name|e] eqn:Hname; cbn [bind]; [|discriminate].
  destruct (serializeCookie name _ (Handler.getCookieOptions env)) as [header|e] eqn:Hheader;
    [|discriminate].
  cbn [Handler.returned Handler.response_after Handler.context_after].
  intros Hr. apply Ok_inj in Hr as <-.
  exists session, ctx', key, name, header.
  repeat (split; [reflexivity || assumption|]). reflexivity.
Qed.

(** X17. When [setCookie] returns, what it returns is the response
    object it was given, changed in this way only: the array
    [multiValueHeaders['Set-Cookie']] holds what it held, then the single
    header [headers['Set-Cookie']] if there was a truthy one, then one
    new header, a string; that single header is gone from [headers]; the
    other headers, the status code and the body are as they were. The
    context is left as [getSession] leaves it: the new data is not
    written to it. *)
Theorem setCookie_response (node : process) (env : Handler.options_env)
    (response : Handler.HandlerResponse) (ctx : option Handler.HandlerContext)
    (newData : list (jsstring * json)) (r : Handler.HandlerResponse) :
  Handler.returned (Handler.setCookie node env response ctx newData) = Ok r ->
  Handler.response_after (Handler.setCookie node env response ctx newData) = r
  /\ Handler.context_after (Handler.setCookie node env response ctx newData)
     = snd (Handler.getSession ctx)
  /\ (exists header,
        set_cookies r
        = set_cookies response ++ single_set_cookie response
            ++ [Handler.HString header])
  /\ single_set_cookie r = []
  /\ (forall k, k <> Handler.Set_Cookie ->
        multi_header r k = multi_header response k
        /\ single_header r k = single_header response k)
  /\ Handler.statusCode r = Handler.statusCode response
  /\ Handler.body r = Handler.body response
  /\ Handler.isBase64Encoded r = Handler.isBase64Encoded response.
Proof.
  intros Hr.
  destruct (setCookie_returns node env response ctx newData r Hr)
    as (session & ctx' & key & name & header
        & Hsession & _ & _ & _ & _ & -> & Hafter & Hctx).
  split; [exact Hafter|]. split; [rewrite Hsession; exact Hctx|].
  split; [|split; [|split]].
  - exists header. unfold set_cookies.
    change (default ∅ (Handler.multiValueHeaders ?x) !! ?k) with (multi_header x k).
    rewrite multi_header_push, multi_header_move, multi_header_with_set_cookie.
    rewrite bool_decide_eq_true_2 by reflexivity. cbn [fmap option_fmap option_map].
    change (default [] (Some ?l)) with l. rewrite <- app_assoc. reflexivity.
  - rewrite single_set_cookie_header.
    change (single_header (Handler.push ?v ?x) ?k) with (single_header x k).
    rewrite single_header_move, bool_decide_eq_true_2 by reflexivity.
    destruct (single_header (Handler.with_set_cookie response) Handler.Set_Cookie)
      as [v|]; [|reflexivity].
    destruct (Handler.header_truthy v) eqn:Hv; [reflexivity|]. rewrite Hv. reflexivity.
  - intros k Hk. split.
    + rewrite multi_header_push, bool_decide_eq_false_2 by exact Hk.
      rewrite multi_header_move, bool_decide_eq_false_2 by exact Hk.
      rewrite multi_header_with_set_cookie, bool_decide_eq_false_2 by exact Hk.
      reflexivity.
    + change (single_header (Handler.push ?v ?x) k) with (single_header x k).
      rewrite single_header_move. rewrite bool_decide_eq_false_2 by exact Hk.
      reflexivity.
  - destruct (untouched_move (Handler.with_set_cookie response)) as (H1 & H2 & H3).
    cbn [Handler.push Handler.statusCode Handler.body Handler.isBase64Encoded].
    rewrite H1, H2, H3. repeat split.
Qed.


(** *** The cookie that [setCookie] sets is accepted *)

Lemma getCookiesFromEvent_request (cookies : list jsstring) :
  getCookiesFromEvent (Sample.request cookies) = Some cookies.
Proof.
  unfold getCookiesFromEvent, Sample.request. cbn [multiValueHeaders].
  rewrite lookup_singleton_ne by discriminate. apply lookup_singleton_eq.
Qed.

Lemma verifyCookieFromEvent_binds (node : process) (header name value : jsstring)
    (g : rng) :
  binds header name value -> getCookieName node = Ok name -> value <> [] ->
  outcome (verifyCookieFromEvent node (Sample.request [header])) g
  = outcome (verifySessionString node value) g.
Proof.
  intros (m & Hm & Hname) Hcookie Hne.
  unfold outcome, verifyCookieFromEvent. rewrite getCookiesFromEvent_request.
  unfold parseCookie. cbn [default map_result]. rewrite Hm. cbn [bind fold_left].
  rewrite Hcookie. unfold get. rewrite (right_id ∅ (∪) m), Hname.
  destruct value as [|c value]; [contradiction|]. reflexivity.
Qed.

Lemma parseSession_signed (sig : jsstring) (P : json) :
  length sig = SIGNATURE_DIGEST_LENGTH ->
  parseSession (sig ++ base64_encode (utf8_encode (serialize P))) = Ok (canonical P).
Proof.
  intros Hlen. unfold parseSession.
  change (utf8_decode (base64_decode (substring_from SIGNATURE_DIGEST_LENGTH ?s)))
    with (payload_text s).
  rewrite payload_text_cookie by (exact Hlen || apply serialize_well_formed).
  apply JSON_parse_serialize.
Qed.

Lemma safe_name_cookie (node : process) (name : jsstring) :
  getCookieName node = Ok name -> name ∉ js "__proto__" :: attribute_names ->
  safe_name name = true.
Proof.
  intros H Hres. apply getCookieName_ok in H as [_ Hall].
  apply name_chars_plain in Hall as (H1 & H2 & H3).
  unfold safe_name. rewrite H1, H2, H3. cbn [negb andb].
  apply not_elem_of_cons in Hres as [Hp Ha].
  rewrite !bool_decide_eq_false_2 by assumption. reflexivity.
Qed.

Lemma no_semicolon_nonempty (o : option jsstring) :
  no_semicolon o -> no_semicolon (nonempty o).
Proof. destruct o as [[|c s]|]; intros H; [intros ? [=] | exact H | exact H]. Qed.

(** X18. The cookie that [setCookie] adds comes back accepted. When the
    call returns, with a cookie name that is neither [__proto__] nor the
    name of an attribute, and with no semicolon in [SESSION_COOKIE_DOMAIN]
    and [SESSION_COOKIE_PATH], the header it has put last in the
    response parses to a mapping that gives the cookie name a value
    which [verifySessionString] accepts, which [verifyCookieFromEvent]
    accepts in a request that carries the header, and which
    [parseSession] decodes to the session data of the context overlaid
    with the new data. *)
Theorem setCookie_verifies (node : process) (env : Handler.options_env)
    (response : Handler.HandlerResponse) (ctx : option Handler.HandlerContext)
    (newData : list (jsstring * json)) (r : Handler.HandlerResponse) (name : jsstring) :
  Handler.returned (Handler.setCookie node env response ctx newData) = Ok r ->
  getCookieName node = Ok name ->
  name ∉ js "__proto__" :: attribute_names ->
  no_semicolon (Handler.SESSION_COOKIE_DOMAIN env) ->
  no_semicolon (Handler.SESSION_COOKIE_PATH env) ->
  exists header cookie session,
    set_cookies r
    = set_cookies response ++ single_set_cookie response ++ [Handler.HString header]
    /\ fst (Handler.getSession ctx) = Ok session
    /\ cookie_of (parseCookie [header] None) name = Ok (Some (CString cookie))
    /\ parseSession cookie = Ok (canonical (JObject (Handler.spread session newData)))
    /\ forall g,
         outcome (verifySessionString node cookie) g = Ok true
         /\ outcome (verifyCookieFromEvent node (Sample.request [header])) g = Ok true.
Proof.
  intros Hr Hname Hres Hdomain Hpath.
  destruct (setCookie_returns node env response ctx newData r Hr)
    as (session & ctx' & key & name' & header
        & Hsession & Hkey & Hname' & _ & Hheader & -> & _ & _).
  rewrite Hname in Hname'. apply Ok_inj in Hname' as <-.
  set (P := JObject (Handler.spread session newData)) in *.
  set (cookie := sign (Str (serialize P)) key default_sign
                   ++ base64_encode (utf8_encode (serialize P))) in *.
  assert (binds header name cookie) as Hbinds.
  { pose proof (getCookieOptions_fields env) as (Henc & _ & Hd & Hp & _).
    apply (serializeCookie_binds name cookie (Handler.getCookieOptions env));
      [exact Hheader | exact Henc | | |].
    - apply (safe_name_cookie node); assumption.
    - rewrite Hd. apply no_semicolon_nonempty, Hdomain.
    - rewrite Hp. intros p [= <-].
      pose proof (no_semicolon_nonempty _ Hpath) as Hpath'.
      destruct (nonempty (Handler.SESSION_COOKIE_PATH env)) as [q|]; [|reflexivity].
      apply Hpath'. reflexivity. }
  assert (forall g, outcome (verifySessionString node cookie) g = Ok true) as Hverify.
  { intros g. apply verifySessionString_signed; [exact Hkey | apply serialize_well_formed]. }
  exists header, cookie, session. split.
  { unfold set_cookies.
    change (default ∅ (Handler.multiValueHeaders ?x) !! ?k) with (multi_header x k).
    rewrite multi_header_push, multi_header_move, multi_header_with_set_cookie.
    rewrite bool_decide_eq_true_2 by reflexivity. cbn [fmap option_fmap option_map].
    change (default [] (Some ?l)) with l. rewrite <- app_assoc. reflexivity. }
  split; [rewrite Hsession; reflexivity|].
  split; [apply parseCookie_single, Hbinds|].
  split; [apply parseSession_signed, sign_default_length|].
  intros g. split; [apply Hverify|].
  rewrite (verifyCookieFromEvent_binds node header name cookie) by
    (try assumption; unfold cookie; intros Hnil;
     apply (f_equal (@length u16)) in Hnil;
     rewrite length_app, sign_default_length in Hnil; discriminate).
  apply Hverify.
Qed.

(** X19. Without a usable secret key in the environment [setCookie]
    throws, and by then it has already rearranged the response: the
    array [multiValueHeaders['Set-Cookie']] is there and holds what it
    held before followed by the single header [headers['Set-Cookie']],
    but no new cookie; and the session data of the context has been
    initialised. *)
Theorem setCookie_without_key (node : process) (env : Handler.options_env)
    (response : Handler.HandlerResponse) (ctx : option Handler.HandlerContext)
    (newData : list (jsstring * json)) (session : list (jsstring * json))
    (ctx' : option Handler.HandlerContext) (e : exn) :
  getSecretKey node = Throw e ->
  Handler.getSession ctx = (Ok session, ctx') ->
  Handler.returned (Handler.setCookie node env response ctx newData) = Throw e
  /\ Handler.context_after (Handler.setCookie node env response ctx newData) = ctx'
  /\ multi_header
       (Handler.response_after (Handler.setCookie node env response ctx newData))
       Handler.Set_Cookie
     = Some (set_cookies response ++ single_set_cookie response)
  /\ single_set_cookie
       (Handler.response_after (Handler.setCookie node env response ctx newData))
     = [].
Proof.
  intros Hkey Hsession. unfold Handler.setCookie. rewrite Hsession, Hkey. cbn [bind].
  cbn [Handler.returned Handler.context_after Handler.response_after].
  split; [reflexivity|]. split; [reflexivity|]. split.
  - rewrite multi_header_move, multi_header_with_set_cookie.
    rewrite bool_decide_eq_true_2 by reflexivity. reflexivity.
  - rewrite single_set_cookie_header.
    rewrite single_header_move, bool_decide_eq_true_2 by reflexivity.
    destruct (single_header (Handler.with_set_cookie response) Handler.Set_Cookie)
      as [v|]; [|reflexivity].
    destruct (Handler.header_truthy v) eqn:Hv; [reflexivity|]. rewrite Hv. reflexivity.
Qed.

(** *** Removing the cookie *)

Lemma binds_deleted (name : jsstring) :
  existsb is_space name = false -> includes (ch ";") name = false ->
  includes (ch "=") name = false ->
  name ∉ [js "__proto__"; js "path"; js "expires"] ->
  binds (name ++ js "=deleted; path=/; expires=Thu, 01 Jan 1970 00:00:00 GMT")
    name (js "deleted").
Proof.
  intros Hsp Hsemi Heq Hres.
  apply not_elem_of_cons in Hres as [Hproto Hres].
  apply not_elem_of_cons in Hres as [Hpath Hres].
  apply not_elem_of_cons in Hres as [Hexp _].
  replace (name ++ js "=deleted; path=/; expires=Thu, 01 Jan 1970 00:00:00 GMT")
    with (((name ++ js "=" ++ js "deleted") ++ ch ";" :: js " path=/")
            ++ ch ";" :: js " expires=Thu, 01 Jan 1970 00:00:00 GMT")
    by (rewrite <- !app_assoc; reflexivity).
  apply (binds_constant _ _ _ (js "expires") _); [|reflexivity|reflexivity|congruence].
  apply (binds_constant _ _ _ (js "path") _); [|reflexivity|reflexivity|congruence].
  apply (binds_first name (js "deleted") (js "deleted")); try assumption. reflexivity.
Qed.

(** X20. With a valid cookie name in the environment [rmCookie] does
    not throw: it returns the response it was given with one more
    header at the end of [multiValueHeaders['Set-Cookie']], the cookie
    with the value [deleted] and an expiry date in 1970, and with
    nothing else changed: [headers], the other entries of
    [multiValueHeaders], the status code and the body are as they were.
    Unless the cookie is named [__proto__], [path] or [expires], a
    request that carries that header is refused by
    [verifyCookieFromEvent]: it returns [false] when the environment has
    a valid secret key, and throws the error of [getSecretKey] when it
    has none. *)
Theorem rmCookie_spec (node : process) (response : Handler.HandlerResponse)
    (name : jsstring) :
  getCookieName node = Ok name ->
  exists r header,
    Handler.rmCookie node response = (Ok r, r)
    /\ header = name ++ js "=deleted; path=/; expires=Thu, 01 Jan 1970 00:00:00 GMT"
    /\ set_cookies r = set_cookies response ++ [Handler.HString header]
    /\ (forall k, k <> Handler.Set_Cookie -> multi_header r k = multi_header response k)
    /\ Handler.headers r = Handler.headers response
    /\ Handler.statusCode r = Handler.statusCode response
    /\ Handler.body r = Handler.body response
    /\ Handler.isBase64Encoded r = Handler.isBase64Encoded response
    /\ (name ∉ [js "__proto__"; js "path"; js "expires"] ->
        forall g,
          outcome (verifyCookieFromEvent node (Sample.request [header])) g
          = match getSecretKey node with
            | Ok _ => Ok false
            | Throw e => Throw e
            end).
Proof.
  intros Hname. unfold Handler.rmCookie. rewrite Hname.
  eexists _, _. split; [reflexivity|]. split; [reflexivity|].
  split; [|split; [|split; [|split; [|split; [|split]]]]]; try reflexivity.
  - unfold set_cookies.
    change (default ∅ (Handler.multiValueHeaders ?x) !! ?k) with (multi_header x k).
    rewrite multi_header_push, multi_header_with_set_cookie.
    rewrite bool_decide_eq_true_2 by reflexivity. reflexivity.
  - intros k Hk.
    rewrite multi_header_push, bool_decide_eq_false_2 by exact Hk.
    rewrite multi_header_with_set_cookie, bool_decide_eq_false_2 by exact Hk.
    reflexivity.
  - intros Hres g.
    pose proof (getCookieName_ok node name Hname) as [_ Hall].
    apply name_chars_plain in Hall as (H1 & H2 & H3).
    rewrite (verifyCookieFromEvent_binds node _ name (js "deleted"));
      [| apply binds_deleted; assumption | exact Hname | discriminate].
    destruct (getSecretKey node) as [key|e] eqn:Hkey.
    + rewrite (verifySessionString_outcome node key) by exact Hkey.
      f_equal. apply bool_decide_eq_false_2. intros Heq.
      apply (f_equal (@length u16)) in Heq. rewrite sign_default_length in Heq.
      discriminate.
    + unfold outcome, verifySessionString. rewrite Hkey. reflexivity.
Qed.


(** ** The cookie of a payload does not depend on how it is written *)

Lemma proper_array (items : list json) :
  proper (JArray items) <-> Forall proper items.
Proof.
  change (proper (JArray items))
    with ((fix all (l : list json) : Prop :=
             match l with
             | [] => True
             | x :: l' => proper x /\ all l'
             end) items).
  induction items as [|x items IH].
  - split; [constructor | trivial].
  - split.
    + intros [Hx H]. constructor; [exact Hx | apply IH, H].
    + intros H. apply Forall_cons_1 in H as [Hx H]. split; [exact Hx | apply IH, H].
Qed.

Lemma proper_object (props : list (jsstring * json)) :
  proper (JObject props)
  <-> NoDup (map fst props) /\ Forall (fun kv => proper (snd kv)) props.
Proof.
  change (proper (JObject props))
    with (NoDup (map fst props)
          /\ (fix all (l : list (jsstring * json)) : Prop :=
                match l with
                | [] => True
                | kv :: l' => proper (snd kv) /\ all l'
                end) props).
  apply and_iff_compat_l. induction props as [|x props IH].
  - split; [constructor | trivial].
  - split.
    + intros [Hx H]. constructor; [exact Hx | apply IH, H].
    + intros H. apply Forall_cons_1 in H as [Hx H]. split; [exact Hx | apply IH, H].
Qed.

Lemma str_ltb_total (a b : jsstring) :
  str_ltb a b = false -> str_ltb b a = false -> a = b.
Proof.
  revert b. induction a as [|c a IH]; intros [|d b]; cbn [str_ltb];
    try discriminate; [reflexivity|].
  intros H1 H2.
  apply orb_false_iff in H1 as [H1 H1']. apply orb_false_iff in H2 as [H2 H2'].
  apply Z.ltb_ge in H1, H2.
  assert (code c = code d) as Hcd by lia.
  rewrite Hcd, Z.eqb_refl in H1', H2'. cbn [andb] in H1', H2'.
  rewrite (code_inj c d Hcd), (IH b H1' H2'). reflexivity.
Qed.

Lemma pow10_cancel (m1 m2 a b : Z) :
  m1 mod 10 <> 0 -> m2 mod 10 <> 0 -> 0 <= a -> 0 <= b ->
  m1 * 10 ^ a = m2 * 10 ^ b -> a = b /\ m1 = m2.
Proof.
  assert (forall m1 m2 a b, m2 mod 10 <> 0 -> 0 <= a -> a < b ->
            m1 * 10 ^ a = m2 * 10 ^ b -> m1 mod 10 = 0) as Hlt.
  { clear. intros m1 m2 a b H2 Ha Hab H.
    replace b with (a + Z.succ (b - a - 1)) in H by lia.
    rewrite Z.pow_add_r, Z.pow_succ_r in H by lia.
    assert (0 < 10 ^ a) as Hpos by (apply Z.pow_pos_nonneg; lia).
    assert (m1 = 10 * (m2 * 10 ^ (b - a - 1))) as -> by nia.
    rewrite Z.mul_comm. apply Z.mod_mul. lia. }
  intros H1 H2 Ha Hb H.
  destruct (Z.lt_trichotomy a b) as [Hab|[->|Hab]].
  - exfalso. apply H1. exact (Hlt m1 m2 a b H2 Ha Hab H).
  - split; [reflexivity|].
    assert (0 < 10 ^ b) as Hpos by (apply Z.pow_pos_nonneg; lia). nia.
  - exfalso. apply H2. symmetry in H. exact (Hlt m2 m1 b a H1 Hb Hab H).
Qed.

Lemma normal_form (m e : Z) :
  exists m1 e1,
    normalize (Z.to_nat (Z.log2 (Z.abs m)) + 1) m e = (m1, e1)
    /\ ((m1 = 0 /\ e1 = 0 /\ m = 0)
        \/ (m1 mod 10 <> 0 /\ e <= e1 /\ m = m1 * 10 ^ (e1 - e) /\ m <> 0)).
Proof.
  destruct (normalize_spec (Z.to_nat (Z.log2 (Z.abs m)) + 1) m e) as (m1 & e1 & Heq & H).
  - rewrite Nat2Z.inj_add, Z2Nat.id by apply Z.log2_nonneg.
    destruct (Z.eq_dec m 0) as [->|Hnz]; [reflexivity|].
    pose proof (Z.log2_spec (Z.abs m) ltac:(lia)) as [_ Hup].
    change (Z.of_nat 1) with 1.
    replace (Z.succ (Z.log2 (Z.abs m))) with (Z.log2 (Z.abs m) + 1) in Hup by lia.
    exact Hup.
  - lia.
  - exists m1, e1. split; [exact Heq|].
    destruct H as [H0 | (Hm1 & Hmod & Hm)]; [left; exact H0|]. right.
    apply normalize_value in Heq as [[H0 _] | [Hle Hval]]; [contradiction|].
    repeat split; assumption.
Qed.

Lemma number_to_string_same (m e m' e' : Z) :
  same_number m e m' e' -> number_to_string m e = number_to_string m' e'.
Proof.
  unfold same_number, number_to_string. intros H.
  destruct (normal_form m e) as (m1 & e1 & -> & H1).
  destruct (normal_form m' e') as (m2 & e2 & -> & H2).
  set (mn := Z.min e e') in *.
  assert (0 < 10 ^ (e - mn)) as Hp1 by (apply Z.pow_pos_nonneg; lia).
  assert (0 < 10 ^ (e' - mn)) as Hp2 by (apply Z.pow_pos_nonneg; lia).
  assert (m1 = m2 /\ e1 = e2) as [<- <-]; [|reflexivity].
  destruct H1 as [(-> & -> & ->) | (Hmod1 & Hle1 & Hm1 & Hnz1)];
    destruct H2 as [(-> & -> & ->) | (Hmod2 & Hle2 & Hm2 & Hnz2)].
  - split; reflexivity.
  - exfalso. nia.
  - exfalso. nia.
  - rewrite Hm1, Hm2 in H.
    rewrite <- !Z.mul_assoc, <- !Z.pow_add_r in H by lia.
    apply pow10_cancel in H as [Hexp ->]; [split; [reflexivity | lia] | assumption.. | lia | lia].
Qed.

(** *** Sorted properties *)

Lemma keys_retag {A B} (f : A -> B) (l : list (jsstring * A)) :
  map fst (map (fun kv => (fst kv, f (snd kv))) l) = map fst l.
Proof. induction l as [|x l IH]; [reflexivity|]. cbn [map fst]. rewrite IH. reflexivity. Qed.

Section Keys.
Context {A : Type}.
Implicit Types (l : list (jsstring * A)) (kv : jsstring * A) (k : jsstring).

Lemma keys_insert_sorted k kv l :
  k ∈ map fst (insert_sorted kv l) <-> k = fst kv \/ k ∈ map fst l.
Proof.
  induction l as [|x l IH]; cbn [insert_sorted map].
  - rewrite elem_of_cons. reflexivity.
  - destruct (str_ltb (fst kv) (fst x)); cbn [map]; rewrite !elem_of_cons; [reflexivity|].
    rewrite IH. tauto.
Qed.

Lemma NoDup_insert_sorted kv l :
  NoDup (map fst l) -> fst kv ∉ map fst l -> NoDup (map fst (insert_sorted kv l)).
Proof.
  induction l as [|x l IH]; cbn [insert_sorted map]; intros Hl Hkv.
  - apply list.NoDup_cons. split; [exact Hkv | constructor].
  - apply list.NoDup_cons in Hl as [Hx Hl]. apply not_elem_of_cons in Hkv as [Hne Hkv].
    destruct (str_ltb (fst kv) (fst x)); cbn [map].
    + apply list.NoDup_cons. split.
      * apply not_elem_of_cons. split; assumption.
      * apply list.NoDup_cons. split; assumption.
    + apply list.NoDup_cons. split; [|exact (IH Hl Hkv)].
      rewrite keys_insert_sorted. intros [Heq|Hin]; [congruence | contradiction].
Qed.

Lemma keys_sort_props k l : k ∈ map fst (sort_props l) <-> k ∈ map fst l.
Proof.
  induction l as [|x l IH]; [reflexivity|].
  cbn [sort_props fold_right map]. fold (sort_props l).
  rewrite keys_insert_sorted, elem_of_cons, IH. reflexivity.
Qed.

Lemma NoDup_sort_props l : NoDup (map fst l) -> NoDup (map fst (sort_props l)).
Proof.
  induction l as [|x l IH]; [trivial|].
  cbn [sort_props fold_right map]. fold (sort_props l). intros H.
  apply list.NoDup_cons in H as [Hx Hl].
  apply NoDup_insert_sorted; [exact (IH Hl)|]. rewrite keys_sort_props. exact Hx.
Qed.

Lemma get_prop_None k l : get_prop k l = None <-> k ∉ map fst l.
Proof.
  induction l as [|[k' v] l IH]; cbn [get_prop map fst].
  - split; [intros _; apply not_elem_of_nil | reflexivity].
  - rewrite not_elem_of_cons. destruct (bool_decide_reflect (k' = k)) as [->|Hne].
    + split; [discriminate | intros [H _]; contradiction].
    + rewrite IH. split; [intros H; split; [congruence | exact H] | intros [_ H]; exact H].
Qed.

Lemma last_prop_NoDup k l : NoDup (map fst l) -> last_prop k l = get_prop k l.
Proof.
  induction l as [|[k' v] l IH]; [reflexivity|].
  cbn [map fst last_prop get_prop]. intros H. apply list.NoDup_cons in H as [Hk Hl].
  rewrite (IH Hl). destruct (bool_decide_reflect (k' = k)) as [->|Hne].
  - apply get_prop_None in Hk. rewrite Hk. reflexivity.
  - destruct (get_prop k l); reflexivity.
Qed.

Lemma get_prop_sort_props k l :
  NoDup (map fst l) -> get_prop k (sort_props l) = get_prop k l.
Proof.
  intros H. rewrite <- (last_prop_NoDup k (sort_props l)) by apply NoDup_sort_props, H.
  apply last_prop_sort_props.
Qed.

Lemma sorted_unique l l' :
  sorted_keys l -> sorted_keys l' ->
  NoDup (map fst l) -> NoDup (map fst l') ->
  (forall k, get_prop k l = get_prop k l') -> l = l'.
Proof.
  revert l'. induction l as [|[k1 v1] l IH]; intros [|[k2 v2] l'] Hs Hs' Hn Hn' Hget.
  - reflexivity.
  - specialize (Hget k2). cbn [get_prop] in Hget.
    rewrite bool_decide_eq_true_2 in Hget by reflexivity. discriminate.
  - specialize (Hget k1). cbn [get_prop] in Hget.
    rewrite bool_decide_eq_true_2 in Hget by reflexivity. discriminate.
  - cbn [sorted_keys] in Hs, Hs'. destruct Hs as [Hx Hs]. destruct Hs' as [Hx' Hs'].
    cbn [map fst] in Hn, Hn'.
    apply list.NoDup_cons in Hn as [Hk1 Hn]. apply list.NoDup_cons in Hn' as [Hk2 Hn'].
    assert (k1 = k2) as <-.
    { destruct (decide (k1 = k2)) as [Heq|Hne]; [exact Heq|]. exfalso.
      pose proof (Hget k1) as G1. pose proof (Hget k2) as G2.
      cbn [get_prop] in G1, G2.
      rewrite bool_decide_eq_true_2 in G1 by reflexivity.
      rewrite (bool_decide_eq_false_2 (k2 = k1)) in G1 by congruence.
      rewrite (bool_decide_eq_false_2 (k1 = k2)) in G2 by congruence.
      rewrite bool_decide_eq_true_2 in G2 by reflexivity.
      symmetry in G1. apply get_prop_In in G1. apply get_prop_In in G2.
      rewrite List.Forall_forall in Hx, Hx'.
      pose proof (Hx' _ G1) as L1. pose proof (Hx _ G2) as L2.
      unfold key_le in L1, L2. cbn [fst] in L1, L2.
      apply Hne. exact (str_ltb_total k1 k2 L1 L2). }
    assert (v1 = v2) as <-.
    { specialize (Hget k1). cbn [get_prop] in Hget.
      rewrite bool_decide_eq_true_2 in Hget by reflexivity. congruence. }
    f_equal. apply IH; try assumption. intros k.
    destruct (decide (k1 = k)) as [<-|Hne].
    + apply get_prop_None in Hk1, Hk2. congruence.
    + specialize (Hget k). cbn [get_prop] in Hget.
      rewrite bool_decide_eq_false_2 in Hget by exact Hne. exact Hget.
Qed.

End Keys.

Lemma serialize_deep_equal (v : json) :
  forall v', deep_equal v v' -> proper v -> proper v' -> serialize v = serialize v'.
Proof.
  induction v as [| b | m e | s | items IH | props IH] using json_induction;
    intros v' Heq Hv Hv'; inversion Heq; subst; try reflexivity.
  - cbn [serialize]. apply number_to_string_same. assumption.
  - cbn [serialize]. f_equal. f_equal. f_equal.
    apply proper_array in Hv, Hv'.
    match goal with H : Forall2 deep_equal items ?ys |- _ =>
      revert Hv Hv' IH; induction H as [|x y xs ys' Hxy Hrest IHrest];
        intros Hv Hv' IH; [reflexivity|]
    end.
    apply Forall_cons_1 in Hv as [Hx Hv]. apply Forall_cons_1 in Hv' as [Hy Hv'].
    apply Forall_cons_1 in IH as [IHx IH]. cbn [map]. f_equal.
    + exact (IHx y Hxy Hx Hy).
    + apply IHrest; try assumption. inversion Heq; subst. constructor. assumption.
  - cbn [serialize]. f_equal. f_equal. f_equal. f_equal.
    apply proper_object in Hv as [Hn Hv]. apply proper_object in Hv' as [Hn' Hv'].
    match goal with H : forall k, option_Forall2 deep_equal _ _ |- _ => rename H into Hget end.
    apply sorted_unique.
    + apply sort_props_sorted.
    + apply sort_props_sorted.
    + apply NoDup_sort_props. rewrite keys_retag. exact Hn.
    + apply NoDup_sort_props. rewrite keys_retag. exact Hn'.
    + intros k. rewrite !get_prop_sort_props by (rewrite keys_retag; assumption).
      rewrite !get_prop_retag. specialize (Hget k).
      destruct (get_prop k props) as [x|] eqn:Hx; inversion Hget as [x' y Hxy Hx' Hy|]; subst.
      * cbn [option_map]. f_equal.
        symmetry in Hy. apply get_prop_In in Hx, Hy.
        rewrite List.Forall_forall in IH, Hv, Hv'.
        exact (IH _ Hx y Hxy (Hv _ Hx) (Hv' _ Hy)).
      * reflexivity.
Qed.

Lemma get_prop_of_In {A} (k : jsstring) (v : A) (l : list (jsstring * A)) :
  NoDup (map fst l) -> In (k, v) l -> get_prop k l = Some v.
Proof.
  induction l as [|[k' v'] l IH]; [intros _ []|].
  cbn [map fst get_prop]. intros H Hin. apply list.NoDup_cons in H as [Hk Hl].
  destruct Hin as [Heq|Hin].
  - injection Heq as -> ->. rewrite bool_decide_eq_true_2 by reflexivity. reflexivity.
  - destruct (bool_decide_reflect (k' = k)) as [->|Hne]; [|exact (IH Hl Hin)].
    exfalso. apply Hk, list_elem_of_In, in_map_iff. exists (k, v). split; [reflexivity|exact Hin].
Qed.

(** Deep-equal values have the same strings and the same keys, so
    [json-canon] refuses both or neither. *)
Lemma strings_deep_equal (v : json) :
  forall v', deep_equal v v' -> proper v -> proper v' ->
             strings_well_formed v = strings_well_formed v'.
Proof.
  induction v as [| b | m e | s | items IH | props IH] using json_induction;
    intros v' Heq Hv Hv'; inversion Heq; subst; try reflexivity.
  - cbn [strings_well_formed].
    apply proper_array in Hv, Hv'.
    match goal with H : Forall2 deep_equal items ?ys |- _ =>
      revert Hv Hv' IH; clear Heq; induction H as [|x y xs ys' Hxy Hrest IHrest];
        intros Hv Hv' IH; [reflexivity|]
    end.
    apply Forall_cons_1 in Hv as [Hx Hv]. apply Forall_cons_1 in Hv' as [Hy Hv'].
    apply Forall_cons_1 in IH as [IHx IH]. cbn [forallb]. f_equal.
    + exact (IHx y Hxy Hx Hy).
    + apply IHrest; assumption.
  - cbn [strings_well_formed].
    apply proper_object in Hv as [Hn Hv]. apply proper_object in Hv' as [Hn' Hv'].
    match goal with H : forall k, option_Forall2 deep_equal _ _ |- _ => rename H into Hget end.
    rewrite List.Forall_forall in IH, Hv, Hv'.
    apply eq_true_iff_eq. rewrite !forallb_forall. split; intros H [k y] Hin.
    + pose proof (get_prop_of_In k y _ Hn' Hin) as Hy. specialize (Hget k).
      rewrite Hy in Hget.
      destruct (get_prop k props) as [x|] eqn:Hx; [|inversion Hget].
      assert (deep_equal x y) as Hxy by (inversion Hget; assumption).
      apply get_prop_In in Hx. specialize (H _ Hx). cbn [fst snd] in *.
      pose proof (IH _ Hx y Hxy (Hv _ Hx) (Hv' _ Hin)) as E. cbn [snd] in E.
      rewrite <- E. exact H.
    + pose proof (get_prop_of_In k y _ Hn Hin) as Hx. specialize (Hget k).
      rewrite Hx in Hget.
      destruct (get_prop k qs) as [y'|] eqn:Hy'; [|inversion Hget].
      assert (deep_equal y y') as Hxy by (inversion Hget; assumption).
      apply get_prop_In in Hy'. specialize (H _ Hy'). cbn [fst snd] in *.
      pose proof (IH _ Hin y' Hxy (Hv _ Hin) (Hv' _ Hy')) as E. cbn [snd] in E.
      rewrite E. exact H.
Qed.

(** X21. Two payloads that are deep-equal, each a JavaScript value (no
    object with two properties of the same name), have the same
    canonical JSON, whatever the order in which their properties were
    set, and [stringify] returns it for both or throws for both; so
    [createCookie] makes the same cookie value, signature included, for
    both, or throws alike. *)
Theorem createCookie_canonical (node : process) (P P' : json)
    (secretKey : option jsstring) :
  deep_equal P P' -> proper P -> proper P' ->
  serialize P = serialize P'
  /\ stringify P = stringify P'
  /\ createCookie node P secretKey = createCookie node P' secretKey.
Proof.
  intros Heq HP HP'. pose proof (serialize_deep_equal P P' Heq HP HP') as H.
  assert (stringify P = stringify P') as Hcanon.
  { unfold stringify. rewrite H, (strings_deep_equal P P' Heq HP HP'). reflexivity. }
  split; [exact H|]. split; [exact Hcanon|].
  unfold createCookie. rewrite Hcanon. reflexivity.
Qed.


(** ** Rejections *)

Lemma verify_outcome (node : process) (key : jsstring) (d : data) (signature : jsstring)
    (g : rng) :
  outcome (verify node key d signature) g
  = Ok (bool_decide (signature = sign d key default_sign)).
Proof. unfold verify. apply timeSafeCompare_outcome. Qed.

(** X22. For every key, data and candidate signature [verify] returns a
    boolean and never throws: [true] exactly when the candidate is the
    signature that [sign] computes with its default options. It always
    compares with the sha1, base64 signature: what [sign] returns for
    the same data and key with another algorithm, or in hex, is
    refused. *)
Theorem verify_iff (node : process) (key : jsstring) (d : data) (signature : jsstring)
    (g : rng) :
  exists r,
    outcome (verify node key d signature) g = Ok r
    /\ (r = true <-> signature = sign d key default_sign)
    /\ (length signature <> SIGNATURE_DIGEST_LENGTH -> r = false)
    /\ (forall alg enc,
          (alg = Some Crypto.sha256_alg \/ alg = Some Crypto.sha512_alg
           \/ enc = Some hex) -> enc <> Some binary ->
          signature = sign d key {| algorithm := alg; encoding := enc |} ->
          r = false).
Proof.
  exists (bool_decide (signature = sign d key default_sign)).
  split; [apply verify_outcome|]. split; [apply bool_decide_eq_true|].
  assert (length signature <> SIGNATURE_DIGEST_LENGTH ->
          bool_decide (signature = sign d key default_sign) = false) as Hlen.
  { intros Hlen. apply bool_decide_eq_false_2. intros ->.
    apply Hlen, sign_default_length. }
  split; [exact Hlen|].
  intros alg enc Hother Hbin ->. apply Hlen.
  assert (length (sign d key {| algorithm := alg; encoding := enc |})
          = match default base64 enc, default Crypto.sha1_alg alg with
            | hex, Crypto.sha1_alg => 40
            | hex, Crypto.sha256_alg => 64
            | hex, Crypto.sha512_alg => 128
            | _, Crypto.sha1_alg => SIGNATURE_DIGEST_LENGTH
            | _, Crypto.sha256_alg => 43
            | _, Crypto.sha512_alg => 86
            end%nat) as ->.
  { apply sign_length_table. exact Hbin. }
  destruct Hother as [-> | [-> | ->]].
  - destruct enc as [[| | |]|]; cbn; try discriminate; contradiction.
  - destruct enc as [[| | |]|]; cbn; try discriminate; contradiction.
  - destruct alg as [[| |]|]; cbn; discriminate.
Qed.

Lemma parseCookie_one (h : jsstring) (m : gmap jsstring cookie_value) :
  parse_header decode h = Ok m -> parseCookie [h] None = Ok m.
Proof.
  intros Hm. unfold parseCookie. cbn [default map_result]. rewrite Hm.
  cbn [bind fold_left]. rewrite (right_id ∅ (∪) m). reflexivity.
Qed.

(** X23. [verifyCookieFromEvent] answers without reading the secret key
    in three cases, whatever the environment holds as a key: a request
    without cookie headers, and one whose session cookie has an empty
    value, get [false]; a request whose session cookie has no equals
    sign at all, and so parses to [true], makes it throw a [TypeError]
    instead of returning [false]. *)
Theorem verifyCookieFromEvent_edges (node : process) (name : jsstring) (g : rng) :
  getCookieName node = Ok name -> name <> js "__proto__" ->
  outcome (verifyCookieFromEvent node Sample.no_cookies) g = Ok false
  /\ outcome (verifyCookieFromEvent node (Sample.request [name ++ js "="])) g = Ok false
  /\ exists msg,
       outcome (verifyCookieFromEvent node (Sample.request [name])) g
       = Throw (TypeError msg).
Proof.
  intros Hname Hproto.
  pose proof (getCookieName_ok node name Hname) as [Hne Hall].
  apply name_chars_plain in Hall as (Hsemi & Heq & Hsp).
  split; [reflexivity|]. split.
  - unfold outcome, verifyCookieFromEvent. rewrite getCookiesFromEvent_request.
    assert (parse_header decode (name ++ js "=")
            = Ok (<[name := CString []]> ∅)) as Hm.
    { unfold parse_header.
      assert (includes (ch ";") (name ++ js "=") = false) as Hno.
      { unfold includes in *. rewrite existsb_app, Hsemi. reflexivity. }
      rewrite (split_plain _ _ Hno). cbn [map reduce].
      rewrite trim_id by (rewrite existsb_app, Hsp; reflexivity).
      change (name ++ js "=") with (name ++ ch "=" :: []).
      rewrite (split_first _ _ _ Heq). cbn [split].
      unfold parse_segment. rewrite tryDecode_ok. cbn [nth_error nth bind decode includes existsb or_true].
      unfold assign. rewrite bool_decide_eq_false_2 by exact Hproto. reflexivity. }
    rewrite (parseCookie_one _ _ Hm), Hname. unfold get.
    rewrite lookup_insert_eq. reflexivity.
  - unfold outcome, verifyCookieFromEvent. rewrite getCookiesFromEvent_request.
    assert (parse_header decode name = Ok (<[name := CTrue]> ∅)) as Hm.
    { unfold parse_header. rewrite (split_plain _ _ Hsemi). cbn [map reduce].
      rewrite (trim_id _ Hsp), (split_plain _ _ Heq).
      unfold parse_segment. rewrite tryDecode_ok. cbn [nth_error nth bind decode or_true].
      unfold assign. rewrite bool_decide_eq_false_2 by exact Hproto. reflexivity. }
    rewrite (parseCookie_one _ _ Hm), Hname. unfold get.
    rewrite lookup_insert_eq. eexists. reflexivity.
Qed.


(** * Worked examples *)

Ltac by_computation :=
  cbv zeta; repeat lazymatch goal with |- _ /\ _ => split end;
  vm_compute; reflexivity.

Module Examples.
Import Sample.

(** Test vectors of FIPS 180-4 for the message "abc", and the first
    round constants. *)
Example sha1_abc :
  to_text hex (Crypto.sha1 (list_byte_of_string "abc"))
  = js "a9993e364706816aba3e25717850c26c9cd0d89d".
Proof. vm_compute. reflexivity. Qed.

Example sha256_abc :
  to_text hex (Crypto.sha256 (list_byte_of_string "abc"))
  = js "ba7816bf8f01cfea414140de5dae2223b00361a396177a9cb410ff61f20015ad".
Proof. vm_compute. reflexivity. Qed.

Example sha512_abc :
  to_text hex (Crypto.sha512 (list_byte_of_string "abc"))
  = js "ddaf35a193617abacc417349ae20413112e6fa4e89a97ea20a9eeee64b55d39a2192992a274fc1a836ba3c23a3feebbd454d4423643ce80e2a9ac94fa54ca49f".
Proof. vm_compute. reflexivity. Qed.

Example sha256_first_constants :
  firstn 2 Crypto.sha256_K = [0x428a2f98; 0x71374491]
  /\ firstn 1 Crypto.sha512_H = [0x6a09e667f3bcc908].
Proof. by_computation. Qed.

(** HMAC test case 2 of RFC 2202 and RFC 4231. *)
Example hmac_what_do_ya_want :
  map (fun a => to_text hex
                  (Crypto.hmac a (list_byte_of_string "Jefe")
                     (list_byte_of_string "what do ya want for nothing?")))
    [Crypto.sha1_alg; Crypto.sha256_alg]
  = [js "effcdf6ae5eb2fa2d27416d5f184df9c259a7c79";
     js "5bdcc146bf60754e6a042426089575c75a003f089d2739839dec58b964ec3843"].
Proof. vm_compute. reflexivity. Qed.

(** [sign], [createCookie] and [serializeCookie] reproduce the cookie
    printed in the README, under the key of the test suite. *)
Example readme_createCookie : createCookie node readme_session None = Ok readme_cookie.
Proof. vm_compute. reflexivity. Qed.

Example readme_serializeCookie :
  serializeCookie (js "session") readme_cookie default_options = Ok readme_header.
Proof. vm_compute. reflexivity. Qed.

Example readme_parseCookie :
  map (cookie_of (parseCookie [readme_header] None))
    [js "session"; js "Max-Age"; js "Path"; js "HttpOnly"; js "Secure"; js "SameSite";
     js "Domain"]
  = map Ok
      [Some (CString readme_cookie); Some (CString (js "604800"));
       Some (CString (js "/")); Some CTrue; Some CTrue; Some (CString (js "Lax"));
       None].
Proof. vm_compute. reflexivity. Qed.

Example readme_verify :
  outcome (verifySessionString node readme_cookie) random = Ok true
  /\ outcome (verifyCookieFromEvent node (request [readme_header])) random = Ok true.
Proof. by_computation. Qed.

Example readme_parseSession : parseSession readme_cookie = Ok readme_session.
Proof. vm_compute. reflexivity. Qed.

(** What [JSON.parse] reads from a serialized value: the properties in
    the order of their keys, the number without its trailing zero. *)
Example canonical_sample :
  let v := JObject [(js "b", JNumber 150 (-2));
                    (js "a", JArray [JNull; JBool true; JString (js "x")])] in
  serialize v = jq "{'a':[null,true,'x'],'b':1.5}"
  /\ JSON_parse (serialize v)
     = Ok (JObject [(js "a", JArray [JNull; JBool true; JString (js "x")]);
                    (js "b", JNumber 15 (-1))])
  /\ canonical v
     = JObject [(js "a", JArray [JNull; JBool true; JString (js "x")]);
                (js "b", JNumber 15 (-1))].
Proof. by_computation. Qed.

(** Texts that [JSON.parse] refuses. *)
Example JSON_parse_refuses :
  map JSON_parse [[]; js "{"; js "01"; js "[1,]"; js "nul"; js "1 2"]
  = repeat (Throw SyntaxError) 6.
Proof. vm_compute. reflexivity. Qed.

(** The tests of [test/index.ts]. *)
Example test_sign_verify :
  let sig := sign (Str (js "hello")) SECRET_KEY default_sign in
  sig = js "WmJgsqYOsxSfWWUrlmqSgQLfAbc"
  /\ outcome (verify node SECRET_KEY (Str (js "hello")) sig) random = Ok true
  /\ outcome (verify node SECRET_KEY (Str (js "example")) sig) random = Ok false.
Proof. by_computation. Qed.

Example test_parse_nothing :
  exists m, parseCookie [] None = Ok m /\ size m = 0%nat.
Proof. exists ∅. split; reflexivity. Qed.

(** The properties listed in section 8 of the specification. *)
Example serialize_maxAge :
  serializeCookie (js "a") (js "b") (with_maxAge (Finite 60 0)) = Ok (js "a=b; Max-Age=60").
Proof. vm_compute. reflexivity. Qed.

Example serialize_sameSite_true :
  serializeCookie (js "a") (js "b") (with_sameSite (VBool true))
  = Ok (js "a=b; SameSite=Strict").
Proof. vm_compute. reflexivity. Qed.

Example serialize_sameSite_bogus :
  serializeCookie (js "a") (js "b") (with_sameSite (VString (js "bogus")))
  = Throw (TypeError (js "option sameSite is invalid")).
Proof. vm_compute. reflexivity. Qed.

Example serialize_sameSite_cases :
  map (fun v => serializeCookie (js "a") (js "b") (with_sameSite v))
    [VString (js "LAX"); VString (js "Strict"); VString (js "nOnE"); VBool false;
     VString []; VNumber (Finite 1 0); VObject; VUndefined]
  = [Ok (js "a=b; SameSite=Lax"); Ok (js "a=b; SameSite=Strict");
     Ok (js "a=b; SameSite=None"); Ok (js "a=b"); Ok (js "a=b");
     Throw (TypeError (js "option sameSite is invalid"));
     Throw (TypeError (js "option sameSite is invalid")); Ok (js "a=b")].
Proof. vm_compute. reflexivity. Qed.

Example secret_of_31_bytes :
  byteLength key31 = 31
  /\ getSecretKey node31
     = Throw (Error (jq "'SESSION_COOKIE_SECRET': The secret key must be at least 32 bytes long; (31 given).")).
Proof. by_computation. Qed.

Example secret_of_32_bytes : byteLength key32 = 32 /\ getSecretKey node32 = Ok key32.
Proof. by_computation. Qed.

(** Bytes are counted, not characters. *)
Example secret_of_16_characters :
  length key16 = 16%nat /\ byteLength key16 = 32 /\ getSecretKey node16 = Ok key16.
Proof. by_computation. Qed.

Example secret_absent :
  getSecretKey no_secret
  = Throw (Error (jq "'SESSION_COOKIE_SECRET': No secret key provided.")).
Proof. vm_compute. reflexivity. Qed.

Example parse_pairs :
  map (cookie_of (parseCookie [js "a=1; b=2"] None)) [js "a"; js "b"]
  = [Ok (Some (CString (js "1"))); Ok (Some (CString (js "2")))].
Proof. vm_compute. reflexivity. Qed.

Example parse_flag :
  cookie_of (parseCookie [js "flag"] None) (js "flag") = Ok (Some CTrue).
Proof. vm_compute. reflexivity. Qed.

(** Later headers and later segments overwrite earlier ones; a value
    that cannot be percent-decoded is kept as it is. *)
Example parse_lenient :
  map (cookie_of (parseCookie [js "a=1; b=%41"; js "a=%; c=%E0%A4%A; __proto__=x"] None))
    [js "a"; js "b"; js "c"; js "__proto__"]
  = [Ok (Some (CString (js "%"))); Ok (Some (CString (js "A")));
     Ok (Some (CString (js "%E0%A4%A"))); Ok None].
Proof. vm_compute. reflexivity. Qed.

(** Sign, serialize, parse the header back, verify and decode. *)
Example end_to_end :
  exists cookie header,
    createCookie node session_abc None = Ok cookie
    /\ serializeCookie (js "session") cookie default_options = Ok header
    /\ cookie_of (parseCookie [header] None) (js "session") = Ok (Some (CString cookie))
    /\ outcome (verifySessionString node cookie) random = Ok true
    /\ parseSession cookie
       = Ok (JSON.JObject [(js "identifier", JSON.JString (js "abc"));
                           (js "ts", JSON.JString (js "1"))]).
Proof.
  exists (js "wXT2a9YFiG2T1GWbAJxP1BQTupUeyJpZGVudGlmaWVyIjoiYWJjIiwidHMiOiIxIn0=").
  exists (js "session=wXT2a9YFiG2T1GWbAJxP1BQTupUeyJpZGVudGlmaWVyIjoiYWJjIiwidHMiOiIxIn0%3D; Max-Age=604800; Path=/; HttpOnly; Secure; SameSite=Lax").
  by_computation.
Qed.

(** [json-canon] refuses a lone surrogate, in a value or in a key, and
    [createCookie] throws with it, whatever the key. *)
Example lone_surrogate_refused :
  stringify Fixture.lone_surrogate = Throw CanonError
  /\ stringify (JSON.JObject [([unit 0xdc00], JSON.JNull)]) = Throw CanonError
  /\ createCookie node Fixture.lone_surrogate None = Throw CanonError
  /\ createCookie node Fixture.lone_surrogate (Some (js "short")) = Throw CanonError.
Proof. by_computation. Qed.

(** [parseInt] rounds to the nearest double, and a maximal age that it
    reads as [Infinity] makes [serializeCookie] throw. *)
Example parseInt_rounds :
  map Handler.parseInt
    [Some (js "604800"); Some (js " -12px"); Some (js "0x1F"); Some (js "abc"); None;
     Some (js "9007199254740993"); Some (js "100000000000000000000000");
     Some (js "1180591620717411303424"); Some (repeat (ch "9") 400)]
  = [Finite 604800 0; Finite (-12) 0; Finite 31 0; NaN; NaN;
     Finite 9007199254740992 0; Finite 1 23; Finite 11805916207174113 5;
     Infinity false].
Proof. vm_compute. reflexivity. Qed.

Example max_age_overflow :
  serializeCookie (js "session") readme_cookie
    (Handler.getCookieOptions Fixture.long_max_age)
  = Throw (TypeError (js "option maxAge is invalid")).
Proof. vm_compute. reflexivity. Qed.

End Examples.

(** * Instances *)

Lemma parseSession_createCookie_witness :
  stringify Sample.readme_session = Ok (serialize Sample.readme_session)
  /\ (exists key,
     substring_to SIGNATURE_DIGEST_LENGTH Sample.readme_cookie
     = sign (Str (serialize Sample.readme_session)) key default_sign)
  /\ payload_text Sample.readme_cookie = serialize Sample.readme_session
  /\ parseSession Sample.readme_cookie
     = JSON_parse (serialize Sample.readme_session)
  /\ parseSession Sample.readme_cookie = Ok (canonical Sample.readme_session)
  /\ deep_equal (canonical Sample.readme_session) Sample.readme_session.
Proof.
  apply (parseSession_createCookie Sample.node Sample.readme_session None).
  vm_compute. reflexivity.
Defined.

Lemma parseSession_throws_witness :
  payload_text (js "nYiMr6Ya_83iC-XN-nmxOEk6AE0") = []
  /\ parseSession (js "nYiMr6Ya_83iC-XN-nmxOEk6AE0") = Throw SyntaxError.
Proof.
  apply (parseSession_throws (js "nYiMr6Ya_83iC-XN-nmxOEk6AE0")).
  vm_compute. lia.
Defined.

Lemma serializeCookie_sameSite_witness :
  serializeCookie (js "a") (js "b") (Sample.with_sameSite (VBool true))
  = Ok (js "a=b" ++ js "; SameSite=Strict").
Proof.
  apply (serializeCookie_sameSite (js "a") (js "b")
           (Sample.with_sameSite (VBool true)) (js "a=b")).
  - vm_compute. reflexivity.
  - reflexivity.
Defined.




(** ** Instances of the further properties *)

Lemma fixture_setCookie :
  Handler.setCookie Sample.node Fixture.no_options Fixture.response Fixture.context
    Fixture.newData = Fixture.set.
Proof.
  unfold Handler.setCookie.
  change (Handler.getSession Fixture.context)
    with (@Ok (list (jsstring * json)) [], Handler.context_after Fixture.set).
  cbv iota beta.
  replace (getSecretKey Sample.node) with (Ok Sample.SECRET_KEY)
    by (vm_compute; reflexivity).
  cbn [bind].
  replace (createCookie Sample.node (JObject (Handler.spread [] Fixture.newData))
             (Some Sample.SECRET_KEY)) with (Ok Fixture.cookie)
    by (vm_compute; reflexivity).
  cbn [bind].
  replace (getCookieName Sample.node) with (Ok (js "session"))
    by (vm_compute; reflexivity).
  cbn [bind].
  replace (Handler.getCookieOptions Fixture.no_options) with Sample.default_options
    by (vm_compute; reflexivity).
  replace (serializeCookie (js "session") Fixture.cookie Sample.default_options)
    with (Ok Fixture.header) by (vm_compute; reflexivity).
  reflexivity.
Qed.

Lemma sign_length_witness :
  length (sign (Str (js "hello")) Sample.SECRET_KEY
            {| algorithm := Some Crypto.sha256_alg; encoding := None |}) = 43%nat.
Proof.
  apply (sign_length (Str (js "hello")) Sample.SECRET_KEY (Some Crypto.sha256_alg) None).
  discriminate.
Defined.

Lemma verifySessionString_iff_witness :
  exists r,
    outcome (verifySessionString Sample.node Sample.readme_cookie) Sample.random = Ok r
    /\ (r = true <->
        substring_to SIGNATURE_DIGEST_LENGTH Sample.readme_cookie
        = sign (Str (payload_text Sample.readme_cookie)) Sample.SECRET_KEY default_sign)
    /\ ((length Sample.readme_cookie < SIGNATURE_DIGEST_LENGTH)%nat -> r = false).
Proof.
  apply (verifySessionString_iff Sample.node Sample.SECRET_KEY Sample.readme_cookie
           Sample.random).
  vm_compute. reflexivity.
Defined.

Lemma verifySessionString_accepts_createCookie_witness :
  outcome (verifySessionString Sample.node Sample.readme_cookie) Sample.random = Ok true.
Proof.
  apply (verifySessionString_accepts_createCookie Sample.node Sample.readme_session).
  vm_compute. reflexivity.
Defined.

Lemma verifyCookieFromEvent_sound_witness :
  exists cookies cookieMap cookieName key value,
    getCookiesFromEvent (Sample.request [Sample.readme_header]) = Some cookies
    /\ parseCookie cookies None = Ok cookieMap
    /\ getCookieName Sample.node = Ok cookieName
    /\ cookieMap !! cookieName = Some (CString value)
    /\ getSecretKey Sample.node = Ok key
    /\ substring_to SIGNATURE_DIGEST_LENGTH value
       = sign (Str (payload_text value)) key default_sign.
Proof.
  apply (verifyCookieFromEvent_sound Sample.node (Sample.request [Sample.readme_header])
           Sample.random).
  vm_compute. reflexivity.
Defined.

Lemma serializeCookie_field_content_witness :
  fieldContentRegExp Sample.readme_header = true
  /\ includes (unit 0x0d) Sample.readme_header = false
  /\ includes (unit 0x0a) Sample.readme_header = false.
Proof.
  apply (serializeCookie_field_content (js "session") Sample.readme_cookie
           Sample.default_options).
  vm_compute. reflexivity.
Defined.

Lemma parseCookie_serializeCookie_witness :
  cookie_of (parseCookie [Sample.readme_header] None) (js "session")
  = Ok (Some (CString Sample.readme_cookie)).
Proof.
  apply (parseCookie_serializeCookie (js "session") Sample.readme_cookie
           Sample.default_options).
  - vm_compute. reflexivity.
  - reflexivity.
  - vm_compute. reflexivity.
  - intros s H. discriminate H.
  - intros s H. injection H as <-. reflexivity.
Defined.

Lemma setCookie_response_witness :
  Handler.response_after
    (Handler.setCookie Sample.node Fixture.no_options Fixture.response Fixture.context
       Fixture.newData) = Fixture.response_set
  /\ Handler.context_after
       (Handler.setCookie Sample.node Fixture.no_options Fixture.response
          Fixture.context Fixture.newData)
     = snd (Handler.getSession Fixture.context)
  /\ (exists header,
        set_cookies Fixture.response_set
        = set_cookies Fixture.response ++ single_set_cookie Fixture.response
            ++ [Handler.HString header])
  /\ single_set_cookie Fixture.response_set = []
  /\ (forall k, k <> Handler.Set_Cookie ->
        multi_header Fixture.response_set k = multi_header Fixture.response k
        /\ single_header Fixture.response_set k = single_header Fixture.response k)
  /\ Handler.statusCode Fixture.response_set = Handler.statusCode Fixture.response
  /\ Handler.body Fixture.response_set = Handler.body Fixture.response
  /\ Handler.isBase64Encoded Fixture.response_set
     = Handler.isBase64Encoded Fixture.response.
Proof.
  apply (setCookie_response Sample.node Fixture.no_options Fixture.response
           Fixture.context Fixture.newData Fixture.response_set).
  rewrite fixture_setCookie. reflexivity.
Defined.

Lemma setCookie_verifies_witness :
  exists header cookie session,
    set_cookies Fixture.response_set
    = set_cookies Fixture.response ++ single_set_cookie Fixture.response
        ++ [Handler.HString header]
    /\ fst (Handler.getSession Fixture.context) = Ok session
    /\ cookie_of (parseCookie [header] None) (js "session") = Ok (Some (CString cookie))
    /\ parseSession cookie
       = Ok (canonical (JObject (Handler.spread session Fixture.newData)))
    /\ forall g,
         outcome (verifySessionString Sample.node cookie) g = Ok true
         /\ outcome (verifyCookieFromEvent Sample.node (Sample.request [header])) g
            = Ok true.
Proof.
  apply (setCookie_verifies Sample.node Fixture.no_options Fixture.response
           Fixture.context Fixture.newData Fixture.response_set (js "session")).
  - rewrite fixture_setCookie. reflexivity.
  - vm_compute. reflexivity.
  - apply (bool_decide_unpack _). vm_compute. exact I.
  - intros s H. discriminate H.
  - intros s H. discriminate H.
Defined.

Lemma setCookie_without_key_witness :
  Handler.returned
    (Handler.setCookie Sample.node31 Fixture.no_options Fixture.response
       Fixture.context Fixture.newData)
  = Throw (Error (jq "'SESSION_COOKIE_SECRET': The secret key must be at least 32 bytes long; (31 given)."))
  /\ Handler.context_after
       (Handler.setCookie Sample.node31 Fixture.no_options Fixture.response
          Fixture.context Fixture.newData)
     = Handler.context_after Fixture.set
  /\ multi_header
       (Handler.response_after
          (Handler.setCookie Sample.node31 Fixture.no_options Fixture.response
             Fixture.context Fixture.newData)) Handler.Set_Cookie
     = Some (set_cookies Fixture.response ++ single_set_cookie Fixture.response)
  /\ single_set_cookie
       (Handler.response_after
          (Handler.setCookie Sample.node31 Fixture.no_options Fixture.response
             Fixture.context Fixture.newData)) = [].
Proof.
  apply (setCookie_without_key Sample.node31 Fixture.no_options Fixture.response
           Fixture.context Fixture.newData []).
  - vm_compute. reflexivity.
  - reflexivity.
Defined.

Lemma rmCookie_spec_witness :
  exists r header,
    Handler.rmCookie Sample.node Fixture.response = (Ok r, r)
    /\ header = js "session"
                  ++ js "=deleted; path=/; expires=Thu, 01 Jan 1970 00:00:00 GMT"
    /\ set_cookies r = set_cookies Fixture.response ++ [Handler.HString header]
    /\ (forall k, k <> Handler.Set_Cookie ->
          multi_header r k = multi_header Fixture.response k)
    /\ Handler.headers r = Handler.headers Fixture.response
    /\ Handler.statusCode r = Handler.statusCode Fixture.response
    /\ Handler.body r = Handler.body Fixture.response
    /\ Handler.isBase64Encoded r = Handler.isBase64Encoded Fixture.response
    /\ (js "session" ∉ [js "__proto__"; js "path"; js "expires"] ->
        forall g,
          outcome (verifyCookieFromEvent Sample.node (Sample.request [header])) g
          = match getSecretKey Sample.node with
            | Ok _ => Ok false
            | Throw e => Throw e
            end).
Proof.
  apply (rmCookie_spec Sample.node Fixture.response (js "session")).
  vm_compute. reflexivity.
Defined.

Lemma createCookie_canonical_witness :
  serialize (canonical Sample.session_abc) = serialize Sample.session_abc
  /\ stringify (canonical Sample.session_abc) = stringify Sample.session_abc
  /\ createCookie Sample.node (canonical Sample.session_abc) None
     = createCookie Sample.node Sample.session_abc None.
Proof.
  apply (createCookie_canonical Sample.node (canonical Sample.session_abc)
           Sample.session_abc None).
  - apply canonical_deep_equal.
  - split; [|repeat split]. apply (bool_decide_unpack _). vm_compute. exact I.
  - split; [|repeat split]. apply (bool_decide_unpack _). vm_compute. exact I.
Defined.

Lemma verifyCookieFromEvent_edges_witness :
  outcome (verifyCookieFromEvent Sample.node Sample.no_cookies) Sample.random = Ok false
  /\ outcome (verifyCookieFromEvent Sample.node
                (Sample.request [js "session" ++ js "="])) Sample.random = Ok false
  /\ exists msg,
       outcome (verifyCookieFromEvent Sample.node (Sample.request [js "session"]))
         Sample.random
       = Throw (TypeError msg).
Proof.
  apply (verifyCookieFromEvent_edges Sample.node (js "session") Sample.random).
  - vm_compute. reflexivity.
  - discriminate.
Defined.
